(** * A verified model of cpp-simple-vector

    [ArrayPtr<Type>] (array_ptr.h) owns at most one array obtained from
    [new Type[n]]; [SimpleVector<Type>] (simple_vector.h) keeps a logical
    size, a capacity and one [ArrayPtr] member.

    The embedding is a state-and-exception monad over a store holding
      - the arrays allocated with [new[]] and not yet [delete[]]d,
      - the [ArrayPtr] objects living in automatic storage (locals),
      - the [SimpleVector] objects alive.
    Objects are named by their address, so that [this != &other] is a
    comparison of names.  A parameter passed by reference is a value of
    type [arg]; it is read where the source builds the element from it, so
    that a reference into an array sees what the call has done to that
    array by then.  Undefined behaviour (out-of-bounds access, use of a
    dead object, a failed [assert]) is the outcome [Undef]. *)

From stdpp Require Import base numbers option list gmap fin_maps.

Local Open Scope N_scope.

(** ** Machine integers *)

(** [size_t] is a 64-bit unsigned integer; [std::ptrdiff_t] its signed
    companion.  No array object is larger than [PTRDIFF_MAX] bytes. *)
Definition SIZE_MAX : N := 2 ^ 64 - 1.
Definition PTRDIFF_MAX : N := 2 ^ 63 - 1.

(** Conversion of a mathematical integer to [size_t]. *)
Definition to_size_t (z : Z) : N := Z.to_N (z mod 2 ^ 64).

Definition size_add (a b : N) : N := to_size_t (Z.of_N a + Z.of_N b).
Definition size_sub (a b : N) : N := to_size_t (Z.of_N a - Z.of_N b).
Definition size_mul (a b : N) : N := to_size_t (Z.of_N a * Z.of_N b).

(** ** Pointers, objects and the store *)

(** A [Type*]: null, or the address of element [i] of the array at [l]
    ([i] may be one past the end). *)
Inductive ptr := nullptr | Ptr (l : positive) (i : N).

Global Instance ptr_eq_dec : EqDecision ptr.
Proof. solve_decision. Defined.

(** array_ptr.h:67 [Type* raw_ptr_ = nullptr;] *)
Record ArrayPtr := { raw_ptr_ : ptr }.

(** simple_vector.h:240-242 *)
Record SimpleVector := { size_ : N; capacity_ : N; items_ : ArrayPtr }.

(** The address of an [ArrayPtr] object: a local variable, or the member
    [items_] of the vector at address [v]. *)
Inductive aref := Local (o : positive) | Member (v : positive).

Global Instance aref_eq_dec : EqDecision aref.
Proof. solve_decision. Defined.

Record world (T : Type) := World {
  blocks : gmap positive (list T);
  locals : gmap positive ArrayPtr;
  vecs : gmap positive SimpleVector
}.
Arguments World {T} _ _ _.
Arguments blocks {T} _.
Arguments locals {T} _.
Arguments vecs {T} _.

Definition set_blocks {T} (b : gmap positive (list T)) (w : world T) : world T :=
  World b (locals w) (vecs w).
Definition set_locals {T} (l : gmap positive ArrayPtr) (w : world T) : world T :=
  World (blocks w) l (vecs w).
Definition set_vecs {T} (v : gmap positive SimpleVector) (w : world T) : world T :=
  World (blocks w) (locals w) v.

Definition empty_world {T} : world T := World ∅ ∅ ∅.

(** ** Outcomes and the monad *)

Inductive exn := bad_alloc | out_of_range.

Inductive outcome (W A : Type) :=
  | Ret (a : A) (w : W)
  | Throw (e : exn) (w : W)
  | Undef.
Arguments Ret {W A} _ _.
Arguments Throw {W A} _ _.
Arguments Undef {W A}.

Definition M (T A : Type) : Type := world T → outcome (world T) A.

Global Instance M_ret {T} : MRet (M T) := λ A a w, Ret a w.
Global Instance M_bind {T} : MBind (M T) := λ A B k m w,
  match m w with
  | Ret a w' => k a w'
  | Throw e w' => Throw e w'
  | Undef => Undef
  end.

Definition throw {T A} (e : exn) : M T A := λ w, Throw e w.
Definition undef {T A} : M T A := λ _, Undef.

(** ** What the template parameter and the platform provide *)

(** [Type()], the state [std::move] leaves its source in, and whatever a
    slot of a fresh [new Type[n]] holds (the default value for a class
    type, an indeterminate value for a scalar).  The operations of [Type]
    (construction, copy, move, assignment) are functions here: they complete
    and do not throw.  An element type whose operations throw is not
    covered. *)
Class Element (T : Type) := {
  default_value : T;
  moved_from : T → T;
  indeterminate : nat → T
}.

(** Whether the free store grants a request of [n] elements. *)
Class Allocator (T : Type) := { may_allocate : world T → N → bool }.

(** ** Arguments of a call *)

(** What a call binds a parameter [const Type&], [Type&&] or [Args&&...]
    to.  The callee receives a reference and reads it only where it builds
    the new element.
      - [Value x]: the object referred to is no slot of an array of the free
        store (a temporary, a variable of the caller, constructor arguments
        of other types); building the element from it gives [x];
      - [Copy p]: an lvalue naming the array slot at [p]; the element is
        copy-constructed from it;
      - [Move p]: [std::move] of the array slot at [p]; the element is
        move-constructed from it. *)
Inductive arg (T : Type) :=
  | Value (x : T)
  | Copy (p : ptr)
  | Move (p : ptr).
Arguments Value {T} _.
Arguments Copy {T} _.
Arguments Move {T} _.

Section Model.
Context {T : Type} `{!Element T} `{!Allocator T}.

(** ** The free store *)

(** [new Type[n]]: [std::bad_alloc] ([std::bad_array_new_length] derives
    from it) when the array would exceed the largest object size or the
    free store refuses; otherwise a fresh array of [n] slots. *)
Definition new_array (n : N) : M T ptr := λ w,
  if (n <=? PTRDIFF_MAX) && may_allocate w n then
    let l := fresh (dom (blocks w)) in
    Ret (Ptr l 0)
        (set_blocks (<[l := indeterminate <$> seq 0 (N.to_nat n)]> (blocks w)) w)
  else Throw bad_alloc w.

(** [delete[] p]: nothing for null; otherwise [p] must be what [new[]]
    returned and not yet deleted. *)
Definition delete_array (p : ptr) : M T unit := λ w,
  match p with
  | nullptr => Ret () w
  | Ptr l i =>
      match blocks w !! l with
      | Some _ => if i =? 0 then Ret () (set_blocks (delete l (blocks w)) w) else Undef
      | None => Undef
      end
  end.

(** [*p] as an rvalue. *)
Definition read (p : ptr) : M T T := λ w,
  match p with
  | nullptr => Undef
  | Ptr l i =>
      match blocks w !! l ≫= (.!! N.to_nat i) with
      | Some x => Ret x w
      | None => Undef
      end
  end.

(** [*p = x]. *)
Definition write (p : ptr) (x : T) : M T unit := λ w,
  match p with
  | nullptr => Undef
  | Ptr l i =>
      match blocks w !! l with
      | Some b =>
          if i <? N.of_nat (length b)
          then Ret () (set_blocks (<[l := <[N.to_nat i := x]> b]> (blocks w)) w)
          else Undef
      | None => Undef
      end
  end.

(** [p[n]] as an lvalue: the element must exist. *)
Definition subscript (p : ptr) (n : N) : M T ptr := λ w,
  match p with
  | nullptr => Undef
  | Ptr l i =>
      match blocks w !! l with
      | Some b => if i + n <? N.of_nat (length b) then Ret (Ptr l (i + n)) w else Undef
      | None => Undef
      end
  end.

(** [p + n]: defined within an array and one past its end; [nullptr + 0]
    is [nullptr]. *)
Definition ptr_add (p : ptr) (n : N) : M T ptr := λ w,
  match p with
  | nullptr => if n =? 0 then Ret nullptr w else Undef
  | Ptr l i =>
      match blocks w !! l with
      | Some b => if i + n <=? N.of_nat (length b) then Ret (Ptr l (i + n)) w else Undef
      | None => Undef
      end
  end.

(** [p - q] converted to [size_t]: defined for two pointers into (or one
    past) the same live array, and for two null pointers. *)
Definition ptr_diff (p q : ptr) : M T N := λ w,
  match p, q with
  | nullptr, nullptr => Ret 0 w
  | Ptr l i, Ptr l' j =>
      match blocks w !! l with
      | Some b =>
          if decide (l = l') then
            if (i <=? N.of_nat (length b)) && (j <=? N.of_nat (length b))
            then Ret (size_sub i j) w else Undef
          else Undef
      | None => Undef
      end
  | _, _ => Undef
  end.

(** ** Objects *)

Definition get_owner (r : aref) : M T ArrayPtr := λ w,
  match r with
  | Local o => match locals w !! o with Some a => Ret a w | None => Undef end
  | Member v => match vecs w !! v with Some s => Ret (items_ s) w | None => Undef end
  end.

Definition set_owner (r : aref) (a : ArrayPtr) : M T unit := λ w,
  match r with
  | Local o =>
      match locals w !! o with
      | Some _ => Ret () (set_locals (<[o := a]> (locals w)) w)
      | None => Undef
      end
  | Member v =>
      match vecs w !! v with
      | Some s =>
          Ret () (set_vecs (<[v := {| size_ := size_ s; capacity_ := capacity_ s;
                                      items_ := a |}]> (vecs w)) w)
      | None => Undef
      end
  end.

(** Automatic storage for a local [ArrayPtr] variable. *)
Definition alloc_local (a : ArrayPtr) : M T aref := λ w,
  let o := fresh (dom (locals w)) in
  Ret (Local o) (set_locals (<[o := a]> (locals w)) w).

(** A local [ArrayPtr] variable initialised by the constructor call [c]. *)
Definition local_owner (c : M T ArrayPtr) : M T aref := a ← c; alloc_local a.

(** The storage of a local goes away at the end of its scope. *)
Definition end_of_scope (r : aref) : M T unit := λ w,
  match r with
  | Local o => Ret () (set_locals (delete o (locals w)) w)
  | Member _ => Undef
  end.

Definition get_vec (this : positive) : M T SimpleVector := λ w,
  match vecs w !! this with Some s => Ret s w | None => Undef end.

Definition put_vec (this : positive) (s : SimpleVector) : M T unit := λ w,
  match vecs w !! this with
  | Some _ => Ret () (set_vecs (<[this := s]> (vecs w)) w)
  | None => Undef
  end.

(** Storage for a new vector object. *)
Definition alloc_vec (s : SimpleVector) : M T positive := λ w,
  let v := fresh (dom (vecs w)) in
  Ret v (set_vecs (<[v := s]> (vecs w)) w).

(** The storage of a vector object goes away when its lifetime ends. *)
Definition free_vec (this : positive) : M T unit := λ w,
  match vecs w !! this with
  | Some _ => Ret () (set_vecs (delete this (vecs w)) w)
  | None => Undef
  end.

Definition get_size (this : positive) : M T N := s ← get_vec this; mret (size_ s).
Definition get_capacity (this : positive) : M T N := s ← get_vec this; mret (capacity_ s).

Definition set_size (this : positive) (n : N) : M T unit :=
  s ← get_vec this;
  put_vec this {| size_ := n; capacity_ := capacity_ s; items_ := items_ s |}.

Definition set_capacity (this : positive) (n : N) : M T unit :=
  s ← get_vec this;
  put_vec this {| size_ := size_ s; capacity_ := n; items_ := items_ s |}.

(** ** Loops *)

(** [for (size_t i = a; i < b; ++i) body(i)] with [b] not changed by the
    body: [b - a] rounds when [a < b], none otherwise.  [i < b <= SIZE_MAX]
    inside the body, so [++i] does not wrap. *)
Fixpoint for_loop (n : nat) (i : N) (body : N → M T unit) : M T unit :=
  match n with
  | O => mret ()
  | S n' => body i;; for_loop n' (i + 1) body
  end.

Definition for_upto (a b : N) (body : N → M T unit) : M T unit :=
  for_loop (N.to_nat (b - a)) a body.

(** [for (size_t i = a; i > b; --i) body(i)]: [i > b >= 0] inside the body,
    so [--i] does not wrap. *)
Fixpoint for_loop_down (n : nat) (i : N) (body : N → M T unit) : M T unit :=
  match n with
  | O => mret ()
  | S n' => body i;; for_loop_down n' (i - 1) body
  end.

Definition for_downto (a b : N) (body : N → M T unit) : M T unit :=
  for_loop_down (N.to_nat (a - b)) a body.

End Model.

(** ** array_ptr.h *)

Module ArrayPtr.
Section Methods.
Context {T : Type} `{!Element T} `{!Allocator T}.

(** array_ptr.h:10 [ArrayPtr() = default;] *)
Definition ctor_default : M T ArrayPtr := mret {| raw_ptr_ := nullptr |}.

(** array_ptr.h:12-16 [explicit ArrayPtr(size_t size)] *)
Definition ctor_size (size : N) : M T ArrayPtr :=
  if negb (size =? 0) then
    p ← new_array size; mret {| raw_ptr_ := p |}
  else mret {| raw_ptr_ := nullptr |}.

(** array_ptr.h:18 [explicit ArrayPtr(Type* raw_ptr)] *)
Definition ctor_raw (raw_ptr : ptr) : M T ArrayPtr := mret {| raw_ptr_ := raw_ptr |}.

(** array_ptr.h:22-24 [ArrayPtr(ArrayPtr&& other)] *)
Definition ctor_move (other : aref) : M T ArrayPtr :=
  o ← get_owner other;
  set_owner other {| raw_ptr_ := nullptr |};;
  mret {| raw_ptr_ := raw_ptr_ o |}.

(** array_ptr.h:26-28 [~ArrayPtr()] *)
Definition dtor (this : aref) : M T unit :=
  a ← get_owner this; delete_array (raw_ptr_ a).

(** array_ptr.h:32-39 [operator=(ArrayPtr&& other)] *)
Definition assign_move (this other : aref) : M T unit :=
  if decide (this ≠ other) then
    a ← get_owner this;
    delete_array (raw_ptr_ a);;
    o ← get_owner other;
    set_owner this {| raw_ptr_ := raw_ptr_ o |};;
    set_owner other {| raw_ptr_ := nullptr |}
  else mret ().

(** array_ptr.h:41-45 [Release()] *)
Definition Release (this : aref) : M T ptr :=
  a ← get_owner this;
  set_owner this {| raw_ptr_ := nullptr |};;
  mret (raw_ptr_ a).

(** array_ptr.h:47-53 [operator[](size_t index)]: a reference to
    [raw_ptr_[index]] *)
Definition index (this : aref) (i : N) : M T ptr :=
  a ← get_owner this; subscript (raw_ptr_ a) i.

(** array_ptr.h:55-57 [explicit operator bool()] *)
Definition to_bool (this : aref) : M T bool :=
  a ← get_owner this; mret (bool_decide (raw_ptr_ a ≠ nullptr)).

(** array_ptr.h:59-61 [Get()] *)
Definition Get (this : aref) : M T ptr :=
  a ← get_owner this; mret (raw_ptr_ a).

(** array_ptr.h:63-65 [swap(ArrayPtr& other)] *)
Definition swap (this other : aref) : M T unit :=
  a ← get_owner this;
  b ← get_owner other;
  set_owner this {| raw_ptr_ := raw_ptr_ b |};;
  set_owner other {| raw_ptr_ := raw_ptr_ a |}.

(** A local [ArrayPtr] leaves its scope: destructor, then storage. *)
Definition destroy_local (r : aref) : M T unit := dtor r;; end_of_scope r.

End Methods.
End ArrayPtr.

(** ** simple_vector.h *)

(** simple_vector.h:9-16 *)
Record ReserveProxyObj := { capacity : N }.
Definition Reserve (capacity_to_reserve : N) : ReserveProxyObj :=
  {| capacity := capacity_to_reserve |}.

Module SimpleVector.
Section Methods.
Context {T : Type} `{!Element T} `{!Allocator T}.

(** [dst[di] = std::move(src[si])] on elements. *)
Definition assign_moved (dst : aref) (di : N) (src : aref) (si : N) : M T unit :=
  s ← ArrayPtr.index src si;
  d ← ArrayPtr.index dst di;
  x ← read s;
  write d x;;
  write s (moved_from x).

(** [items_[i] = x] for a value [x]. *)
Definition assign_item (this : positive) (i : N) (x : T) : M T unit :=
  p ← ArrayPtr.index (Member this) i; write p x.

(** simple_vector.h:24 [SimpleVector() noexcept = default;] *)
Definition ctor_default : M T positive :=
  items ← ArrayPtr.ctor_default;
  alloc_vec {| size_ := 0; capacity_ := 0; items_ := items |}.

(** simple_vector.h:26-28 [explicit SimpleVector(ReserveProxyObj proxy)] *)
Definition ctor_reserve (proxy : ReserveProxyObj) : M T positive :=
  p ← (if 0 <? capacity proxy then new_array (capacity proxy) else mret nullptr);
  items ← ArrayPtr.ctor_raw p;
  alloc_vec {| size_ := 0; capacity_ := capacity proxy; items_ := items |}.

(** simple_vector.h:30-34 [explicit SimpleVector(size_t size)] *)
Definition ctor_size (size : N) : M T positive :=
  items ← ArrayPtr.ctor_size size;
  this ← alloc_vec {| size_ := size; capacity_ := size; items_ := items |};
  for_upto 0 size (λ i, assign_item this i default_value);;
  mret this.

(** simple_vector.h:36-40 [SimpleVector(size_t size, const Type& value)] *)
Definition ctor_fill (size : N) (value : T) : M T positive :=
  items ← ArrayPtr.ctor_size size;
  this ← alloc_vec {| size_ := size; capacity_ := size; items_ := items |};
  for_upto 0 size (λ i, assign_item this i value);;
  mret this.

(** The range-for of simple_vector.h:44-47: [items_[i++] = item]. *)
Fixpoint assign_each (this : positive) (i : N) (init : list T) : M T unit :=
  match init with
  | [] => mret ()
  | item :: rest => assign_item this i item;; assign_each this (i + 1) rest
  end.

(** simple_vector.h:42-48 [SimpleVector(std::initializer_list<Type> init)] *)
Definition ctor_list (init : list T) : M T positive :=
  let n := N.of_nat (length init) in
  items ← ArrayPtr.ctor_size n;
  this ← alloc_vec {| size_ := n; capacity_ := n; items_ := items |};
  assign_each this 0 init;;
  mret this.

(** simple_vector.h:50-55 [SimpleVector(const SimpleVector& other)] *)
Definition ctor_copy (other : positive) : M T positive :=
  o ← get_vec other;
  items ← ArrayPtr.ctor_size (size_ o);
  this ← alloc_vec {| size_ := size_ o; capacity_ := size_ o; items_ := items |};
  for_upto 0 (size_ o) (λ i,
    src ← ArrayPtr.index (Member other) i;
    x ← read src;
    assign_item this i x);;
  mret this.

(** simple_vector.h:57-61 [SimpleVector(SimpleVector&& other) noexcept] *)
Definition ctor_move (other : positive) : M T positive :=
  o ← get_vec other;
  items ← ArrayPtr.ctor_move (Member other);
  this ← alloc_vec {| size_ := size_ o; capacity_ := capacity_ o; items_ := items |};
  set_size other 0;;
  set_capacity other 0;;
  mret this.

(** simple_vector.h:63 [~SimpleVector() = default;], then the storage. *)
Definition dtor (this : positive) : M T unit :=
  ArrayPtr.dtor (Member this);; free_vec this.

(** simple_vector.h:65-77 [Reserve(size_t new_capacity)] *)
Definition Reserve (this : positive) (new_capacity : N) : M T unit :=
  capacity ← get_capacity this;
  if new_capacity <=? capacity then mret ()
  else
    new_items ← local_owner (ArrayPtr.ctor_size new_capacity);
    size ← get_size this;
    for_upto 0 size (λ i, assign_moved new_items i (Member this) i);;
    ArrayPtr.swap (Member this) new_items;;
    set_capacity this new_capacity;;
    ArrayPtr.destroy_local new_items.

(** simple_vector.h:79-81 *)
Definition GetSize (this : positive) : M T N := get_size this.
Definition GetCapacity (this : positive) : M T N := get_capacity this.
Definition IsEmpty (this : positive) : M T bool :=
  size ← get_size this; mret (size =? 0).

(** simple_vector.h:83-91 [operator[](size_t index)]; a failed [assert]
    does not return. *)
Definition at_index (this : positive) (index : N) : M T ptr :=
  size ← get_size this;
  if index <? size then ArrayPtr.index (Member this) index else undef.

(** simple_vector.h:93-105 [At(size_t index)] *)
Definition At (this : positive) (index : N) : M T ptr :=
  size ← get_size this;
  if size <=? index then throw out_of_range
  else ArrayPtr.index (Member this) index.

(** simple_vector.h:107 [Clear()] *)
Definition Clear (this : positive) : M T unit := set_size this 0.

(** simple_vector.h:109-134 [Resize(size_t new_size)] *)
Definition Resize (this : positive) (new_size : N) : M T unit :=
  size ← get_size this;
  if new_size <=? size then set_size this new_size
  else
    capacity ← get_capacity this;
    if new_size <=? capacity then
      for_upto size new_size (λ i, assign_item this i default_value);;
      set_size this new_size
    else
      new_items ← local_owner (ArrayPtr.ctor_size new_size);
      for_upto 0 size (λ i, assign_moved new_items i (Member this) i);;
      for_upto size new_size (λ i,
        p ← ArrayPtr.index new_items i; write p default_value);;
      ArrayPtr.swap (Member this) new_items;;
      set_size this new_size;;
      set_capacity this new_size;;
      ArrayPtr.destroy_local new_items.

(** simple_vector.h:136-141 [begin()], [end()] (and their const forms) *)
Definition begin (this : positive) : M T ptr := ArrayPtr.Get (Member this).
Definition end_ (this : positive) : M T ptr :=
  p ← ArrayPtr.Get (Member this);
  size ← get_size this;
  ptr_add p size.

(** simple_vector.h:140-141 [cbegin()], [cend()] *)
Definition cbegin (this : positive) : M T ptr := ArrayPtr.Get (Member this).
Definition cend (this : positive) : M T ptr :=
  p ← ArrayPtr.Get (Member this);
  size ← get_size this;
  ptr_add p size.

(** simple_vector.h:233-237 [swap(SimpleVector& other)] *)
Definition swap (this other : positive) : M T unit :=
  ArrayPtr.swap (Member this) (Member other);;
  a ← get_vec this;
  b ← get_vec other;
  set_size this (size_ b);;
  set_size other (size_ a);;
  set_capacity this (capacity_ b);;
  set_capacity other (capacity_ a).

(** simple_vector.h:143-149 [operator=(const SimpleVector& rhs)] *)
Definition assign_copy (this rhs : positive) : M T unit :=
  if decide (this ≠ rhs) then
    temp ← ctor_copy rhs;
    swap this temp;;
    dtor temp
  else mret ().

(** simple_vector.h:151-160 [operator=(SimpleVector&& rhs)] *)
Definition assign_move (this rhs : positive) : M T unit :=
  if decide (this ≠ rhs) then
    ArrayPtr.assign_move (Member this) (Member rhs);;
    r ← get_vec rhs;
    set_size this (size_ r);;
    set_capacity this (capacity_ r);;
    set_size rhs 0;;
    set_capacity rhs 0
  else mret ().

(** [Type(std::forward<Args>(args)...)]: the value of the temporary built
    from the arguments, read at the moment the expression is evaluated.  A
    slot that is moved from is left in its moved-from state. *)
Definition construct (args : arg T) : M T T :=
  match args with
  | Value x => mret x
  | Copy p => read p
  | Move p => x ← read p; write p (moved_from x);; mret x
  end.

(** simple_vector.h:170-183 [EmplaceBack(Args&&... args)].  The arguments
    are read at line 181, after the block of lines 172-180 has ended and
    with it the lifetime of [new_items], which then holds the old array. *)
Definition EmplaceBack (this : positive) (args : arg T) : M T ptr :=
  size ← get_size this;
  capacity ← get_capacity this;
  (if capacity <=? size then
     let new_capacity := if capacity =? 0 then 1 else size_mul capacity 2 in
     new_items ← local_owner (ArrayPtr.ctor_size new_capacity);
     for_upto 0 size (λ i, assign_moved new_items i (Member this) i);;
     ArrayPtr.swap (Member this) new_items;;
     set_capacity this new_capacity;;
     ArrayPtr.destroy_local new_items
   else mret ());;
  x ← construct args;
  assign_item this size x;;
  r ← ArrayPtr.index (Member this) size;
  set_size this (size_add size 1);;
  mret r.

(** simple_vector.h:162-164 [PushBack(const Type& item)] for [Value] and
    [Copy], simple_vector.h:166-168 [PushBack(Type&& item)] for [Value] and
    [Move]: both forward the reference. *)
Definition PushBack (this : positive) (item : arg T) : M T unit :=
  EmplaceBack this item;; mret ().

(** simple_vector.h:193-216 [Emplace(ConstIterator pos, Args&&... args)].
    The arguments are read at line 202 once the elements before [pos] have
    been moved to the new array, or at line 212 once the elements from
    [pos] on have been shifted. *)
Definition Emplace (this : positive) (pos : ptr) (args : arg T) : M T ptr :=
  first ← begin this;
  offset ← ptr_diff pos first;
  size ← get_size this;
  capacity ← get_capacity this;
  (if capacity <=? size then
     let new_capacity := if capacity =? 0 then 1 else size_mul capacity 2 in
     new_items ← local_owner (ArrayPtr.ctor_size new_capacity);
     for_upto 0 offset (λ i, assign_moved new_items i (Member this) i);;
     (x ← construct args; p ← ArrayPtr.index new_items offset; write p x);;
     for_upto offset size (λ i, assign_moved new_items (i + 1) (Member this) i);;
     ArrayPtr.swap (Member this) new_items;;
     set_capacity this new_capacity;;
     ArrayPtr.destroy_local new_items
   else
     for_downto size offset (λ i,
       assign_moved (Member this) i (Member this) (i - 1));;
     (x ← construct args; assign_item this offset x));;
  set_size this (size_add size 1);;
  first' ← begin this;
  ptr_add first' offset.

(** simple_vector.h:185-187 [Insert(ConstIterator pos, const Type& value)]
    for [Value] and [Copy], simple_vector.h:189-191
    [Insert(ConstIterator pos, Type&& value)] for [Value] and [Move]. *)
Definition Insert (this : positive) (pos : ptr) (value : arg T) : M T ptr :=
  Emplace this pos value.

(** simple_vector.h:218-222 [PopBack()] *)
Definition PopBack (this : positive) : M T unit :=
  size ← get_size this;
  if 0 <? size then set_size this (size_sub size 1) else mret ().

(** simple_vector.h:224-231 [Erase(ConstIterator pos)] *)
Definition Erase (this : positive) (pos : ptr) : M T ptr :=
  first ← begin this;
  offset ← ptr_diff pos first;
  size ← get_size this;
  for_upto offset (size_sub size 1) (λ i,
    assign_moved (Member this) i (Member this) (i + 1));;
  set_size this (size_sub size 1);;
  first' ← begin this;
  ptr_add first' offset.

End Methods.
End SimpleVector.

(** ** Comparison operators (simple_vector.h:245-279) *)

(** What the comparison operators ask of [Type]: [a != b] and [a < b]. *)
Class Comparable (T : Type) := { elem_ne : T → T → bool; elem_lt : T → T → bool }.

Section Comparisons.
Context {T : Type} `{!Comparable T}.

(** The loop of [operator==] from index [i], with [n] rounds to go:
    [for (; i < lhs.GetSize(); ++i) if (lhs[i] != rhs[i]) return false;]
    and the [return true;] after it. *)
Fixpoint equal_from (n : nat) (i : N) (lhs rhs : positive) : M T bool :=
  match n with
  | O => mret true
  | S n' =>
      p ← SimpleVector.at_index lhs i;
      x ← read p;
      q ← SimpleVector.at_index rhs i;
      y ← read q;
      if elem_ne x y then mret false else equal_from n' (i + 1) lhs rhs
  end.

(** simple_vector.h:245-252 [operator==] *)
Definition operator_eq (lhs rhs : positive) : M T bool :=
  n ← SimpleVector.GetSize lhs;
  m ← SimpleVector.GetSize rhs;
  if negb (n =? m) then mret false
  else
    size ← SimpleVector.GetSize lhs;
    equal_from (N.to_nat (size - 0)) 0 lhs rhs.

(** simple_vector.h:254-257 [operator!=] *)
Definition operator_ne (lhs rhs : positive) : M T bool :=
  e ← operator_eq lhs rhs; mret (negb e).

(** The loop of [std::lexicographical_compare] as the standard gives it:
    [for (; first1 != last1 && first2 != last2; ++first1, ++first2) {
       if ( *first1 < *first2 ) return true;
       if ( *first2 < *first1 ) return false; }
     return first1 == last1 && first2 != last2;]
    [n] bounds the rounds; running out of rounds before [last1] means that
    [first1, last1) was no range. *)
Fixpoint lexicographical_compare_loop (n : nat) (first1 last1 first2 last2 : ptr)
    : M T bool :=
  if bool_decide (first1 ≠ last1) && bool_decide (first2 ≠ last2) then
    match n with
    | O => undef
    | S n' =>
        x ← read first1;
        y ← read first2;
        if elem_lt x y then mret true
        else if elem_lt y x then mret false
        else
          next1 ← ptr_add first1 1;
          next2 ← ptr_add first2 1;
          lexicographical_compare_loop n' next1 last1 next2 last2
    end
  else mret (bool_decide (first1 = last1) && bool_decide (first2 ≠ last2)).

(** [std::lexicographical_compare(first1, last1, first2, last2)]; the first
    range has [last1 - first1] elements. *)
Definition lexicographical_compare (first1 last1 first2 last2 : ptr) : M T bool :=
  n ← ptr_diff last1 first1;
  lexicographical_compare_loop (N.to_nat n) first1 last1 first2 last2.

(** simple_vector.h:259-264 [operator<] *)
Definition operator_lt (lhs rhs : positive) : M T bool :=
  first1 ← SimpleVector.begin lhs;
  last1 ← SimpleVector.end_ lhs;
  first2 ← SimpleVector.begin rhs;
  last2 ← SimpleVector.end_ rhs;
  lexicographical_compare first1 last1 first2 last2.

(** simple_vector.h:266-269 [operator<=] *)
Definition operator_le (lhs rhs : positive) : M T bool :=
  r ← operator_lt rhs lhs; mret (negb r).

(** simple_vector.h:271-274 [operator>] *)
Definition operator_gt (lhs rhs : positive) : M T bool := operator_lt rhs lhs.

(** simple_vector.h:276-279 [operator>=] *)
Definition operator_ge (lhs rhs : positive) : M T bool :=
  r ← operator_lt lhs rhs; mret (negb r).

End Comparisons.

(** * Client programs *)

Section Programs.
Context {T : Type} `{!Element T} `{!Allocator T}.
Implicit Types (w : world T) (B : gmap positive (list T)).
Implicit Types (L : gmap positive ArrayPtr) (V : gmap positive SimpleVector).

(** A call of a non-const member function that names one vector; the
    elements it passes are objects of the caller's own. *)
Inductive mutation :=
  | DoReserve (new_capacity : N)
  | DoClear
  | DoResize (new_size : N)
  | DoPushBack (item : T)
  | DoEmplaceBack (x : T)
  | DoInsert (pos : ptr) (value : T)
  | DoEmplace (pos : ptr) (x : T)
  | DoPopBack
  | DoErase (pos : ptr)
  | DoAssignIndex (index : N) (x : T)
  | DoAssignAt (index : N) (x : T).

(** [DoAssignIndex i x] is [v[i] = x;], [DoAssignAt i x] is [v.At(i) = x;]. *)
Definition mutate (this : positive) (m : mutation) : M T unit :=
  match m with
  | DoReserve n => SimpleVector.Reserve this n
  | DoClear => SimpleVector.Clear this
  | DoResize n => SimpleVector.Resize this n
  | DoPushBack item => SimpleVector.PushBack this (Value item)
  | DoEmplaceBack x => SimpleVector.EmplaceBack this (Value x);; mret ()
  | DoInsert pos value => SimpleVector.Insert this pos (Value value);; mret ()
  | DoEmplace pos x => SimpleVector.Emplace this pos (Value x);; mret ()
  | DoPopBack => SimpleVector.PopBack this
  | DoErase pos => SimpleVector.Erase this pos;; mret ()
  | DoAssignIndex i x => p ← SimpleVector.at_index this i; write p x
  | DoAssignAt i x => p ← SimpleVector.At this i; write p x
  end.

(** A call of a const member function; the elements are read through the
    reference returned. *)
Inductive query :=
  | AskSize | AskCapacity | AskIsEmpty | AskBegin | AskEnd
  | AskIndex (index : N) | AskAt (index : N).

Definition ask (this : positive) (q : query) : M T unit :=
  match q with
  | AskSize => SimpleVector.GetSize this;; mret ()
  | AskCapacity => SimpleVector.GetCapacity this;; mret ()
  | AskIsEmpty => SimpleVector.IsEmpty this;; mret ()
  | AskBegin => SimpleVector.begin this;; mret ()
  | AskEnd => SimpleVector.end_ this;; mret ()
  | AskIndex i => p ← SimpleVector.at_index this i; read p;; mret ()
  | AskAt i => p ← SimpleVector.At this i; read p;; mret ()
  end.

(** One statement of a client program. *)
Inductive op :=
  | NewDefault
  | NewReserve (proxy : ReserveProxyObj)
  | NewSized (size : N)
  | NewFilled (size : N) (value : T)
  | NewList (init : list T)
  | NewCopy (other : positive)
  | NewMove (other : positive)
  | Destroy (v : positive)
  | Mutate (v : positive) (m : mutation)
  | Ask (v : positive) (q : query)
  | Swap (v other : positive)
  | AssignCopy (v rhs : positive)
  | AssignMove (v rhs : positive).

(** A member function is called on an object within its lifetime. *)
Definition alive (v : positive) : M T unit := get_vec v;; mret ().

(** Running one statement; the new object of a constructor call gets the
    next free address. *)
Definition exec (o : op) : M T unit :=
  match o with
  | NewDefault => SimpleVector.ctor_default;; mret ()
  | NewReserve proxy => SimpleVector.ctor_reserve proxy;; mret ()
  | NewSized n => SimpleVector.ctor_size n;; mret ()
  | NewFilled n value => SimpleVector.ctor_fill n value;; mret ()
  | NewList init => SimpleVector.ctor_list init;; mret ()
  | NewCopy other => alive other;; SimpleVector.ctor_copy other;; mret ()
  | NewMove other => alive other;; SimpleVector.ctor_move other;; mret ()
  | Destroy v => alive v;; SimpleVector.dtor v
  | Mutate v m => alive v;; mutate v m
  | Ask v q => alive v;; ask v q
  | Swap v other => alive v;; alive other;; SimpleVector.swap v other
  | AssignCopy v rhs => alive v;; alive rhs;; SimpleVector.assign_copy v rhs
  | AssignMove v rhs => alive v;; alive rhs;; SimpleVector.assign_move v rhs
  end.

(** The states a client program can bring about; an exception may be caught
    and the program go on. *)
Inductive reachable : world T → Prop :=
  | reach_start : reachable empty_world
  | reach_return o w w' : reachable w → exec o w = Ret () w' → reachable w'
  | reach_throw o w e w' : reachable w → exec o w = Throw e w' → reachable w'.

(** [for (x : xs) v.PushBack(x);] for a sequence [xs] of the caller's own. *)
Fixpoint push_all (this : positive) (xs : list T) : M T unit :=
  match xs with
  | [] => mret ()
  | x :: rest => SimpleVector.PushBack this (Value x);; push_all this rest
  end.


(** [try { m; } catch (...) { }] *)
Definition attempt {A} (m : M T A) : M T unit := λ w,
  match m w with
  | Ret _ w' | Throw _ w' => Ret () w'
  | Undef => Undef
  end.

(** A sequence of calls on one vector, each exception caught. *)
Fixpoint mutate_all (this : positive) (ms : list mutation) : M T unit :=
  match ms with
  | [] => mret ()
  | m :: rest => attempt (mutate this m);; mutate_all this rest
  end.

End Programs.

(** * Specification vocabulary *)

Section Vocabulary.
Context {T : Type} `{!Element T} `{!Allocator T}.
Implicit Types (w : world T) (B : gmap positive (list T)).
Implicit Types (L : gmap positive ArrayPtr) (V : gmap positive SimpleVector).

(** The [ArrayPtr] object found at an address. *)
Definition owner_at L V (r : aref) : option ArrayPtr :=
  match r with
  | Local o => L !! o
  | Member v => items_ <$> V !! v
  end.

(** The contents of a fresh array of [n] slots. *)
Definition fresh_block (n : N) : list T := indeterminate <$> seq 0 (N.to_nat n).

(** The free store grants [n] slots in [w]. *)
Definition grants w (n : N) : bool := (n <=? PTRDIFF_MAX) && may_allocate w n.

(** What [delete[] p] leaves of the free store. *)
Definition release (p : ptr) B : gmap positive (list T) :=
  match p with Ptr l _ => delete l B | nullptr => B end.

(** [p] is null or the address [new[]] returned for a live array. *)
Definition deletable B (p : ptr) : Prop :=
  match p with Ptr l i => i = 0 ∧ is_Some (B !! l) | nullptr => True end.

(** The representation invariant of one vector: the size is within the
    capacity, the capacity within what [new[]] can give, and [items_] owns a
    live array of [capacity_] slots (no array when the capacity is 0). *)
Definition wf_vec w (s : SimpleVector) : Prop :=
  size_ s ≤ capacity_ s ∧ capacity_ s ≤ PTRDIFF_MAX ∧
  match raw_ptr_ (items_ s) with
  | nullptr => capacity_ s = 0
  | Ptr l i => i = 0 ∧ ∃ b, blocks w !! l = Some b ∧ N.of_nat (length b) = capacity_ s
  end.

(** No local is alive between two calls, every vector is well formed, and no
    array has two owners. *)
Definition wf_world w : Prop :=
  locals w = ∅ ∧
  (∀ v s, vecs w !! v = Some s → wf_vec w s) ∧
  (∀ v1 v2 s1 s2 l i j,
     vecs w !! v1 = Some s1 → vecs w !! v2 = Some s2 →
     raw_ptr_ (items_ s1) = Ptr l i → raw_ptr_ (items_ s2) = Ptr l j → v1 = v2).

(** The array an [ArrayPtr] owns, slot by slot. *)
Definition buffer w (a : ArrayPtr) : list T :=
  match raw_ptr_ a with
  | Ptr l _ => default [] (blocks w !! l)
  | nullptr => []
  end.

(** The live elements: the first [size_] slots of the array. *)
Definition elements w (s : SimpleVector) : list T :=
  take (N.to_nat (size_ s)) (buffer w (items_ s)).

(** [GetSize()], [GetCapacity()] and the live elements in order. *)
Definition view w (this : positive) : option (N * N * list T) :=
  s ← vecs w !! this; Some (size_ s, capacity_ s, elements w s).

(** The call replaced the vector at [this] by [s'], kept the invariant and
    left every other vector and its array alone. *)
Definition updates (this : positive) (s' : SimpleVector) w w' : Prop :=
  wf_world w' ∧ vecs w' = <[this := s']> (vecs w) ∧
  ∀ v s, v ≠ this → vecs w !! v = Some s →
         buffer w' (items_ s) = buffer w (items_ s).

(** [begin() + k] *)
Definition position (s : SimpleVector) (k : N) : ptr :=
  match raw_ptr_ (items_ s) with
  | nullptr => nullptr
  | Ptr l i => Ptr l (i + k)
  end.

(** The call kept the invariant and the vector at [this], and changed
    nothing another vector shows. *)
Definition modifies (this : positive) w w' : Prop :=
  wf_world w' ∧ is_Some (vecs w' !! this) ∧ ∀ v, v ≠ this → view w' v = view w v.

(** The array an argument refers into, if any. *)
Definition block_of (a : arg T) : option positive :=
  match a with
  | Copy (Ptr l _) | Move (Ptr l _) => Some l
  | _ => None
  end.

(** The free store once the element has been built from the argument: a
    slot that was moved from holds its moved-from state. *)
Definition taken (a : arg T) B : gmap positive (list T) :=
  match a with
  | Move (Ptr l i) => alter (alter moved_from (N.to_nat i)) l B
  | _ => B
  end.

(** The state once the element has been built from the argument. *)
Definition moved (a : arg T) w : world T :=
  match a with
  | Move _ => set_blocks (taken a (blocks w)) w
  | _ => w
  end.

(** The value an argument stands for in [w], if it can be read. *)
Definition value_of w (a : arg T) : option T :=
  match a with
  | Value x => Some x
  | Copy (Ptr l i) | Move (Ptr l i) => blocks w !! l ≫= (.!! N.to_nat i)
  | _ => None
  end.

(** [p] points to no slot of the array of the vector at [this]. *)
Definition outside w (this : positive) (p : ptr) : bool :=
  match p, vecs w !! this with
  | Ptr l _, Some s =>
      match raw_ptr_ (items_ s) with
      | Ptr l' _ => bool_decide (l ≠ l')
      | nullptr => true
      end
  | _, _ => true
  end.

(** The argument stands for the value [x], held by an object that is no
    slot of the array of the vector at [this]. *)
Definition supplies w (this : positive) (a : arg T) (x : T) : Prop :=
  value_of w a = Some x
  ∧ match a with
    | Value _ => True
    | Copy p | Move p => outside w this p = true
    end.


(** What a call leaves behind when it returns or throws. *)
Definition after {A} (P : world T → Prop) (o : outcome (world T) A) : Prop :=
  match o with
  | Ret _ w' | Throw _ w' => P w'
  | Undef => True
  end.


(** Every array of the free store has an owner. *)
Definition accounted w : Prop :=
  ∀ l, is_Some (blocks w !! l) →
       ∃ r a i, owner_at (locals w) (vecs w) r = Some a ∧ raw_ptr_ a = Ptr l i.

(** The call leaves no array without an owner. *)
Definition leakless {A} (m : M T A) : Prop :=
  ∀ w, accounted w → after accounted (m w).

(** The call never throws. *)
Definition nothrow {A} (m : M T A) : Prop :=
  ∀ w, match m w with Throw _ _ => False | _ => True end.

(** The call changes nothing, whatever its outcome. *)
Definition readonly {A} (m : M T A) : Prop :=
  ∀ w, match m w with Ret _ w' | Throw _ w' => w' = w | Undef => True end.

(** The strong guarantee: when the call throws, the exception satisfies [E]
    and the state is the one before the call. *)
Definition strong {A} (E : exn → Prop) (m : M T A) : Prop :=
  ∀ w, match m w with Throw e w' => w' = w ∧ E e | _ => True end.

(** The exception a statement of a client program can end in:
    [std::out_of_range] from [At], [std::bad_alloc] from [new[]]. *)
Definition exception_of (o : @op T) : exn :=
  match o with
  | Mutate _ (DoAssignAt _ _) | Ask _ (AskAt _) => out_of_range
  | _ => bad_alloc
  end.

End Vocabulary.

Section Orders.
Context {T : Type} `{!Comparable T}.

(** Two sequences of the same length with no position where [!=] holds. *)
Fixpoint same_elements (xs ys : list T) : bool :=
  match xs, ys with
  | [], [] => true
  | x :: xs', y :: ys' => negb (elem_ne x y) && same_elements xs' ys'
  | _, _ => false
  end.

(** The lexicographic order on sequences: decided at the first position
    where one element is less than the other; a proper prefix comes first. *)
Fixpoint lex_less (xs ys : list T) : bool :=
  match xs, ys with
  | _, [] => false
  | [], _ :: _ => true
  | x :: xs', y :: ys' =>
      if elem_lt x y then true
      else if elem_lt y x then false
      else lex_less xs' ys'
  end.

(** [!=] is the negation of equality, and [<] a strict total order. *)
Definition lawful_ne : Prop := ∀ x y : T, elem_ne x y = false ↔ x = y.
Definition strict_total_lt : Prop :=
  (∀ x : T, elem_lt x x = false)
  ∧ (∀ x y z : T, elem_lt x y = true → elem_lt y z = true → elem_lt x z = true)
  ∧ (∀ x y : T, elem_lt x y = false → elem_lt y x = false → x = y).

End Orders.

(** * Concrete objects *)

(** [SimpleVector<int>]: [int()] is 0, a moved-from [int] keeps its value,
    and a fresh array is taken to hold zeros. *)
Definition int_element : Element Z :=
  {| default_value := 0%Z; moved_from := id; indeterminate := λ _, 0%Z |}.

(** [!=] and [<] on [int]. *)
Definition int_comparable : Comparable Z :=
  {| elem_ne := λ x y, negb (x =? y)%Z; elem_lt := Z.ltb |}.

(** A free store that grants every request, and one that grants none. *)
Definition plentiful : Allocator Z := {| may_allocate := λ _ _, true |}.
Definition exhausted : Allocator Z := {| may_allocate := λ _ _, false |}.

(** [SimpleVector<int> v{1, 2, 3};] as the only object. *)
Definition w123 : world Z :=
  World {[1%positive := [1; 2; 3]%Z]} ∅
        {[1%positive := {| size_ := 3; capacity_ := 3;
                           items_ := {| raw_ptr_ := Ptr 1 0 |} |}]}.

(** [v] and a copy of it. *)
Definition w123_copy : world Z :=
  World {[1%positive := [1; 2; 3]%Z; 2%positive := [1; 2; 3]%Z]} ∅
        {[1%positive := {| size_ := 3; capacity_ := 3;
                           items_ := {| raw_ptr_ := Ptr 1 0 |} |};
          2%positive := {| size_ := 3; capacity_ := 3;
                           items_ := {| raw_ptr_ := Ptr 2 0 |} |}]}.

(** Two local [ArrayPtr<int>] objects, each owning an array of one slot. *)
Definition two_owners : world Z :=
  World {[1%positive := [7%Z]; 2%positive := [8%Z]]}
        {[1%positive := {| raw_ptr_ := Ptr 1 0 |};
          2%positive := {| raw_ptr_ := Ptr 2 0 |}]} ∅.

(** [SimpleVector<int> v;] as the only object. *)
Definition w_empty : world Z :=
  World ∅ ∅
        {[1%positive := {| size_ := 0; capacity_ := 0;
                           items_ := {| raw_ptr_ := nullptr |} |}]}.

(** [v{1, 2, 3}] after [v.Reserve(5)]. *)
Definition w123_reserved : world Z :=
  World {[2%positive := [1; 2; 3; 0; 0]%Z]} ∅
        {[1%positive := {| size_ := 3; capacity_ := 5;
                           items_ := {| raw_ptr_ := Ptr 2 0 |} |}]}.

(** [a{1, 2}] and [b{1, 2, 3}]. *)
Definition w12_123 : world Z :=
  World {[1%positive := [1; 2]%Z; 2%positive := [1; 2; 3]%Z]} ∅
        {[1%positive := {| size_ := 2; capacity_ := 2;
                           items_ := {| raw_ptr_ := Ptr 1 0 |} |};
          2%positive := {| size_ := 3; capacity_ := 3;
                           items_ := {| raw_ptr_ := Ptr 2 0 |} |}]}.

(** [a{1, 2}] and [b{1, 2, 3}] after [b.Reserve(5)]. *)
Definition w12_123_reserved : world Z :=
  World {[1%positive := [1; 2]%Z; 3%positive := [1; 2; 3; 0; 0]%Z]} ∅
        {[1%positive := {| size_ := 2; capacity_ := 2;
                           items_ := {| raw_ptr_ := Ptr 1 0 |} |};
          2%positive := {| size_ := 3; capacity_ := 5;
                           items_ := {| raw_ptr_ := Ptr 3 0 |} |}]}.

(** [a{1, 2}], [b{1, 2, 3}] and [c{2}]. *)
Definition w12_123_2 : world Z :=
  World {[1%positive := [1; 2]%Z; 2%positive := [1; 2; 3]%Z; 3%positive := [2]%Z]} ∅
        {[1%positive := {| size_ := 2; capacity_ := 2;
                           items_ := {| raw_ptr_ := Ptr 1 0 |} |};
          2%positive := {| size_ := 3; capacity_ := 3;
                           items_ := {| raw_ptr_ := Ptr 2 0 |} |};
          3%positive := {| size_ := 1; capacity_ := 1;
                           items_ := {| raw_ptr_ := Ptr 3 0 |} |}]}.

(** What a program started without any object returns and shows of the
    vector it names. *)
Definition run_view {A} (m : M Z (positive * A)) : option (A * option (N * N * list Z)) :=
  match m empty_world with
  | Ret (v, a) w => Some (a, view w v)
  | _ => None
  end.

(** * Reasoning about runs *)

(** Two maps built from inserts and deletes are equal when they agree at
    every key. *)
Ltac map_ext :=
  apply map_eq; intros ?;
  repeat (rewrite ?lookup_insert, ?lookup_delete;
          repeat case_decide; simplify_eq; try done).

Section Run.
Context {T : Type} `{!Element T} `{!Allocator T}.
Implicit Types (w : world T) (B : gmap positive (list T)).
Implicit Types (L : gmap positive ArrayPtr) (V : gmap positive SimpleVector).

Lemma bind_Ret {A C} (m : M T A) (k : A → M T C) w a w1 r :
  m w = Ret a w1 → k a w1 = r → (m ≫= k) w = r.
Proof. intros Hm <-. unfold mbind, M_bind. by rewrite Hm. Qed.

Lemma bind_Throw {A C} (m : M T A) (k : A → M T C) w e w1 :
  m w = Throw e w1 → (m ≫= k) w = Throw e w1.
Proof. intros Hm. unfold mbind, M_bind. by rewrite Hm. Qed.

Lemma bind_Undef {A C} (m : M T A) (k : A → M T C) w :
  m w = Undef → (m ≫= k) w = Undef.
Proof. intros Hm. unfold mbind, M_bind. by rewrite Hm. Qed.

Lemma get_owner_eq B L V r a :
  owner_at L V r = Some a → get_owner r (World B L V) = Ret a (World B L V).
Proof.
  destruct r as [o|v]; simpl; intros Hr.
  - by rewrite Hr.
  - destruct (V !! v); simplify_eq/=; done.
Qed.

Lemma get_vec_eq B L V this s :
  V !! this = Some s → get_vec this (World B L V) = Ret s (World B L V).
Proof. intros Hs. unfold get_vec; simpl. by rewrite Hs. Qed.

Lemma get_size_eq B L V this s :
  V !! this = Some s → get_size this (World B L V) = Ret (size_ s) (World B L V).
Proof. intros Hs. eapply bind_Ret; [by apply get_vec_eq|done]. Qed.

Lemma get_capacity_eq B L V this s :
  V !! this = Some s →
  get_capacity this (World B L V) = Ret (capacity_ s) (World B L V).
Proof. intros Hs. eapply bind_Ret; [by apply get_vec_eq|done]. Qed.

Lemma set_size_eq B L V this s n :
  V !! this = Some s →
  set_size this n (World B L V)
  = Ret () (World B L (<[this := {| size_ := n; capacity_ := capacity_ s;
                                    items_ := items_ s |}]> V)).
Proof.
  intros Hs. eapply bind_Ret; [by apply get_vec_eq|].
  unfold put_vec; simpl. by rewrite Hs.
Qed.

Lemma set_capacity_eq B L V this s n :
  V !! this = Some s →
  set_capacity this n (World B L V)
  = Ret () (World B L (<[this := {| size_ := size_ s; capacity_ := n;
                                    items_ := items_ s |}]> V)).
Proof.
  intros Hs. eapply bind_Ret; [by apply get_vec_eq|].
  unfold put_vec; simpl. by rewrite Hs.
Qed.

Lemma subscript_eq B L V l b i :
  B !! l = Some b → i < N.of_nat (length b) →
  subscript (Ptr l 0) i (World B L V) = Ret (Ptr l i) (World B L V).
Proof.
  intros Hb Hi. unfold subscript; simpl. rewrite Hb.
  destruct (N.ltb_spec (0 + i) (N.of_nat (length b))); [done|lia].
Qed.

Lemma index_eq B L V r l b i :
  owner_at L V r = Some {| raw_ptr_ := Ptr l 0 |} →
  B !! l = Some b → i < N.of_nat (length b) →
  ArrayPtr.index r i (World B L V) = Ret (Ptr l i) (World B L V).
Proof.
  intros Hr Hb Hi. eapply bind_Ret; [by apply get_owner_eq|].
  by eapply subscript_eq.
Qed.

Lemma index_out_of_bounds B L V r l b i :
  owner_at L V r = Some {| raw_ptr_ := Ptr l 0 |} →
  B !! l = Some b → N.of_nat (length b) ≤ i →
  ArrayPtr.index r i (World B L V) = Undef.
Proof.
  intros Hr Hb Hi. eapply bind_Ret; [by apply get_owner_eq|].
  unfold subscript; simpl. rewrite Hb.
  destruct (N.ltb_spec (0 + i) (N.of_nat (length b))); [lia|done].
Qed.

Lemma read_eq B L V l b i x :
  B !! l = Some b → b !! N.to_nat i = Some x →
  read (Ptr l i) (World B L V) = Ret x (World B L V).
Proof. intros Hb Hx. unfold read; simpl. rewrite Hb; simpl. by rewrite Hx. Qed.

Lemma write_eq B L V l b i x :
  B !! l = Some b → i < N.of_nat (length b) →
  write (Ptr l i) x (World B L V)
  = Ret () (World (<[l := <[N.to_nat i := x]> b]> B) L V).
Proof.
  intros Hb Hi. unfold write; simpl. rewrite Hb.
  destruct (N.ltb_spec i (N.of_nat (length b))); [done|lia].
Qed.

Lemma assign_item_eq B L V this s l b i x :
  V !! this = Some s → raw_ptr_ (items_ s) = Ptr l 0 →
  B !! l = Some b → i < N.of_nat (length b) →
  SimpleVector.assign_item this i x (World B L V)
  = Ret () (World (<[l := <[N.to_nat i := x]> b]> B) L V).
Proof.
  intros Hs Hp Hb Hi. eapply bind_Ret.
  - eapply index_eq; [|done..]. simpl. rewrite Hs. simpl.
    destruct (items_ s) as [p]; simpl in *; by subst.
  - by apply write_eq.
Qed.

Lemma assign_moved_eq B L V rd rs ld ls bd bs di si x :
  owner_at L V rs = Some {| raw_ptr_ := Ptr ls 0 |} →
  owner_at L V rd = Some {| raw_ptr_ := Ptr ld 0 |} →
  ls ≠ ld → B !! ls = Some bs → B !! ld = Some bd →
  bs !! N.to_nat si = Some x → di < N.of_nat (length bd) →
  SimpleVector.assign_moved rd di rs si (World B L V)
  = Ret () (World (<[ls := <[N.to_nat si := moved_from x]> bs]>
                     (<[ld := <[N.to_nat di := x]> bd]> B)) L V).
Proof.
  intros Hrs Hrd Hne Hbs Hbd Hx Hdi.
  assert (si < N.of_nat (length bs)) by (apply lookup_lt_Some in Hx; lia).
  eapply bind_Ret; [by eapply index_eq|].
  eapply bind_Ret; [by eapply index_eq|].
  eapply bind_Ret; [by eapply read_eq|].
  eapply bind_Ret; [by eapply write_eq|].
  erewrite write_eq; [done| |done].
  by rewrite lookup_insert_ne.
Qed.

Lemma assign_moved_within B L V r l b di si x :
  owner_at L V r = Some {| raw_ptr_ := Ptr l 0 |} →
  B !! l = Some b →
  b !! N.to_nat si = Some x → di < N.of_nat (length b) →
  SimpleVector.assign_moved r di r si (World B L V)
  = Ret () (World (<[l := <[N.to_nat si := moved_from x]>
                             (<[N.to_nat di := x]> b)]> B) L V).
Proof.
  intros Hr Hb Hx Hdi.
  assert (si < N.of_nat (length b)) by (apply lookup_lt_Some in Hx; lia).
  eapply bind_Ret; [by eapply index_eq|].
  eapply bind_Ret; [by eapply index_eq|].
  eapply bind_Ret; [by eapply read_eq|].
  eapply bind_Ret; [by eapply write_eq|].
  erewrite write_eq; [|by rewrite lookup_insert_eq|by rewrite length_insert].
  by rewrite insert_insert_eq.
Qed.

Lemma move_loop L V rd rs ld ls body d n :
  (∀ i W, body i W = SimpleVector.assign_moved rd (i + d) rs i W) →
  owner_at L V rs = Some {| raw_ptr_ := Ptr ls 0 |} →
  owner_at L V rd = Some {| raw_ptr_ := Ptr ld 0 |} →
  ls ≠ ld →
  ∀ a B bs bd,
  B !! ls = Some bs → B !! ld = Some bd →
  (N.to_nat a + n ≤ length bs)%nat →
  (N.to_nat a + N.to_nat d + n ≤ length bd)%nat →
  ∃ bs' bd',
    for_loop n a body (World B L V)
    = Ret () (World (<[ls := bs']> (<[ld := bd']> B)) L V)
    ∧ length bs' = length bs ∧ length bd' = length bd
    ∧ (∀ k, ¬ (N.to_nat a ≤ k < N.to_nat a + n)%nat → bs' !! k = bs !! k)
    ∧ (∀ k, bd' !! k =
            if decide (N.to_nat a + N.to_nat d ≤ k < N.to_nat a + N.to_nat d + n)%nat
            then bs !! (k - N.to_nat d)%nat else bd !! k).
Proof.
  intros Hbody Hrs Hrd Hne. induction n as [|n IH]; intros a B bs bd Hbs Hbd Hls Hld.
  - exists bs, bd. split_and!; try done.
    + simpl. unfold mret, M_ret. f_equal. f_equal. map_ext.
    + intros k. case_decide; [lia|done].
  - destruct (lookup_lt_is_Some_2 bs (N.to_nat a)) as [x Hx]; [lia|].
    set (bs1 := <[N.to_nat a := moved_from x]> bs).
    set (bd1 := <[N.to_nat (a + d) := x]> bd).
    destruct (IH (a + 1) (<[ls := bs1]> (<[ld := bd1]> B)) bs1 bd1)
      as (bs' & bd' & Hrun & Hl1 & Hl2 & Hsrc & Hdst).
    { by rewrite lookup_insert_eq. }
    { by rewrite lookup_insert_ne, lookup_insert_eq. }
    { unfold bs1. rewrite length_insert. lia. }
    { unfold bd1. rewrite length_insert. lia. }
    exists bs', bd'. split_and!.
    + simpl. eapply bind_Ret.
      { rewrite Hbody. eapply assign_moved_eq; try done. lia. }
      fold bs1 bd1. rewrite Hrun. f_equal. f_equal. map_ext.
    + rewrite Hl1. unfold bs1. by rewrite length_insert.
    + rewrite Hl2. unfold bd1. by rewrite length_insert.
    + intros k Hk. rewrite Hsrc by lia. unfold bs1.
      rewrite list_lookup_insert_ne by lia. done.
    + intros k. rewrite Hdst. unfold bs1, bd1.
      repeat case_decide; try lia.
      * rewrite list_lookup_insert_ne by lia. done.
      * assert (k = N.to_nat (a + d)) as -> by lia.
        rewrite list_lookup_insert_eq by lia.
        rewrite <- Hx. f_equal. lia.
      * rewrite list_lookup_insert_ne by lia. done.
Qed.

Lemma length_fresh_block n : length (fresh_block n) = N.to_nat n.
Proof. unfold fresh_block. by rewrite length_fmap, length_seq. Qed.

Lemma new_array_eq w n :
  grants w n = true →
  new_array n w
  = Ret (Ptr (fresh (dom (blocks w))) 0)
        (World (<[fresh (dom (blocks w)) := fresh_block n]> (blocks w))
               (locals w) (vecs w)).
Proof. unfold grants, new_array. by intros ->. Qed.

Lemma new_array_fail w n : grants w n = false → new_array n w = Throw bad_alloc w.
Proof. unfold grants, new_array. by intros ->. Qed.

Lemma fresh_block_None B : B !! fresh (dom B) = None.
Proof. apply not_elem_of_dom, is_fresh. Qed.

(** [ArrayPtr<Type> new_items(n);] for [n > 0]. *)
Lemma local_ctor_size_eq B L V n :
  n ≠ 0 → grants (World B L V) n = true →
  local_owner (ArrayPtr.ctor_size n) (World B L V)
  = Ret (Local (fresh (dom L)))
        (World (<[fresh (dom B) := fresh_block n]> B)
               (<[fresh (dom L) := {| raw_ptr_ := Ptr (fresh (dom B)) 0 |}]> L) V).
Proof.
  intros Hn Hg. unfold local_owner, ArrayPtr.ctor_size.
  destruct (N.eqb_spec n 0) as [|_]; [done|]. simpl.
  eapply bind_Ret; [eapply bind_Ret; [by apply new_array_eq|done]|done].
Qed.

Lemma local_ctor_size_fail w n :
  n ≠ 0 → grants w n = false →
  local_owner (ArrayPtr.ctor_size n) w = Throw bad_alloc w.
Proof.
  intros Hn Hg. unfold local_owner, ArrayPtr.ctor_size.
  destruct (N.eqb_spec n 0) as [|_]; [done|]. simpl.
  apply bind_Throw, bind_Throw. by apply new_array_fail.
Qed.

(** [items_.swap(new_items)] *)
Lemma swap_member_local B L V this s o a :
  V !! this = Some s → L !! o = Some a →
  ArrayPtr.swap (Member this) (Local o) (World B L V)
  = Ret () (World B (<[o := {| raw_ptr_ := raw_ptr_ (items_ s) |}]> L)
              (<[this := {| size_ := size_ s; capacity_ := capacity_ s;
                            items_ := {| raw_ptr_ := raw_ptr_ a |} |}]> V)).
Proof.
  intros Hs Ho. unfold ArrayPtr.swap.
  eapply bind_Ret; [apply get_owner_eq; simpl; by rewrite Hs|].
  eapply bind_Ret; [by apply get_owner_eq|].
  eapply bind_Ret; [unfold set_owner; simpl; by rewrite Hs|].
  unfold set_owner; simpl. by rewrite Ho.
Qed.

Lemma delete_array_eq B L V p :
  deletable B p → delete_array p (World B L V) = Ret () (World (release p B) L V).
Proof.
  destruct p as [|l i]; [done|]. intros [-> [b Hb]].
  unfold delete_array; simpl. by rewrite Hb.
Qed.

Lemma destroy_local_eq B L V o p :
  L !! o = Some {| raw_ptr_ := p |} → deletable B p →
  ArrayPtr.destroy_local (Local o) (World B L V)
  = Ret () (World (release p B) (delete o L) V).
Proof.
  intros Ho Hp. unfold ArrayPtr.destroy_local, ArrayPtr.dtor.
  eapply bind_Ret.
  - eapply bind_Ret; [by apply get_owner_eq|]. by apply delete_array_eq.
  - done.
Qed.

Lemma wf_deletable w this s :
  wf_world w → vecs w !! this = Some s → deletable (blocks w) (raw_ptr_ (items_ s)).
Proof.
  intros (_ & Hwf & _) Hs. destruct (Hwf _ _ Hs) as (_ & _ & Hp).
  unfold deletable. destruct (raw_ptr_ (items_ s)); [done|].
  destruct Hp as (-> & b & -> & _). eauto.
Qed.

Lemma wf_owned w v s l i :
  wf_world w → vecs w !! v = Some s → raw_ptr_ (items_ s) = Ptr l i →
  i = 0 ∧ ∃ b, blocks w !! l = Some b ∧ N.of_nat (length b) = capacity_ s.
Proof.
  intros (_ & Hwf & _) Hs Hp. destruct (Hwf _ _ Hs) as (_ & _ & Hb).
  by rewrite Hp in Hb.
Qed.

Lemma wf_bounds w v s :
  wf_world w → vecs w !! v = Some s →
  size_ s ≤ capacity_ s ∧ capacity_ s ≤ PTRDIFF_MAX.
Proof. intros (_ & Hwf & _) Hs. destruct (Hwf _ _ Hs) as (? & ? & _). done. Qed.

(** A call that moved the elements to a fresh array and deleted the old one. *)
Lemma updates_grow w this s l' nb n' c' :
  wf_world w → vecs w !! this = Some s → blocks w !! l' = None →
  N.of_nat (length nb) = c' → n' ≤ c' → c' ≤ PTRDIFF_MAX →
  updates this {| size_ := n'; capacity_ := c'; items_ := {| raw_ptr_ := Ptr l' 0 |} |} w
    (World (<[l' := nb]> (release (raw_ptr_ (items_ s)) (blocks w)))
           (locals w) (<[this := {| size_ := n'; capacity_ := c';
                                    items_ := {| raw_ptr_ := Ptr l' 0 |} |}]> (vecs w))).
Proof.
  intros Hw Hs Hl' Hlen Hn Hc.
  assert (Hkeep : ∀ v sv l i, v ≠ this → vecs w !! v = Some sv →
            raw_ptr_ (items_ sv) = Ptr l i →
            (<[l' := nb]> (release (raw_ptr_ (items_ s)) (blocks w))) !! l = blocks w !! l).
  { intros v sv l i Hv Hsv Hp.
    destruct (wf_owned _ _ _ _ _ Hw Hsv Hp) as (-> & b & Hb & _).
    rewrite lookup_insert_ne by congruence.
    destruct (raw_ptr_ (items_ s)) as [|l0 i0] eqn:Hp0; simpl; [done|].
    rewrite lookup_delete_ne; [done|]. intros ->.
    destruct Hw as (_ & _ & Hsep). by specialize (Hsep _ _ _ _ _ _ _ Hs Hsv Hp0 Hp). }
  assert (Hother : ∀ v sv i, vecs w !! v = Some sv →
            raw_ptr_ (items_ sv) = Ptr l' i → False).
  { intros v sv i Hsv Hp.
    destruct (wf_owned _ _ _ _ _ Hw Hsv Hp) as (_ & b & Hb & _). congruence. }
  split_and!; simpl; try done.
  - split_and!; simpl; [by destruct Hw| |].
    + intros v sv. rewrite lookup_insert. case_decide as Hv; intros Hsv; simplify_eq.
      * split_and!; simpl; [done..|]. split; [done|]. exists nb.
        by rewrite lookup_insert_eq.
      * destruct (wf_bounds _ _ _ Hw Hsv). split_and!; [done..|].
        destruct (raw_ptr_ (items_ sv)) as [|l i] eqn:Hp; simpl.
        -- destruct Hw as (_ & Hwf & _). destruct (Hwf _ _ Hsv) as (_ & _ & Hb).
           by rewrite Hp in Hb.
        -- erewrite Hkeep by done. by eapply wf_owned.
    + intros v1 v2 s1 s2 l i j. rewrite !lookup_insert.
      destruct Hw as (_ & _ & Hsep).
      repeat case_decide; intros Hs1 Hs2 Hp1 Hp2; simplify_eq/=; try done.
      * exfalso; eauto.
      * exfalso; eauto.
      * eauto.
  - intros v sv Hv Hsv. unfold buffer.
    destruct (raw_ptr_ (items_ sv)) as [|l i] eqn:Hp; [done|].
    simpl. erewrite Hkeep; done.
Qed.

(** A call that wrote into the vector's own array and set its size. *)
Lemma updates_in_place w this s l b b' n' :
  wf_world w → vecs w !! this = Some s →
  raw_ptr_ (items_ s) = Ptr l 0 → blocks w !! l = Some b →
  length b' = length b → n' ≤ capacity_ s →
  updates this {| size_ := n'; capacity_ := capacity_ s; items_ := items_ s |} w
    (World (<[l := b']> (blocks w)) (locals w)
           (<[this := {| size_ := n'; capacity_ := capacity_ s;
                         items_ := items_ s |}]> (vecs w))).
Proof.
  intros Hw Hs Hp Hb Hlen Hn.
  assert (Hkeep : ∀ v sv l0 i, v ≠ this → vecs w !! v = Some sv →
            raw_ptr_ (items_ sv) = Ptr l0 i → (<[l := b']> (blocks w)) !! l0 = blocks w !! l0).
  { intros v sv l0 i Hv Hsv Hp0. rewrite lookup_insert_ne; [done|]. intros ->.
    destruct Hw as (_ & _ & Hsep). by specialize (Hsep _ _ _ _ _ _ _ Hs Hsv Hp Hp0). }
  destruct (wf_owned _ _ _ _ _ Hw Hs Hp) as (_ & b0 & Hb0 & Hcap).
  destruct (wf_bounds _ _ _ Hw Hs) as [_ Hmax]. simplify_eq.
  split_and!; simpl; try done.
  - split_and!; simpl; [by destruct Hw| |].
    + intros v sv. rewrite lookup_insert. case_decide as Hv; intros Hsv; simplify_eq.
      * split_and!; simpl; [done..|]. rewrite Hp. split; [done|]. exists b'.
        rewrite lookup_insert_eq. split; [done|]. lia.
      * destruct (wf_bounds _ _ _ Hw Hsv). split_and!; [done..|].
        destruct (raw_ptr_ (items_ sv)) as [|l0 i] eqn:Hp0; simpl.
        -- destruct Hw as (_ & Hwf & _). destruct (Hwf _ _ Hsv) as (_ & _ & Hb1).
           by rewrite Hp0 in Hb1.
        -- erewrite Hkeep by done. by eapply wf_owned.
    + intros v1 v2 s1 s2 l0 i j. rewrite !lookup_insert.
      destruct Hw as (_ & _ & Hsep).
      repeat case_decide; intros Hs1 Hs2 Hp1 Hp2; simplify_eq/=; try done.
      * symmetry. eapply (Hsep v2 v1); eauto.
      * eapply (Hsep v1 v2); eauto.
      * eauto.
  - intros v sv Hv Hsv. unfold buffer.
    destruct (raw_ptr_ (items_ sv)) as [|l0 i] eqn:Hp0; [done|].
    simpl. erewrite Hkeep; done.
Qed.

(** A call that only set the size. *)
Lemma updates_size w this s n' :
  wf_world w → vecs w !! this = Some s → n' ≤ capacity_ s →
  updates this {| size_ := n'; capacity_ := capacity_ s; items_ := items_ s |} w
    (World (blocks w) (locals w)
           (<[this := {| size_ := n'; capacity_ := capacity_ s;
                         items_ := items_ s |}]> (vecs w))).
Proof.
  intros Hw Hs Hn. split_and!; simpl; try done.
  split_and!; simpl; [by destruct Hw| |].
  - intros v sv. rewrite lookup_insert. case_decide as Hv; intros Hsv; simplify_eq.
    + destruct Hw as (_ & Hwf & _). destruct (Hwf _ _ Hs) as (? & ? & Hb).
      split_and!; simpl; done.
    + destruct Hw as (_ & Hwf & _). by apply (Hwf v).
  - intros v1 v2 s1 s2 l0 i j. rewrite !lookup_insert.
    destruct Hw as (_ & _ & Hsep).
    repeat case_decide; intros Hs1 Hs2 Hp1 Hp2; simplify_eq/=; try done.
    + symmetry. eapply (Hsep v2 v1); eauto.
    + eapply (Hsep v1 v2); eauto.
    + eauto.
Qed.

Lemma size_mul_2 c : c ≤ PTRDIFF_MAX → size_mul c 2 = 2 * c.
Proof.
  unfold PTRDIFF_MAX, size_mul, to_size_t. intros Hc.
  rewrite Z.mod_small by lia. lia.
Qed.

Lemma size_add_1 n : n ≤ PTRDIFF_MAX → size_add n 1 = n + 1.
Proof.
  unfold PTRDIFF_MAX, size_add, to_size_t. intros Hc.
  rewrite Z.mod_small by lia. lia.
Qed.

Lemma size_sub_1 n : 0 < n → n ≤ PTRDIFF_MAX → size_sub n 1 = n - 1.
Proof.
  unfold PTRDIFF_MAX, size_sub, to_size_t. intros Hn Hc.
  rewrite Z.mod_small by lia. lia.
Qed.

(** [items_.swap(new_items); capacity_ = nc;] and the end of the scope of
    [new_items]. *)
Lemma commit_eq B L V this s o l' nc :
  V !! this = Some s → L !! o = Some {| raw_ptr_ := Ptr l' 0 |} →
  deletable B (raw_ptr_ (items_ s)) →
  (ArrayPtr.swap (Member this) (Local o);;
   set_capacity this nc;;
   ArrayPtr.destroy_local (Local o)) (World B L V)
  = Ret () (World (release (raw_ptr_ (items_ s)) B) (delete o L)
              (<[this := {| size_ := size_ s; capacity_ := nc;
                            items_ := {| raw_ptr_ := Ptr l' 0 |} |}]> V)).
Proof.
  intros Hs Ho Hp.
  eapply bind_Ret; [by eapply swap_member_local|].
  eapply bind_Ret; [eapply set_capacity_eq; by rewrite lookup_insert_eq|].
  erewrite destroy_local_eq; [|by rewrite lookup_insert_eq|done].
  simpl. f_equal. f_equal; map_ext.
Qed.

(** The loop that relocates the first [n] elements of the vector's array
    into the array of the local [new_items]. *)
Lemma relocate_loop B V this s o l l' b fr n body :
  (∀ i W, body i W = SimpleVector.assign_moved (Local o) i (Member this) i W) →
  V !! this = Some s → raw_ptr_ (items_ s) = Ptr l 0 → l ≠ l' →
  B !! l = Some b → B !! l' = Some fr →
  (N.to_nat n ≤ length b)%nat → (N.to_nat n ≤ length fr)%nat →
  ∃ b' nb,
    for_upto 0 n body (World B {[o := {| raw_ptr_ := Ptr l' 0 |}]} V)
    = Ret () (World (<[l := b']> (<[l' := nb]> B)) {[o := {| raw_ptr_ := Ptr l' 0 |}]} V)
    ∧ length b' = length b ∧ length nb = length fr
    ∧ take (N.to_nat n) nb = take (N.to_nat n) b
    ∧ drop (N.to_nat n) nb = drop (N.to_nat n) fr.
Proof.
  intros Hbody Hs Hp Hne Hb Hfr Hn Hn'.
  destruct (move_loop {[o := {| raw_ptr_ := Ptr l' 0 |}]} V (Local o) (Member this)
              l' l body 0 (N.to_nat n)) with (a := 0) (B := B) (bs := b) (bd := fr)
    as (b' & nb & Hrun & Hl1 & Hl2 & _ & Hdst); try done.
  - intros i W. rewrite Hbody. by rewrite N.add_0_r.
  - simpl. rewrite Hs. simpl. destruct (items_ s); simpl in *; by subst.
  - simpl. by rewrite lookup_singleton_eq.
  - exists b', nb. split_and!; try done.
    + unfold for_upto. by rewrite N.sub_0_r.
    + apply list_eq; intros k. destruct (decide (k < N.to_nat n)%nat).
      * rewrite !lookup_take_lt by done. rewrite Hdst.
        case_decide; [|lia]. f_equal. lia.
      * by rewrite !lookup_take_ge by lia.
    + apply list_eq; intros k. rewrite !lookup_drop, Hdst. case_decide; [lia|done].
Qed.

(** ** Arguments passed by reference *)

Lemma moved_eq a B L V : moved a (World B L V) = World (taken a B) L V.
Proof. by destruct a as [x|[|l i]|[|l i]]. Qed.

Lemma vecs_moved a w : vecs (moved a w) = vecs w.
Proof. by destruct a as [x|p|p]. Qed.

Lemma taken_lookup_ne a B l : block_of a ≠ Some l → taken a B !! l = B !! l.
Proof.
  destruct a as [x|[|l0 i]|[|l0 i]]; simpl; try done.
  intros Hne. apply lookup_alter_ne. congruence.
Qed.

Lemma taken_insert a B l b :
  block_of a ≠ Some l → taken a (<[l := b]> B) = <[l := b]> (taken a B).
Proof.
  destruct a as [x|[|l0 i]|[|l0 i]]; simpl; try done.
  intros Hne. apply alter_insert_ne. congruence.
Qed.

Lemma taken_delete a B l :
  block_of a ≠ Some l → taken a (delete l B) = delete l (taken a B).
Proof.
  destruct a as [x|[|l0 i]|[|l0 i]]; simpl; try done.
  intros Hne. apply alter_delete_ne. congruence.
Qed.

Lemma dom_taken a B : dom (taken a B) = dom B.
Proof. destruct a as [x|[|l0 i]|[|l0 i]]; simpl; try done. apply dom_alter_L. Qed.

Lemma alter_moved_from B l b i x :
  B !! l = Some b → b !! i = Some x →
  alter (alter moved_from i) l B = <[l := <[i := moved_from x]> b]> B.
Proof.
  intros Hb Hx. apply map_eq. intros j. destruct (decide (l = j)) as [<-|Hne].
  - rewrite lookup_alter_eq, lookup_insert_eq, Hb. simpl. f_equal.
    apply list_eq. intros k. destruct (decide (i = k)) as [<-|Hik].
    + rewrite list_lookup_alter_eq, Hx, list_lookup_insert_eq; [done|].
      by eapply lookup_lt_Some.
    + by rewrite list_lookup_alter_ne, list_lookup_insert_ne.
  - by rewrite lookup_alter_ne, lookup_insert_ne.
Qed.

(** Building from an argument, as a function of the state. *)
Lemma construct_run a w :
  SimpleVector.construct a w
  = match value_of w a with Some x => Ret x (moved a w) | None => Undef end.
Proof.
  destruct a as [y|[|l i]|[|l i]]; simpl; try done.
  unfold mbind, M_bind, read, write. destruct w as [B L V]. simpl.
  destruct (B !! l) as [b|] eqn:Hb; [|done]. simpl.
  destruct (b !! N.to_nat i) as [x|] eqn:Hx; [|done]. simpl. rewrite Hb.
  pose proof (lookup_lt_Some _ _ _ Hx) as Hlt.
  destruct (N.ltb_spec i (N.of_nat (length b))); [|lia].
  unfold mret, M_ret, set_blocks. simpl. do 2 f_equal. symmetry.
  by apply alter_moved_from.
Qed.

Lemma value_of_alive w a x l :
  value_of w a = Some x → block_of a = Some l → is_Some (blocks w !! l).
Proof.
  destruct a as [y|[|l0 i]|[|l0 i]]; simpl; try done;
    intros Hv [= <-]; destruct (blocks w !! l0); eauto; done.
Qed.

Lemma value_of_agree w1 w2 a :
  (∀ l, block_of a = Some l → blocks w2 !! l = blocks w1 !! l) →
  value_of w2 a = value_of w1 a.
Proof.
  intros Hl. destruct a as [y|[|l0 i]|[|l0 i]]; simpl in *; try done;
    by rewrite (Hl l0 eq_refl).
Qed.

Lemma supplies_Value w this x : supplies w this (Value x) x.
Proof. by split. Qed.

(** The array a usable argument refers into is alive, and it is not the
    array of the vector. *)
Lemma supplies_alive w this a x l :
  supplies w this a x → block_of a = Some l → is_Some (blocks w !! l).
Proof. intros [Hv _]. by eapply value_of_alive. Qed.

Lemma supplies_outside w this s a x l i :
  supplies w this a x → vecs w !! this = Some s →
  raw_ptr_ (items_ s) = Ptr l i → block_of a ≠ Some l.
Proof.
  intros [_ Hout] Hs Hp.
  destruct a as [y|[|l0 j]|[|l0 j]]; simpl in *; try done;
    unfold outside in Hout; rewrite Hs, Hp in Hout;
    apply bool_decide_eq_true in Hout; congruence.
Qed.

(** Building the element in a state whose free store holds the array
    referred to as [w] has it. *)
Lemma construct_eq w this a x B L V :
  supplies w this a x →
  (∀ l, block_of a = Some l → B !! l = blocks w !! l) →
  SimpleVector.construct a (World B L V) = Ret x (World (taken a B) L V).
Proof.
  intros [Hv _] Hsame. rewrite construct_run, moved_eq.
  by rewrite (value_of_agree w (World B L V) a Hsame), Hv.
Qed.

Lemma wf_moved w a : wf_world w → wf_world (moved a w).
Proof.
  destruct a as [x|p|[|l i]]; try done.
  intros (HL & Hwf & Hsep). split_and!; simpl; [done| |done].
  intros v s Hs. destruct (Hwf v s Hs) as (Hn & Hc & Hp).
  split_and!; [done..|].
  destruct (raw_ptr_ (items_ s)) as [|l0 j]; [done|].
  destruct Hp as (-> & b & Hb & Hlen). split; [done|]. simpl.
  destruct (decide (l = l0)) as [->|Hne].
  - exists (alter moved_from (N.to_nat i) b).
    rewrite lookup_alter_eq, Hb. split; [done|]. by rewrite length_alter.
  - exists b. by rewrite lookup_alter_ne.
Qed.

Lemma EmplaceBack_arg_spec w this s a x :
  wf_world w → vecs w !! this = Some s →
  let c' := if size_ s <? capacity_ s then capacity_ s
            else if capacity_ s =? 0 then 1 else 2 * capacity_ s in
  if (size_ s <? capacity_ s) || grants w c' then
    supplies w this a x →
    ∃ w' l',
      let s' := {| size_ := size_ s + 1; capacity_ := c';
                   items_ := {| raw_ptr_ := Ptr l' 0 |} |} in
      SimpleVector.EmplaceBack this a w = Ret (Ptr l' (size_ s)) w'
      ∧ updates this s' (moved a w) w'
      ∧ elements w' s' = elements w s ++ [x]
      ∧ (raw_ptr_ (items_ s) = Ptr l' 0 ∨ blocks w !! l' = None)
      ∧ (∀ l0 b0, blocks (moved a w) !! l0 = Some b0 →
                  raw_ptr_ (items_ s) ≠ Ptr l0 0 → blocks w' !! l0 = Some b0)
  else SimpleVector.EmplaceBack this a w = Throw bad_alloc w.
Proof.
  intros Hw Hs c'.
  destruct (wf_bounds _ _ _ Hw Hs) as [Hle Hmax].
  pose proof (wf_deletable _ _ _ Hw Hs) as Hdel.
  pose proof (wf_moved w a Hw) as Hwa.
  pose proof Hw as (HL & Hwf & _).
  destruct w as [B L V]; simpl in *; subst L.
  rewrite moved_eq in *.
  destruct s as [n c [p]]; simpl in *.
  unfold SimpleVector.EmplaceBack.
  destruct (N.ltb_spec n c) as [Hlt|Hge]; simpl.
  - (* room left *)
    intros Ha.
    destruct p as [|l i].
    { destruct (Hwf _ _ Hs) as (_ & _ & Hc); simpl in Hc. lia. }
    destruct (wf_owned _ _ _ _ _ Hw Hs eq_refl) as (-> & b & Hb & Hlen);
      simpl in *.
    pose proof (supplies_outside _ _ _ _ _ _ _ Ha Hs eq_refl) as Hout.
    assert (Hb' : taken a B !! l = Some b) by (by rewrite taken_lookup_ne).
    eexists _, l. split_and!.
    + eapply bind_Ret; [by eapply get_size_eq|].
      eapply bind_Ret; [by eapply get_capacity_eq|]. simpl.
      destruct (N.leb_spec c n) as [|_]; [lia|].
      eapply bind_Ret; [done|].
      eapply bind_Ret; [by eapply construct_eq|].
      eapply bind_Ret; [eapply assign_item_eq; eauto; lia|].
      eapply bind_Ret.
      { eapply index_eq; [simpl; by rewrite Hs|by rewrite lookup_insert_eq|].
        rewrite length_insert. lia. }
      eapply bind_Ret; [by eapply set_size_eq|]. simpl.
      rewrite size_add_1 by lia. done.
    + subst c'.
      eapply (updates_in_place (World (taken a B) ∅ V) this
                {| size_ := n; capacity_ := c; items_ := {| raw_ptr_ := Ptr l 0 |} |}
                l b); simpl; eauto.
      * by rewrite length_insert.
      * lia.
    + unfold elements, buffer; simpl. rewrite lookup_insert_eq, Hb; simpl.
      replace (N.to_nat (n + 1)) with (S (N.to_nat n)) by lia.
      erewrite take_S_r; [|apply list_lookup_insert_eq; lia].
      by rewrite take_insert_ge by lia.
    + by left.
    + intros l0 b0 Hb0 Hl0. simpl. rewrite lookup_insert_ne; [done|congruence].
  - (* full *)
    assert (n = c) as -> by lia.
    assert (Hc' : (if c =? 0 then 1 else size_mul c 2) = c').
    { subst c'. destruct (c =? 0); [done|]. by apply size_mul_2. }
    assert (c' ≠ 0) by (subst c'; destruct (N.eqb_spec c 0); lia).
    destruct (grants _ c') eqn:Hg.
    + intros Ha.
      set (l' := fresh (dom B)). set (o := fresh (dom (∅ : gmap positive ArrayPtr))).
      assert (Hfresh : B !! l' = None) by apply fresh_block_None.
      assert (Hfresh' : taken a B !! l' = None).
      { apply not_elem_of_dom. rewrite dom_taken. by apply not_elem_of_dom. }
      assert (Hnew : block_of a ≠ Some l').
      { intros Hl'. destruct (supplies_alive _ _ _ _ _ Ha Hl') as [? Hb].
        simpl in Hb. congruence. }
      assert (∃ nb, (N.to_nat c < length nb)%nat ∧ N.of_nat (length nb) = c' ∧
         take (N.to_nat c) nb
         = elements (World B ∅ V)
             {| size_ := c; capacity_ := c; items_ := {| raw_ptr_ := p |} |} ∧
         (SimpleVector.EmplaceBack this a (World B ∅ V) =
          Ret (Ptr l' c)
            (World (<[l' := <[N.to_nat c := x]> nb]> (release p (taken a B))) ∅
               (<[this := {| size_ := c + 1; capacity_ := c';
                             items_ := {| raw_ptr_ := Ptr l' 0 |} |}]> V))))
        as (nb & Hlt & Hlen & Hel & Hrun).
      { destruct p as [|l i].
        - (* no array yet *)
          destruct (Hwf _ _ Hs) as (_ & _ & Hc); simpl in Hc. subst c.
          exists (fresh_block c'). rewrite length_fresh_block.
          split_and!; [subst c'; simpl; lia|lia|done|].
          eapply bind_Ret; [by eapply get_size_eq|].
          eapply bind_Ret; [by eapply get_capacity_eq|]. simpl.
          eapply bind_Ret.
          { eapply bind_Ret; [by apply local_ctor_size_eq|].
            eapply bind_Ret; [done|].
            eapply commit_eq; [done|by rewrite lookup_insert_eq|done]. }
          simpl. rewrite delete_insert_eq, delete_empty.
          eapply bind_Ret.
          { eapply construct_eq; [done|]. intros l0 Hl0. simpl.
            rewrite lookup_insert_ne; [done|]. intros Heq. by rewrite <- Heq in Hl0. }
          rewrite taken_insert by done.
          eapply bind_Ret.
          { eapply assign_item_eq; [by rewrite lookup_insert_eq|done|
              by rewrite lookup_insert_eq|].
            rewrite length_fresh_block. subst c'; simpl; lia. }
          eapply bind_Ret.
          { eapply index_eq; [simpl; by rewrite lookup_insert_eq|
              by rewrite lookup_insert_eq|].
            rewrite length_insert, length_fresh_block. subst c'; simpl; lia. }
          eapply bind_Ret; [eapply set_size_eq; by rewrite lookup_insert_eq|].
          simpl. unfold mret, M_ret. f_equal. f_equal; map_ext.
        - destruct (wf_owned _ _ _ _ _ Hw Hs eq_refl) as (-> & b & Hb & Hlen);
            simpl in *.
          pose proof (supplies_outside _ _ _ _ _ _ _ Ha Hs eq_refl) as Hout.
          assert (l ≠ l') by congruence.
          assert (c < c') by (subst c'; destruct (N.eqb_spec c 0); lia).
          destruct (relocate_loop (<[l' := fresh_block c']> B) V this
                      {| size_ := c; capacity_ := c;
                         items_ := {| raw_ptr_ := Ptr l 0 |} |} o l l' b
                      (fresh_block c') c
                      (λ i, SimpleVector.assign_moved (Local o) i (Member this) i))
            as (b' & nb & Hloop & Hl1 & Hl2 & Htake & _); try done.
          { by rewrite lookup_insert_ne. }
          { by rewrite lookup_insert_eq. }
          { lia. }
          { rewrite length_fresh_block. lia. }
          rewrite length_fresh_block in Hl2.
          exists nb. split_and!; [lia|lia| |].
          { rewrite Htake. unfold elements, buffer; simpl. by rewrite Hb. }
          eapply bind_Ret; [by eapply get_size_eq|].
          eapply bind_Ret; [by eapply get_capacity_eq|]. simpl.
          destruct (N.leb_spec c c) as [_|]; [|lia]. rewrite Hc'.
          eapply bind_Ret.
          { eapply bind_Ret; [by apply local_ctor_size_eq|].
            fold l' o. rewrite insert_empty.
            eapply bind_Ret; [apply Hloop|].
            eapply commit_eq; [done|by rewrite lookup_singleton_eq|]. simpl.
            split; [done|]. rewrite lookup_insert_eq. eauto. }
          simpl. rewrite delete_singleton_eq.
          eapply bind_Ret.
          { eapply construct_eq; [done|]. intros l0 Hl0. simpl.
            rewrite lookup_delete_ne, !lookup_insert_ne; [done|..];
              intros Heq; by rewrite <- Heq in Hl0. }
          rewrite taken_delete, !taken_insert by done.
          eapply bind_Ret.
          { eapply assign_item_eq; [by rewrite lookup_insert_eq|done| |].
            - rewrite lookup_delete_ne, lookup_insert_ne, lookup_insert_eq by done.
              done.
            - lia. }
          eapply bind_Ret.
          { eapply index_eq; [simpl; by rewrite lookup_insert_eq|
              by rewrite lookup_insert_eq|].
            rewrite length_insert. lia. }
          eapply bind_Ret; [eapply set_size_eq; by rewrite lookup_insert_eq|].
          simpl. rewrite size_add_1 by lia.
          unfold mret, M_ret. f_equal. f_equal; map_ext. }
      simpl. eexists _, l'. split_and!; [exact Hrun| | |by right|].
      * eapply (updates_grow (World (taken a B) ∅ V) this
                  {| size_ := c; capacity_ := c; items_ := {| raw_ptr_ := p |} |} l');
          simpl; eauto.
        -- by rewrite length_insert.
        -- lia.
        -- unfold grants in Hg. apply andb_true_iff in Hg as [Hg _].
           by apply N.leb_le in Hg.
      * unfold elements at 1, buffer; simpl. rewrite lookup_insert_eq; simpl.
        replace (N.to_nat (c + 1)) with (S (N.to_nat c)) by lia.
        erewrite take_S_r; [|apply list_lookup_insert_eq; lia].
        rewrite take_insert_ge by lia. by rewrite Hel.
      * intros l0 b0 Hb0 Hl0. simpl.
        rewrite lookup_insert_ne by congruence.
        destruct p as [|l i]; simpl; [done|].
        destruct (wf_owned _ _ _ _ _ Hw Hs eq_refl) as (-> & _).
        rewrite lookup_delete_ne; [done|congruence].
    + simpl. eapply bind_Ret; [by eapply get_size_eq|].
      eapply bind_Ret; [by eapply get_capacity_eq|]. simpl.
      destruct (N.leb_spec c c) as [_|]; [|lia]. rewrite Hc'.
      apply bind_Throw, bind_Throw. by apply local_ctor_size_fail.
Qed.

Lemma EmplaceBack_spec w this s x :
  wf_world w → vecs w !! this = Some s →
  let c' := if size_ s <? capacity_ s then capacity_ s
            else if capacity_ s =? 0 then 1 else 2 * capacity_ s in
  if (size_ s <? capacity_ s) || grants w c' then
    ∃ w' l',
      let s' := {| size_ := size_ s + 1; capacity_ := c';
                   items_ := {| raw_ptr_ := Ptr l' 0 |} |} in
      SimpleVector.EmplaceBack this (Value x) w = Ret (Ptr l' (size_ s)) w'
      ∧ updates this s' w w'
      ∧ elements w' s' = elements w s ++ [x]
  else SimpleVector.EmplaceBack this (Value x) w = Throw bad_alloc w.
Proof.
  intros Hw Hs. pose proof (EmplaceBack_arg_spec w this s (Value x) x Hw Hs) as Hspec.
  simpl in *. destruct (_ || _); [|done].
  destruct (Hspec (supplies_Value w this x)) as (w' & l' & Hrun & Hup & Hel & _).
  eauto.
Qed.

(** The loops [for (i = a; i < a + n; ++i) r[i] = c;]. *)
Lemma fill_loop L V r l c body n :
  (∀ i W, body i W = (p ← ArrayPtr.index r i; write p c) W) →
  owner_at L V r = Some {| raw_ptr_ := Ptr l 0 |} →
  ∀ a B b,
  B !! l = Some b → (N.to_nat a + n ≤ length b)%nat →
  ∃ b',
    for_loop n a body (World B L V) = Ret () (World (<[l := b']> B) L V)
    ∧ length b' = length b
    ∧ ∀ k, b' !! k = if decide (N.to_nat a ≤ k < N.to_nat a + n)%nat
                     then Some c else b !! k.
Proof.
  intros Hbody Hr. induction n as [|n IH]; intros a B b Hb Hn.
  - exists b. split_and!; try done.
    + simpl. unfold mret, M_ret. by rewrite insert_id.
    + intros k. case_decide; [lia|done].
  - set (b1 := <[N.to_nat a := c]> b).
    destruct (IH (a + 1) (<[l := b1]> B) b1) as (b' & Hrun & Hlen & Hk).
    { by rewrite lookup_insert_eq. }
    { unfold b1. rewrite length_insert. lia. }
    exists b'. split_and!.
    + simpl. eapply bind_Ret.
      { rewrite Hbody. eapply bind_Ret; [eapply index_eq; eauto; lia|].
        eapply write_eq; eauto. lia. }
      fold b1. rewrite Hrun. by rewrite insert_insert_eq.
    + rewrite Hlen. unfold b1. by rewrite length_insert.
    + intros k. rewrite Hk. unfold b1. repeat case_decide; try lia; try done.
      * assert (k = N.to_nat a) as -> by lia.
        by rewrite list_lookup_insert_eq by lia.
      * by rewrite list_lookup_insert_ne by lia.
Qed.

(** The range-for of the initializer-list constructor. *)
Lemma assign_each_eq L V this s l init :
  V !! this = Some s → raw_ptr_ (items_ s) = Ptr l 0 →
  ∀ a B b,
  B !! l = Some b → (N.to_nat a + length init ≤ length b)%nat →
  ∃ b',
    SimpleVector.assign_each this a init (World B L V)
    = Ret () (World (<[l := b']> B) L V)
    ∧ length b' = length b
    ∧ ∀ k, b' !! k = if decide (N.to_nat a ≤ k < N.to_nat a + length init)%nat
                     then init !! (k - N.to_nat a)%nat else b !! k.
Proof.
  intros Hs Hp. induction init as [|x init IH]; intros a B b Hb Hn; simpl in *.
  - exists b. split_and!; try done.
    + unfold mret, M_ret. by rewrite insert_id.
    + intros k. case_decide; [lia|done].
  - set (b1 := <[N.to_nat a := x]> b).
    destruct (IH (a + 1) (<[l := b1]> B) b1) as (b' & Hrun & Hlen & Hk).
    { by rewrite lookup_insert_eq. }
    { unfold b1. rewrite length_insert. lia. }
    exists b'. split_and!.
    + eapply bind_Ret; [eapply assign_item_eq; eauto; lia|].
      fold b1. rewrite Hrun. by rewrite insert_insert_eq.
    + rewrite Hlen. unfold b1. by rewrite length_insert.
    + intros k. rewrite Hk. unfold b1. repeat case_decide; try lia.
      * replace (k - N.to_nat a)%nat with (S (k - N.to_nat (a + 1))) by lia. done.
      * assert (k = N.to_nat a) as -> by lia.
        rewrite list_lookup_insert_eq by lia. by rewrite Nat.sub_diag.
      * by rewrite list_lookup_insert_ne by lia.
Qed.

(** The loop of the copy constructor: [items_[i] = other.items_[i]]. *)
Lemma copy_loop L V this other s so l lo bo body n :
  (∀ i W, body i W = (src ← ArrayPtr.index (Member other) i;
                      x ← read src;
                      SimpleVector.assign_item this i x) W) →
  V !! this = Some s → raw_ptr_ (items_ s) = Ptr l 0 →
  V !! other = Some so → raw_ptr_ (items_ so) = Ptr lo 0 →
  l ≠ lo →
  ∀ a B b,
  B !! l = Some b → B !! lo = Some bo →
  (N.to_nat a + n ≤ length b)%nat → (N.to_nat a + n ≤ length bo)%nat →
  ∃ b',
    for_loop n a body (World B L V) = Ret () (World (<[l := b']> B) L V)
    ∧ length b' = length b
    ∧ ∀ k, b' !! k = if decide (N.to_nat a ≤ k < N.to_nat a + n)%nat
                     then bo !! k else b !! k.
Proof.
  intros Hbody Hs Hp Hso Hpo Hne. induction n as [|n IH]; intros a B b Hb Hbo Hn Hno.
  - exists b. split_and!; try done.
    + simpl. unfold mret, M_ret. by rewrite insert_id.
    + intros k. case_decide; [lia|done].
  - destruct (lookup_lt_is_Some_2 bo (N.to_nat a)) as [x Hx]; [lia|].
    set (b1 := <[N.to_nat a := x]> b).
    destruct (IH (a + 1) (<[l := b1]> B) b1) as (b' & Hrun & Hlen & Hk).
    { by rewrite lookup_insert_eq. }
    { by rewrite lookup_insert_ne. }
    { unfold b1. rewrite length_insert. lia. }
    { lia. }
    exists b'. split_and!.
    + simpl. eapply bind_Ret.
      { rewrite Hbody. eapply bind_Ret.
        { eapply index_eq; [simpl; rewrite Hso; simpl|done|lia].
          destruct (items_ so); simpl in *; by subst. }
        eapply bind_Ret; [by eapply read_eq|].
        eapply assign_item_eq; eauto. lia. }
      fold b1. rewrite Hrun. by rewrite insert_insert_eq.
    + rewrite Hlen. unfold b1. by rewrite length_insert.
    + intros k. rewrite Hk. unfold b1. repeat case_decide; try lia; try done.
      * assert (k = N.to_nat a) as -> by lia.
        by rewrite list_lookup_insert_eq by lia.
      * by rewrite list_lookup_insert_ne by lia.
Qed.

(** The loop of [Emplace] that shifts the suffix right by one, from the
    back: [for (i = a; i > a - n; --i) r[i] = std::move(r[i - 1]);]. *)
Lemma shift_right_loop L V r l body n :
  (∀ i W, body i W = SimpleVector.assign_moved r i r (i - 1) W) →
  owner_at L V r = Some {| raw_ptr_ := Ptr l 0 |} →
  ∀ a B b,
  B !! l = Some b → (n ≤ N.to_nat a)%nat → (N.to_nat a < length b)%nat →
  ∃ b',
    for_loop_down n a body (World B L V) = Ret () (World (<[l := b']> B) L V)
    ∧ length b' = length b
    ∧ ∀ k, (k < N.to_nat a - n ∨ N.to_nat a < k → b' !! k = b !! k)%nat
         ∧ (N.to_nat a - n < k ≤ N.to_nat a → b' !! k = b !! (k - 1)%nat)%nat.
Proof.
  intros Hbody Hr. induction n as [|n IH]; intros a B b Hb Hn Ha.
  - exists b. split_and!; try done.
    + simpl. unfold mret, M_ret. by rewrite insert_id.
    + intros k. split; [done|lia].
  - destruct (lookup_lt_is_Some_2 b (N.to_nat (a - 1))) as [x Hx]; [lia|].
    set (b1 := <[N.to_nat (a - 1) := moved_from x]> (<[N.to_nat a := x]> b)).
    destruct (IH (a - 1) (<[l := b1]> B) b1) as (b' & Hrun & Hlen & Hk).
    { by rewrite lookup_insert_eq. }
    { lia. }
    { unfold b1. rewrite !length_insert. lia. }
    exists b'. split_and!.
    + simpl. eapply bind_Ret.
      { rewrite Hbody. eapply assign_moved_within; eauto. lia. }
      fold b1. rewrite Hrun. by rewrite insert_insert_eq.
    + rewrite Hlen. unfold b1. by rewrite !length_insert.
    + intros k. destruct (Hk k) as [Hk1 Hk2]. unfold b1 in *. split; intros Hr'.
      * rewrite Hk1 by lia. by rewrite !list_lookup_insert_ne by lia.
      * destruct (decide (k = N.to_nat a)) as [->|].
        -- rewrite Hk1 by lia. rewrite list_lookup_insert_ne by lia.
           rewrite list_lookup_insert_eq by lia. rewrite <- Hx. f_equal. lia.
        -- rewrite Hk2 by lia. by rewrite !list_lookup_insert_ne by lia.
Qed.

(** The loop of [Erase] that shifts the suffix left by one:
    [for (i = a; i < a + n; ++i) r[i] = std::move(r[i + 1]);]. *)
Lemma shift_left_loop L V r l body n :
  (∀ i W, body i W = SimpleVector.assign_moved r i r (i + 1) W) →
  owner_at L V r = Some {| raw_ptr_ := Ptr l 0 |} →
  ∀ a B b,
  B !! l = Some b → (N.to_nat a + n < length b)%nat →
  ∃ b',
    for_loop n a body (World B L V) = Ret () (World (<[l := b']> B) L V)
    ∧ length b' = length b
    ∧ ∀ k, (k < N.to_nat a ∨ N.to_nat a + n < k → b' !! k = b !! k)%nat
         ∧ (N.to_nat a ≤ k < N.to_nat a + n → b' !! k = b !! (S k))%nat.
Proof.
  intros Hbody Hr. induction n as [|n IH]; intros a B b Hb Hn.
  - exists b. split_and!; try done.
    + simpl. unfold mret, M_ret. by rewrite insert_id.
    + intros k. split; [done|lia].
  - destruct (lookup_lt_is_Some_2 b (N.to_nat (a + 1))) as [x Hx]; [lia|].
    set (b1 := <[N.to_nat (a + 1) := moved_from x]> (<[N.to_nat a := x]> b)).
    destruct (IH (a + 1) (<[l := b1]> B) b1) as (b' & Hrun & Hlen & Hk).
    { by rewrite lookup_insert_eq. }
    { unfold b1. rewrite !length_insert. lia. }
    exists b'. split_and!.
    + simpl. eapply bind_Ret.
      { rewrite Hbody. eapply assign_moved_within; eauto. lia. }
      fold b1. rewrite Hrun. by rewrite insert_insert_eq.
    + rewrite Hlen. unfold b1. by rewrite !length_insert.
    + intros k. destruct (Hk k) as [Hk1 Hk2]. unfold b1 in *. split; intros Hr'.
      * rewrite Hk1 by lia. by rewrite !list_lookup_insert_ne by lia.
      * destruct (decide (k = N.to_nat a)) as [->|].
        -- rewrite Hk1 by lia. rewrite list_lookup_insert_ne by lia.
           rewrite list_lookup_insert_eq by lia. rewrite <- Hx. f_equal. lia.
        -- rewrite Hk2 by lia. by rewrite !list_lookup_insert_ne by lia.
Qed.

(** The same loop run past the end of the array, or without an array. *)
Lemma shift_left_overrun L V r p body n :
  (∀ i W, body i W = SimpleVector.assign_moved r i r (i + 1) W) →
  owner_at L V r = Some {| raw_ptr_ := p |} →
  ∀ a B,
  (0 < n)%nat →
  match p with
  | nullptr => True
  | Ptr l i => i = 0 ∧ ∃ b, B !! l = Some b ∧ (length b ≤ N.to_nat a + n)%nat
  end →
  for_loop n a body (World B L V) = Undef.
Proof.
  intros Hbody Hr. induction n as [|n IH]; intros a B Hn Hp; [lia|].
  simpl. destruct p as [|l i].
  - apply bind_Undef. rewrite Hbody. apply bind_Undef.
    eapply bind_Ret; [by apply get_owner_eq|done].
  - destruct Hp as (-> & b & Hb & Hlen).
    destruct (decide (N.to_nat (a + 1) < length b)%nat) as [Hin|Hout].
    + destruct (lookup_lt_is_Some_2 b (N.to_nat (a + 1))) as [x Hx]; [lia|].
      eapply bind_Ret.
      { rewrite Hbody. eapply assign_moved_within; eauto. lia. }
      apply IH; [lia|]. split; [done|]. eexists. rewrite lookup_insert_eq.
      split; [done|]. rewrite !length_insert. lia.
    + apply bind_Undef. rewrite Hbody. apply bind_Undef.
      eapply index_out_of_bounds; eauto. lia.
Qed.

Lemma size_sub_0 n : n ≤ PTRDIFF_MAX → size_sub n 0 = n.
Proof.
  unfold PTRDIFF_MAX, size_sub, to_size_t. intros Hc.
  rewrite Z.mod_small by lia. lia.
Qed.

Lemma begin_eq B L V this s :
  V !! this = Some s →
  SimpleVector.begin this (World B L V) = Ret (raw_ptr_ (items_ s)) (World B L V).
Proof.
  intros Hs. eapply bind_Ret; [|done]. apply get_owner_eq. simpl. by rewrite Hs.
Qed.

Lemma ptr_diff_position w this s k :
  wf_world w → vecs w !! this = Some s → k ≤ capacity_ s →
  (raw_ptr_ (items_ s) = nullptr → k = 0) →
  ptr_diff (position s k) (raw_ptr_ (items_ s)) w = Ret k w.
Proof.
  intros Hw Hs Hk Hnull. destruct (wf_bounds _ _ _ Hw Hs) as [_ Hmax].
  unfold position. destruct (raw_ptr_ (items_ s)) as [|l i] eqn:Hp.
  - by rewrite Hnull.
  - destruct (wf_owned _ _ _ _ _ Hw Hs Hp) as (-> & b & Hb & Hlen).
    unfold ptr_diff. rewrite Hb. rewrite decide_True by done.
    destruct (N.leb_spec (0 + k) (N.of_nat (length b))); [|lia].
    destruct (N.leb_spec 0 (N.of_nat (length b))); [|lia].
    simpl. rewrite size_sub_0 by lia. done.
Qed.

(** A pointer [begin()] can be subtracted from is [begin() + k] for some
    [k] up to the capacity. *)
Lemma ptr_diff_inv w this s pos k w' :
  wf_world w → vecs w !! this = Some s →
  ptr_diff pos (raw_ptr_ (items_ s)) w = Ret k w' →
  w' = w ∧ pos = position s k ∧ k ≤ capacity_ s
  ∧ (raw_ptr_ (items_ s) = nullptr → k = 0).
Proof.
  intros Hw Hs. destruct (wf_bounds _ _ _ Hw Hs) as [_ Hmax].
  unfold position, ptr_diff.
  destruct pos as [|l2 j], (raw_ptr_ (items_ s)) as [|l i] eqn:Hp; try done.
  - intros [= <- <-]. split_and!; try done. lia.
  - destruct (wf_owned _ _ _ _ _ Hw Hs Hp) as (-> & b & Hb & Hlen).
    destruct (blocks w !! l2) as [b2|] eqn:Hb2; [|done].
    case_decide; [subst l2|done]. simplify_eq.
    destruct (N.leb_spec j (N.of_nat (length b))); [|done].
    destruct (N.leb_spec 0 (N.of_nat (length b))); [|done]. simpl.
    intros [= <- <-]. rewrite size_sub_0 by lia. split_and!; try done. lia.
Qed.

Lemma ptr_add_eq B L V l b k :
  B !! l = Some b → k ≤ N.of_nat (length b) →
  ptr_add (Ptr l 0) k (World B L V) = Ret (Ptr l k) (World B L V).
Proof.
  intros Hb Hk. unfold ptr_add; simpl. rewrite Hb.
  destruct (N.leb_spec (0 + k) (N.of_nat (length b))); [done|lia].
Qed.

Lemma lookup_inserted_at (l : list T) (k : nat) x j :
  (k ≤ length l)%nat →
  (take k l ++ x :: drop k l) !! j
  = if decide (j < k)%nat then l !! j
    else if decide (j = k) then Some x else l !! (j - 1)%nat.
Proof.
  intros Hk. rewrite lookup_app, lookup_take, length_take_le by done.
  repeat case_decide; try lia.
  - destruct (l !! j) eqn:Hj; [done|]. apply lookup_ge_None in Hj. lia.
  - subst j. by rewrite Nat.sub_diag.
  - destruct (j - k)%nat as [|m] eqn:Hm; [lia|]. simpl.
    rewrite lookup_drop. f_equal. lia.
Qed.

Lemma Emplace_arg_spec w this s k a x :
  wf_world w → vecs w !! this = Some s → k ≤ size_ s →
  let c' := if size_ s <? capacity_ s then capacity_ s
            else if capacity_ s =? 0 then 1 else 2 * capacity_ s in
  if (size_ s <? capacity_ s) || grants w c' then
    supplies w this a x →
    ∃ w' l',
      let s' := {| size_ := size_ s + 1; capacity_ := c';
                   items_ := {| raw_ptr_ := Ptr l' 0 |} |} in
      SimpleVector.Emplace this (position s k) a w = Ret (Ptr l' k) w'
      ∧ updates this s' (moved a w) w'
      ∧ elements w' s'
        = take (N.to_nat k) (elements w s) ++ x :: drop (N.to_nat k) (elements w s)
  else SimpleVector.Emplace this (position s k) a w = Throw bad_alloc w.
Proof.
  intros Hw Hs Hk c'.
  destruct (wf_bounds _ _ _ Hw Hs) as [Hle Hmax].
  pose proof (wf_deletable _ _ _ Hw Hs) as Hdel.
  assert (Hdiff := ptr_diff_position w this s k Hw Hs).
  pose proof (wf_moved w a Hw) as Hwa.
  pose proof Hw as (HL & Hwf & _).
  destruct w as [B L V]; simpl in *; subst L.
  rewrite moved_eq in *.
  unfold SimpleVector.Emplace.
  destruct s as [n c [p]]; simpl in *.
  assert (Hhead : ∀ (K : N → M T ptr) r,
    K k (World B ∅ V) = r →
    (first ← SimpleVector.begin this; offset ← ptr_diff (position
       {| size_ := n; capacity_ := c; items_ := {| raw_ptr_ := p |} |} k) first;
     K offset) (World B ∅ V) = r).
  { intros K r HK. eapply bind_Ret; [by eapply begin_eq|]. simpl.
    eapply bind_Ret; [|exact HK]. apply Hdiff; [lia|].
    intros ->. destruct (Hwf _ _ Hs) as (_ & _ & Hc); simpl in Hc. lia. }
  destruct (N.ltb_spec n c) as [Hlt|Hge]; simpl.
  - (* room left: shift in place *)
    intros Ha.
    destruct p as [|l i].
    { destruct (Hwf _ _ Hs) as (_ & _ & Hc); simpl in Hc. lia. }
    destruct (wf_owned _ _ _ _ _ Hw Hs eq_refl) as (-> & b & Hb & Hlen);
      simpl in *.
    pose proof (supplies_outside _ _ _ _ _ _ _ Ha Hs eq_refl) as Hout.
    assert (Hb' : taken a B !! l = Some b) by (by rewrite taken_lookup_ne).
    destruct (shift_right_loop ∅ V (Member this) l
                (λ i, SimpleVector.assign_moved (Member this) i (Member this) (i - 1))
                (N.to_nat (n - k))) with (a := n) (B := B) (b := b)
      as (b1 & Hloop & Hl1 & Hb1); try done.
    { simpl. by rewrite Hs. }
    { lia. }
    { lia. }
    eexists _, l. split_and!.
    + apply Hhead.
      eapply bind_Ret; [by eapply get_size_eq|].
      eapply bind_Ret; [by eapply get_capacity_eq|]. simpl.
      destruct (N.leb_spec c n) as [|_]; [lia|].
      eapply bind_Ret.
      { eapply bind_Ret; [apply Hloop|].
        eapply bind_Ret.
        { eapply construct_eq; [done|]. intros l0 Hl0. simpl.
          rewrite lookup_insert_ne; [done|]. intros Heq. by rewrite <- Heq in Hl0. }
        rewrite taken_insert by done.
        eapply assign_item_eq; [done|done|by rewrite lookup_insert_eq|lia]. }
      eapply bind_Ret; [by eapply set_size_eq|]. simpl.
      eapply bind_Ret; [eapply begin_eq; by rewrite lookup_insert_eq|]. simpl.
      rewrite size_add_1 by lia. rewrite insert_insert_eq.
      eapply ptr_add_eq; [by rewrite lookup_insert_eq|].
      rewrite length_insert. lia.
    + subst c'.
      eapply (updates_in_place (World (taken a B) ∅ V) this
                {| size_ := n; capacity_ := c; items_ := {| raw_ptr_ := Ptr l 0 |} |}
                l b); simpl; eauto.
      * by rewrite length_insert.
      * lia.
    + unfold elements, buffer; simpl. rewrite lookup_insert_eq, Hb; simpl.
      apply list_eq; intros j.
      rewrite lookup_inserted_at by (rewrite length_take; lia).
      rewrite !lookup_take. destruct (Hb1 j) as [Hj1 Hj2].
      destruct (decide (j = N.to_nat k)) as [->|Hjk].
      * repeat case_decide; try lia. apply list_lookup_insert_eq. lia.
      * rewrite list_lookup_insert_ne by done.
        repeat case_decide; try lia.
        -- apply Hj1. lia.
        -- apply Hj2. lia.
        -- done.
  - (* full: relocate around the new element *)
    assert (n = c) as -> by lia.
    assert (Hc' : (if c =? 0 then 1 else size_mul c 2) = c').
    { subst c'. destruct (c =? 0); [done|]. by apply size_mul_2. }
    assert (c < c') by (subst c'; destruct (N.eqb_spec c 0); lia).
    assert (c' ≠ 0) by lia.
    destruct (grants _ c') eqn:Hg.
    + intros Ha.
      set (l' := fresh (dom B)). set (o := fresh (dom (∅ : gmap positive ArrayPtr))).
      assert (Hfresh : B !! l' = None) by apply fresh_block_None.
      assert (Hfresh' : taken a B !! l' = None).
      { apply not_elem_of_dom. rewrite dom_taken. by apply not_elem_of_dom. }
      assert (Hnew : block_of a ≠ Some l').
      { intros Hl'. destruct (supplies_alive _ _ _ _ _ Ha Hl') as [? Hb].
        simpl in Hb. congruence. }
      assert (∃ nb, N.of_nat (length nb) = c' ∧
         (∀ j, (j < N.to_nat (c + 1))%nat →
               nb !! j = (take (N.to_nat k) (elements (World B ∅ V)
                   {| size_ := c; capacity_ := c; items_ := {| raw_ptr_ := p |} |})
                 ++ x :: drop (N.to_nat k) (elements (World B ∅ V)
                   {| size_ := c; capacity_ := c; items_ := {| raw_ptr_ := p |} |})) !! j) ∧
         (SimpleVector.Emplace this (position
             {| size_ := c; capacity_ := c; items_ := {| raw_ptr_ := p |} |} k) a
            (World B ∅ V) =
          Ret (Ptr l' k)
            (World (<[l' := nb]> (release p (taken a B))) ∅
               (<[this := {| size_ := c + 1; capacity_ := c';
                             items_ := {| raw_ptr_ := Ptr l' 0 |} |}]> V))))
        as (nb & Hlen & Hel & Hrun).
      { destruct p as [|l i].
        - (* no array yet *)
          destruct (Hwf _ _ Hs) as (_ & _ & Hc); simpl in Hc. subst c.
          assert (k = 0) as -> by lia.
          exists (<[0%nat := x]> (fresh_block c')).
          rewrite length_insert, length_fresh_block.
          split_and!; [lia| |].
          { intros j Hj. assert (j = 0%nat) as -> by lia.
            rewrite list_lookup_insert_eq; [done|].
            rewrite length_fresh_block. lia. }
          apply Hhead.
          eapply bind_Ret; [by eapply get_size_eq|].
          eapply bind_Ret; [by eapply get_capacity_eq|]. simpl.
          eapply bind_Ret.
          { eapply bind_Ret; [by apply local_ctor_size_eq|].
            eapply bind_Ret; [done|].
            eapply bind_Ret.
            { eapply bind_Ret.
              { eapply construct_eq; [done|]. intros l0 Hl0. simpl.
                rewrite lookup_insert_ne; [done|].
                intros Heq. by rewrite <- Heq in Hl0. }
              rewrite taken_insert by done.
              eapply bind_Ret.
              - eapply index_eq; [simpl; by rewrite lookup_insert_eq|
                  by rewrite lookup_insert_eq|].
                rewrite length_fresh_block. lia.
              - eapply write_eq; [by rewrite lookup_insert_eq|].
                rewrite length_fresh_block. lia. }
            eapply bind_Ret; [done|].
            eapply commit_eq; [done|by rewrite lookup_insert_eq|done]. }
          simpl. rewrite delete_insert_eq, delete_empty.
          eapply bind_Ret; [eapply set_size_eq; by rewrite lookup_insert_eq|].
          eapply bind_Ret; [eapply begin_eq; by rewrite lookup_insert_eq|].
          cbn [raw_ptr_ items_].
          erewrite ptr_add_eq; [|by rewrite lookup_insert_eq|lia].
          f_equal. f_equal; map_ext.
        - destruct (wf_owned _ _ _ _ _ Hw Hs eq_refl) as (-> & b & Hb & Hlen);
            simpl in *.
          pose proof (supplies_outside _ _ _ _ _ _ _ Ha Hs eq_refl) as Hout.
          assert (l ≠ l') by congruence.
          set (L1 := {[o := {| raw_ptr_ := Ptr l' 0 |}]} : gmap positive ArrayPtr).
          assert (Hrs : owner_at L1 V (Member this) = Some {| raw_ptr_ := Ptr l 0 |})
            by (simpl; by rewrite Hs).
          assert (Hrd : owner_at L1 V (Local o) = Some {| raw_ptr_ := Ptr l' 0 |})
            by apply lookup_singleton_eq.
          (* the prefix *)
          destruct (move_loop L1 V (Local o) (Member this) l' l
                      (λ i, SimpleVector.assign_moved (Local o) i (Member this) i)
                      0 (N.to_nat k)) with (a := 0) (B := <[l' := fresh_block c']> B)
                      (bs := b) (bd := fresh_block c')
            as (bs1 & nb1 & Hloop1 & Hls1 & Hln1 & Hsrc1 & Hdst1);
            [by intros i W; rewrite N.add_0_r|done|done|done
            |by rewrite lookup_insert_ne|by rewrite lookup_insert_eq|lia
            |rewrite length_fresh_block; lia|].
          rewrite length_fresh_block in Hln1.
          (* the suffix *)
          set (B2 := <[l' := <[N.to_nat k := x]> nb1]>
                       (<[l := bs1]> (<[l' := nb1]>
                          (<[l' := fresh_block c']> (taken a B))))).
          destruct (move_loop L1 V (Local o) (Member this) l' l
                      (λ i, SimpleVector.assign_moved (Local o) (i + 1) (Member this) i)
                      1 (N.to_nat (c - k))) with (a := k) (B := B2)
                      (bs := bs1) (bd := <[N.to_nat k := x]> nb1)
            as (bs2 & nb2 & Hloop2 & Hls2 & Hln2 & Hsrc2 & Hdst2);
            [done|done|done|done
            |by unfold B2; rewrite lookup_insert_ne, lookup_insert_eq
            |by unfold B2; rewrite lookup_insert_eq|lia
            |rewrite length_insert; lia|].
          rewrite length_insert in Hln2.
          exists nb2. split_and!; [lia| |].
          { intros j Hj. unfold elements, buffer; simpl. rewrite Hb; simpl.
            rewrite lookup_inserted_at by (rewrite length_take; lia).
            rewrite !lookup_take. rewrite Hdst2.
            destruct (decide (j = N.to_nat k)) as [->|Hjk].
            - repeat case_decide; try lia. apply list_lookup_insert_eq. lia.
            - rewrite list_lookup_insert_ne by done. rewrite Hdst1.
              repeat case_decide; try lia;
                first [ rewrite Hsrc1 by lia; f_equal; lia | f_equal; lia ]. }
          apply Hhead.
          eapply bind_Ret; [by eapply get_size_eq|].
          eapply bind_Ret; [by eapply get_capacity_eq|]. simpl.
          destruct (N.leb_spec c c) as [_|]; [|lia]. rewrite Hc'.
          eapply bind_Ret.
          { eapply bind_Ret; [by apply local_ctor_size_eq|].
            fold l' o. rewrite insert_empty. fold L1.
            eapply bind_Ret.
            { unfold for_upto. rewrite N.sub_0_r. apply Hloop1. }
            eapply bind_Ret.
            { eapply bind_Ret.
              { eapply construct_eq; [done|]. intros l0 Hl0. simpl.
                rewrite !lookup_insert_ne; [done|..];
                  intros Heq; by rewrite <- Heq in Hl0. }
              rewrite !taken_insert by done.
              eapply bind_Ret.
              - eapply index_eq; [apply lookup_singleton_eq| |].
                + by rewrite lookup_insert_ne, lookup_insert_eq.
                + lia.
              - eapply write_eq; [by rewrite lookup_insert_ne, lookup_insert_eq|lia]. }
            eapply bind_Ret.
            { unfold for_upto. rewrite insert_insert_ne by done.
              rewrite insert_insert_eq.
              replace (<[l:=bs1]> (<[l':=<[N.to_nat k:=x]> nb1]>
                         (<[l':=fresh_block c']> (taken a B)))) with B2; [apply Hloop2|].
              unfold B2. map_ext. }
            eapply commit_eq; [done|apply lookup_singleton_eq|].
            simpl. split; [done|]. rewrite lookup_insert_eq. eauto. }
          simpl. unfold L1. rewrite delete_singleton_eq.
          eapply bind_Ret; [eapply set_size_eq; by rewrite lookup_insert_eq|].
          eapply bind_Ret; [eapply begin_eq; by rewrite lookup_insert_eq|].
          cbn [raw_ptr_ items_ size_ capacity_].
          rewrite size_add_1 by lia.
          erewrite ptr_add_eq.
          + f_equal. f_equal; [|map_ext]. unfold B2. map_ext.
          + rewrite lookup_delete_ne, lookup_insert_ne, lookup_insert_eq by done.
            done.
          + lia. }
      simpl. eexists _, l'. split_and!; [exact Hrun| |].
      * eapply (updates_grow (World (taken a B) ∅ V) this
                  {| size_ := c; capacity_ := c; items_ := {| raw_ptr_ := p |} |} l');
          simpl; eauto.
        -- lia.
        -- unfold grants in Hg. apply andb_true_iff in Hg as [Hg _].
           by apply N.leb_le in Hg.
      * unfold elements at 1, buffer; simpl. rewrite lookup_insert_eq; simpl.
        apply list_eq; intros j. rewrite lookup_take.
        case_decide as Hj; [by apply Hel|].
        symmetry. apply lookup_ge_None.
        rewrite length_app; simpl. rewrite length_take, length_drop.
        assert (length (elements (World B ∅ V)
           {| size_ := c; capacity_ := c; items_ := {| raw_ptr_ := p |} |})
           ≤ N.to_nat c)%nat; [|lia].
        unfold elements; simpl. rewrite length_take. lia.
    + simpl. apply Hhead.
      eapply bind_Ret; [by eapply get_size_eq|].
      eapply bind_Ret; [by eapply get_capacity_eq|]. simpl.
      destruct (N.leb_spec c c) as [_|]; [|lia]. rewrite Hc'.
      apply bind_Throw, bind_Throw. by apply local_ctor_size_fail.
Qed.

Lemma Emplace_spec w this s k x :
  wf_world w → vecs w !! this = Some s → k ≤ size_ s →
  let c' := if size_ s <? capacity_ s then capacity_ s
            else if capacity_ s =? 0 then 1 else 2 * capacity_ s in
  if (size_ s <? capacity_ s) || grants w c' then
    ∃ w' l',
      let s' := {| size_ := size_ s + 1; capacity_ := c';
                   items_ := {| raw_ptr_ := Ptr l' 0 |} |} in
      SimpleVector.Emplace this (position s k) (Value x) w = Ret (Ptr l' k) w'
      ∧ updates this s' w w'
      ∧ elements w' s'
        = take (N.to_nat k) (elements w s) ++ x :: drop (N.to_nat k) (elements w s)
  else SimpleVector.Emplace this (position s k) (Value x) w = Throw bad_alloc w.
Proof.
  intros Hw Hs Hk.
  pose proof (Emplace_arg_spec w this s k (Value x) x Hw Hs Hk) as Hspec.
  simpl in *. destruct (_ || _); [|done]. apply Hspec, supplies_Value.
Qed.

Lemma lookup_app_replicate (l : list T) (m : nat) c j :
  (l ++ replicate m c) !! j
  = if decide (j < length l)%nat then l !! j
    else if decide (j < length l + m)%nat then Some c else None.
Proof.
  rewrite lookup_app. repeat case_decide.
  - destruct (l !! j) eqn:Hj; [done|]. apply lookup_ge_None in Hj. lia.
  - rewrite lookup_ge_None_2 by lia. apply lookup_replicate_2. lia.
  - rewrite lookup_ge_None_2 by lia. apply lookup_ge_None.
    rewrite length_replicate. lia.
Qed.

Lemma length_elements w s :
  wf_world w → ∀ v, vecs w !! v = Some s →
  length (elements w s) = N.to_nat (size_ s).
Proof.
  intros Hw v Hs. destruct (wf_bounds _ _ _ Hw Hs) as [Hle _].
  unfold elements, buffer. rewrite length_take.
  destruct (raw_ptr_ (items_ s)) as [|l i] eqn:Hp.
  - destruct Hw as (_ & Hwf & _). destruct (Hwf _ _ Hs) as (_ & _ & Hc).
    rewrite Hp in Hc. simpl. lia.
  - destruct (wf_owned _ _ _ _ _ Hw Hs Hp) as (_ & b & -> & Hlen). simpl. lia.
Qed.

Lemma Reserve_spec w this s nc :
  wf_world w → vecs w !! this = Some s →
  if nc <=? capacity_ s then SimpleVector.Reserve this nc w = Ret () w
  else if grants w nc then
    ∃ w' l',
      let s' := {| size_ := size_ s; capacity_ := nc;
                   items_ := {| raw_ptr_ := Ptr l' 0 |} |} in
      SimpleVector.Reserve this nc w = Ret () w'
      ∧ updates this s' w w'
      ∧ elements w' s' = elements w s
      ∧ blocks w !! l' = None
  else SimpleVector.Reserve this nc w = Throw bad_alloc w.
Proof.
  intros Hw Hs.
  destruct (wf_bounds _ _ _ Hw Hs) as [Hle Hmax].
  pose proof (wf_deletable _ _ _ Hw Hs) as Hdel.
  pose proof Hw as (HL & Hwf & _).
  destruct w as [B L V]; simpl in *; subst L.
  unfold SimpleVector.Reserve.
  destruct s as [n c [p]]; simpl in *.
  destruct (N.leb_spec nc c) as [Hnc|Hnc].
  { eapply bind_Ret; [by eapply get_capacity_eq|]. simpl.
    by destruct (N.leb_spec nc c) as [_|]; [|lia]. }
  assert (nc ≠ 0) by lia.
  destruct (grants _ nc) eqn:Hg.
  - set (l' := fresh (dom B)). set (o := fresh (dom (∅ : gmap positive ArrayPtr))).
    assert (Hfresh : B !! l' = None) by apply fresh_block_None.
    assert (∃ nb, N.of_nat (length nb) = nc ∧
       take (N.to_nat n) nb = elements (World B ∅ V)
          {| size_ := n; capacity_ := c; items_ := {| raw_ptr_ := p |} |} ∧
       SimpleVector.Reserve this nc (World B ∅ V) =
        Ret () (World (<[l' := nb]> (release p B)) ∅
             (<[this := {| size_ := n; capacity_ := nc;
                           items_ := {| raw_ptr_ := Ptr l' 0 |} |}]> V)))
      as (nb & Hlen & Hel & Hrun).
    { destruct p as [|l i].
      - destruct (Hwf _ _ Hs) as (_ & _ & Hc); simpl in Hc. subst c.
        assert (n = 0) as -> by lia.
        exists (fresh_block nc). rewrite length_fresh_block.
        split_and!; [lia|done|].
        eapply bind_Ret; [by eapply get_capacity_eq|]. simpl.
        destruct (N.leb_spec nc 0) as [|_]; [lia|].
        eapply bind_Ret; [by apply local_ctor_size_eq|].
        eapply bind_Ret; [by eapply get_size_eq|].
        eapply bind_Ret; [done|].
        erewrite commit_eq; [|done|by rewrite lookup_insert_eq|done].
        simpl. by rewrite delete_insert_eq, delete_empty.
      - destruct (wf_owned _ _ _ _ _ Hw Hs eq_refl) as (-> & b & Hb & Hlen);
          simpl in *.
        assert (l ≠ l') by congruence.
        destruct (relocate_loop (<[l' := fresh_block nc]> B) V this
                    {| size_ := n; capacity_ := c;
                       items_ := {| raw_ptr_ := Ptr l 0 |} |} o l l' b
                    (fresh_block nc) n
                    (λ i, SimpleVector.assign_moved (Local o) i (Member this) i))
          as (b' & nb & Hloop & Hl1 & Hl2 & Htake & _);
          [done|done|done|done|by rewrite lookup_insert_ne
          |by rewrite lookup_insert_eq|lia|rewrite length_fresh_block; lia|].
        rewrite length_fresh_block in Hl2.
        exists nb. split_and!; [lia| |].
        { rewrite Htake. unfold elements, buffer; simpl. by rewrite Hb. }
        eapply bind_Ret; [by eapply get_capacity_eq|]. simpl.
        destruct (N.leb_spec nc c) as [|_]; [lia|].
        eapply bind_Ret; [by apply local_ctor_size_eq|].
        fold l' o. rewrite insert_empty.
        eapply bind_Ret; [by eapply get_size_eq|]. simpl.
        eapply bind_Ret; [apply Hloop|].
        erewrite commit_eq; [|done|apply lookup_singleton_eq|].
        + simpl. rewrite delete_singleton_eq. f_equal. f_equal. map_ext.
        + simpl. split; [done|]. rewrite lookup_insert_eq. eauto. }
    simpl. eexists _, l'. split_and!; [exact Hrun| | |exact Hfresh].
    + eapply (updates_grow (World B ∅ V) this
                {| size_ := n; capacity_ := c; items_ := {| raw_ptr_ := p |} |} l');
        simpl; eauto.
      * lia.
      * unfold grants in Hg. apply andb_true_iff in Hg as [Hg _].
        by apply N.leb_le in Hg.
    + unfold elements at 1, buffer; simpl. by rewrite lookup_insert_eq.
  - eapply bind_Ret; [by eapply get_capacity_eq|]. simpl.
    destruct (N.leb_spec nc c) as [|_]; [lia|].
    apply bind_Throw. by apply local_ctor_size_fail.
Qed.

(** [items_.swap(new_items); size_ = n; capacity_ = n;] and the end of the
    scope of [new_items]. *)
Lemma commit_resize_eq B L V this s o l' n :
  V !! this = Some s → L !! o = Some {| raw_ptr_ := Ptr l' 0 |} →
  deletable B (raw_ptr_ (items_ s)) →
  (ArrayPtr.swap (Member this) (Local o);;
   set_size this n;;
   set_capacity this n;;
   ArrayPtr.destroy_local (Local o)) (World B L V)
  = Ret () (World (release (raw_ptr_ (items_ s)) B) (delete o L)
              (<[this := {| size_ := n; capacity_ := n;
                            items_ := {| raw_ptr_ := Ptr l' 0 |} |}]> V)).
Proof.
  intros Hs Ho Hp.
  eapply bind_Ret; [by eapply swap_member_local|].
  eapply bind_Ret; [eapply set_size_eq; by rewrite lookup_insert_eq|].
  eapply bind_Ret; [eapply set_capacity_eq; by rewrite lookup_insert_eq|].
  erewrite destroy_local_eq; [|by rewrite lookup_insert_eq|done].
  simpl. f_equal. f_equal; map_ext.
Qed.

Lemma Resize_spec w this s n' :
  wf_world w → vecs w !! this = Some s →
  if n' <=? size_ s then
    ∃ w',
      let s' := {| size_ := n'; capacity_ := capacity_ s; items_ := items_ s |} in
      SimpleVector.Resize this n' w = Ret () w'
      ∧ updates this s' w w'
      ∧ elements w' s' = take (N.to_nat n') (elements w s)
  else if n' <=? capacity_ s then
    ∃ w',
      let s' := {| size_ := n'; capacity_ := capacity_ s; items_ := items_ s |} in
      SimpleVector.Resize this n' w = Ret () w'
      ∧ updates this s' w w'
      ∧ elements w' s'
        = elements w s ++ replicate (N.to_nat (n' - size_ s)) default_value
  else if grants w n' then
    ∃ w' l',
      let s' := {| size_ := n'; capacity_ := n';
                   items_ := {| raw_ptr_ := Ptr l' 0 |} |} in
      SimpleVector.Resize this n' w = Ret () w'
      ∧ updates this s' w w'
      ∧ elements w' s'
        = elements w s ++ replicate (N.to_nat (n' - size_ s)) default_value
      ∧ blocks w !! l' = None
  else SimpleVector.Resize this n' w = Throw bad_alloc w.
Proof.
  intros Hw Hs.
  destruct (wf_bounds _ _ _ Hw Hs) as [Hle Hmax].
  pose proof (wf_deletable _ _ _ Hw Hs) as Hdel.
  pose proof (length_elements _ _ Hw _ Hs) as Hels.
  pose proof Hw as (HL & Hwf & _).
  destruct w as [B L V]; simpl in *; subst L.
  unfold SimpleVector.Resize.
  destruct s as [n c [p]]; simpl in *.
  destruct (N.leb_spec n' n) as [Hn|Hn].
  { (* shrink *)
    eexists. split_and!.
    - eapply bind_Ret; [by eapply get_size_eq|]. simpl.
      destruct (N.leb_spec n' n) as [_|]; [|lia]. by eapply set_size_eq.
    - eapply (updates_size (World B ∅ V) this
                {| size_ := n; capacity_ := c; items_ := {| raw_ptr_ := p |} |});
        simpl; eauto. lia.
    - unfold elements, buffer; simpl. rewrite take_take. f_equal. lia. }
  destruct (N.leb_spec n' c) as [Hc|Hc].
  { (* grow in place *)
    destruct p as [|l i].
    { destruct (Hwf _ _ Hs) as (_ & _ & Hc0); simpl in Hc0. lia. }
    destruct (wf_owned _ _ _ _ _ Hw Hs eq_refl) as (-> & b & Hb & Hlen);
      simpl in *.
    destruct (fill_loop ∅ V (Member this) l default_value
                (λ i, SimpleVector.assign_item this i default_value)
                (N.to_nat (n' - n))) with (a := n) (B := B) (b := b)
      as (b' & Hloop & Hl & Hb');
      [done|by simpl; rewrite Hs|done|lia|].
    eexists. split_and!.
    - eapply bind_Ret; [by eapply get_size_eq|]. simpl.
      destruct (N.leb_spec n' n) as [|_]; [lia|].
      eapply bind_Ret; [by eapply get_capacity_eq|]. simpl.
      destruct (N.leb_spec n' c) as [_|]; [|lia].
      eapply bind_Ret; [apply Hloop|]. by eapply set_size_eq.
    - eapply (updates_in_place (World B ∅ V) this
                {| size_ := n; capacity_ := c; items_ := {| raw_ptr_ := Ptr l 0 |} |}
                l b); simpl; eauto.
    - unfold elements, buffer; simpl. rewrite lookup_insert_eq, Hb; simpl.
      apply list_eq; intros j.
      rewrite lookup_app_replicate, !lookup_take, length_take, Hb'.
      repeat case_decide; try lia; done. }
  assert (n' ≠ 0) by lia.
  destruct (grants _ n') eqn:Hg.
  - set (l' := fresh (dom B)). set (o := fresh (dom (∅ : gmap positive ArrayPtr))).
    assert (Hfresh : B !! l' = None) by apply fresh_block_None.
    set (L1 := {[o := {| raw_ptr_ := Ptr l' 0 |}]} : gmap positive ArrayPtr).
    assert (Hrd : owner_at L1 V (Local o) = Some {| raw_ptr_ := Ptr l' 0 |})
      by apply lookup_singleton_eq.
    assert (∃ nb, N.of_nat (length nb) = n' ∧
       (∀ j, nb !! j =
          (elements (World B ∅ V)
             {| size_ := n; capacity_ := c; items_ := {| raw_ptr_ := p |} |}
           ++ replicate (N.to_nat (n' - n)) default_value) !! j) ∧
       SimpleVector.Resize this n' (World B ∅ V) =
        Ret () (World (<[l' := nb]> (release p B)) ∅
             (<[this := {| size_ := n'; capacity_ := n';
                           items_ := {| raw_ptr_ := Ptr l' 0 |} |}]> V)))
      as (nb & Hlen & Hel & Hrun).
    { destruct p as [|l i].
      - destruct (Hwf _ _ Hs) as (_ & _ & Hc0); simpl in Hc0. subst c.
        assert (n = 0) as -> by lia.
        destruct (fill_loop L1 V (Local o) l' default_value
                (λ i, p ← ArrayPtr.index (Local o) i; write p default_value)
                (N.to_nat (n' - 0))) with (a := 0) (B := <[l' := fresh_block n']> B)
                (b := fresh_block n')
          as (nb & Hloop & Hl & Hnb);
          [done|done|by rewrite lookup_insert_eq|rewrite length_fresh_block; lia|].
        rewrite length_fresh_block in Hl.
        exists nb. split_and!; [lia| |].
        { intros j. rewrite Hnb.
          change (elements _ _) with (@nil T).
          rewrite (lookup_app_replicate []); simpl.
          repeat case_decide; try lia; try done.
          apply lookup_ge_None. rewrite length_fresh_block. lia. }
        eapply bind_Ret; [by eapply get_size_eq|]. simpl.
        destruct (N.leb_spec n' 0) as [|_]; [lia|].
        eapply bind_Ret; [by eapply get_capacity_eq|]. simpl.
        destruct (N.leb_spec n' 0) as [|_]; [lia|].
        eapply bind_Ret; [by apply local_ctor_size_eq|].
        fold l' o. rewrite insert_empty. fold L1.
        eapply bind_Ret; [done|].
        eapply bind_Ret; [apply Hloop|].
        erewrite commit_resize_eq; [|done|apply lookup_singleton_eq|done].
        simpl. unfold L1. rewrite delete_singleton_eq.
        by rewrite insert_insert_eq.
      - destruct (wf_owned _ _ _ _ _ Hw Hs eq_refl) as (-> & b & Hb & Hlen);
          simpl in *.
        assert (l ≠ l') by congruence.
        destruct (relocate_loop (<[l' := fresh_block n']> B) V this
                    {| size_ := n; capacity_ := c;
                       items_ := {| raw_ptr_ := Ptr l 0 |} |} o l l' b
                    (fresh_block n') n
                    (λ i, SimpleVector.assign_moved (Local o) i (Member this) i))
          as (b' & nb1 & Hloop1 & Hl1 & Hl2 & Htake & _);
          [done|done|done|done|by rewrite lookup_insert_ne
          |by rewrite lookup_insert_eq|lia|rewrite length_fresh_block; lia|].
        rewrite length_fresh_block in Hl2.
        destruct (fill_loop L1 V (Local o) l' default_value
                (λ i, p ← ArrayPtr.index (Local o) i; write p default_value)
                (N.to_nat (n' - n))) with (a := n)
                (B := <[l := b']> (<[l' := nb1]> (<[l' := fresh_block n']> B)))
                (b := nb1)
          as (nb & Hloop & Hl & Hnb);
          [done|done|by rewrite lookup_insert_ne, lookup_insert_eq|lia|].
        exists nb. split_and!; [lia| |].
        { intros j. rewrite Hnb. unfold elements, buffer; simpl. rewrite Hb; simpl.
          rewrite lookup_app_replicate, length_take, lookup_take.
          repeat case_decide; try lia; try done.
          - assert (take (N.to_nat n) nb1 !! j = take (N.to_nat n) b !! j)
              as Hj by (by rewrite Htake).
            by rewrite !lookup_take_lt in Hj by lia.
          - apply lookup_ge_None. lia. }
        eapply bind_Ret; [by eapply get_size_eq|]. simpl.
        destruct (N.leb_spec n' n) as [|_]; [lia|].
        eapply bind_Ret; [by eapply get_capacity_eq|]. simpl.
        destruct (N.leb_spec n' c) as [|_]; [lia|].
        eapply bind_Ret; [by apply local_ctor_size_eq|].
        fold l' o. rewrite insert_empty. fold L1.
        eapply bind_Ret; [apply Hloop1|].
        eapply bind_Ret; [apply Hloop|].
        erewrite commit_resize_eq; [|done|apply lookup_singleton_eq|].
        + simpl. unfold L1. rewrite delete_singleton_eq. f_equal. f_equal. map_ext.
        + simpl. split; [done|]. rewrite lookup_insert_ne, lookup_insert_eq by done.
          eauto. }
    simpl. eexists _, l'. split_and!; [exact Hrun| | |exact Hfresh].
    + eapply (updates_grow (World B ∅ V) this
                {| size_ := n; capacity_ := c; items_ := {| raw_ptr_ := p |} |} l');
        simpl; eauto; try lia.
      unfold grants in Hg. apply andb_true_iff in Hg as [Hg _].
      by apply N.leb_le in Hg.
    + unfold elements at 1, buffer; simpl. rewrite lookup_insert_eq; simpl.
      rewrite take_ge by lia. apply list_eq; intros j. apply Hel.
  - eapply bind_Ret; [by eapply get_size_eq|]. simpl.
    destruct (N.leb_spec n' n) as [|_]; [lia|].
    eapply bind_Ret; [by eapply get_capacity_eq|]. simpl.
    destruct (N.leb_spec n' c) as [|_]; [lia|].
    apply bind_Throw. by apply local_ctor_size_fail.
Qed.

Lemma PopBack_spec w this s :
  wf_world w → vecs w !! this = Some s →
  if 0 <? size_ s then
    ∃ w',
      let s' := {| size_ := size_ s - 1; capacity_ := capacity_ s;
                   items_ := items_ s |} in
      SimpleVector.PopBack this w = Ret () w'
      ∧ updates this s' w w'
      ∧ elements w' s' = take (N.to_nat (size_ s - 1)) (elements w s)
  else SimpleVector.PopBack this w = Ret () w.
Proof.
  intros Hw Hs. destruct (wf_bounds _ _ _ Hw Hs) as [Hle Hmax].
  destruct w as [B L V]; simpl in *.
  unfold SimpleVector.PopBack.
  destruct (N.ltb_spec 0 (size_ s)) as [Hn|Hn].
  - eexists. split_and!.
    + eapply bind_Ret; [by eapply get_size_eq|]. simpl.
      destruct (N.ltb_spec 0 (size_ s)) as [_|]; [|lia].
      rewrite size_sub_1 by lia. by eapply set_size_eq.
    + eapply (updates_size (World B L V) this s); eauto. lia.
    + unfold elements, buffer; simpl. rewrite take_take. f_equal. lia.
  - eapply bind_Ret; [by eapply get_size_eq|]. simpl.
    by destruct (N.ltb_spec 0 (size_ s)) as [|_]; [lia|].
Qed.

Lemma Clear_spec w this s :
  wf_world w → vecs w !! this = Some s →
  ∃ w',
    let s' := {| size_ := 0; capacity_ := capacity_ s; items_ := items_ s |} in
    SimpleVector.Clear this w = Ret () w'
    ∧ updates this s' w w'
    ∧ elements w' s' = [].
Proof.
  intros Hw Hs. destruct w as [B L V]; simpl in *.
  eexists. split_and!.
  - by eapply set_size_eq.
  - eapply (updates_size (World B L V) this s); eauto. lia.
  - done.
Qed.

(** The element a valid index designates. *)
Lemma lookup_elements w v s i :
  wf_world w → vecs w !! v = Some s → i < size_ s →
  ∃ l b x, raw_ptr_ (items_ s) = Ptr l 0 ∧ blocks w !! l = Some b
           ∧ i < N.of_nat (length b)
           ∧ b !! N.to_nat i = Some x ∧ elements w s !! N.to_nat i = Some x.
Proof.
  intros Hw Hs Hi. destruct (wf_bounds _ _ _ Hw Hs) as [Hle Hmax].
  destruct (raw_ptr_ (items_ s)) as [|l j] eqn:Hp.
  - destruct Hw as (_ & Hwf & _). destruct (Hwf _ _ Hs) as (_ & _ & Hc).
    rewrite Hp in Hc. lia.
  - destruct (wf_owned _ _ _ _ _ Hw Hs Hp) as (-> & b & Hb & Hlen).
    destruct (lookup_lt_is_Some_2 b (N.to_nat i)) as [x Hx]; [lia|].
    exists l, b, x. split_and!; try done; [lia|].
    unfold elements, buffer. rewrite Hp, Hb; simpl.
    rewrite lookup_take_lt by lia. done.
Qed.

Lemma At_spec w this s i :
  wf_world w → vecs w !! this = Some s →
  if size_ s <=? i then SimpleVector.At this i w = Throw out_of_range w
  else ∃ l x,
    SimpleVector.At this i w = Ret (Ptr l i) w
    ∧ raw_ptr_ (items_ s) = Ptr l 0
    ∧ read (Ptr l i) w = Ret x w
    ∧ elements w s !! N.to_nat i = Some x.
Proof.
  intros Hw Hs. unfold SimpleVector.At.
  destruct (N.leb_spec (size_ s) i) as [Hi|Hi].
  - destruct w as [B L V]; simpl in *.
    eapply bind_Ret; [by eapply get_size_eq|]. simpl.
    by destruct (N.leb_spec (size_ s) i) as [_|]; [|lia].
  - destruct (lookup_elements _ _ _ _ Hw Hs Hi) as (l & b & x & Hp & Hb & Hl & Hx & He).
    destruct w as [B L V]; simpl in *.
    exists l, x. split_and!; try done.
    + eapply bind_Ret; [by eapply get_size_eq|]. simpl.
      destruct (N.leb_spec (size_ s) i) as [|_]; [lia|].
      eapply index_eq; eauto. simpl. rewrite Hs; simpl.
      destruct (items_ s); simpl in *; by subst.
    + by eapply read_eq.
Qed.

Lemma at_index_spec w this s i :
  wf_world w → vecs w !! this = Some s →
  if i <? size_ s then
    ∃ l x,
      SimpleVector.at_index this i w = Ret (Ptr l i) w
      ∧ raw_ptr_ (items_ s) = Ptr l 0
      ∧ read (Ptr l i) w = Ret x w
      ∧ elements w s !! N.to_nat i = Some x
  else SimpleVector.at_index this i w = Undef.
Proof.
  intros Hw Hs. unfold SimpleVector.at_index.
  destruct (N.ltb_spec i (size_ s)) as [Hi|Hi].
  - destruct (lookup_elements _ _ _ _ Hw Hs Hi) as (l & b & x & Hp & Hb & Hl & Hx & He).
    destruct w as [B L V]; simpl in *.
    exists l, x. split_and!; try done.
    + eapply bind_Ret; [by eapply get_size_eq|]. simpl.
      destruct (N.ltb_spec i (size_ s)) as [_|]; [|lia].
      eapply index_eq; eauto. simpl. rewrite Hs; simpl.
      destruct (items_ s); simpl in *; by subst.
    + by eapply read_eq.
  - destruct w as [B L V]; simpl in *.
    eapply bind_Ret; [by eapply get_size_eq|]. simpl.
    by destruct (N.ltb_spec i (size_ s)) as [|_]; [lia|].
Qed.

(** Assignment through the reference [operator[]] or [At] returned. *)
Lemma write_element_spec w this s l i x :
  wf_world w → vecs w !! this = Some s →
  raw_ptr_ (items_ s) = Ptr l 0 → i < size_ s →
  ∃ w', write (Ptr l i) x w = Ret () w'
        ∧ updates this s w w'
        ∧ elements w' s = <[N.to_nat i := x]> (elements w s).
Proof.
  intros Hw Hs Hp Hi. destruct (wf_bounds _ _ _ Hw Hs) as [Hle Hmax].
  destruct (wf_owned _ _ _ _ _ Hw Hs Hp) as (_ & b & Hb & Hlen).
  destruct w as [B L V], s as [n c a]; simpl in *.
  eexists. split_and!.
  - eapply write_eq; eauto. lia.
  - pose proof (updates_in_place (World B L V) this _ l b (<[N.to_nat i := x]> b)
                  n Hw Hs Hp Hb) as Hu.
    rewrite length_insert in Hu. specialize (Hu eq_refl Hle). simpl in Hu.
    by rewrite (insert_id V this _ Hs) in Hu.
  - unfold elements, buffer; simpl. rewrite Hp, lookup_insert_eq, Hb; simpl.
    rewrite take_insert_lt by lia. done.
Qed.

(** ** Constructors *)

Lemma fresh_vec_None V : V !! fresh (dom V) = None.
Proof. apply not_elem_of_dom, is_fresh. Qed.

(** A constructor that allocated an array for the new vector. *)
Lemma updates_new_array w v' l' nb n c :
  wf_world w → vecs w !! v' = None → blocks w !! l' = None →
  N.of_nat (length nb) = c → n ≤ c → c ≤ PTRDIFF_MAX →
  updates v' {| size_ := n; capacity_ := c; items_ := {| raw_ptr_ := Ptr l' 0 |} |} w
    (World (<[l' := nb]> (blocks w)) (locals w)
           (<[v' := {| size_ := n; capacity_ := c;
                       items_ := {| raw_ptr_ := Ptr l' 0 |} |}]> (vecs w))).
Proof.
  intros Hw Hv Hl' Hlen Hn Hc.
  assert (Hkeep : ∀ v sv l i, vecs w !! v = Some sv →
            raw_ptr_ (items_ sv) = Ptr l i →
            (<[l' := nb]> (blocks w)) !! l = blocks w !! l).
  { intros v sv l i Hsv Hp.
    destruct (wf_owned _ _ _ _ _ Hw Hsv Hp) as (-> & b & Hb & _).
    rewrite lookup_insert_ne by congruence. done. }
  assert (Hother : ∀ v sv i, vecs w !! v = Some sv →
            raw_ptr_ (items_ sv) = Ptr l' i → False).
  { intros v sv i Hsv Hp.
    destruct (wf_owned _ _ _ _ _ Hw Hsv Hp) as (_ & b & Hb & _). congruence. }
  split_and!; simpl; try done.
  - split_and!; simpl; [by destruct Hw| |].
    + intros v sv. rewrite lookup_insert. case_decide as Hv'; intros Hsv; simplify_eq.
      * split_and!; simpl; [done..|]. split; [done|]. exists nb.
        by rewrite lookup_insert_eq.
      * destruct (wf_bounds _ _ _ Hw Hsv). split_and!; [done..|].
        destruct (raw_ptr_ (items_ sv)) as [|l i] eqn:Hp; simpl.
        -- destruct Hw as (_ & Hwf & _). destruct (Hwf _ _ Hsv) as (_ & _ & Hb).
           by rewrite Hp in Hb.
        -- erewrite Hkeep by done. by eapply wf_owned.
    + intros v1 v2 s1 s2 l i j. rewrite !lookup_insert.
      destruct Hw as (_ & _ & Hsep).
      repeat case_decide; intros Hs1 Hs2 Hp1 Hp2; simplify_eq/=; try done.
      * exfalso; eauto.
      * exfalso; eauto.
      * eauto.
  - intros v sv _ Hsv. unfold buffer.
    destruct (raw_ptr_ (items_ sv)) as [|l i] eqn:Hp; [done|].
    simpl. erewrite Hkeep; done.
Qed.

(** A constructor that made a vector without an array. *)
Lemma updates_new_empty w v' :
  wf_world w → vecs w !! v' = None →
  updates v' {| size_ := 0; capacity_ := 0; items_ := {| raw_ptr_ := nullptr |} |} w
    (World (blocks w) (locals w)
           (<[v' := {| size_ := 0; capacity_ := 0;
                       items_ := {| raw_ptr_ := nullptr |} |}]> (vecs w))).
Proof.
  intros Hw Hv. split_and!; simpl; try done.
  split_and!; simpl; [by destruct Hw| |].
  - intros v sv. rewrite lookup_insert. case_decide as Hv'; intros Hsv; simplify_eq.
    + split_and!; simpl; done.
    + destruct Hw as (_ & Hwf & _). by apply (Hwf v).
  - intros v1 v2 s1 s2 l i j. rewrite !lookup_insert.
    destruct Hw as (_ & _ & Hsep).
    repeat case_decide; intros Hs1 Hs2 Hp1 Hp2; simplify_eq/=; try done. eauto.
Qed.

Lemma ctor_default_spec w :
  wf_world w →
  let v' := fresh (dom (vecs w)) in
  let s' := {| size_ := 0; capacity_ := 0; items_ := {| raw_ptr_ := nullptr |} |} in
  ∃ w', SimpleVector.ctor_default w = Ret v' w'
        ∧ vecs w !! v' = None ∧ updates v' s' w w' ∧ elements w' s' = [].
Proof.
  intros Hw v' s'. eexists. split_and!.
  - done.
  - apply fresh_vec_None.
  - apply updates_new_empty; [done|apply fresh_vec_None].
  - done.
Qed.

Lemma ctor_reserve_spec w proxy :
  wf_world w →
  let v' := fresh (dom (vecs w)) in
  if capacity proxy =? 0 then
    let s' := {| size_ := 0; capacity_ := 0; items_ := {| raw_ptr_ := nullptr |} |} in
    ∃ w', SimpleVector.ctor_reserve proxy w = Ret v' w'
          ∧ vecs w !! v' = None ∧ updates v' s' w w' ∧ elements w' s' = []
  else if grants w (capacity proxy) then
    ∃ w' l',
      let s' := {| size_ := 0; capacity_ := capacity proxy;
                   items_ := {| raw_ptr_ := Ptr l' 0 |} |} in
      SimpleVector.ctor_reserve proxy w = Ret v' w'
      ∧ vecs w !! v' = None ∧ updates v' s' w w' ∧ elements w' s' = []
  else SimpleVector.ctor_reserve proxy w = Throw bad_alloc w.
Proof.
  intros Hw v'. destruct proxy as [c]. unfold SimpleVector.ctor_reserve.
  cbn [capacity].
  pose proof (fresh_vec_None (vecs w)) as Hv'. fold v' in Hv'.
  destruct (N.eqb_spec c 0) as [->|Hc].
  - eexists. split_and!; [done|done|by apply updates_new_empty|done].
  - destruct (N.ltb_spec 0 c) as [_|]; [|lia].
    destruct (grants w c) eqn:Hg.
    + eexists _, (fresh (dom (blocks w))). split_and!.
      * eapply bind_Ret; [by apply new_array_eq|]. done.
      * done.
      * unfold alloc_vec, set_vecs; simpl. apply updates_new_array; try done.
        -- apply fresh_block_None.
        -- rewrite length_fresh_block. lia.
        -- lia.
        -- unfold grants in Hg. apply andb_true_iff in Hg as [Hg _].
           by apply N.leb_le in Hg.
      * done.
    + apply bind_Throw. by apply new_array_fail.
Qed.

(** The state in which a constructor body runs: members initialised. *)
Lemma ctor_head_eq w (n : N) (K : positive → M T positive) r :
  n ≠ 0 → grants w n = true →
  K (fresh (dom (vecs w)))
    (World (<[fresh (dom (blocks w)) := fresh_block n]> (blocks w)) (locals w)
       (<[fresh (dom (vecs w)) :=
            {| size_ := n; capacity_ := n;
               items_ := {| raw_ptr_ := Ptr (fresh (dom (blocks w))) 0 |} |}]> (vecs w)))
  = r →
  (items ← ArrayPtr.ctor_size n;
   this ← alloc_vec {| size_ := n; capacity_ := n; items_ := items |};
   K this) w = r.
Proof.
  intros Hn Hg HK. unfold ArrayPtr.ctor_size.
  destruct (N.eqb_spec n 0) as [|_]; [done|]. simpl.
  eapply bind_Ret; [eapply bind_Ret; [by apply new_array_eq|done]|].
  eapply bind_Ret; [done|]. exact HK.
Qed.

Lemma ctor_head_fail w (n : N) (K : positive → M T positive) :
  n ≠ 0 → grants w n = false →
  (items ← ArrayPtr.ctor_size n;
   this ← alloc_vec {| size_ := n; capacity_ := n; items_ := items |};
   K this) w = Throw bad_alloc w.
Proof.
  intros Hn Hg. unfold ArrayPtr.ctor_size.
  destruct (N.eqb_spec n 0) as [|_]; [done|]. simpl.
  apply bind_Throw, bind_Throw. by apply new_array_fail.
Qed.

Lemma grants_bound w n : grants w n = true → n ≤ PTRDIFF_MAX.
Proof.
  unfold grants. intros [Hg _]%andb_true_iff. by apply N.leb_le in Hg.
Qed.

Lemma ctor_fill_spec w n value :
  wf_world w →
  let v' := fresh (dom (vecs w)) in
  if (n =? 0) || grants w n then
    ∃ w' s',
      SimpleVector.ctor_fill n value w = Ret v' w'
      ∧ vecs w !! v' = None ∧ updates v' s' w w'
      ∧ size_ s' = n ∧ capacity_ s' = n
      ∧ elements w' s' = replicate (N.to_nat n) value
  else SimpleVector.ctor_fill n value w = Throw bad_alloc w.
Proof.
  intros Hw v'. pose proof (fresh_vec_None (vecs w)) as Hv'. fold v' in Hv'.
  unfold SimpleVector.ctor_fill.
  destruct (N.eqb_spec n 0) as [->|Hn]; simpl.
  - eexists _, _. split_and!; [done|done|by apply updates_new_empty|done..].
  - destruct (grants w n) eqn:Hg.
    + set (l' := fresh (dom (blocks w))).
      destruct (fill_loop (locals w)
                  (<[v' := {| size_ := n; capacity_ := n;
                              items_ := {| raw_ptr_ := Ptr l' 0 |} |}]> (vecs w))
                  (Member v') l' value
                  (λ i, SimpleVector.assign_item v' i value) (N.to_nat (n - 0)))
        with (a := 0) (B := <[l' := fresh_block n]> (blocks w)) (b := fresh_block n)
        as (b' & Hloop & Hl & Hb');
        [done|by simpl; rewrite lookup_insert_eq|by rewrite lookup_insert_eq
        |rewrite length_fresh_block; lia|].
      rewrite length_fresh_block in Hl.
      eexists _, _. split_and!.
      * apply ctor_head_eq; [done..|]. fold l' v'.
        eapply bind_Ret; [apply Hloop|]. rewrite insert_insert_eq. done.
      * done.
      * apply updates_new_array; try done.
        -- apply fresh_block_None.
        -- lia.
        -- by eapply grants_bound.
      * done.
      * done.
      * unfold elements, buffer; simpl. rewrite lookup_insert_eq; simpl.
        apply list_eq; intros j. rewrite lookup_take, Hb'.
        destruct (decide (j < N.to_nat n)%nat).
        -- rewrite lookup_replicate_2 by lia. case_decide; [done|lia].
        -- symmetry. apply lookup_ge_None. rewrite length_replicate. lia.
    + by apply ctor_head_fail.
Qed.

Lemma ctor_size_spec w n :
  wf_world w →
  let v' := fresh (dom (vecs w)) in
  if (n =? 0) || grants w n then
    ∃ w' s',
      SimpleVector.ctor_size n w = Ret v' w'
      ∧ vecs w !! v' = None ∧ updates v' s' w w'
      ∧ size_ s' = n ∧ capacity_ s' = n
      ∧ elements w' s' = replicate (N.to_nat n) default_value
  else SimpleVector.ctor_size n w = Throw bad_alloc w.
Proof. intros Hw. exact (ctor_fill_spec w n default_value Hw). Qed.

Lemma ctor_list_spec w init :
  wf_world w →
  let v' := fresh (dom (vecs w)) in
  let n := N.of_nat (length init) in
  if (n =? 0) || grants w n then
    ∃ w' s',
      SimpleVector.ctor_list init w = Ret v' w'
      ∧ vecs w !! v' = None ∧ updates v' s' w w'
      ∧ size_ s' = n ∧ capacity_ s' = n
      ∧ elements w' s' = init
  else SimpleVector.ctor_list init w = Throw bad_alloc w.
Proof.
  intros Hw v' n. pose proof (fresh_vec_None (vecs w)) as Hv'. fold v' in Hv'.
  unfold SimpleVector.ctor_list. fold n.
  destruct (N.eqb_spec n 0) as [Hn0|Hn]; simpl.
  - rewrite Hn0. destruct init; [|simpl in n; lia].
    eexists _, _. split_and!; [done|done|by apply updates_new_empty|done..].
  - destruct (grants w n) eqn:Hg.
    + set (l' := fresh (dom (blocks w))).
      destruct (assign_each_eq (locals w)
                  (<[v' := {| size_ := n; capacity_ := n;
                              items_ := {| raw_ptr_ := Ptr l' 0 |} |}]> (vecs w))
                  v' _ l' init (lookup_insert_eq _ _ _) eq_refl)
        with (a := 0) (B := <[l' := fresh_block n]> (blocks w)) (b := fresh_block n)
        as (b' & Hloop & Hl & Hb');
        [by rewrite lookup_insert_eq|rewrite length_fresh_block; lia|].
      rewrite length_fresh_block in Hl.
      eexists _, _. split_and!.
      * apply ctor_head_eq; [done..|]. fold l' v'.
        eapply bind_Ret; [apply Hloop|]. rewrite insert_insert_eq. done.
      * done.
      * apply updates_new_array; try done.
        -- apply fresh_block_None.
        -- lia.
        -- by eapply grants_bound.
      * done.
      * done.
      * unfold elements, buffer; simpl. rewrite lookup_insert_eq; simpl.
        apply list_eq; intros j. rewrite lookup_take, Hb'.
        destruct (decide (j < N.to_nat n)%nat).
        -- case_decide; [|lia]. f_equal. simpl. lia.
        -- symmetry. apply lookup_ge_None. lia.
    + by apply ctor_head_fail.
Qed.

Lemma ctor_copy_spec w other so :
  wf_world w → vecs w !! other = Some so →
  let v' := fresh (dom (vecs w)) in
  if (size_ so =? 0) || grants w (size_ so) then
    ∃ w' s',
      SimpleVector.ctor_copy other w = Ret v' w'
      ∧ vecs w !! v' = None ∧ updates v' s' w w'
      ∧ size_ s' = size_ so ∧ capacity_ s' = size_ so
      ∧ elements w' s' = elements w so
  else SimpleVector.ctor_copy other w = Throw bad_alloc w.
Proof.
  intros Hw Hso v'. pose proof (fresh_vec_None (vecs w)) as Hv'. fold v' in Hv'.
  destruct (wf_bounds _ _ _ Hw Hso) as [Hle Hmax].
  unfold SimpleVector.ctor_copy.
  assert (Hget : get_vec other w = Ret so w).
  { destruct w. by apply get_vec_eq. }
  set (n := size_ so) in *.
  destruct (N.eqb_spec n 0) as [Hn0|Hn]; simpl.
  - eexists _, _. split_and!.
    + eapply bind_Ret; [exact Hget|]. fold n. rewrite Hn0. done.
    + done.
    + by apply updates_new_empty.
    + done.
    + done.
    + unfold elements. fold n. rewrite Hn0. done.
  - destruct (grants w n) eqn:Hg.
    + set (l' := fresh (dom (blocks w))).
      assert (Hv'o : v' ≠ other) by congruence.
      destruct (lookup_elements w other so 0 Hw Hso) as (lo & bo & _ & Hpo & Hbo & _);
        [lia|].
      destruct (wf_owned _ _ _ _ _ Hw Hso Hpo) as (_ & bo' & Hbo' & Hlo).
      simplify_eq.
      assert (lo ≠ l').
      { intros Heq. pose proof (fresh_block_None (blocks w)) as Hf.
        rewrite Heq in Hbo. unfold l' in Hbo. congruence. }
      destruct (copy_loop (locals w)
                  (<[v' := {| size_ := n; capacity_ := n;
                              items_ := {| raw_ptr_ := Ptr l' 0 |} |}]> (vecs w))
                  v' other {| size_ := n; capacity_ := n;
                              items_ := {| raw_ptr_ := Ptr l' 0 |} |} so l' lo bo
                  (λ i, src ← ArrayPtr.index (Member other) i;
                        x ← read src;
                        SimpleVector.assign_item v' i x) (N.to_nat (n - 0)))
        with (a := 0) (B := <[l' := fresh_block n]> (blocks w)) (b := fresh_block n)
        as (b' & Hloop & Hl & Hb');
        [done|by rewrite lookup_insert_eq|done|by rewrite lookup_insert_ne
        |done|done|by rewrite lookup_insert_eq|by rewrite lookup_insert_ne
        |rewrite length_fresh_block; lia|lia|].
      rewrite length_fresh_block in Hl.
      eexists _, _. split_and!.
      * eapply bind_Ret; [exact Hget|]. fold n.
        apply ctor_head_eq; [done..|]. fold l' v'.
        eapply bind_Ret; [apply Hloop|]. rewrite insert_insert_eq. done.
      * done.
      * apply updates_new_array; try done.
        -- apply fresh_block_None.
        -- lia.
        -- by eapply grants_bound.
      * done.
      * done.
      * unfold elements, buffer; simpl. rewrite lookup_insert_eq, Hpo, Hbo; simpl.
        fold n. apply list_eq; intros j. rewrite !lookup_take, Hb'.
        repeat case_decide; try lia; done.
    + eapply bind_Ret; [exact Hget|]. fold n. by apply ctor_head_fail.
Qed.

(** ** Calls seen through [view] *)

Lemma view_Some w v s :
  vecs w !! v = Some s → view w v = Some (size_ s, capacity_ s, elements w s).
Proof. intros Hs. unfold view. by rewrite Hs. Qed.

Lemma view_None w v : vecs w !! v = None ↔ view w v = None.
Proof. unfold view. destruct (vecs w !! v); naive_solver. Qed.

Lemma view_is_Some w v : is_Some (vecs w !! v) ↔ is_Some (view w v).
Proof. unfold view. destruct (vecs w !! v); simpl; split; intros [? ?]; eauto; done. Qed.

Lemma view_frame w w' v :
  vecs w' !! v = vecs w !! v →
  (∀ s, vecs w !! v = Some s → buffer w' (items_ s) = buffer w (items_ s)) →
  view w' v = view w v.
Proof.
  intros Hv Hbuf. unfold view. rewrite Hv.
  destruct (vecs w !! v) as [s|]; [|done]. simpl.
  unfold elements. by rewrite Hbuf.
Qed.

Lemma updates_view this s' w w' :
  updates this s' w w' →
  view w' this = Some (size_ s', capacity_ s', elements w' s') ∧ modifies this w w'.
Proof.
  intros (Hw' & HV & Hbuf). split; [|split_and!; [done| |]].
  - apply view_Some. by rewrite HV, lookup_insert_eq.
  - rewrite HV, lookup_insert_eq. eauto.
  - intros v Hv. apply view_frame.
    + by rewrite HV, lookup_insert_ne.
    + intros s Hs. by eapply Hbuf.
Qed.

(** Arrays change hands: [f] names, for each owner after the call, the
    vector that owned its array before. *)
Lemma wf_world_transfer w B' V' (f : positive → positive) :
  wf_world w →
  (∀ v s', V' !! v = Some s' →
     size_ s' ≤ capacity_ s' ∧ capacity_ s' ≤ PTRDIFF_MAX ∧
     match raw_ptr_ (items_ s') with
     | nullptr => capacity_ s' = 0
     | Ptr l i => ∃ su, vecs w !! f v = Some su ∧ raw_ptr_ (items_ su) = Ptr l i
                       ∧ capacity_ su = capacity_ s' ∧ B' !! l = blocks w !! l
     end) →
  (∀ v1 v2 s1 s2, V' !! v1 = Some s1 → V' !! v2 = Some s2 →
     raw_ptr_ (items_ s1) ≠ nullptr → raw_ptr_ (items_ s2) ≠ nullptr →
     f v1 = f v2 → v1 = v2) →
  wf_world (World B' ∅ V').
Proof.
  intros Hw Hvec Hinj. split_and!; simpl; [done| |].
  - intros v s' Hs'. destruct (Hvec _ _ Hs') as (? & ? & Hp).
    split_and!; [done..|]. simpl.
    destruct (raw_ptr_ (items_ s')) as [|l i]; [done|].
    destruct Hp as (su & Hsu & Hpu & Hcap & HB).
    destruct (wf_owned _ _ _ _ _ Hw Hsu Hpu) as (-> & b & Hb & Hlen).
    split; [done|]. exists b. rewrite HB. split; [done|]. congruence.
  - intros v1 v2 s1 s2 l i j Hs1 Hs2 Hp1 Hp2.
    destruct (Hvec _ _ Hs1) as (_ & _ & Hq1), (Hvec _ _ Hs2) as (_ & _ & Hq2).
    rewrite Hp1 in Hq1. rewrite Hp2 in Hq2.
    destruct Hq1 as (su1 & Hsu1 & Hpu1 & _), Hq2 as (su2 & Hsu2 & Hpu2 & _).
    eapply Hinj; eauto; try congruence.
    destruct Hw as (_ & _ & Hsep). eapply Hsep; eauto.
Qed.

(** An array not owned by the vector at [this] survives the release of
    that vector's array. *)
Lemma release_other w this s v sv l i :
  wf_world w → vecs w !! this = Some s → vecs w !! v = Some sv → v ≠ this →
  raw_ptr_ (items_ sv) = Ptr l i →
  release (raw_ptr_ (items_ s)) (blocks w) !! l = blocks w !! l.
Proof.
  intros Hw Hs Hsv Hv Hp.
  destruct (raw_ptr_ (items_ s)) as [|l0 i0] eqn:Hp0; simpl; [done|].
  rewrite lookup_delete_ne; [done|]. intros ->.
  destruct Hw as (_ & _ & Hsep). by specialize (Hsep _ _ _ _ _ _ _ Hs Hsv Hp0 Hp).
Qed.

Lemma buffer_release_other w this s v sv L' V' :
  wf_world w → vecs w !! this = Some s → vecs w !! v = Some sv → v ≠ this →
  buffer (World (release (raw_ptr_ (items_ s)) (blocks w)) L' V') (items_ sv)
  = buffer w (items_ sv).
Proof.
  intros Hw Hs Hsv Hv. unfold buffer.
  destruct (raw_ptr_ (items_ sv)) as [|l i] eqn:Hp; [done|]. simpl.
  by erewrite release_other.
Qed.

Lemma dtor_spec w this s :
  wf_world w → vecs w !! this = Some s →
  ∃ w', SimpleVector.dtor this w = Ret () w'
        ∧ wf_world w' ∧ view w' this = None
        ∧ ∀ v, v ≠ this → view w' v = view w v.
Proof.
  intros Hw Hs. pose proof (wf_deletable _ _ _ Hw Hs) as Hdel.
  pose proof Hw as (HL & _).
  destruct w as [B L V]; simpl in *; subst L.
  exists (World (release (raw_ptr_ (items_ s)) B) ∅ (delete this V)). split_and!.
  - unfold SimpleVector.dtor. eapply bind_Ret.
    + eapply bind_Ret; [apply get_owner_eq; simpl; by rewrite Hs|].
      by apply delete_array_eq.
    + unfold free_vec; simpl. by rewrite Hs.
  - apply (wf_world_transfer (World B ∅ V) _ _ id); [done| |done].
    intros v sv [Hv Hsv]%lookup_delete_Some.
    destruct (wf_bounds _ _ _ Hw Hsv). split_and!; [done..|].
    destruct (raw_ptr_ (items_ sv)) as [|l i] eqn:Hp.
    + destruct Hw as (_ & Hwf & _). destruct (Hwf _ _ Hsv) as (_ & _ & Hb).
      by rewrite Hp in Hb.
    + exists sv. split_and!; try done.
      by eapply (release_other (World B ∅ V)).
  - apply view_None. simpl. apply lookup_delete_eq.
  - intros v Hv. apply view_frame; simpl.
    + by rewrite lookup_delete_ne.
    + intros sv Hsv. by eapply (buffer_release_other (World B ∅ V)).
Qed.

Lemma eta_ArrayPtr (a : ArrayPtr) : {| raw_ptr_ := raw_ptr_ a |} = a.
Proof. by destruct a. Qed.

Lemma eta_SimpleVector (s : SimpleVector) :
  {| size_ := size_ s; capacity_ := capacity_ s; items_ := items_ s |} = s.
Proof. by destruct s. Qed.

Lemma swap_eq B L V this other a b :
  V !! this = Some a → V !! other = Some b →
  SimpleVector.swap this other (World B L V)
  = Ret () (World B L (<[other := a]> (<[this := b]> V))).
Proof.
  intros Ha Hb. unfold SimpleVector.swap, ArrayPtr.swap.
  destruct (decide (this = other)) as [->|Hne].
  - simplify_eq.
    eapply bind_Ret.
    { eapply bind_Ret; [apply get_owner_eq; simpl; by rewrite Ha|].
      eapply bind_Ret; [apply get_owner_eq; simpl; by rewrite Ha|].
      eapply bind_Ret; [unfold set_owner; simpl; by rewrite Ha|].
      unfold set_owner; simpl. by rewrite lookup_insert_eq. }
    simpl. rewrite insert_insert_eq, eta_ArrayPtr, eta_SimpleVector.
    eapply bind_Ret; [eapply get_vec_eq; by rewrite lookup_insert_eq|].
    eapply bind_Ret; [eapply get_vec_eq; by rewrite lookup_insert_eq|].
    eapply bind_Ret; [eapply set_size_eq; by rewrite lookup_insert_eq|].
    eapply bind_Ret; [eapply set_size_eq; by rewrite lookup_insert_eq|].
    eapply bind_Ret; [eapply set_capacity_eq; by rewrite lookup_insert_eq|].
    erewrite set_capacity_eq by (by rewrite lookup_insert_eq). simpl.
    rewrite !insert_insert_eq, eta_SimpleVector. done.
  - eapply bind_Ret.
    { eapply bind_Ret; [apply get_owner_eq; simpl; by rewrite Ha|].
      eapply bind_Ret; [apply get_owner_eq; simpl; by rewrite Hb|].
      eapply bind_Ret; [unfold set_owner; simpl; by rewrite Ha|].
      unfold set_owner; simpl. by rewrite lookup_insert_ne, Hb. }
    eapply bind_Ret.
    { eapply get_vec_eq. by rewrite lookup_insert_ne, lookup_insert_eq. }
    eapply bind_Ret; [eapply get_vec_eq; by rewrite lookup_insert_eq|].
    eapply bind_Ret.
    { eapply set_size_eq. by rewrite lookup_insert_ne, lookup_insert_eq. }
    eapply bind_Ret.
    { eapply set_size_eq. by rewrite lookup_insert_ne, lookup_insert_eq. }
    eapply bind_Ret.
    { eapply set_capacity_eq. by rewrite lookup_insert_ne, lookup_insert_eq. }
    erewrite set_capacity_eq by (by rewrite lookup_insert_ne, lookup_insert_eq).
    simpl. rewrite !eta_ArrayPtr, !eta_SimpleVector. f_equal. f_equal. map_ext.
Qed.

Lemma swap_spec w this other a b :
  wf_world w → vecs w !! this = Some a → vecs w !! other = Some b →
  ∃ w', SimpleVector.swap this other w = Ret () w'
        ∧ wf_world w'
        ∧ view w' this = view w other ∧ view w' other = view w this
        ∧ ∀ v, v ≠ this → v ≠ other → view w' v = view w v.
Proof.
  intros Hw Ha Hb. pose proof Hw as (HL & Hwf & _).
  destruct w as [B L V]; simpl in *; subst L.
  set (σ v := if decide (v = this) then other else if decide (v = other) then this else v).
  assert (HV' : ∀ v, (<[other := a]> (<[this := b]> V)) !! v = V !! σ v).
  { intros v. unfold σ. rewrite !lookup_insert.
    repeat case_decide; simplify_eq; done. }
  eexists. split_and!.
  - by apply swap_eq.
  - apply (wf_world_transfer (World B ∅ V) _ _ σ); [done| |].
    + intros v sv. rewrite HV'. intros Hsv.
      destruct (wf_bounds _ _ _ Hw Hsv). split_and!; [done..|].
      destruct (raw_ptr_ (items_ sv)) as [|l i] eqn:Hp.
      * destruct (Hwf _ _ Hsv) as (_ & _ & Hc). by rewrite Hp in Hc.
      * exists sv. done.
    + intros v1 v2 s1 s2 _ _ _ _. unfold σ.
      repeat case_decide; intros; simplify_eq; done.
  - unfold view; simpl. rewrite HV'. unfold σ. rewrite decide_True by done. done.
  - unfold view; simpl. rewrite HV'. unfold σ.
    case_decide; simplify_eq; [done|]. rewrite decide_True by done. done.
  - intros v Hv1 Hv2. unfold view; simpl. rewrite HV'. unfold σ.
    rewrite !decide_False by done. done.
Qed.

Lemma ctor_move_eq B L V other so :
  V !! other = Some so →
  SimpleVector.ctor_move other (World B L V)
  = Ret (fresh (dom V))
      (World B L
         (<[other := {| size_ := 0; capacity_ := 0;
                        items_ := {| raw_ptr_ := nullptr |} |}]>
            (<[fresh (dom V) := so]> V))).
Proof.
  intros Hso. unfold SimpleVector.ctor_move, ArrayPtr.ctor_move.
  pose proof (fresh_vec_None V) as Hv'.
  assert (fresh (dom V) ≠ other) by congruence.
  eapply bind_Ret; [by apply get_vec_eq|].
  eapply bind_Ret.
  { eapply bind_Ret; [apply get_owner_eq; simpl; by rewrite Hso|].
    eapply bind_Ret; [unfold set_owner; simpl; by rewrite Hso|]. done. }
  eapply bind_Ret.
  { unfold alloc_vec; simpl. rewrite dom_insert_L.
    replace ({[other]} ∪ dom V) with (dom V); [done|].
    symmetry. apply subseteq_union_1_L, singleton_subseteq_l.
    by eapply elem_of_dom_2. }
  eapply bind_Ret.
  { eapply set_size_eq. simpl. by rewrite lookup_insert_ne, lookup_insert_eq. }
  eapply bind_Ret.
  { eapply set_capacity_eq. by rewrite lookup_insert_eq. }
  simpl. rewrite eta_ArrayPtr, eta_SimpleVector.
  unfold mret, M_ret. f_equal. f_equal. map_ext.
Qed.

Lemma ctor_move_spec w other so :
  wf_world w → vecs w !! other = Some so →
  let v' := fresh (dom (vecs w)) in
  ∃ w', SimpleVector.ctor_move other w = Ret v' w'
        ∧ view w v' = None ∧ wf_world w'
        ∧ view w' v' = view w other ∧ view w' other = Some (0, 0, [])
        ∧ ∀ v, v ≠ v' → v ≠ other → view w' v = view w v.
Proof.
  intros Hw Hso v'. pose proof Hw as (HL & Hwf & _).
  pose proof (fresh_vec_None (vecs w)) as Hv'. fold v' in Hv'.
  assert (v' ≠ other) by congruence.
  destruct w as [B L V]; simpl in *; subst L.
  eexists. split_and!.
  - by apply ctor_move_eq.
  - by apply view_None.
  - fold v'.
    apply (wf_world_transfer (World B ∅ V) _ _
             (λ v, if decide (v = v') then other else v)); [done| |].
    + intros v sv. rewrite !lookup_insert.
      repeat case_decide; intros Hsv; simplify_eq; simpl.
      * done.
      * destruct (wf_bounds _ _ _ Hw Hso). split_and!; [done..|].
        destruct (raw_ptr_ (items_ sv)) as [|l i] eqn:Hp.
        -- destruct (Hwf _ _ Hso) as (_ & _ & Hc). by rewrite Hp in Hc.
        -- exists sv. done.
      * destruct (wf_bounds _ _ _ Hw Hsv). split_and!; [done..|].
        destruct (raw_ptr_ (items_ sv)) as [|l i] eqn:Hp.
        -- destruct (Hwf _ _ Hsv) as (_ & _ & Hc). by rewrite Hp in Hc.
        -- exists sv. done.
    + intros v1 v2 s1 s2. rewrite !lookup_insert.
      repeat case_decide; intros; simplify_eq/=; done.
  - fold v'. unfold view; simpl.
    rewrite lookup_insert_ne, lookup_insert_eq by done. by rewrite Hso.
  - fold v'. unfold view; simpl. by rewrite lookup_insert_eq.
  - intros v Hv1 Hv2. fold v'. unfold view; simpl.
    by rewrite !lookup_insert_ne by done.
Qed.

Lemma assign_move_eq B L V this rhs a b :
  this ≠ rhs → V !! this = Some a → V !! rhs = Some b →
  deletable B (raw_ptr_ (items_ a)) →
  SimpleVector.assign_move this rhs (World B L V)
  = Ret () (World (release (raw_ptr_ (items_ a)) B) L
              (<[rhs := {| size_ := 0; capacity_ := 0;
                           items_ := {| raw_ptr_ := nullptr |} |}]>
                 (<[this := b]> V))).
Proof.
  intros Hne Ha Hb Hdel. unfold SimpleVector.assign_move, ArrayPtr.assign_move.
  rewrite decide_True by done. rewrite decide_True by congruence.
  eapply bind_Ret.
  { eapply bind_Ret; [apply get_owner_eq; simpl; by rewrite Ha|].
    eapply bind_Ret; [by apply delete_array_eq|].
    eapply bind_Ret; [apply get_owner_eq; simpl; by rewrite Hb|].
    eapply bind_Ret; [unfold set_owner; simpl; by rewrite Ha|].
    unfold set_owner; simpl. by rewrite lookup_insert_ne, Hb. }
  eapply bind_Ret; [eapply get_vec_eq; by rewrite lookup_insert_eq|].
  eapply bind_Ret.
  { eapply set_size_eq. by rewrite lookup_insert_ne, lookup_insert_eq. }
  eapply bind_Ret.
  { eapply set_capacity_eq. by rewrite lookup_insert_eq. }
  eapply bind_Ret.
  { eapply set_size_eq. by rewrite lookup_insert_ne, lookup_insert_ne, lookup_insert_eq. }
  erewrite set_capacity_eq by (by rewrite lookup_insert_eq).
  simpl. rewrite eta_ArrayPtr, eta_SimpleVector. f_equal. f_equal. map_ext.
Qed.

Lemma assign_move_self w this : SimpleVector.assign_move this this w = Ret () w.
Proof. unfold SimpleVector.assign_move. by rewrite decide_False by (by intros []). Qed.

Lemma assign_move_spec w this rhs a b :
  wf_world w → this ≠ rhs → vecs w !! this = Some a → vecs w !! rhs = Some b →
  ∃ w', SimpleVector.assign_move this rhs w = Ret () w'
        ∧ wf_world w'
        ∧ view w' this = view w rhs ∧ view w' rhs = Some (0, 0, [])
        ∧ ∀ v, v ≠ this → v ≠ rhs → view w' v = view w v.
Proof.
  intros Hw Hne Ha Hb. pose proof Hw as (HL & Hwf & _).
  pose proof (wf_deletable _ _ _ Hw Ha) as Hdel.
  destruct w as [B L V]; simpl in *; subst L.
  eexists. split_and!.
  - by apply assign_move_eq.
  - apply (wf_world_transfer (World B ∅ V) _ _
             (λ v, if decide (v = this) then rhs else v)); [done| |].
    + intros v sv. rewrite !lookup_insert.
      repeat case_decide; intros Hsv; simplify_eq; simpl.
      * done.
      * destruct (wf_bounds _ _ _ Hw Hb). split_and!; [done..|].
        destruct (raw_ptr_ (items_ sv)) as [|l i] eqn:Hp.
        -- destruct (Hwf _ _ Hb) as (_ & _ & Hc). by rewrite Hp in Hc.
        -- exists sv. split_and!; try done.
           by eapply (release_other (World B ∅ V) this a rhs).
      * destruct (wf_bounds _ _ _ Hw Hsv). split_and!; [done..|].
        destruct (raw_ptr_ (items_ sv)) as [|l i] eqn:Hp.
        -- destruct (Hwf _ _ Hsv) as (_ & _ & Hc). by rewrite Hp in Hc.
        -- exists sv. split_and!; try done.
           by eapply (release_other (World B ∅ V) this a v).
    + intros v1 v2 s1 s2. rewrite !lookup_insert.
      repeat case_decide; intros; simplify_eq/=; done.
  - unfold view; simpl.
    rewrite lookup_insert_ne, lookup_insert_eq by done. rewrite Hb. simpl.
    unfold elements.
    by rewrite (buffer_release_other (World B ∅ V) this a rhs b).
  - unfold view; simpl. by rewrite lookup_insert_eq.
  - intros v Hv1 Hv2. apply view_frame; simpl.
    + by rewrite !lookup_insert_ne by done.
    + intros sv Hsv. by eapply (buffer_release_other (World B ∅ V)).
Qed.

Lemma assign_copy_self w this : SimpleVector.assign_copy this this w = Ret () w.
Proof. unfold SimpleVector.assign_copy. by rewrite decide_False by (by intros []). Qed.

Lemma assign_copy_spec w this rhs a b :
  wf_world w → this ≠ rhs → vecs w !! this = Some a → vecs w !! rhs = Some b →
  if (size_ b =? 0) || grants w (size_ b) then
    ∃ w', SimpleVector.assign_copy this rhs w = Ret () w'
          ∧ wf_world w'
          ∧ view w' this = Some (size_ b, size_ b, elements w b)
          ∧ ∀ v, v ≠ this → view w' v = view w v
  else SimpleVector.assign_copy this rhs w = Throw bad_alloc w.
Proof.
  intros Hw Hne Ha Hb. unfold SimpleVector.assign_copy.
  rewrite decide_True by done.
  pose proof (ctor_copy_spec w rhs b Hw Hb) as Hcopy. simpl in Hcopy.
  destruct ((size_ b =? 0) || grants w (size_ b)).
  - destruct Hcopy as (w1 & s' & Hrun1 & Hfresh & Hup & Hn & Hc & Hel).
    destruct (updates_view _ _ _ _ Hup) as (Hview1 & Hw1 & _ & Hframe1).
    set (temp := fresh (dom (vecs w))) in *.
    assert (temp ≠ this) by congruence.
    assert (Ha1 : vecs w1 !! this = Some a).
    { destruct Hup as (_ & -> & _). by rewrite lookup_insert_ne. }
    assert (Ht1 : vecs w1 !! temp = Some s').
    { destruct Hup as (_ & -> & _). by rewrite lookup_insert_eq. }
    destruct (swap_spec w1 this temp a s' Hw1 Ha1 Ht1)
      as (w2 & Hrun2 & Hw2 & Hv2a & Hv2b & Hframe2).
    assert (is_Some (vecs w2 !! temp)) as [t2 Ht2].
    { apply view_is_Some. rewrite Hv2b. apply view_is_Some. eauto. }
    destruct (dtor_spec w2 temp t2 Hw2 Ht2) as (w3 & Hrun3 & Hw3 & Hv3 & Hframe3).
    exists w3. split_and!.
    + eapply bind_Ret; [exact Hrun1|].
      eapply bind_Ret; [exact Hrun2|]. exact Hrun3.
    + done.
    + rewrite Hframe3 by done. rewrite Hv2a, Hview1. by rewrite Hn, Hc, Hel.
    + intros v Hv. destruct (decide (v = temp)) as [->|Hvt].
      * rewrite Hv3. symmetry. by apply view_None.
      * rewrite Hframe3, Hframe2, Hframe1 by done. done.
  - by apply bind_Throw.
Qed.

(** ** Calls with an arbitrary iterator argument *)

Lemma after_bind_Ret {A C} (m : M T A) (k : A → M T C) w a w1 P :
  m w = Ret a w1 → after P (k a w1) → after P ((m ≫= k) w).
Proof. intros Hm HP. by erewrite bind_Ret. Qed.

Lemma ptr_diff_outcome w this s pos :
  wf_world w → vecs w !! this = Some s →
  ptr_diff pos (raw_ptr_ (items_ s)) w = Undef
  ∨ ∃ k, ptr_diff pos (raw_ptr_ (items_ s)) w = Ret k w
         ∧ pos = position s k ∧ k ≤ capacity_ s
         ∧ (raw_ptr_ (items_ s) = nullptr → k = 0).
Proof.
  intros Hw Hs.
  destruct (ptr_diff pos (raw_ptr_ (items_ s)) w) as [k w'|e w'|] eqn:Hd.
  - right. destruct (ptr_diff_inv _ _ _ _ _ _ Hw Hs Hd) as (-> & ? & ? & ?).
    exists k. done.
  - exfalso. unfold ptr_diff in Hd. repeat case_match; done.
  - by left.
Qed.

Lemma modifies_refl w this s : wf_world w → vecs w !! this = Some s → modifies this w w.
Proof. intros Hw Hs. split_and!; eauto. Qed.

(** [Erase] on an empty vector: [size_ - 1] wraps around and the loop runs
    out of the array (or finds no array at all). *)
Lemma Erase_empty_undefined w this s pos :
  wf_world w → vecs w !! this = Some s → size_ s = 0 →
  SimpleVector.Erase this pos w = Undef.
Proof.
  intros Hw Hs Hn.
  destruct (wf_bounds _ _ _ Hw Hs) as [Hle Hmax].
  destruct (ptr_diff_outcome w this s pos Hw Hs) as [Hd|(k & Hd & -> & Hk & Hnull)].
  { destruct w as [B L V]; simpl in *. unfold SimpleVector.Erase.
    eapply bind_Ret; [by eapply begin_eq|]. by apply bind_Undef. }
  pose proof Hw as (HL & Hwf & _).
  destruct w as [B L V]; simpl in *; subst L.
  unfold SimpleVector.Erase.
  eapply bind_Ret; [by eapply begin_eq|].
  eapply bind_Ret; [exact Hd|].
  eapply bind_Ret; [by eapply get_size_eq|].
  destruct s as [n c [p]]; simpl in *. subst n.
  apply bind_Undef.
  eapply (shift_left_overrun ∅ V (Member this) p).
  - done.
  - simpl. by rewrite Hs.
  - unfold size_sub, to_size_t, PTRDIFF_MAX in *. simpl. lia.
  - destruct p as [|l i]; [done|].
    destruct (wf_owned _ _ _ _ _ Hw Hs eq_refl) as (-> & b & Hb & Hlen).
    split; [done|]. exists b. split; [done|].
    unfold size_sub, to_size_t, PTRDIFF_MAX in *. simpl in *. lia.
Qed.

Lemma Erase_modifies w this s pos :
  wf_world w → vecs w !! this = Some s →
  after (modifies this w) (SimpleVector.Erase this pos w).
Proof.
  intros Hw Hs.
  destruct (decide (size_ s = 0)) as [Hn0|Hn].
  { by rewrite (Erase_empty_undefined w this s pos Hw Hs Hn0). }
  destruct (wf_bounds _ _ _ Hw Hs) as [Hle Hmax].
  destruct (ptr_diff_outcome w this s pos Hw Hs) as [Hd|(k & Hd & -> & Hk & Hnull)].
  { destruct w as [B L V]; simpl in *. unfold SimpleVector.Erase.
    erewrite bind_Ret; [|by eapply begin_eq|reflexivity].
    by erewrite bind_Undef. }
  pose proof Hw as (HL & Hwf & _).
  destruct w as [B L V]; simpl in *; subst L.
  unfold SimpleVector.Erase.
  eapply after_bind_Ret; [by eapply begin_eq|].
  eapply after_bind_Ret; [exact Hd|].
  eapply after_bind_Ret; [by eapply get_size_eq|].
  destruct s as [n c [p]]; simpl in *.
  rewrite size_sub_1 by lia.
  destruct p as [|l i].
  { destruct (Hwf _ _ Hs) as (_ & _ & Hc); simpl in Hc. lia. }
  destruct (wf_owned _ _ _ _ _ Hw Hs eq_refl) as (-> & b & Hb & Hlen);
    simpl in *.
  assert (∃ b', length b' = length b ∧
            for_upto k (n - 1)
              (λ i, SimpleVector.assign_moved (Member this) i (Member this) (i + 1))
              (World B ∅ V) = Ret () (World (<[l := b']> B) ∅ V))
    as (b' & Hl' & Hloop).
  { unfold for_upto. destruct (decide (k < n - 1)) as [Hlt|Hge].
    - destruct (shift_left_loop ∅ V (Member this) l
                  (λ i, SimpleVector.assign_moved (Member this) i (Member this) (i + 1))
                  (N.to_nat (n - 1 - k))) with (a := k) (B := B) (b := b)
        as (b' & Hloop & Hl' & _); [done|by simpl; rewrite Hs|done|lia|].
      by exists b'.
    - exists b. split; [done|].
      replace (N.to_nat (n - 1 - k)) with 0%nat by lia. simpl.
      by rewrite insert_id. }
  eapply after_bind_Ret; [exact Hloop|].
  eapply after_bind_Ret; [by eapply set_size_eq|].
  eapply after_bind_Ret; [eapply begin_eq; by rewrite lookup_insert_eq|].
  cbn [raw_ptr_ items_ size_ capacity_].
  erewrite ptr_add_eq; [|by rewrite lookup_insert_eq|lia]. simpl.
  eapply updates_view.
  eapply (updates_in_place (World B ∅ V) this
            {| size_ := n; capacity_ := c; items_ := {| raw_ptr_ := Ptr l 0 |} |}
            l b); simpl; eauto. lia.
Qed.

Lemma Emplace_modifies w this s pos x :
  wf_world w → vecs w !! this = Some s →
  after (modifies this w) (SimpleVector.Emplace this pos (Value x) w).
Proof.
  intros Hw Hs.
  destruct (wf_bounds _ _ _ Hw Hs) as [Hle Hmax].
  destruct (ptr_diff_outcome w this s pos Hw Hs) as [Hd|(k & Hd & -> & Hk & Hnull)].
  { destruct w as [B L V]; simpl in *. unfold SimpleVector.Emplace.
    erewrite bind_Ret; [|by eapply begin_eq|reflexivity].
    by erewrite bind_Undef. }
  destruct (decide (k ≤ size_ s)) as [Hin|Hout].
  { pose proof (Emplace_spec w this s k x Hw Hs Hin) as Hspec. simpl in Hspec.
    destruct (_ || _).
    - destruct Hspec as (w' & l' & -> & Hup & _). simpl.
      by eapply updates_view.
    - rewrite Hspec. simpl. by eapply modifies_refl. }
  (* past the end, within the capacity: no element is shifted *)
  pose proof Hw as (HL & Hwf & _).
  destruct w as [B L V]; simpl in *; subst L.
  unfold SimpleVector.Emplace.
  eapply after_bind_Ret; [by eapply begin_eq|].
  eapply after_bind_Ret; [exact Hd|].
  eapply after_bind_Ret; [by eapply get_size_eq|].
  eapply after_bind_Ret; [by eapply get_capacity_eq|].
  destruct s as [n c [p]]; simpl in *.
  destruct (N.leb_spec c n) as [|_]; [lia|].
  destruct p as [|l i]; [specialize (Hnull eq_refl); lia|].
  destruct (wf_owned _ _ _ _ _ Hw Hs eq_refl) as (-> & b & Hb & Hlen);
    simpl in *.
  unfold for_downto. replace (N.to_nat (n - k)) with 0%nat by lia.
  destruct (decide (k < c)) as [Hlt|Hge].
  - eapply after_bind_Ret.
    { eapply bind_Ret; [done|]. eapply bind_Ret; [done|].
      eapply assign_item_eq; eauto. lia. }
    eapply after_bind_Ret; [by eapply set_size_eq|].
    eapply after_bind_Ret; [eapply begin_eq; by rewrite lookup_insert_eq|].
    cbn [raw_ptr_ items_ size_ capacity_].
    erewrite ptr_add_eq; [|by rewrite lookup_insert_eq|rewrite length_insert; lia].
    simpl. rewrite size_add_1 by lia.
    eapply updates_view.
    eapply (updates_in_place (World B ∅ V) this
              {| size_ := n; capacity_ := c; items_ := {| raw_ptr_ := Ptr l 0 |} |}
              l b); simpl; eauto.
    + by rewrite length_insert.
    + lia.
  - erewrite bind_Undef; [done|].
    eapply bind_Ret; [done|]. eapply bind_Ret; [done|]. apply bind_Undef.
    eapply index_out_of_bounds; eauto; [simpl; by rewrite Hs|lia].
Qed.

Lemma after_impl {A} (P Q : world T → Prop) (o : outcome (world T) A) :
  (∀ w, P w → Q w) → after P o → after Q o.
Proof. destruct o; simpl; eauto. Qed.

Lemma after_discard {A} (m : M T A) w P :
  after P (m w) → after P ((m;; mret ()) w).
Proof. unfold mbind, M_bind. by destruct (m w). Qed.

Lemma after_alive {A} (m : M T A) v w P :
  (∀ s, vecs w !! v = Some s → after P (m w)) → after P ((alive v;; m) w).
Proof.
  intros Hm. unfold alive, get_vec, mbind, M_bind, mret, M_ret.
  destruct (vecs w !! v) as [s|] eqn:Hs; [|done]. by eapply Hm.
Qed.

Lemma mutate_modifies w this s m :
  wf_world w → vecs w !! this = Some s →
  after (modifies this w) (mutate this m w).
Proof.
  intros Hw Hs. destruct m as [n| |n|x|x|pos x|pos x| |pos|i x|i x]; simpl.
  - pose proof (Reserve_spec w this s n Hw Hs) as Hspec.
    destruct (n <=? capacity_ s).
    { rewrite Hspec. by eapply modifies_refl. }
    destruct (grants w n).
    + destruct Hspec as (w' & l' & -> & Hup & _). by eapply updates_view.
    + rewrite Hspec. by eapply modifies_refl.
  - destruct (Clear_spec w this s Hw Hs) as (w' & -> & Hup & _).
    by eapply updates_view.
  - pose proof (Resize_spec w this s n Hw Hs) as Hspec.
    destruct (n <=? size_ s).
    { destruct Hspec as (w' & -> & Hup & _). by eapply updates_view. }
    destruct (n <=? capacity_ s).
    { destruct Hspec as (w' & -> & Hup & _). by eapply updates_view. }
    destruct (grants w n).
    + destruct Hspec as (w' & l' & -> & Hup & _). by eapply updates_view.
    + rewrite Hspec. by eapply modifies_refl.
  - apply after_discard.
    pose proof (EmplaceBack_spec w this s x Hw Hs) as Hspec. simpl in Hspec.
    destruct (_ || _).
    + destruct Hspec as (w' & l' & -> & Hup & _). by eapply updates_view.
    + rewrite Hspec. by eapply modifies_refl.
  - apply after_discard.
    pose proof (EmplaceBack_spec w this s x Hw Hs) as Hspec. simpl in Hspec.
    destruct (_ || _).
    + destruct Hspec as (w' & l' & -> & Hup & _). by eapply updates_view.
    + rewrite Hspec. by eapply modifies_refl.
  - apply after_discard. by eapply Emplace_modifies.
  - apply after_discard. by eapply Emplace_modifies.
  - pose proof (PopBack_spec w this s Hw Hs) as Hspec.
    destruct (0 <? size_ s).
    + destruct Hspec as (w' & -> & Hup & _). by eapply updates_view.
    + rewrite Hspec. by eapply modifies_refl.
  - apply after_discard. by eapply Erase_modifies.
  - pose proof (at_index_spec w this s i Hw Hs) as Hspec.
    destruct (N.ltb_spec i (size_ s)) as [Hi|Hi].
    + destruct Hspec as (l & y & Hrun & Hp & _).
      destruct (write_element_spec w this s l i x Hw Hs Hp Hi) as (w' & Hwr & Hup & _).
      erewrite bind_Ret; [|exact Hrun|exact Hwr]. by eapply updates_view.
    + by erewrite bind_Undef.
  - pose proof (At_spec w this s i Hw Hs) as Hspec.
    destruct (N.leb_spec (size_ s) i) as [Hi|Hi].
    + erewrite bind_Throw by exact Hspec. by eapply modifies_refl.
    + destruct Hspec as (l & y & Hrun & Hp & _).
      destruct (write_element_spec w this s l i x Hw Hs Hp Hi) as (w' & Hwr & Hup & _).
      erewrite bind_Ret; [|exact Hrun|exact Hwr]. by eapply updates_view.
Qed.

Lemma ask_unchanged w this s q :
  wf_world w → vecs w !! this = Some s → after (λ w', w' = w) (ask this q w).
Proof.
  intros Hw Hs. destruct (wf_bounds _ _ _ Hw Hs) as [Hle Hmax].
  destruct q as [| | | | |i|i]; simpl.
  - destruct w. erewrite bind_Ret; [|by eapply get_size_eq|reflexivity]. done.
  - destruct w. erewrite bind_Ret; [|by eapply get_capacity_eq|reflexivity]. done.
  - destruct w. unfold SimpleVector.IsEmpty.
    erewrite bind_Ret; [|eapply bind_Ret; [by eapply get_size_eq|reflexivity]
                        |reflexivity]. done.
  - destruct w. erewrite bind_Ret; [|by eapply begin_eq|reflexivity]. done.
  - apply after_discard. unfold SimpleVector.end_, ArrayPtr.Get.
    destruct (raw_ptr_ (items_ s)) as [|l j] eqn:Hp.
    + destruct Hw as (? & Hwf & ?). destruct (Hwf _ _ Hs) as (_ & _ & Hc).
      rewrite Hp in Hc. assert (size_ s = 0) as Hn by lia.
      destruct w as [B L V]; simpl in *.
      erewrite bind_Ret;
        [|eapply bind_Ret; [apply get_owner_eq; simpl; by rewrite Hs|reflexivity]
         |reflexivity].
      erewrite bind_Ret; [|by eapply get_size_eq|reflexivity].
      rewrite Hp, Hn. done.
    + destruct (wf_owned _ _ _ _ _ Hw Hs Hp) as (-> & b & Hb & Hlen).
      destruct w as [B L V]; simpl in *.
      erewrite bind_Ret;
        [|eapply bind_Ret; [apply get_owner_eq; simpl; by rewrite Hs|reflexivity]
         |reflexivity].
      erewrite bind_Ret; [|by eapply get_size_eq|reflexivity].
      rewrite Hp. erewrite ptr_add_eq; [done|done|lia].
  - pose proof (at_index_spec w this s i Hw Hs) as Hspec.
    destruct (i <? size_ s).
    + destruct Hspec as (l & y & Hrun & Hp & Hrd & _).
      erewrite bind_Ret; [|exact Hrun|reflexivity].
      erewrite bind_Ret; [|exact Hrd|reflexivity]. done.
    + by erewrite bind_Undef.
  - pose proof (At_spec w this s i Hw Hs) as Hspec.
    destruct (size_ s <=? i).
    + by erewrite bind_Throw by exact Hspec.
    + destruct Hspec as (l & y & Hrun & Hp & Hrd & _).
      erewrite bind_Ret; [|exact Hrun|reflexivity].
      erewrite bind_Ret; [|exact Hrd|reflexivity]. done.
Qed.

Lemma wf_empty_world : wf_world (@empty_world T).
Proof. split_and!; simpl; [done|..]; intros *; by rewrite lookup_empty. Qed.

Lemma exec_wf w o : wf_world w → after wf_world (exec o w).
Proof.
  intros Hw. destruct o as [|proxy|n|n x|init|other|other|v|v m|v q|v other|v rhs|v rhs];
    cbn [exec].
  - apply after_discard.
    destruct (ctor_default_spec w Hw) as (w' & -> & _ & (Hw' & _) & _). done.
  - apply after_discard. pose proof (ctor_reserve_spec w proxy Hw) as Hspec.
    simpl in Hspec. destruct (capacity proxy =? 0).
    { by destruct Hspec as (w' & -> & _ & (Hw' & _) & _). }
    destruct (grants w (capacity proxy)).
    + by destruct Hspec as (w' & l' & -> & _ & (Hw' & _) & _).
    + by rewrite Hspec.
  - apply after_discard. pose proof (ctor_size_spec w n Hw) as Hspec.
    simpl in Hspec. destruct (_ || _).
    + by destruct Hspec as (w' & s' & -> & _ & (Hw' & _) & _).
    + by rewrite Hspec.
  - apply after_discard. pose proof (ctor_fill_spec w n x Hw) as Hspec.
    simpl in Hspec. destruct (_ || _).
    + by destruct Hspec as (w' & s' & -> & _ & (Hw' & _) & _).
    + by rewrite Hspec.
  - apply after_discard. pose proof (ctor_list_spec w init Hw) as Hspec.
    simpl in Hspec. destruct (_ || _).
    + by destruct Hspec as (w' & s' & -> & _ & (Hw' & _) & _).
    + by rewrite Hspec.
  - apply after_alive. intros so Hso. apply after_discard.
    pose proof (ctor_copy_spec w other so Hw Hso) as Hspec.
    simpl in Hspec. destruct (_ || _).
    + by destruct Hspec as (w' & s' & -> & _ & (Hw' & _) & _).
    + by rewrite Hspec.
  - apply after_alive. intros so Hso. apply after_discard.
    by destruct (ctor_move_spec w other so Hw Hso) as (w' & -> & _ & Hw' & _).
  - apply after_alive. intros s Hs.
    by destruct (dtor_spec w v s Hw Hs) as (w' & -> & Hw' & _).
  - apply after_alive. intros s Hs.
    eapply after_impl; [|by eapply mutate_modifies]. by intros w' (? & _).
  - apply after_alive. intros s Hs.
    eapply after_impl; [|by eapply ask_unchanged]. by intros w' ->.
  - apply after_alive. intros a Ha. apply after_alive. intros b Hb.
    by destruct (swap_spec w v other a b Hw Ha Hb) as (w' & -> & Hw' & _).
  - apply after_alive. intros a Ha. apply after_alive. intros b Hb.
    destruct (decide (v = rhs)) as [->|Hne].
    { by rewrite assign_copy_self. }
    pose proof (assign_copy_spec w v rhs a b Hw Hne Ha Hb) as Hspec.
    destruct (_ || _).
    + by destruct Hspec as (w' & -> & Hw' & _).
    + by rewrite Hspec.
  - apply after_alive. intros a Ha. apply after_alive. intros b Hb.
    destruct (decide (v = rhs)) as [->|Hne].
    { by rewrite assign_move_self. }
    by destruct (assign_move_spec w v rhs a b Hw Hne Ha Hb) as (w' & -> & Hw' & _).
Qed.

Lemma reachable_wf w : reachable w → wf_world w.
Proof.
  induction 1 as [|o w w' _ IH Hrun|o w e w' _ IH Hrun].
  - apply wf_empty_world.
  - pose proof (exec_wf w o IH) as Hafter. by rewrite Hrun in Hafter.
  - pose proof (exec_wf w o IH) as Hafter. by rewrite Hrun in Hafter.
Qed.

(** ** Repeated appends *)








(** What [view] shows is what the public interface returns. *)
Lemma view_observed w this n c els :
  wf_world w → view w this = Some (n, c, els) →
  SimpleVector.GetSize this w = Ret n w
  ∧ SimpleVector.GetCapacity this w = Ret c w
  ∧ N.of_nat (length els) = n
  ∧ ∀ i x, els !! N.to_nat i = Some x →
      ∃ p, SimpleVector.at_index this i w = Ret p w ∧ read p w = Ret x w.
Proof.
  intros Hw Hv. unfold view in Hv.
  destruct (vecs w !! this) as [s|] eqn:Hs; simplify_eq/=.
  pose proof (length_elements w s Hw _ Hs) as Hlen.
  split_and!.
  - destruct w. by eapply get_size_eq.
  - destruct w. by eapply get_capacity_eq.
  - lia.
  - intros i x Hx. pose proof (lookup_lt_Some _ _ _ Hx) as Hi.
    pose proof (at_index_spec w this s i Hw Hs) as Hspec.
    destruct (N.ltb_spec i (size_ s)); [|lia].
    destruct Hspec as (l & y & Hrun & _ & Hrd & Hy). simplify_eq. eauto.
Qed.

Lemma view_inv w this n c els :
  view w this = Some (n, c, els) →
  ∃ s, vecs w !! this = Some s ∧ size_ s = n ∧ capacity_ s = c ∧ elements w s = els.
Proof.
  unfold view. destruct (vecs w !! this) as [s|]; intros; simplify_eq/=. eauto.
Qed.

Lemma mutate_all_modifies ms : ∀ w this s,
  wf_world w → vecs w !! this = Some s →
  after (modifies this w) (mutate_all this ms w).
Proof.
  induction ms as [|m ms IH]; intros w this s Hw Hs; simpl.
  - by eapply modifies_refl.
  - pose proof (mutate_modifies w this s m Hw Hs) as Hm.
    unfold mbind, M_bind, attempt.
    destruct (mutate this m w) as [[] w1|e w1|]; simpl in *; [| |done].
    + destruct Hm as (Hw1 & [s1 Hs1] & Hframe1).
      eapply after_impl; [|by eapply IH].
      intros w' (Hw' & Hal & Hframe'). split_and!; [done..|].
      intros v Hv. by rewrite Hframe', Hframe1.
    + destruct Hm as (Hw1 & [s1 Hs1] & Hframe1).
      eapply after_impl; [|by eapply IH].
      intros w' (Hw' & Hal & Hframe'). split_and!; [done..|].
      intros v Hv. by rewrite Hframe', Hframe1.
Qed.

(** Two live vectors never share an array. *)
Lemma begin_distinct w v1 v2 p :
  wf_world w → v1 ≠ v2 → p ≠ nullptr →
  SimpleVector.begin v1 w = Ret p w → SimpleVector.begin v2 w ≠ Ret p w.
Proof.
  intros Hw Hne Hp H1 H2. unfold SimpleVector.begin, ArrayPtr.Get in *.
  unfold mbind, M_bind, get_owner, mret, M_ret in *.
  destruct (vecs w !! v1) as [s1|] eqn:Hs1; [|done].
  destruct (vecs w !! v2) as [s2|] eqn:Hs2; [|done].
  simplify_eq. destruct (raw_ptr_ (items_ s1)) as [|l i] eqn:Hp1; [done|].
  destruct Hw as (_ & _ & Hsep). eapply Hne, Hsep; eauto.
Qed.

(** ** [ArrayPtr] objects on their own *)

Lemma set_owner_run w r a a' :
  owner_at (locals w) (vecs w) r = Some a →
  ∃ w', set_owner r a' w = Ret () w' ∧ blocks w' = blocks w
        ∧ owner_at (locals w') (vecs w') r = Some a'
        ∧ ∀ r', r' ≠ r →
            owner_at (locals w') (vecs w') r' = owner_at (locals w) (vecs w) r'.
Proof.
  destruct w as [B L V], r as [o|v]; simpl; intros Hr.
  - rewrite Hr. eexists. split_and!; [done|done|simpl; by rewrite lookup_insert_eq|].
    intros [o'|v'] Hne; simpl; [|done]. rewrite lookup_insert_ne; [done|congruence].
  - destruct (V !! v) as [s|] eqn:Hs; [|done].
    eexists. split_and!; [done|done|simpl; by rewrite lookup_insert_eq|].
    intros [o'|v'] Hne; simpl; [done|]. rewrite lookup_insert_ne; [done|congruence].
Qed.

Lemma get_owner_run w r a :
  owner_at (locals w) (vecs w) r = Some a → get_owner r w = Ret a w.
Proof. destruct w. apply get_owner_eq. Qed.

Lemma delete_array_run w p :
  deletable (blocks w) p →
  delete_array p w = Ret () (World (release p (blocks w)) (locals w) (vecs w)).
Proof. destruct w. apply delete_array_eq. Qed.

Lemma to_bool_empty w r :
  owner_at (locals w) (vecs w) r = Some {| raw_ptr_ := nullptr |} →
  ArrayPtr.to_bool r w = Ret false w.
Proof. intros Hr. eapply bind_Ret; [by apply get_owner_run|done]. Qed.

Lemma ArrayPtr_ctor_move_spec w other b :
  owner_at (locals w) (vecs w) other = Some b →
  ∃ w', ArrayPtr.ctor_move other w = Ret {| raw_ptr_ := raw_ptr_ b |} w'
        ∧ ArrayPtr.to_bool other w' = Ret false w'
        ∧ blocks w' = blocks w.
Proof.
  intros Hb.
  destruct (set_owner_run w other b {| raw_ptr_ := nullptr |} Hb)
    as (w' & Hset & HB & Ho & _).
  exists w'. split_and!; [|by apply to_bool_empty|done].
  eapply bind_Ret; [by apply get_owner_run|].
  eapply bind_Ret; [exact Hset|done].
Qed.

Lemma ArrayPtr_assign_move_spec w this other a b :
  owner_at (locals w) (vecs w) this = Some a →
  owner_at (locals w) (vecs w) other = Some b →
  this ≠ other → deletable (blocks w) (raw_ptr_ a) →
  ∃ w', ArrayPtr.assign_move this other w = Ret () w'
        ∧ ArrayPtr.Get this w' = Ret (raw_ptr_ b) w'
        ∧ ArrayPtr.to_bool other w' = Ret false w'
        ∧ blocks w' = release (raw_ptr_ a) (blocks w).
Proof.
  intros Ha Hb Hne Hdel.
  set (w1 := World (release (raw_ptr_ a) (blocks w)) (locals w) (vecs w)).
  destruct (set_owner_run w1 this a {| raw_ptr_ := raw_ptr_ b |} Ha)
    as (w2 & Hset2 & HB2 & Ho2 & Hf2).
  destruct (set_owner_run w2 other b {| raw_ptr_ := nullptr |})
    as (w3 & Hset3 & HB3 & Ho3 & Hf3).
  { by rewrite Hf2 by done. }
  exists w3. split_and!.
  - unfold ArrayPtr.assign_move. rewrite decide_True by done.
    eapply bind_Ret; [by apply get_owner_run|].
    eapply bind_Ret; [by apply delete_array_run|]. fold w1.
    eapply bind_Ret; [by apply (get_owner_run w1)|].
    eapply bind_Ret; [exact Hset2|exact Hset3].
  - eapply bind_Ret; [apply get_owner_run; by rewrite Hf3|done].
  - by apply to_bool_empty.
  - by rewrite HB3, HB2.
Qed.

Lemma ArrayPtr_assign_move_self w this : ArrayPtr.assign_move this this w = Ret () w.
Proof. unfold ArrayPtr.assign_move. by rewrite decide_False by (by intros []). Qed.

(** * Properties of the interface *)

(** The iterator [begin() + k] of a vector whose members are [s]. *)
Lemma position_eq w this s k :
  wf_world w → vecs w !! this = Some s → k ≤ size_ s →
  ∃ first, SimpleVector.begin this w = Ret first w
           ∧ ptr_add first k w = Ret (position s k) w.
Proof.
  intros Hw Hs Hk. destruct (wf_bounds _ _ _ Hw Hs) as [Hle Hmax].
  exists (raw_ptr_ (items_ s)). split.
  - destruct w. by apply begin_eq.
  - unfold position. destruct (raw_ptr_ (items_ s)) as [|l i] eqn:Hp.
    + destruct Hw as (_ & Hwf & _). destruct (Hwf _ _ Hs) as (_ & _ & Hc).
      rewrite Hp in Hc. assert (k = 0) as -> by lia. done.
    + destruct (wf_owned _ _ _ _ _ Hw Hs Hp) as (-> & b & Hb & Hlen).
      destruct w. eapply ptr_add_eq; eauto. simpl in *. lia.
Qed.


(** C2. In every state a client program can reach with the constructors and
    the public member functions, [GetSize() <= GetCapacity()] for every live
    vector, and every further call (returning or throwing) leads to such a
    state again. *)
Theorem size_le_capacity w :
  reachable w →
  (∀ v n c, SimpleVector.GetSize v w = Ret n w →
            SimpleVector.GetCapacity v w = Ret c w → n ≤ c)
  ∧ (∀ v s, vecs w !! v = Some s → size_ s ≤ capacity_ s)
  ∧ ∀ o, after (λ w', ∀ v s, vecs w' !! v = Some s → size_ s ≤ capacity_ s)
               (exec o w).
Proof.
  intros Hr. pose proof (reachable_wf w Hr) as Hw.
  assert (Hinv : ∀ w', wf_world w' →
            ∀ v s, vecs w' !! v = Some s → size_ s ≤ capacity_ s).
  { intros w' Hw' v s Hs. by destruct (wf_bounds _ _ _ Hw' Hs). }
  split_and!.
  - intros v n c Hn Hc. unfold SimpleVector.GetSize, SimpleVector.GetCapacity in *.
    unfold get_size, get_capacity, get_vec, mbind, M_bind, mret, M_ret in *.
    destruct (vecs w !! v) as [s|] eqn:Hs; [|done]. simplify_eq. by eapply Hinv.
  - by apply Hinv.
  - intros o. eapply after_impl; [|by apply exec_wf]. intros w' Hw'. by apply Hinv.
Qed.


Lemma begin_run w this s :
  vecs w !! this = Some s →
  SimpleVector.begin this w = Ret (raw_ptr_ (items_ s)) w.
Proof. destruct w. apply begin_eq. Qed.

Lemma Resize_view w this n c els m :
  wf_world w → view w this = Some (n, c, els) →
  m ≤ c ∨ grants w m = true →
  ∃ w', SimpleVector.Resize this m w = Ret () w'
        ∧ modifies this w w'
        ∧ view w' this
          = Some (m, (if m <=? c then c else m),
                  if m <=? n then take (N.to_nat m) els
                  else els ++ replicate (N.to_nat (m - n)) default_value)
        ∧ (∀ first, SimpleVector.begin this w = Ret first w →
             if m <=? c then SimpleVector.begin this w' = Ret first w'
             else SimpleVector.begin this w' ≠ Ret first w').
Proof.
  intros Hw Hv Hm. destruct (view_inv _ _ _ _ _ Hv) as (s & Hs & <- & <- & <-).
  destruct (wf_bounds _ _ _ Hw Hs) as [Hle _].
  pose proof (Resize_spec w this s m Hw Hs) as Hspec.
  assert (Hsame : ∀ w', updates this {| size_ := m; capacity_ := capacity_ s;
                                         items_ := items_ s |} w w' →
            ∀ first, SimpleVector.begin this w = Ret first w →
                     SimpleVector.begin this w' = Ret first w').
  { intros w' (_ & HV' & _) first. rewrite (begin_run w this s Hs).
    intros [= <-]. erewrite begin_run by (by rewrite HV', lookup_insert_eq). done. }
  destruct (N.leb_spec m (size_ s)) as [H1|H1].
  { destruct Hspec as (w' & Hrun & Hup & Hel).
    destruct (updates_view _ _ _ _ Hup) as (Hv' & Hmod).
    exists w'. destruct (N.leb_spec m (capacity_ s)); [|lia].
    split_and!; try done; [by rewrite Hv', Hel|]. by apply Hsame. }
  destruct (N.leb_spec m (capacity_ s)) as [H2|H2].
  { destruct Hspec as (w' & Hrun & Hup & Hel).
    destruct (updates_view _ _ _ _ Hup) as (Hv' & Hmod).
    exists w'. split_and!; try done; [by rewrite Hv', Hel|]. by apply Hsame. }
  destruct Hm as [|Hg]; [lia|]. rewrite Hg in Hspec.
  destruct Hspec as (w' & l' & Hrun & Hup & Hel & Hfresh).
  destruct (updates_view _ _ _ _ Hup) as (Hv' & Hmod).
  exists w'. split_and!; try done; [by rewrite Hv', Hel|].
  intros first. rewrite (begin_run w this s Hs). intros [= <-].
  destruct Hup as (_ & HV' & _).
  erewrite begin_run by (by rewrite HV', lookup_insert_eq). simpl.
  intros [= Hp]. symmetry in Hp.
  destruct (wf_owned _ _ _ _ _ Hw Hs Hp) as (_ & b & Hb & _). congruence.
Qed.

(** C4. [Resize(m)]: for [m <= size] only the size changes; for
    [size < m <= capacity] the positions from the old size up to [m] get the
    default value, in the same array; for [m > capacity] the vector gets a
    new array, size and capacity [m], and the old elements followed by
    default values.  Hence after [Resize(hi); Resize(lo); Resize(hi)] with
    [lo <= hi] the first [lo] elements are those seen after the first call
    and the positions from [lo] up to [hi] hold the default value. *)
Theorem Resize_cases w this n c els m lo hi :
  wf_world w → view w this = Some (n, c, els) →
  (m ≤ n →
   ∃ w', SimpleVector.Resize this m w = Ret () w'
         ∧ view w' this = Some (m, c, take (N.to_nat m) els)
         ∧ (∀ first, SimpleVector.begin this w = Ret first w →
                     SimpleVector.begin this w' = Ret first w')
         ∧ modifies this w w')
  ∧ (n < m → m ≤ c →
     ∃ w', SimpleVector.Resize this m w = Ret () w'
           ∧ view w' this
             = Some (m, c, els ++ replicate (N.to_nat (m - n)) default_value)
           ∧ (∀ first, SimpleVector.begin this w = Ret first w →
                       SimpleVector.begin this w' = Ret first w')
           ∧ modifies this w w')
  ∧ (c < m → grants w m = true →
     ∃ w', SimpleVector.Resize this m w = Ret () w'
           ∧ view w' this
             = Some (m, m, els ++ replicate (N.to_nat (m - n)) default_value)
           ∧ (∀ first, SimpleVector.begin this w = Ret first w →
                       SimpleVector.begin this w' ≠ Ret first w')
           ∧ modifies this w w')
  ∧ (lo ≤ hi → hi ≤ c ∨ grants w hi = true →
     ∃ w1 w2 w3 c1 els1,
       SimpleVector.Resize this hi w = Ret () w1
       ∧ SimpleVector.Resize this lo w1 = Ret () w2
       ∧ SimpleVector.Resize this hi w2 = Ret () w3
       ∧ view w1 this = Some (hi, c1, els1)
       ∧ view w3 this
         = Some (hi, c1, take (N.to_nat lo) els1
                         ++ replicate (N.to_nat (hi - lo)) default_value)).
Proof.
  intros Hw Hv.
  destruct (view_inv _ _ _ _ _ Hv) as (s & Hs & Hn & Hc & Hels).
  destruct (wf_bounds _ _ _ Hw Hs) as [Hle _]. rewrite Hn, Hc in Hle.
  split_and!.
  - intros Hm.
    destruct (Resize_view w this n c els m Hw Hv) as (w' & Hrun & Hmod & Hv' & Hb);
      [left; lia|].
    destruct (N.leb_spec m c); [|lia]. destruct (N.leb_spec m n); [|lia].
    exists w'. done.
  - intros Hm1 Hm2.
    destruct (Resize_view w this n c els m Hw Hv) as (w' & Hrun & Hmod & Hv' & Hb);
      [by left|].
    destruct (N.leb_spec m c); [|lia]. destruct (N.leb_spec m n); [lia|].
    exists w'. done.
  - intros Hm Hg.
    destruct (Resize_view w this n c els m Hw Hv) as (w' & Hrun & Hmod & Hv' & Hb);
      [by right|].
    destruct (N.leb_spec m c); [lia|]. destruct (N.leb_spec m n); [lia|].
    exists w'. done.
  - intros Hlo Hhi.
    destruct (Resize_view w this n c els hi Hw Hv Hhi)
      as (w1 & Hrun1 & (Hw1 & _) & Hv1 & _).
    set (c1 := if hi <=? c then c else hi) in *.
    set (els1 := if hi <=? n then take (N.to_nat hi) els
                 else els ++ replicate (N.to_nat (hi - n)) default_value) in *.
    assert (hi ≤ c1) by (subst c1; destruct (N.leb_spec hi c); lia).
    destruct (Resize_view w1 this hi c1 els1 lo Hw1 Hv1)
      as (w2 & Hrun2 & (Hw2 & _) & Hv2 & _); [left; lia|].
    destruct (N.leb_spec lo c1); [|lia]. destruct (N.leb_spec lo hi); [|lia].
    destruct (Resize_view w2 this lo c1 (take (N.to_nat lo) els1) hi Hw2 Hv2)
      as (w3 & Hrun3 & _ & Hv3 & _); [by left|].
    destruct (N.leb_spec hi c1); [|lia].
    exists w1, w2, w3, c1, els1. split_and!; try done.
    rewrite Hv3. destruct (N.leb_spec hi lo) as [Heq|]; [|done].
    assert (hi = lo) as -> by lia.
    rewrite N.sub_diag, take_take, app_nil_r. do 3 f_equal. lia.
Qed.

(** C5. [At(i)] throws [std::out_of_range] exactly when [i >= GetSize()];
    otherwise it returns a reference to the element at position [i]; either
    way the state is the one before the call. *)
Theorem At_checks_index w this n c els i :
  wf_world w → view w this = Some (n, c, els) →
  (n ≤ i ↔ SimpleVector.At this i w = Throw out_of_range w)
  ∧ (i < n ↔ ∃ p x, SimpleVector.At this i w = Ret p w ∧ read p w = Ret x w
                    ∧ els !! N.to_nat i = Some x)
  ∧ (∀ e w', SimpleVector.At this i w = Throw e w' → e = out_of_range ∧ w' = w)
  ∧ (∀ p w', SimpleVector.At this i w = Ret p w' → w' = w).
Proof.
  intros Hw Hv. destruct (view_inv _ _ _ _ _ Hv) as (s & Hs & <- & <- & <-).
  pose proof (At_spec w this s i Hw Hs) as Hspec.
  destruct (N.leb_spec (size_ s) i) as [Hi|Hi].
  - rewrite Hspec. split_and!.
    + done.
    + split; [lia|]. by intros (p & x & ? & _).
    + by intros e w' [= <- <-].
    + done.
  - destruct Hspec as (l & x & Hrun & _ & Hrd & Hx). rewrite Hrun. split_and!.
    + split; [lia|done].
    + split; [|done]. intros _. eauto.
    + done.
    + by intros p w' [= <- <-].
Qed.

Lemma ptr_add_position w this s k pos w' :
  wf_world w → vecs w !! this = Some s →
  ptr_add (raw_ptr_ (items_ s)) k w = Ret pos w' →
  pos = position s k ∧ k ≤ capacity_ s ∧ w' = w.
Proof.
  intros Hw Hs. unfold ptr_add, position.
  destruct (raw_ptr_ (items_ s)) as [|l i] eqn:Hp.
  - destruct (N.eqb_spec k 0) as [->|]; [|done]. intros [= <- <-].
    split_and!; [done|lia|done].
  - destruct (wf_owned _ _ _ _ _ Hw Hs Hp) as (-> & b & Hb & Hlen). rewrite Hb.
    destruct (N.leb_spec (0 + k) (N.of_nat (length b))); [|done].
    intros [= <- <-]. split_and!; [done|lia|done].
Qed.

(** C6. When the allocation of the new array fails, [Reserve] and [Resize]
    beyond the capacity, and [PushBack]/[EmplaceBack] and [Insert]/[Emplace]
    on a full vector, whatever they are passed, throw [std::bad_alloc] and
    leave the state exactly as it was before the call. *)
Theorem allocation_failure_is_atomic w this n c els m k a :
  wf_world w → view w this = Some (n, c, els) →
  (c < m → grants w m = false →
   SimpleVector.Reserve this m w = Throw bad_alloc w
   ∧ SimpleVector.Resize this m w = Throw bad_alloc w)
  ∧ (n = c → grants w (if c =? 0 then 1 else 2 * c) = false →
     SimpleVector.EmplaceBack this a w = Throw bad_alloc w
     ∧ SimpleVector.PushBack this a w = Throw bad_alloc w
     ∧ ∀ first pos,
         SimpleVector.begin this w = Ret first w → ptr_add first k w = Ret pos w →
         SimpleVector.Emplace this pos a w = Throw bad_alloc w
         ∧ SimpleVector.Insert this pos a w = Throw bad_alloc w).
Proof.
  intros Hw Hv. destruct (view_inv _ _ _ _ _ Hv) as (s & Hs & <- & <- & <-).
  destruct (wf_bounds _ _ _ Hw Hs) as [Hle _].
  split.
  - intros Hm Hg. split.
    + pose proof (Reserve_spec w this s m Hw Hs) as Hspec.
      destruct (N.leb_spec m (capacity_ s)); [lia|]. by rewrite Hg in Hspec.
    + pose proof (Resize_spec w this s m Hw Hs) as Hspec.
      destruct (N.leb_spec m (size_ s)); [lia|].
      destruct (N.leb_spec m (capacity_ s)); [lia|]. by rewrite Hg in Hspec.
  - intros Hfull Hg.
    assert (Hpush : SimpleVector.EmplaceBack this a w = Throw bad_alloc w).
    { pose proof (EmplaceBack_arg_spec w this s a default_value Hw Hs) as Hspec.
      simpl in Hspec.
      destruct (N.ltb_spec (size_ s) (capacity_ s)); [lia|]. by rewrite Hg in Hspec. }
    split_and!; [done|by apply bind_Throw|].
    intros first pos Hfirst Hpos.
    rewrite (begin_run w this s Hs) in Hfirst. injection Hfirst as <-.
    destruct (ptr_add_position _ _ _ _ _ _ Hw Hs Hpos) as (-> & Hk & _).
    pose proof (Emplace_arg_spec w this s k a default_value Hw Hs ltac:(lia)) as Hspec.
    simpl in Hspec.
    destruct (N.ltb_spec (size_ s) (capacity_ s)); [lia|]. by rewrite Hg in Hspec.
Qed.

(** C7. The copy constructor gives a new vector with the elements of the
    source in the same order and a capacity equal to the source's size
    (whatever the capacity of the source), in an array of its own; so does
    copy assignment to any other vector.  No sequence of calls on the copy
    changes what the source shows. *)
Theorem copy_is_deep w src n c els ms :
  wf_world w → view w src = Some (n, c, els) →
  (n =? 0) || grants w n = true →
  (∃ copy w',
     SimpleVector.ctor_copy src w = Ret copy w'
     ∧ view w copy = None
     ∧ view w' copy = Some (n, n, els)
     ∧ view w' src = Some (n, c, els)
     ∧ (∀ p, p ≠ nullptr → SimpleVector.begin copy w' = Ret p w' →
             SimpleVector.begin src w' ≠ Ret p w')
     ∧ after (λ w'', view w'' src = Some (n, c, els)) (mutate_all copy ms w'))
  ∧ (∀ dst, dst ≠ src → is_Some (view w dst) →
     ∃ w',
       SimpleVector.assign_copy dst src w = Ret () w'
       ∧ view w' dst = Some (n, n, els)
       ∧ view w' src = Some (n, c, els)
       ∧ (∀ p, p ≠ nullptr → SimpleVector.begin dst w' = Ret p w' →
               SimpleVector.begin src w' ≠ Ret p w')
       ∧ after (λ w'', view w'' src = Some (n, c, els)) (mutate_all dst ms w')).
Proof.
  intros Hw Hv Hg.
  destruct (view_inv _ _ _ _ _ Hv) as (s & Hs & Hn & Hc & Hels).
  split.
  - pose proof (ctor_copy_spec w src s Hw Hs) as Hspec. simpl in Hspec.
    rewrite Hn, Hg in Hspec.
    destruct Hspec as (w' & s' & Hrun & Hfresh & Hup & Hn' & Hc' & Hel').
    destruct (updates_view _ _ _ _ Hup) as (Hv' & Hw' & _ & Hframe).
    set (copy := fresh (dom (vecs w))) in *.
    assert (src ≠ copy) by congruence.
    destruct Hup as (_ & HV' & _).
    exists copy, w'. split_and!; try done.
    + by apply view_None.
    + by rewrite Hv', Hn', Hc', Hel', Hels.
    + by rewrite Hframe.
    + intros p Hp. by apply begin_distinct.
    + eapply after_impl; [|eapply (mutate_all_modifies ms w' copy s'); [done|]].
      * intros w'' (_ & _ & Hframe''). by rewrite Hframe'', Hframe.
      * by rewrite HV', lookup_insert_eq.
  - intros dst Hne Hdst. apply view_is_Some in Hdst as [d Hd].
    pose proof (assign_copy_spec w dst src d s Hw Hne Hd Hs) as Hspec.
    rewrite Hn, Hg in Hspec.
    destruct Hspec as (w' & Hrun & Hw' & Hv' & Hframe).
    assert (is_Some (vecs w' !! dst)) as [d' Hd'].
    { apply view_is_Some. rewrite Hv'. eauto. }
    exists w'. split_and!; try done.
    + by rewrite Hv', Hels.
    + by rewrite Hframe.
    + intros p Hp. by apply begin_distinct.
    + eapply after_impl; [|by eapply (mutate_all_modifies ms w' dst d')].
      intros w'' (_ & _ & Hframe''). by rewrite Hframe'', Hframe.
Qed.

(** C8. [PopBack] returns normally on every vector: a non-empty vector
    loses its last element, an empty one is left as it is; the capacity and
    the remaining elements do not change. *)
Theorem PopBack_is_total w this n c els :
  wf_world w → view w this = Some (n, c, els) →
  ∃ w', SimpleVector.PopBack this w = Ret () w'
        ∧ view w' this = Some (n - 1, c, take (N.to_nat (n - 1)) els)
        ∧ (0 < n → els = take (N.to_nat (n - 1)) els ++ drop (N.to_nat (n - 1)) els
                   ∧ length (drop (N.to_nat (n - 1)) els) = 1%nat)
        ∧ (n = 0 → w' = w)
        ∧ modifies this w w'.
Proof.
  intros Hw Hv. destruct (view_inv _ _ _ _ _ Hv) as (s & Hs & <- & <- & <-).
  pose proof (length_elements w s Hw _ Hs) as Hlen.
  pose proof (PopBack_spec w this s Hw Hs) as Hspec.
  destruct (N.ltb_spec 0 (size_ s)) as [Hpos|Hzero].
  - destruct Hspec as (w' & Hrun & Hup & Hel).
    destruct (updates_view _ _ _ _ Hup) as (Hv' & Hmod).
    exists w'. split_and!; try done.
    + by rewrite Hv', Hel.
    + intros _. rewrite take_drop. split; [done|]. rewrite length_drop. lia.
    + lia.
  - exists w. assert (size_ s = 0) as Hn by lia.
    split_and!; [done| |lia|done|by eapply modifies_refl].
    rewrite Hv, Hn. simpl. by rewrite (nil_length_inv (elements w s)) by lia.
Qed.

(** C9 (amended). Move construction from any owner hands the source's
    array to the new owner, leaves the source empty (its conversion to
    [bool] gives [false]) and neither allocates nor deallocates.  Move
    assignment between two distinct owners hands the source's array to the
    destination and leaves the source empty; it allocates nothing and
    deallocates the array the destination owned before, if any.
    Self-move-assignment does nothing, whatever the state. *)
Theorem ArrayPtr_move_transfers w :
  (∀ other b,
     owner_at (locals w) (vecs w) other = Some b →
     ∃ w', ArrayPtr.ctor_move other w = Ret {| raw_ptr_ := raw_ptr_ b |} w'
           ∧ ArrayPtr.to_bool other w' = Ret false w'
           ∧ blocks w' = blocks w)
  ∧ (∀ this other a b,
       owner_at (locals w) (vecs w) this = Some a →
       owner_at (locals w) (vecs w) other = Some b →
       this ≠ other → deletable (blocks w) (raw_ptr_ a) →
       ∃ w', ArrayPtr.assign_move this other w = Ret () w'
             ∧ ArrayPtr.Get this w' = Ret (raw_ptr_ b) w'
             ∧ ArrayPtr.to_bool other w' = Ret false w'
             ∧ blocks w' = release (raw_ptr_ a) (blocks w))
  ∧ (∀ this, ArrayPtr.assign_move this this w = Ret () w).
Proof.
  split_and!.
  - intros other b Hb. by apply ArrayPtr_ctor_move_spec.
  - intros this other a b Ha Hb Hne Hdel. by apply ArrayPtr_assign_move_spec.
  - intros this. apply ArrayPtr_assign_move_self.
Qed.

(** C10. Copy-assigning or move-assigning a vector to itself returns at
    once: no object and no array changes, so the vector shows the same size,
    capacity and elements afterwards. *)
Theorem self_assignment_is_identity w this :
  SimpleVector.assign_copy this this w = Ret () w
  ∧ SimpleVector.assign_move this this w = Ret () w
  ∧ ∀ w', SimpleVector.assign_copy this this w = Ret () w'
          ∨ SimpleVector.assign_move this this w = Ret () w' →
          view w' this = view w this.
Proof.
  split_and!.
  - apply assign_copy_self.
  - apply assign_move_self.
  - intros w' [Hrun|Hrun].
    + rewrite assign_copy_self in Hrun. by injection Hrun as <-.
    + rewrite assign_move_self in Hrun. by injection Hrun as <-.
Qed.

End Run.

(** * The rest of the interface *)

Section Coverage.
Context {T : Type} `{!Element T} `{!Allocator T}.
Implicit Types (w : world T) (B : gmap positive (list T)).
Implicit Types (L : gmap positive ArrayPtr) (V : gmap positive SimpleVector).

(** ** Iterators and in-place calls *)

Lemma end_run w this s :
  wf_world w → vecs w !! this = Some s →
  SimpleVector.end_ this w = Ret (position s (size_ s)) w.
Proof.
  intros Hw Hs. destruct (wf_bounds _ _ _ Hw Hs) as [Hle Hmax].
  unfold SimpleVector.end_, ArrayPtr.Get.
  eapply bind_Ret.
  { eapply bind_Ret; [apply get_owner_run; simpl; by rewrite Hs|reflexivity]. }
  eapply bind_Ret; [destruct w; by eapply get_size_eq|].
  unfold position. destruct (raw_ptr_ (items_ s)) as [|l j] eqn:Hp.
  - destruct Hw as (? & Hwf & ?). destruct (Hwf _ _ Hs) as (_ & _ & Hc).
    rewrite Hp in Hc. assert (size_ s = 0) as -> by lia. done.
  - destruct (wf_owned _ _ _ _ _ Hw Hs Hp) as (-> & b & Hb & Hlen).
    destruct w. erewrite ptr_add_eq; [done|done|simpl in *; lia].
Qed.

Lemma elements_nil w s :
  wf_world w → ∀ v, vecs w !! v = Some s → size_ s = 0 → elements w s = [].
Proof.
  intros Hw v Hs Hn. apply nil_length_inv.
  rewrite (length_elements w s Hw _ Hs). lia.
Qed.

(** [EmplaceBack] on a vector with room: one slot of the array is written. *)
Lemma EmplaceBack_in_place w this s l b x :
  wf_world w → vecs w !! this = Some s → size_ s < capacity_ s →
  raw_ptr_ (items_ s) = Ptr l 0 → blocks w !! l = Some b →
  SimpleVector.EmplaceBack this (Value x) w
  = Ret (Ptr l (size_ s))
        (World (<[l := <[N.to_nat (size_ s) := x]> b]> (blocks w)) (locals w)
               (<[this := {| size_ := size_ s + 1; capacity_ := capacity_ s;
                             items_ := items_ s |}]> (vecs w))).
Proof.
  intros Hw Hs Hroom Hp Hb.
  destruct (wf_bounds _ _ _ Hw Hs) as [Hle Hmax].
  destruct (wf_owned _ _ _ _ _ Hw Hs Hp) as (_ & b0 & Hb0 & Hlen).
  assert (b0 = b) as -> by congruence.
  destruct w as [B L V]; simpl in *.
  unfold SimpleVector.EmplaceBack.
  eapply bind_Ret; [by eapply get_size_eq|].
  eapply bind_Ret; [by eapply get_capacity_eq|].
  destruct (N.leb_spec (capacity_ s) (size_ s)) as [|_]; [lia|].
  eapply bind_Ret; [done|].
  eapply bind_Ret; [done|].
  eapply bind_Ret; [eapply assign_item_eq; eauto; lia|].
  eapply bind_Ret.
  { eapply index_eq; [simpl; rewrite Hs; simpl|by rewrite lookup_insert_eq
                     |rewrite length_insert; lia].
    destruct (items_ s); simpl in *; by subst. }
  eapply bind_Ret; [by eapply set_size_eq|].
  rewrite size_add_1 by lia. done.
Qed.


(** Appends to a vector with room for all of them: only the array is
    written. *)
Lemma push_all_in_place xs : ∀ w this s l b,
  wf_world w → vecs w !! this = Some s →
  raw_ptr_ (items_ s) = Ptr l 0 → blocks w !! l = Some b →
  size_ s + N.of_nat (length xs) ≤ capacity_ s →
  ∃ b',
    push_all this xs w
    = Ret () (World (<[l := b']> (blocks w)) (locals w)
                (<[this := {| size_ := size_ s + N.of_nat (length xs);
                              capacity_ := capacity_ s;
                              items_ := items_ s |}]> (vecs w)))
    ∧ length b' = length b
    ∧ take (N.to_nat (size_ s) + length xs) b' = take (N.to_nat (size_ s)) b ++ xs.
Proof.
  induction xs as [|x xs IH]; intros w this s l b Hw Hs Hp Hb Hroom.
  - exists b. split_and!; [|done|by rewrite Nat.add_0_r, app_nil_r].
    simpl. rewrite N.add_0_r, eta_SimpleVector, !insert_id by done. by destruct w.
  - destruct (wf_bounds _ _ _ Hw Hs) as [Hle Hmax].
    destruct (wf_owned _ _ _ _ _ Hw Hs Hp) as (_ & b0 & Hb0 & Hlen).
    assert (b0 = b) as -> by congruence.
    simpl in Hroom.
    set (b1 := <[N.to_nat (size_ s) := x]> b).
    set (s1 := {| size_ := size_ s + 1; capacity_ := capacity_ s; items_ := items_ s |}).
    set (w1 := World (<[l := b1]> (blocks w)) (locals w) (<[this := s1]> (vecs w))).
    assert (Hup : updates this s1 w w1).
    { eapply updates_in_place; eauto.
      - unfold b1. by rewrite length_insert.
      - lia. }
    destruct Hup as (Hw1 & _).
    destruct (IH w1 this s1 l b1) as (b' & Hrun & Hl' & Htake).
    { done. }
    { simpl. by rewrite lookup_insert_eq. }
    { done. }
    { simpl. by rewrite lookup_insert_eq. }
    { simpl. lia. }
    exists b'. split_and!.
    + simpl. unfold SimpleVector.PushBack.
      eapply bind_Ret.
      { eapply bind_Ret; [|reflexivity].
        apply (EmplaceBack_in_place w this s l b x Hw Hs); [lia|done..]. }
      fold b1 s1 w1. rewrite Hrun. simpl. rewrite !insert_insert_eq.
      do 3 f_equal. f_equal. lia.
    + rewrite Hl'. unfold b1. by rewrite length_insert.
    + simpl in Htake.
      replace (N.to_nat (size_ s) + length (x :: xs))%nat
        with (N.to_nat (size_ s + 1) + length xs)%nat by (simpl; lia).
      rewrite Htake. unfold b1.
      replace (N.to_nat (size_ s + 1)) with (S (N.to_nat (size_ s))) by lia.
      rewrite (take_S_r _ _ x) by (apply list_lookup_insert_eq; lia).
      rewrite take_insert_ge by lia. by rewrite <- app_assoc.
Qed.


(** [Erase] at [begin() + k] of a non-empty vector, [k] up to the size (at
    the size itself no element is shifted). *)
Lemma Erase_spec w this s k :
  wf_world w → vecs w !! this = Some s → 0 < size_ s → k ≤ size_ s →
  ∃ w',
    let s' := {| size_ := size_ s - 1; capacity_ := capacity_ s;
                 items_ := items_ s |} in
    SimpleVector.Erase this (position s k) w = Ret (position s k) w'
    ∧ updates this s' w w'
    ∧ elements w' s'
      = take (N.to_nat (size_ s - 1))
          (take (N.to_nat k) (elements w s) ++ drop (S (N.to_nat k)) (elements w s)).
Proof.
  intros Hw Hs Hpos Hk.
  destruct (wf_bounds _ _ _ Hw Hs) as [Hle Hmax].
  destruct (raw_ptr_ (items_ s)) as [|l i] eqn:Hp.
  { destruct Hw as (_ & Hwf & _). destruct (Hwf _ _ Hs) as (_ & _ & Hc).
    rewrite Hp in Hc. lia. }
  destruct (wf_owned _ _ _ _ _ Hw Hs Hp) as (-> & b & Hb & Hlen).
  pose proof (ptr_diff_position w this s k Hw Hs ltac:(lia)
                ltac:(by rewrite Hp)) as Hd.
  pose proof Hw as (HL & _).
  destruct w as [B L V]; simpl in *; subst L.
  assert (∃ b', length b' = length b
            ∧ (∀ j, (j < N.to_nat (size_ s) - 1)%nat →
                    b' !! j = if decide (j < N.to_nat k)%nat then b !! j
                              else b !! S j)
            ∧ for_upto k (size_ s - 1)
                (λ i, SimpleVector.assign_moved (Member this) i (Member this) (i + 1))
                (World B ∅ V) = Ret () (World (<[l := b']> B) ∅ V))
    as (b' & Hl' & Hb' & Hloop).
  { unfold for_upto. destruct (decide (k < size_ s - 1)) as [Hlt|Hge].
    - destruct (shift_left_loop ∅ V (Member this) l
                  (λ i, SimpleVector.assign_moved (Member this) i (Member this) (i + 1))
                  (N.to_nat (size_ s - 1 - k))) with (a := k) (B := B) (b := b)
        as (b' & Hloop & Hl' & Hlk).
      { done. }
      { simpl. rewrite Hs. simpl. destruct (items_ s); simpl in *; by subst. }
      { done. }
      { lia. }
      exists b'. split_and!; [done| |done].
      intros j Hj. destruct (Hlk j) as [Hk1 Hk2].
      case_decide; [apply Hk1; lia|apply Hk2; lia].
    - exists b. split_and!; [done| |].
      + intros j Hj. case_decide; [done|lia].
      + replace (N.to_nat (size_ s - 1 - k)) with 0%nat by lia. simpl.
        by rewrite insert_id. }
  set (s' := {| size_ := size_ s - 1; capacity_ := capacity_ s; items_ := items_ s |}).
  exists (World (<[l := b']> B) ∅ (<[this := s']> V)). split_and!.
  - unfold SimpleVector.Erase.
    eapply bind_Ret; [by eapply begin_eq|]. rewrite Hp.
    unfold position in Hd |- *. rewrite Hp in Hd |- *.
    eapply bind_Ret; [exact Hd|].
    eapply bind_Ret; [by eapply get_size_eq|].
    rewrite size_sub_1 by lia.
    eapply bind_Ret; [exact Hloop|].
    eapply bind_Ret; [by eapply set_size_eq|].
    eapply bind_Ret; [eapply begin_eq; by rewrite lookup_insert_eq|].
    cbn [raw_ptr_ items_ size_ capacity_]. rewrite Hp.
    erewrite ptr_add_eq; [done|by rewrite lookup_insert_eq|lia].
  - eapply (updates_in_place (World B ∅ V) this s l b); simpl; eauto. lia.
  - unfold elements, buffer. simpl. rewrite Hp, Hb, lookup_insert_eq. simpl.
    apply list_eq. intros j.
    destruct (decide (j < N.to_nat (size_ s - 1))%nat) as [Hj|Hj]; cycle 1.
    { by rewrite !lookup_take_ge by lia. }
    rewrite !lookup_take_lt by lia. rewrite Hb' by lia.
    assert (Hlt : (length (take (N.to_nat k) (take (N.to_nat (size_ s)) b))
                   = N.to_nat k)%nat).
    { rewrite !length_take. lia. }
    case_decide.
    + rewrite lookup_app_l by lia. by rewrite !lookup_take_lt by lia.
    + rewrite lookup_app_r by lia. rewrite Hlt.
      rewrite lookup_drop, lookup_take_lt by lia. f_equal. lia.
Qed.

(** ** No array is leaked *)

Lemma leakless_ret {A} (a : A) : leakless (mret a : M T A).
Proof. by intros w Hw. Qed.

Lemma leakless_bind {A C} (m : M T A) (k : A → M T C) :
  leakless m → (∀ a, leakless (k a)) → leakless (m ≫= k).
Proof.
  intros Hm Hk w Hw. specialize (Hm w Hw). unfold mbind, M_bind.
  destruct (m w) as [a w1|e w1|]; simpl in *; [by apply Hk|done..].
Qed.

Lemma leakless_throw {A} e : leakless (throw e : M T A).
Proof. by intros w Hw. Qed.

Lemma leakless_undef {A} : leakless (undef : M T A).
Proof. by intros w Hw. Qed.

(** A call that adds no array and keeps what every owner holds. *)
Lemma accounted_mono w w' :
  (∀ l, is_Some (blocks w' !! l) → is_Some (blocks w !! l)) →
  (∀ r a, owner_at (locals w) (vecs w) r = Some a →
          ∃ a', owner_at (locals w') (vecs w') r = Some a' ∧ raw_ptr_ a' = raw_ptr_ a) →
  accounted w → accounted w'.
Proof.
  intros Hb Ho Hw l Hl. destruct (Hw l (Hb l Hl)) as (r & a & i & Hr & Hp).
  destruct (Ho r a Hr) as (a' & Hr' & Hp'). exists r, a', i. split; [done|congruence].
Qed.

Lemma leakless_readonly {A} (m : M T A) :
  (∀ w, after (λ w', w' = w) (m w)) → leakless m.
Proof.
  intros Hm w Hw. specialize (Hm w). destruct (m w); simpl in *; by subst.
Qed.

Lemma leakless_get_owner r : leakless (get_owner r : M T _).
Proof.
  apply leakless_readonly. intros w. unfold get_owner. by repeat case_match.
Qed.

Lemma leakless_get_vec v : leakless (get_vec v : M T _).
Proof.
  apply leakless_readonly. intros w. unfold get_vec. by repeat case_match.
Qed.

Lemma leakless_get_size v : leakless (get_size v : M T _).
Proof. apply leakless_bind; [apply leakless_get_vec|intros; apply leakless_ret]. Qed.

Lemma leakless_get_capacity v : leakless (get_capacity v : M T _).
Proof. apply leakless_bind; [apply leakless_get_vec|intros; apply leakless_ret]. Qed.

Lemma leakless_read p : leakless (read p : M T _).
Proof.
  apply leakless_readonly. intros w. unfold read. by repeat case_match.
Qed.

Lemma leakless_subscript p n : leakless (subscript p n : M T _).
Proof.
  apply leakless_readonly. intros w. unfold subscript. by repeat case_match.
Qed.

Lemma leakless_ptr_add p n : leakless (ptr_add p n : M T _).
Proof.
  apply leakless_readonly. intros w. unfold ptr_add. by repeat case_match.
Qed.

Lemma leakless_ptr_diff p q : leakless (ptr_diff p q : M T _).
Proof.
  apply leakless_readonly. intros w. unfold ptr_diff. by repeat case_match.
Qed.

Lemma leakless_write p x : leakless (write p x : M T _).
Proof.
  intros w Hw. unfold write. destruct p as [|l i]; [done|].
  destruct (blocks w !! l) as [b|] eqn:Hb; [|done].
  destruct (i <? _); [|done]. simpl.
  eapply accounted_mono; [| |exact Hw]; simpl.
  - intros l'. rewrite lookup_insert. case_decide; [by subst; eauto|done].
  - eauto.
Qed.

Lemma leakless_put_vec_same v s' :
  (∀ w s, vecs w !! v = Some s → raw_ptr_ (items_ s') = raw_ptr_ (items_ s)) →
  leakless (put_vec v s' : M T _).
Proof.
  intros Hsame w Hw. unfold put_vec.
  destruct (vecs w !! v) as [s|] eqn:Hs; [|done]. simpl.
  eapply accounted_mono; [| |exact Hw]; simpl; [done|].
  intros [o|v'] a; simpl; [eauto|].
  rewrite lookup_insert. case_decide as Hv; [subst v'|eauto].
  rewrite Hs. simpl. intros [= <-]. eexists. split; [done|]. by eapply Hsame.
Qed.

Lemma leakless_set_size v n : leakless (set_size v n : M T _).
Proof.
  intros w Hw. unfold set_size, get_vec, put_vec, mbind, M_bind.
  destruct (vecs w !! v) as [s|] eqn:Hs; [|done]. rewrite Hs. simpl.
  eapply accounted_mono; [| |exact Hw]; simpl; [done|].
  intros [o|v'] a; simpl; [eauto|].
  rewrite lookup_insert. case_decide as Hv; [subst v'|eauto].
  rewrite Hs. simpl. intros [= <-]. eauto.
Qed.

Lemma leakless_set_capacity v n : leakless (set_capacity v n : M T _).
Proof.
  intros w Hw. unfold set_capacity, get_vec, put_vec, mbind, M_bind.
  destruct (vecs w !! v) as [s|] eqn:Hs; [|done]. rewrite Hs. simpl.
  eapply accounted_mono; [| |exact Hw]; simpl; [done|].
  intros [o|v'] a; simpl; [eauto|].
  rewrite lookup_insert. case_decide as Hv; [subst v'|eauto].
  rewrite Hs. simpl. intros [= <-]. eauto.
Qed.

Lemma leakless_for_loop body n : 
  (∀ i, leakless (body i)) → ∀ i, leakless (for_loop n i body : M T _).
Proof.
  intros Hbody. induction n as [|n IH]; intros i; simpl.
  - apply leakless_ret.
  - apply leakless_bind; [apply Hbody|intros _; apply IH].
Qed.

Lemma leakless_for_loop_down body n : 
  (∀ i, leakless (body i)) → ∀ i, leakless (for_loop_down n i body : M T _).
Proof.
  intros Hbody. induction n as [|n IH]; intros i; simpl.
  - apply leakless_ret.
  - apply leakless_bind; [apply Hbody|intros _; apply IH].
Qed.


(** [ArrayPtr<Type> new_items(n);]: the new array belongs to the new local. *)
Lemma leakless_local_ctor_size n :
  leakless (local_owner (ArrayPtr.ctor_size n) : M T _).
Proof.
  intros w Hw. unfold local_owner, ArrayPtr.ctor_size, mbind, M_bind, new_array.
  unfold alloc_local, set_locals, set_blocks.
  assert (Hkeep : ∀ a, after accounted (alloc_local a w) ).
  { intros a. simpl. eapply accounted_mono; [| |exact Hw]; simpl; [done|].
    intros [o|v] a0; simpl; [|eauto].
    rewrite lookup_insert. case_decide; [subst o|eauto].
    intros Ho. exfalso.
    by rewrite (proj1 (not_elem_of_dom (locals w) _) (is_fresh _)) in Ho. }
  destruct (n =? 0); simpl; [apply Hkeep|].
  destruct (_ && _); [|done]. simpl. unfold accounted. simpl.
  intros l. rewrite lookup_insert. case_decide as Hl.
  - intros _. exists (Local (fresh (dom (locals w)))), {| raw_ptr_ := Ptr l 0 |}, 0.
    simpl. rewrite lookup_insert_eq. by subst.
  - intros Hin. destruct (Hw l Hin) as (r & a & i & Hr & Hp).
    exists r, a, i. split; [|done]. destruct r as [o|v]; simpl in *; [|done].
    rewrite lookup_insert_ne; [done|]. intros <-.
    by rewrite (proj1 (not_elem_of_dom (locals w) _) (is_fresh _)) in Hr.
Qed.

Lemma leakless_swap r1 r2 : leakless (ArrayPtr.swap r1 r2 : M T _).
Proof.
  intros w Hw. unfold ArrayPtr.swap.
  destruct (owner_at (locals w) (vecs w) r1) as [a|] eqn:H1; cycle 1.
  { unfold mbind, M_bind, get_owner. destruct r1; simpl in *.
    - by rewrite H1.
    - destruct (vecs w !! v); simplify_eq/=; done. }
  destruct (owner_at (locals w) (vecs w) r2) as [b|] eqn:H2; cycle 1.
  { erewrite bind_Ret; [|by apply get_owner_run|reflexivity].
    unfold mbind, M_bind, get_owner. destruct r2; simpl in *.
    - by rewrite H2.
    - destruct (vecs w !! v); simplify_eq/=; done. }
  destruct (set_owner_run w r1 a {| raw_ptr_ := raw_ptr_ b |} H1)
    as (w1 & Hrun1 & Hb1 & Ho1 & Hf1).
  assert (is_Some (owner_at (locals w1) (vecs w1) r2)) as [b1 Hb1'].
  { destruct (decide (r2 = r1)) as [->|Hne]; [eauto|]. rewrite Hf1 by done. eauto. }
  destruct (set_owner_run w1 r2 b1 {| raw_ptr_ := raw_ptr_ a |} Hb1')
    as (w2 & Hrun2 & Hb2 & Ho2 & Hf2).
  erewrite bind_Ret; [|by apply get_owner_run|reflexivity].
  erewrite bind_Ret; [|by apply get_owner_run|reflexivity].
  erewrite bind_Ret; [|exact Hrun1|exact Hrun2]. simpl.
  intros l. rewrite Hb2, Hb1. intros Hin.
  destruct (Hw l Hin) as (r & c & i & Hr & Hp).
  destruct (decide (r = r2)) as [->|Hr2].
  - (* what [r2] owned belongs to [r1] now *)
    assert (c = b) as -> by congruence.
    destruct (decide (r1 = r2)) as [->|Hne].
    + assert (a = b) as -> by congruence. exists r2, {| raw_ptr_ := raw_ptr_ b |}, i.
      done.
    + exists r1, {| raw_ptr_ := raw_ptr_ b |}, i. split; [|done].
      rewrite Hf2 by done. done.
  - destruct (decide (r = r1)) as [->|Hr1].
    + assert (c = a) as -> by congruence.
      exists r2, {| raw_ptr_ := raw_ptr_ a |}, i. done.
    + exists r, c, i. split; [|done]. rewrite Hf2, Hf1 by done. done.
Qed.


Lemma leakless_delete_array p : leakless (delete_array p : M T _).
Proof.
  intros w Hw. unfold delete_array. destruct p as [|l i]; [done|].
  destruct (blocks w !! l) as [b|] eqn:Hb; [|done].
  destruct (i =? 0); [|done]. simpl.
  eapply accounted_mono; [| |exact Hw]; simpl; [|eauto].
  intros l'. rewrite lookup_delete. by case_decide.
Qed.

(** The end of the scope of a local [ArrayPtr]: its array goes with it. *)
Lemma leakless_destroy_local r : leakless (ArrayPtr.destroy_local r : M T _).
Proof.
  intros [B L V] Hw. unfold ArrayPtr.destroy_local, ArrayPtr.dtor.
  destruct r as [o|v]; cycle 1.
  { unfold mbind, M_bind.
    unfold get_owner, delete_array. simpl. destruct (V !! v) as [s|]; [|done].
    destruct (raw_ptr_ (items_ s)) as [|l i]; [exact I|]. simpl.
    destruct (B !! l); [|exact I]. destruct (i =? 0); exact I. }
  unfold mbind, M_bind, get_owner, delete_array, end_of_scope. simpl.
  destruct (L !! o) as [[p]|] eqn:Ho; [|exact I]. simpl.
  destruct p as [|l i].
  - simpl. intros l' Hl'. destruct (Hw l' Hl') as (r & a & j & Hr & Hp).
    exists r, a, j. split; [|done]. destruct r as [o'|v]; simpl in *; [|done].
    rewrite lookup_delete_ne; [done|]. intros <-. simplify_eq/=.
  - destruct (B !! l) as [b|] eqn:Hb; [|exact I]. destruct (i =? 0); [|exact I].
    simpl. intros l'. simpl. rewrite lookup_delete.
    case_decide as Hl; [by intros []|]. intros Hl'.
    destruct (Hw l' Hl') as (r & a & j & Hr & Hp).
    exists r, a, j. split; [|done]. destruct r as [o'|v]; simpl in *; [|done].
    rewrite lookup_delete_ne; [done|]. intros <-. simplify_eq/=.
Qed.

(** The end of the lifetime of a vector: its array goes with it. *)
Lemma leakless_dtor this : leakless (SimpleVector.dtor this : M T _).
Proof.
  intros [B L V] Hw. unfold SimpleVector.dtor, ArrayPtr.dtor.
  unfold mbind, M_bind, get_owner, delete_array, free_vec. simpl.
  destruct (V !! this) as [s|] eqn:Hs; [|exact I]. simpl.
  destruct (raw_ptr_ (items_ s)) as [|l i] eqn:Hp.
  - simpl. rewrite Hs. simpl. intros l' Hl'.
    destruct (Hw l' Hl') as (r & a & j & Hr & Hpa).
    exists r, a, j. split; [|done]. destruct r as [o|v]; simpl in *; [done|].
    rewrite lookup_delete_ne; [done|]. intros <-. rewrite Hs in Hr.
    simplify_eq/=. congruence.
  - destruct (B !! l) as [b|] eqn:Hb; [|exact I]. destruct (i =? 0); [|exact I].
    simpl. rewrite Hs. simpl.
    intros l'. simpl. rewrite lookup_delete.
    case_decide as Hl; [by intros []|]. intros Hl'.
    destruct (Hw l' Hl') as (r & a & j & Hr & Hpa).
    exists r, a, j. split; [|done]. destruct r as [o|v]; simpl in *; [done|].
    rewrite lookup_delete_ne; [done|]. intros <-. rewrite Hs in Hr.
    simplify_eq/=. congruence.
Qed.


Lemma get_owner_None w r :
  owner_at (locals w) (vecs w) r = None → get_owner r w = Undef.
Proof.
  unfold get_owner. destruct r as [o|v]; simpl.
  - by intros ->.
  - destruct (vecs w !! v); by simplify_eq/=.
Qed.

Lemma delete_array_outcome w p :
  delete_array p w = Undef
  ∨ delete_array p w = Ret () (World (release p (blocks w)) (locals w) (vecs w)).
Proof.
  unfold delete_array, release. destruct p as [|l i]; [right; by destruct w|].
  destruct (blocks w !! l); [|by left]. destruct (i =? 0); [by right|by left].
Qed.

Lemma release_lookup_Some B p l (b : list T) :
  release p B !! l = Some b → B !! l = Some b ∧ ∀ i, p ≠ Ptr l i.
Proof.
  unfold release. destruct p as [|l0 i0]; [done|].
  rewrite lookup_delete. case_decide; [done|]. intros ?. split; [done|congruence].
Qed.

(** [a = std::move(b)] on owners: the array of [a] is deleted, that of [b]
    changes hands. *)
Lemma leakless_ArrayPtr_assign_move r1 r2 :
  leakless (ArrayPtr.assign_move r1 r2 : M T _).
Proof.
  intros w Hw. unfold ArrayPtr.assign_move. case_decide as Hne; [|done].
  destruct (owner_at (locals w) (vecs w) r1) as [a|] eqn:H1; cycle 1.
  { by erewrite bind_Undef by (by apply get_owner_None). }
  erewrite bind_Ret; [|by apply get_owner_run|reflexivity].
  destruct (delete_array_outcome w (raw_ptr_ a)) as [Hd|Hd].
  { by erewrite bind_Undef. }
  erewrite bind_Ret; [|exact Hd|reflexivity].
  set (w0 := World (release (raw_ptr_ a) (blocks w)) (locals w) (vecs w)).
  destruct (owner_at (locals w) (vecs w) r2) as [b|] eqn:H2; cycle 1.
  { by erewrite bind_Undef by (by apply get_owner_None). }
  erewrite bind_Ret; [|by apply (get_owner_run w0)|reflexivity].
  destruct (set_owner_run w0 r1 a {| raw_ptr_ := raw_ptr_ b |} H1)
    as (w1 & Hrun1 & Hb1 & Ho1 & Hf1).
  assert (owner_at (locals w1) (vecs w1) r2 = Some b) as H2'.
  { rewrite Hf1 by done. done. }
  destruct (set_owner_run w1 r2 b {| raw_ptr_ := nullptr |} H2')
    as (w2 & Hrun2 & Hb2 & Ho2 & Hf2).
  erewrite bind_Ret; [|exact Hrun1|exact Hrun2]. simpl.
  intros l [bl Hl]. rewrite Hb2, Hb1 in Hl. simpl in Hl.
  apply release_lookup_Some in Hl as [Hl Hnot].
  destruct (Hw l (mk_is_Some _ _ Hl)) as (r & c & i & Hr & Hp).
  assert (r ≠ r1) as Hr1.
  { intros ->. apply (Hnot i). congruence. }
  destruct (decide (r = r2)) as [->|Hr2].
  - assert (c = b) as -> by congruence.
    exists r1, {| raw_ptr_ := raw_ptr_ b |}, i. split; [|done].
    rewrite Hf2 by done. done.
  - exists r, c, i. split; [|done]. rewrite Hf2, Hf1 by done. done.
Qed.

(** The head of the constructors: the new array belongs to the new vector. *)
Lemma leakless_ctor_head {A} n c (size : N) (K : positive → M T A) :
  (∀ this, leakless (K this)) →
  leakless (items ← ArrayPtr.ctor_size n;
            this ← alloc_vec {| size_ := size; capacity_ := c; items_ := items |};
            K this).
Proof.
  intros HK [B L V] Hw.
  assert (Hfresh : V !! fresh (dom V) = None) by apply fresh_vec_None.
  unfold ArrayPtr.ctor_size, mbind at 1, M_bind at 1.
  destruct (n =? 0); simpl.
  - unfold mbind, M_bind, alloc_vec. simpl. apply HK.
    eapply accounted_mono; [| |exact Hw]; simpl; [done|].
    intros [o|v] a; simpl; [eauto|]. rewrite lookup_insert.
    case_decide; [subst v; by rewrite Hfresh|eauto].
  - unfold new_array, mbind, M_bind. simpl.
    destruct (_ && _); [|done]. simpl. apply HK.
    intros l. simpl. rewrite lookup_insert. case_decide as Hl.
    + intros _. exists (Member (fresh (dom V))), {| raw_ptr_ := Ptr l 0 |}, 0.
      simpl. rewrite lookup_insert_eq. simpl. by subst.
    + intros Hin. destruct (Hw l Hin) as (r & a & i & Hr & Hp).
      exists r, a, i. split; [|done]. destruct r as [o|v]; simpl in *; [done|].
      rewrite lookup_insert_ne; [done|]. intros <-. by rewrite Hfresh in Hr.
Qed.

Lemma leakless_ctor_default : leakless (SimpleVector.ctor_default : M T _).
Proof.
  intros [B L V] Hw.
  assert (Hfresh : V !! fresh (dom V) = None) by apply fresh_vec_None.
  unfold SimpleVector.ctor_default, ArrayPtr.ctor_default, mbind, M_bind, alloc_vec.
  simpl. eapply accounted_mono; [| |exact Hw]; simpl; [done|].
  intros [o|v] a; simpl; [eauto|]. rewrite lookup_insert.
  case_decide; [subst v; by rewrite Hfresh|eauto].
Qed.

Lemma leakless_ctor_reserve proxy :
  leakless (SimpleVector.ctor_reserve proxy : M T _).
Proof.
  intros [B L V] Hw.
  assert (Hfresh : V !! fresh (dom V) = None) by apply fresh_vec_None.
  unfold SimpleVector.ctor_reserve, ArrayPtr.ctor_raw, mbind at 1, M_bind at 1.
  destruct (0 <? capacity proxy); simpl.
  - unfold new_array, mbind, M_bind, alloc_vec. simpl.
    destruct (_ && _); [|done]. simpl.
    intros l. simpl. rewrite lookup_insert. case_decide as Hl.
    + intros _. exists (Member (fresh (dom V))), {| raw_ptr_ := Ptr l 0 |}, 0.
      simpl. rewrite lookup_insert_eq. simpl. by subst.
    + intros Hin. destruct (Hw l Hin) as (r & a & i & Hr & Hp).
      exists r, a, i. split; [|done]. destruct r as [o|v]; simpl in *; [done|].
      rewrite lookup_insert_ne; [done|]. intros <-. by rewrite Hfresh in Hr.
  - unfold mbind, M_bind, alloc_vec. simpl.
    eapply accounted_mono; [| |exact Hw]; simpl; [done|].
    intros [o|v] a; simpl; [eauto|]. rewrite lookup_insert.
    case_decide; [subst v; by rewrite Hfresh|eauto].
Qed.

Lemma leakless_ctor_move other : leakless (SimpleVector.ctor_move other : M T _).
Proof.
  intros [B L V] Hw.
  assert (Hfresh : V !! fresh (dom V) = None) by apply fresh_vec_None.
  destruct (V !! other) as [so|] eqn:Hso; cycle 1.
  { unfold SimpleVector.ctor_move, mbind, M_bind, get_vec. simpl. by rewrite Hso. }
  rewrite (ctor_move_eq B L V other so Hso). simpl.
  intros l Hl. destruct (Hw l Hl) as (r & a & i & Hr & Hp).
  destruct r as [o|v]; simpl in *.
  { exists (Local o), a, i. done. }
  destruct (decide (v = other)) as [->|Hne].
  - exists (Member (fresh (dom V))), a, i. split; [|done]. simpl.
    rewrite lookup_insert_ne by congruence. rewrite lookup_insert_eq.
    by rewrite Hso in Hr.
  - exists (Member v), a, i. split; [|done]. simpl.
    rewrite lookup_insert_ne by done. rewrite lookup_insert_ne; [done|].
    intros <-. by rewrite Hfresh in Hr.
Qed.


Ltac leakless_step :=
  first
    [ apply leakless_ret | apply leakless_throw | apply leakless_undef
    | apply leakless_get_owner | apply leakless_get_vec | apply leakless_get_size
    | apply leakless_get_capacity | apply leakless_read | apply leakless_write
    | apply leakless_subscript | apply leakless_ptr_add | apply leakless_ptr_diff
    | apply leakless_set_size | apply leakless_set_capacity
    | apply leakless_local_ctor_size | apply leakless_swap
    | apply leakless_destroy_local | apply leakless_dtor
    | apply leakless_ArrayPtr_assign_move
    | apply leakless_ctor_default | apply leakless_ctor_reserve
    | apply leakless_ctor_move
    | apply leakless_ctor_head; intros ?
    | apply leakless_for_loop; intros ?
    | apply leakless_for_loop_down; intros ?
    | apply leakless_bind; [|intros ?]
    | match goal with
      | |- leakless (if ?b then _ else _) => destruct b
      | |- leakless (let _ := _ in _) => cbv zeta
      | |- leakless ((λ _, _) _) => cbv beta
      end ].

Ltac leakless_auto := repeat leakless_step.

Lemma leakless_index r i : leakless (ArrayPtr.index r i : M T _).
Proof. unfold ArrayPtr.index. leakless_auto. Qed.

Lemma leakless_assign_moved rd di rs si :
  leakless (SimpleVector.assign_moved rd di rs si : M T _).
Proof. unfold SimpleVector.assign_moved, ArrayPtr.index. leakless_auto. Qed.

Lemma leakless_assign_item this i x :
  leakless (SimpleVector.assign_item this i x : M T _).
Proof. unfold SimpleVector.assign_item, ArrayPtr.index. leakless_auto. Qed.

Lemma leakless_assign_each this init :
  ∀ i, leakless (SimpleVector.assign_each this i init : M T _).
Proof.
  induction init as [|x init IH]; intros i; simpl; [apply leakless_ret|].
  apply leakless_bind; [apply leakless_assign_item|intros _; apply IH].
Qed.

Ltac leakless_call :=
  repeat first
    [ apply leakless_index | apply leakless_assign_moved
    | apply leakless_assign_item | apply leakless_assign_each
    | leakless_step ].

Lemma leakless_mutate this m : leakless (mutate this m).
Proof.
  destruct m; simpl;
    unfold SimpleVector.Reserve, SimpleVector.Clear, SimpleVector.Resize,
      SimpleVector.PushBack, SimpleVector.Insert, SimpleVector.EmplaceBack,
      SimpleVector.Emplace, SimpleVector.PopBack, SimpleVector.Erase,
      SimpleVector.at_index, SimpleVector.At, SimpleVector.begin, ArrayPtr.Get,
      for_upto, for_downto;
    leakless_call.
Qed.

Lemma leakless_ask this q : leakless (ask this q : M T _).
Proof.
  destruct q; simpl;
    unfold SimpleVector.GetSize, SimpleVector.GetCapacity, SimpleVector.IsEmpty,
      SimpleVector.begin, SimpleVector.end_, SimpleVector.at_index,
      SimpleVector.At, ArrayPtr.Get;
    leakless_call.
Qed.

Lemma leakless_ctor_copy other : leakless (SimpleVector.ctor_copy other : M T _).
Proof. unfold SimpleVector.ctor_copy, for_upto. leakless_call. Qed.

Lemma leakless_vector_swap this other :
  leakless (SimpleVector.swap this other : M T _).
Proof. unfold SimpleVector.swap. leakless_call. Qed.

Lemma leakless_exec o : leakless (exec o).
Proof.
  destruct o; cbn [exec];
    unfold alive, SimpleVector.ctor_size, SimpleVector.ctor_fill,
      SimpleVector.ctor_list, SimpleVector.assign_copy, SimpleVector.assign_move,
      for_upto;
    repeat first
      [ apply leakless_mutate | apply leakless_ask | apply leakless_ctor_copy
      | apply leakless_vector_swap | leakless_call ].
Qed.

Lemma accounted_empty_world : accounted (@empty_world T).
Proof. intros l [b Hb]. simpl in Hb. by rewrite lookup_empty in Hb. Qed.

Lemma reachable_accounted w : reachable w → accounted w.
Proof.
  induction 1 as [|o w w' _ IH Hrun|o w e w' _ IH Hrun].
  - apply accounted_empty_world.
  - pose proof (leakless_exec o w IH) as Hafter. by rewrite Hrun in Hafter.
  - pose proof (leakless_exec o w IH) as Hafter. by rewrite Hrun in Hafter.
Qed.


(** X16. In every state a client program can reach, each array of the free
    store is owned by exactly one live vector and each vector that holds a
    pointer owns a live array: nothing is leaked and nothing dangles, also
    after an exception.  Once every vector has been destroyed the free
    store is empty. *)
Theorem no_array_is_leaked w :
  reachable w →
  (∀ l, is_Some (blocks w !! l) →
     ∃ v s, vecs w !! v = Some s ∧ raw_ptr_ (items_ s) = Ptr l 0
            ∧ ∀ v' s' i, vecs w !! v' = Some s' →
                         raw_ptr_ (items_ s') = Ptr l i → v' = v)
  ∧ (∀ v s l i, vecs w !! v = Some s → raw_ptr_ (items_ s) = Ptr l i →
       i = 0 ∧ is_Some (blocks w !! l))
  ∧ (vecs w = ∅ → blocks w = ∅).
Proof.
  intros Hr. pose proof (reachable_wf w Hr) as Hw.
  pose proof (reachable_accounted w Hr) as Hacc.
  assert (Hown : ∀ l, is_Some (blocks w !! l) →
            ∃ v s i, vecs w !! v = Some s ∧ raw_ptr_ (items_ s) = Ptr l i).
  { intros l Hl. destruct (Hacc l Hl) as (r & a & i & Hr' & Hp).
    destruct Hw as (HL & _). destruct r as [o|v]; simpl in Hr'.
    - by rewrite HL, lookup_empty in Hr'.
    - destruct (vecs w !! v) as [s|] eqn:Hs; [|done]. simplify_eq/=. eauto. }
  split_and!.
  - intros l Hl. destruct (Hown l Hl) as (v & s & i & Hs & Hp).
    destruct (wf_owned _ _ _ _ _ Hw Hs Hp) as (-> & _).
    exists v, s. split_and!; [done..|].
    intros v' s' i' Hs' Hp'. destruct Hw as (_ & _ & Hsep). by eapply Hsep.
  - intros v s l i Hs Hp.
    destruct (wf_owned _ _ _ _ _ Hw Hs Hp) as (-> & b & Hb & _). eauto.
  - intros Hnone. apply map_empty. intros l.
    destruct (blocks w !! l) as [b|] eqn:Hb; [|done].
    destruct (Hown l (mk_is_Some _ _ Hb)) as (v & s & i & Hs & _).
    by rewrite Hnone, lookup_empty in Hs.
Qed.

(** ** Exceptions *)

Lemma nothrow_ret {A} (a : A) : nothrow (mret a : M T A).
Proof. by intros w. Qed.

Lemma nothrow_undef {A} : nothrow (undef : M T A).
Proof. by intros w. Qed.

Lemma nothrow_bind {A C} (m : M T A) (k : A → M T C) :
  nothrow m → (∀ a, nothrow (k a)) → nothrow (m ≫= k).
Proof.
  intros Hm Hk w. specialize (Hm w). unfold mbind, M_bind.
  destruct (m w) as [a w1|e w1|]; [apply Hk|done..].
Qed.

Lemma readonly_ret {A} (a : A) : readonly (mret a : M T A).
Proof. by intros w. Qed.

Lemma readonly_bind {A C} (m : M T A) (k : A → M T C) :
  readonly m → (∀ a, readonly (k a)) → readonly (m ≫= k).
Proof.
  intros Hm Hk w. specialize (Hm w). unfold mbind, M_bind.
  destruct (m w) as [a w1|e w1|]; [subst w1; apply Hk|done..].
Qed.

Lemma strong_of_nothrow {A} E (m : M T A) : nothrow m → strong E m.
Proof. intros Hm w. specialize (Hm w). by destruct (m w). Qed.

Lemma strong_throw {A} (E : exn → Prop) e : E e → strong E (throw e : M T A).
Proof. by intros He w. Qed.

(** A call that reads, then goes on. *)
Lemma strong_bind_readonly {A C} E (m : M T A) (k : A → M T C) :
  readonly m → nothrow m → (∀ a, strong E (k a)) → strong E (m ≫= k).
Proof.
  intros Hm Hn Hk w. specialize (Hm w). specialize (Hn w). unfold mbind, M_bind.
  destruct (m w) as [a w1|e w1|]; [subst w1; apply Hk|done..].
Qed.

(** A call that can throw only in its first step. *)
Lemma strong_bind_nothrow {A C} E (m : M T A) (k : A → M T C) :
  strong E m → (∀ a, nothrow (k a)) → strong E (m ≫= k).
Proof.
  intros Hm Hk w. specialize (Hm w). unfold mbind, M_bind.
  destruct (m w) as [a w1|e w1|]; [|done..].
  specialize (Hk a w1). by destruct (k a w1).
Qed.

Lemma strong_new_array n : strong (eq bad_alloc) (new_array n).
Proof. intros w. unfold new_array. by destruct (_ && _). Qed.

(** Whether a term contains a [match]. *)
Ltac has_match scrutinee :=
  match scrutinee with context [match _ with _ => _ end] => idtac end.

(** Case analysis on an innermost [match] of the goal. *)
Ltac inner_case :=
  match goal with
  | |- context [match ?scrutinee with _ => _ end] =>
      tryif has_match scrutinee then fail else destruct scrutinee eqn:?
  end.

Ltac prim_tac :=
  intros w;
  unfold get_owner, set_owner, get_vec, put_vec, free_vec, end_of_scope,
    delete_array, read, write, subscript, ptr_add, ptr_diff;
  repeat (inner_case; simpl); done.

Lemma nothrow_get_owner r : nothrow (get_owner r : M T _).
Proof. prim_tac. Qed.
Lemma readonly_get_owner r : readonly (get_owner r : M T _).
Proof. prim_tac. Qed.
Lemma nothrow_set_owner r a : nothrow (set_owner r a : M T _).
Proof. prim_tac. Qed.
Lemma nothrow_get_vec v : nothrow (get_vec v : M T _).
Proof. prim_tac. Qed.
Lemma readonly_get_vec v : readonly (get_vec v : M T _).
Proof. prim_tac. Qed.
Lemma nothrow_put_vec v s : nothrow (put_vec v s : M T _).
Proof. prim_tac. Qed.
Lemma nothrow_alloc_vec s : nothrow (alloc_vec s : M T _).
Proof. by intros w. Qed.
Lemma nothrow_alloc_local a : nothrow (alloc_local a : M T _).
Proof. by intros w. Qed.
Lemma nothrow_free_vec v : nothrow (free_vec v : M T _).
Proof. prim_tac. Qed.
Lemma nothrow_end_of_scope r : nothrow (end_of_scope r : M T _).
Proof. prim_tac. Qed.
Lemma nothrow_delete_array p : nothrow (delete_array p : M T _).
Proof. prim_tac. Qed.
Lemma nothrow_read p : nothrow (read p : M T _).
Proof. prim_tac. Qed.
Lemma readonly_read p : readonly (read p : M T _).
Proof. prim_tac. Qed.
Lemma nothrow_write p x : nothrow (write p x : M T _).
Proof. prim_tac. Qed.
Lemma nothrow_subscript p n : nothrow (subscript p n : M T _).
Proof. prim_tac. Qed.
Lemma readonly_subscript p n : readonly (subscript p n : M T _).
Proof. prim_tac. Qed.
Lemma nothrow_ptr_add p n : nothrow (ptr_add p n : M T _).
Proof. prim_tac. Qed.
Lemma readonly_ptr_add p n : readonly (ptr_add p n : M T _).
Proof. prim_tac. Qed.
Lemma nothrow_ptr_diff p q : nothrow (ptr_diff p q : M T _).
Proof. prim_tac. Qed.
Lemma readonly_ptr_diff p q : readonly (ptr_diff p q : M T _).
Proof. prim_tac. Qed.

Lemma nothrow_construct a : nothrow (SimpleVector.construct a : M T _).
Proof.
  destruct a as [x|p|p]; simpl; [apply nothrow_ret|apply nothrow_read|].
  apply nothrow_bind; [apply nothrow_read|intros x].
  apply nothrow_bind; [apply nothrow_write|intros _; apply nothrow_ret].
Qed.

Lemma nothrow_for_loop body n :
  (∀ i, nothrow (body i)) → ∀ i, nothrow (for_loop n i body : M T _).
Proof.
  intros Hbody. induction n as [|n IH]; intros i; simpl.
  - apply nothrow_ret.
  - apply nothrow_bind; [apply Hbody|intros _; apply IH].
Qed.

Lemma nothrow_for_loop_down body n :
  (∀ i, nothrow (body i)) → ∀ i, nothrow (for_loop_down n i body : M T _).
Proof.
  intros Hbody. induction n as [|n IH]; intros i; simpl.
  - apply nothrow_ret.
  - apply nothrow_bind; [apply Hbody|intros _; apply IH].
Qed.

Ltac nothrow_step :=
  first
    [ apply nothrow_ret | apply nothrow_undef
    | apply nothrow_get_owner | apply nothrow_set_owner | apply nothrow_get_vec
    | apply nothrow_put_vec | apply nothrow_alloc_vec | apply nothrow_alloc_local
    | apply nothrow_free_vec | apply nothrow_end_of_scope
    | apply nothrow_delete_array | apply nothrow_read | apply nothrow_write
    | apply nothrow_subscript | apply nothrow_ptr_add | apply nothrow_ptr_diff
    | apply nothrow_construct
    | apply nothrow_for_loop; intros ?
    | apply nothrow_for_loop_down; intros ?
    | apply nothrow_bind; [|intros ?]
    | match goal with
      | |- nothrow (if ?b then _ else _) => destruct b
      | |- nothrow (let _ := _ in _) => cbv zeta
      | |- nothrow ((λ _, _) _) => cbv beta
      end ].

Ltac unfold_calls :=
  unfold SimpleVector.ctor_default, SimpleVector.ctor_move, SimpleVector.dtor,
    SimpleVector.GetSize, SimpleVector.GetCapacity, SimpleVector.IsEmpty,
    SimpleVector.at_index, SimpleVector.Clear, SimpleVector.begin,
    SimpleVector.end_, SimpleVector.cbegin, SimpleVector.cend,
    SimpleVector.swap, SimpleVector.assign_move, SimpleVector.PopBack,
    SimpleVector.Erase, SimpleVector.assign_moved, SimpleVector.assign_item,
    ArrayPtr.ctor_default, ArrayPtr.ctor_raw, ArrayPtr.ctor_move, ArrayPtr.dtor,
    ArrayPtr.assign_move, ArrayPtr.Release, ArrayPtr.index, ArrayPtr.to_bool,
    ArrayPtr.Get, ArrayPtr.swap, ArrayPtr.destroy_local,
    get_size, get_capacity, set_size, set_capacity, for_upto, for_downto, alive.

Ltac nothrow_auto := unfold_calls; repeat nothrow_step.

(** X18. The functions declared [noexcept] (and the destructors) never
    throw, whatever the state they are called in. *)
Theorem noexcept_functions_never_throw :
  nothrow (ArrayPtr.ctor_default : M T _)
  ∧ (∀ p, nothrow (ArrayPtr.ctor_raw p : M T _))
  ∧ (∀ other, nothrow (ArrayPtr.ctor_move other : M T _))
  ∧ (∀ this, nothrow (ArrayPtr.dtor this : M T _))
  ∧ (∀ this other, nothrow (ArrayPtr.assign_move this other : M T _))
  ∧ (∀ this, nothrow (ArrayPtr.Release this : M T _))
  ∧ (∀ this i, nothrow (ArrayPtr.index this i : M T _))
  ∧ (∀ this, nothrow (ArrayPtr.Get this : M T _))
  ∧ (∀ this other, nothrow (ArrayPtr.swap this other : M T _))
  ∧ nothrow (SimpleVector.ctor_default : M T _)
  ∧ (∀ other, nothrow (SimpleVector.ctor_move other : M T _))
  ∧ (∀ this, nothrow (SimpleVector.dtor this : M T _))
  ∧ (∀ this, nothrow (SimpleVector.GetSize this : M T _))
  ∧ (∀ this, nothrow (SimpleVector.GetCapacity this : M T _))
  ∧ (∀ this, nothrow (SimpleVector.IsEmpty this : M T _))
  ∧ (∀ this i, nothrow (SimpleVector.at_index this i : M T _))
  ∧ (∀ this, nothrow (SimpleVector.Clear this : M T _))
  ∧ (∀ this, nothrow (SimpleVector.begin this : M T _))
  ∧ (∀ this, nothrow (SimpleVector.end_ this : M T _))
  ∧ (∀ this, nothrow (SimpleVector.cbegin this : M T _))
  ∧ (∀ this, nothrow (SimpleVector.cend this : M T _))
  ∧ (∀ this rhs, nothrow (SimpleVector.assign_move this rhs : M T _))
  ∧ (∀ this, nothrow (SimpleVector.PopBack this : M T _))
  ∧ (∀ this other, nothrow (SimpleVector.swap this other : M T _)).
Proof. split_and!; intros; nothrow_auto. Qed.


Ltac readonly_step :=
  first
    [ apply readonly_ret | apply readonly_get_owner | apply readonly_get_vec
    | apply readonly_read | apply readonly_subscript | apply readonly_ptr_add
    | apply readonly_ptr_diff
    | apply readonly_bind; [|intros ?] ].

Ltac readonly_auto := unfold_calls; repeat readonly_step.

Lemma strong_ctor_size n : strong (eq bad_alloc) (ArrayPtr.ctor_size n : M T _).
Proof.
  unfold ArrayPtr.ctor_size. destruct (negb _).
  - apply strong_bind_nothrow; [apply strong_new_array|intros; apply nothrow_ret].
  - apply strong_of_nothrow, nothrow_ret.
Qed.

Lemma strong_local_ctor_size n :
  strong (eq bad_alloc) (local_owner (ArrayPtr.ctor_size n) : M T _).
Proof.
  apply strong_bind_nothrow; [apply strong_ctor_size|intros; apply nothrow_alloc_local].
Qed.

Lemma nothrow_assign_each this init :
  ∀ i, nothrow (SimpleVector.assign_each this i init : M T _).
Proof.
  induction init as [|x init IH]; intros i; simpl; [apply nothrow_ret|].
  apply nothrow_bind; [nothrow_auto|intros _; apply IH].
Qed.

Ltac strong_step :=
  first
    [ apply strong_of_nothrow;
      solve [repeat first [apply nothrow_assign_each | nothrow_step]]
    | apply strong_throw; reflexivity
    | apply strong_new_array | apply strong_ctor_size
    | apply strong_local_ctor_size
    | apply strong_bind_readonly;
      [solve [repeat readonly_step]|solve [repeat nothrow_step]|intros ?]
    | apply strong_bind_nothrow;
      [|intros ?; solve [repeat first [apply nothrow_assign_each | nothrow_step]]]
    | match goal with
      | |- strong _ (if ?b then _ else _) => destruct b
      | |- strong _ (let _ := _ in _) => cbv zeta
      | |- strong _ ((λ _, _) _) => cbv beta
      end ].

Ltac unfold_throwing :=
  unfold SimpleVector.ctor_reserve, SimpleVector.ctor_size, SimpleVector.ctor_fill,
    SimpleVector.ctor_list, SimpleVector.ctor_copy, SimpleVector.Reserve,
    SimpleVector.Resize, SimpleVector.PushBack, SimpleVector.Insert,
    SimpleVector.EmplaceBack, SimpleVector.Emplace, SimpleVector.At,
    SimpleVector.assign_copy.

Ltac strong_auto := unfold_throwing; unfold_calls; repeat strong_step.

Lemma strong_ctor_copy other :
  strong (eq bad_alloc) (SimpleVector.ctor_copy other : M T _).
Proof. strong_auto. Qed.

Lemma strong_mutate this m :
  strong (eq (exception_of (Mutate this m))) (mutate this m).
Proof. destruct m; simpl; strong_auto. Qed.

Lemma strong_ask this q :
  strong (eq (exception_of (Ask this q : @op T))) (ask this q : M T _).
Proof. destruct q; simpl; strong_auto. Qed.

Lemma strong_exec o : strong (eq (exception_of o)) (exec o).
Proof.
  destruct o as [| | | | | | | |v m|v q| | |]; cbn [exec].
  9: { apply strong_bind_readonly; [readonly_auto|nothrow_auto|intros _].
       apply strong_mutate. }
  9: { apply strong_bind_readonly; [readonly_auto|nothrow_auto|intros _].
       apply strong_ask. }
  all: simpl; strong_auto.
Qed.

Lemma strong_inv {A} E (m : M T A) w e w' :
  strong E m → m w = Throw e w' → w' = w ∧ E e.
Proof. intros Hm Hrun. specialize (Hm w). by rewrite Hrun in Hm. Qed.

(** X17. For an element type whose operations do not throw, the only
    exceptions are [std::out_of_range] from [At] and [std::bad_alloc] from
    [new[]], and whenever a statement of a client program ends in one of
    them the state is exactly the one before the statement.  In particular
    a constructor that throws leaves no object and no array behind, a copy
    assignment that throws leaves its destination as it was, and so does an
    append or an insertion, whatever it was passed. *)
Theorem exceptions_leave_state_unchanged :
  (∀ (o : @op T) w e w', exec o w = Throw e w' → w' = w ∧ e = exception_of o)
  ∧ (∀ proxy w e w', SimpleVector.ctor_reserve proxy w = Throw e w' →
                     w' = w ∧ e = bad_alloc)
  ∧ (∀ n w e w', SimpleVector.ctor_size n w = Throw e w' → w' = w ∧ e = bad_alloc)
  ∧ (∀ n x w e w', SimpleVector.ctor_fill n x w = Throw e w' →
                   w' = w ∧ e = bad_alloc)
  ∧ (∀ init w e w', SimpleVector.ctor_list init w = Throw e w' →
                    w' = w ∧ e = bad_alloc)
  ∧ (∀ other w e w', SimpleVector.ctor_copy other w = Throw e w' →
                     w' = w ∧ e = bad_alloc)
  ∧ (∀ this rhs w e w', SimpleVector.assign_copy this rhs w = Throw e w' →
                        w' = w ∧ e = bad_alloc)
  ∧ (∀ this a w e w', SimpleVector.EmplaceBack this a w = Throw e w' →
                      w' = w ∧ e = bad_alloc)
  ∧ (∀ this a w e w', SimpleVector.PushBack this a w = Throw e w' →
                      w' = w ∧ e = bad_alloc)
  ∧ (∀ this pos a w e w', SimpleVector.Emplace this pos a w = Throw e w' →
                          w' = w ∧ e = bad_alloc)
  ∧ (∀ this pos a w e w', SimpleVector.Insert this pos a w = Throw e w' →
                          w' = w ∧ e = bad_alloc).
Proof.
  assert (Hinv : ∀ {A} (m : M T A), strong (eq bad_alloc) m →
            ∀ w e w', m w = Throw e w' → w' = w ∧ e = bad_alloc).
  { intros A m Hm w e w' Hthrow.
    by destruct (strong_inv _ _ _ _ _ Hm Hthrow) as [-> <-]. }
  split_and!.
  - intros o w e w' Hrun.
    by destruct (strong_inv _ _ _ _ _ (strong_exec o) Hrun) as [-> <-].
  - intros *. apply Hinv. strong_auto.
  - intros *. apply Hinv. strong_auto.
  - intros *. apply Hinv. strong_auto.
  - intros *. apply Hinv. strong_auto.
  - intros *. apply Hinv. strong_auto.
  - intros *. apply Hinv. strong_auto.
  - intros *. apply Hinv. strong_auto.
  - intros *. apply Hinv. strong_auto.
  - intros *. apply Hinv. strong_auto.
  - intros *. apply Hinv. strong_auto.
Qed.

Lemma readonly_undef {A} : readonly (undef : M T A).
Proof. by intros w. Qed.

Lemma readonly_throw {A} e : readonly (throw e : M T A).
Proof. by intros w. Qed.

Ltac readonly_call :=
  unfold SimpleVector.At; unfold_calls;
  repeat first
    [ apply readonly_undef | apply readonly_throw | readonly_step
    | match goal with
      | |- readonly (if ?b then _ else _) => destruct b
      end ].

(** X19. The [const] member functions, and [begin()], [end()],
    [operator[]] and [At] in their non-const forms, change nothing: whether
    they return or throw, the state is the one before the call. *)
Theorem queries_change_nothing :
  (∀ this, readonly (SimpleVector.GetSize this : M T _))
  ∧ (∀ this, readonly (SimpleVector.GetCapacity this : M T _))
  ∧ (∀ this, readonly (SimpleVector.IsEmpty this : M T _))
  ∧ (∀ this i, readonly (SimpleVector.at_index this i : M T _))
  ∧ (∀ this i, readonly (SimpleVector.At this i : M T _))
  ∧ (∀ this, readonly (SimpleVector.begin this : M T _))
  ∧ (∀ this, readonly (SimpleVector.end_ this : M T _))
  ∧ (∀ this, readonly (SimpleVector.cbegin this : M T _))
  ∧ (∀ this, readonly (SimpleVector.cend this : M T _))
  ∧ (∀ this i, readonly (ArrayPtr.index this i : M T _))
  ∧ (∀ this, readonly (ArrayPtr.to_bool this : M T _))
  ∧ (∀ this, readonly (ArrayPtr.Get this : M T _))
  ∧ (∀ this q w, match ask this q w with
                 | Ret _ w' | Throw _ w' => w' = w
                 | Undef => True
                 end).
Proof.
  split_and!; intros; try readonly_call.
  assert (Hq : readonly (ask this q : M T _)); [|apply Hq].
  destruct q; simpl; unfold SimpleVector.At; readonly_call.
Qed.

(** ** Member functions one by one *)

(** X1. [Reserve(m)] with [m] within the capacity changes nothing at
    all.  Beyond the capacity, and when the free store grants [m] slots, the
    capacity becomes exactly [m], the size and the elements stay as they
    were, and the elements live in a new array, so [begin()] changes. *)
Theorem Reserve_sets_capacity w this n c els m :
  wf_world w → view w this = Some (n, c, els) →
  (m ≤ c → SimpleVector.Reserve this m w = Ret () w)
  ∧ (c < m → grants w m = true →
     ∃ w', SimpleVector.Reserve this m w = Ret () w'
           ∧ view w' this = Some (n, m, els)
           ∧ (∀ first, SimpleVector.begin this w = Ret first w →
                       SimpleVector.begin this w' ≠ Ret first w')
           ∧ modifies this w w').
Proof.
  intros Hw Hv. destruct (view_inv _ _ _ _ _ Hv) as (s & Hs & <- & <- & <-).
  pose proof (Reserve_spec w this s m Hw Hs) as Hspec.
  split.
  - intros Hm. by destruct (N.leb_spec m (capacity_ s)); [|lia].
  - intros Hm Hg. destruct (N.leb_spec m (capacity_ s)); [lia|].
    rewrite Hg in Hspec. destruct Hspec as (w' & l' & Hrun & Hup & Hel & Hfresh).
    destruct (updates_view _ _ _ _ Hup) as (Hv' & Hmod). simpl in Hv'.
    exists w'. split_and!; try done.
    + by rewrite Hv', Hel.
    + intros first. rewrite (begin_run w this s Hs). intros [= <-].
      destruct Hup as (_ & HV' & _).
      erewrite begin_run by (by rewrite HV', lookup_insert_eq). simpl.
      intros [= Hp]. symmetry in Hp.
      destruct (wf_owned _ _ _ _ _ Hw Hs Hp) as (_ & b & Hb & _). congruence.
Qed.

(** X2. Appending to a vector that has room for all the new elements
    allocates nothing (it succeeds whatever the free store would grant) and
    leaves the array in place: [begin()] and every reference to an element
    stay valid, the capacity is unchanged, and the new elements follow the
    old ones. *)
Theorem appends_with_room_stay_in_place w this n c els xs :
  wf_world w → view w this = Some (n, c, els) →
  n + N.of_nat (length xs) ≤ c →
  ∃ w', push_all this xs w = Ret () w'
        ∧ view w' this = Some (n + N.of_nat (length xs), c, els ++ xs)
        ∧ (∀ first, SimpleVector.begin this w = Ret first w →
                    SimpleVector.begin this w' = Ret first w')
        ∧ (∀ i p x, SimpleVector.at_index this i w = Ret p w → read p w = Ret x w →
                    SimpleVector.at_index this i w' = Ret p w' ∧ read p w' = Ret x w')
        ∧ modifies this w w'.
Proof.
  intros Hw Hv Hroom. destruct (view_inv _ _ _ _ _ Hv) as (s & Hs & <- & <- & <-).
  destruct (wf_bounds _ _ _ Hw Hs) as [Hle Hmax].
  pose proof (length_elements w s Hw _ Hs) as Hlen.
  destruct (raw_ptr_ (items_ s)) as [|l i] eqn:Hp.
  { (* no array: nothing to append *)
    assert (capacity_ s = 0) as Hc.
    { destruct Hw as (_ & Hwf & _). destruct (Hwf _ _ Hs) as (_ & _ & Hc).
      by rewrite Hp in Hc. }
    assert (xs = []) as -> by (apply nil_length_inv; lia).
    exists w. simpl. rewrite N.add_0_r, app_nil_r.
    split_and!; try done; by eapply modifies_refl. }
  destruct (wf_owned _ _ _ _ _ Hw Hs Hp) as (-> & b & Hb & Hlenb).
  destruct (push_all_in_place xs w this s l b Hw Hs Hp Hb Hroom)
    as (b' & Hrun & Hl' & Htake).
  set (s' := {| size_ := size_ s + N.of_nat (length xs); capacity_ := capacity_ s;
                items_ := items_ s |}) in *.
  set (w' := World (<[l := b']> (blocks w)) (locals w) (<[this := s']> (vecs w))) in *.
  assert (Hup : updates this s' w w').
  { eapply updates_in_place; eauto. }
  destruct (updates_view _ _ _ _ Hup) as (Hv' & Hmod).
  assert (Hs' : vecs w' !! this = Some s') by (simpl; by rewrite lookup_insert_eq).
  assert (Hel : elements w' s' = elements w s ++ xs).
  { unfold elements, buffer. simpl. rewrite Hp, Hb, lookup_insert_eq. simpl.
    rewrite <- Htake. f_equal. lia. }
  exists w'. split_and!; try done.
  - by rewrite Hv', Hel.
  - intros first. rewrite (begin_run w this s Hs). intros [= <-].
    by rewrite (begin_run w' this s' Hs').
  - intros j p x Hat Hrd.
    pose proof (at_index_spec w this s j Hw Hs) as Hspec.
    destruct (N.ltb_spec j (size_ s)) as [Hj|Hj]; [|by rewrite Hspec in Hat].
    destruct Hspec as (l0 & y & Hat0 & Hp0 & Hrd0 & Hy).
    rewrite Hat0 in Hat. injection Hat as <-.
    rewrite Hrd0 in Hrd. injection Hrd as <-.
    destruct Hmod as (Hw' & _).
    pose proof (at_index_spec w' this s' j Hw' Hs') as Hspec'.
    simpl in Hspec'. destruct (N.ltb_spec j (size_ s + N.of_nat (length xs))); [|lia].
    destruct Hspec' as (l1 & z & Hat1 & Hp1 & Hrd1 & Hz).
    assert (l1 = l0) as -> by congruence.
    split; [done|]. etrans; [exact Hrd1|]. f_equal.
    rewrite Hel in Hz. rewrite lookup_app_l in Hz by lia. congruence.
Qed.

(** X3. [Erase(begin() + k)] with [k < size] removes the element at
    position [k]: the elements after it move one position to the front, the
    size drops by one, the capacity and the array stay, and the iterator
    returned is the argument, which now designates the element that
    followed the erased one (or is [end()] when the last one was erased).
    [Erase(end())] on a non-empty vector shifts nothing and drops the last
    element. *)
Theorem Erase_removes w this n c els k :
  wf_world w → view w this = Some (n, c, els) →
  (k < n →
   ∃ first pos w',
     SimpleVector.begin this w = Ret first w ∧ ptr_add first k w = Ret pos w
     ∧ SimpleVector.Erase this pos w = Ret pos w'
     ∧ view w' this
       = Some (n - 1, c, take (N.to_nat k) els ++ drop (S (N.to_nat k)) els)
     ∧ SimpleVector.begin this w' = Ret first w'
     ∧ (∀ x, els !! S (N.to_nat k) = Some x → read pos w' = Ret x w')
     ∧ (k = n - 1 → SimpleVector.end_ this w' = Ret pos w')
     ∧ modifies this w w')
  ∧ (0 < n →
     ∃ last w',
       SimpleVector.end_ this w = Ret last w
       ∧ SimpleVector.Erase this last w = Ret last w'
       ∧ view w' this = Some (n - 1, c, take (N.to_nat (n - 1)) els)
       ∧ modifies this w w').
Proof.
  intros Hw Hv. destruct (view_inv _ _ _ _ _ Hv) as (s & Hs & <- & <- & <-).
  destruct (wf_bounds _ _ _ Hw Hs) as [Hle Hmax].
  pose proof (length_elements w s Hw _ Hs) as Hlen.
  split.
  - intros Hk.
    destruct (position_eq w this s k Hw Hs ltac:(lia)) as (first & Hfirst & Hpos).
    destruct (Erase_spec w this s k Hw Hs ltac:(lia) ltac:(lia))
      as (w' & Hrun & Hup & Hel).
    set (s' := {| size_ := size_ s - 1; capacity_ := capacity_ s;
                  items_ := items_ s |}) in *.
    destruct (updates_view _ _ _ _ Hup) as (Hv' & Hmod). simpl in Hv'.
    pose proof Hmod as (Hw' & _). pose proof Hup as (_ & HV' & _).
    assert (Hs' : vecs w' !! this = Some s') by (by rewrite HV', lookup_insert_eq).
    assert (Hel' : elements w' s'
              = take (N.to_nat k) (elements w s) ++ drop (S (N.to_nat k)) (elements w s)).
    { rewrite Hel. apply take_ge. rewrite length_app, length_take, length_drop. lia. }
    exists first, (position s k), w'. split_and!; try done.
    + by rewrite Hv', Hel'.
    + rewrite (begin_run w this s Hs) in Hfirst. injection Hfirst as <-.
      by rewrite (begin_run w' this s' Hs').
    + intros x Hx.
      assert (k < size_ s - 1) as Hk'.
      { apply lookup_lt_Some in Hx. lia. }
      pose proof (at_index_spec w' this s' k Hw' Hs') as Hat. simpl in Hat.
      destruct (N.ltb_spec k (size_ s - 1)); [|lia].
      destruct Hat as (l & y & _ & Hp & Hrd & Hy).
      unfold position. rewrite Hp.
      rewrite Hel' in Hy. rewrite lookup_app_r in Hy by (rewrite length_take; lia).
      rewrite length_take, lookup_drop in Hy.
      replace (S (N.to_nat k) + (N.to_nat k - N.to_nat k `min` length (elements w s)))%nat
        with (S (N.to_nat k)) in Hy by lia.
      assert (x = y) as -> by congruence. rewrite N.add_0_l. exact Hrd.
    + intros ->. rewrite (end_run w' this s' Hw' Hs'). done.
  - intros Hpos.
    destruct (Erase_spec w this s (size_ s) Hw Hs Hpos ltac:(lia))
      as (w' & Hrun & Hup & Hel).
    destruct (updates_view _ _ _ _ Hup) as (Hv' & Hmod). simpl in Hv'.
    exists (position s (size_ s)), w'. split_and!; try done.
    + by apply end_run.
    + rewrite Hv', Hel. do 2 f_equal.
      rewrite drop_ge by lia. rewrite app_nil_r. rewrite take_take. f_equal. lia.
Qed.

(** X4. [Erase] on an empty vector has undefined behaviour whatever the
    iterator: [size_ - 1] wraps around to the largest [size_t], so that the
    loop runs off the array (or finds no array at all). *)
Theorem Erase_on_empty_is_undefined w this c pos :
  wf_world w → view w this = Some (0, c, []) →
  size_sub 0 1 = SIZE_MAX ∧ SimpleVector.Erase this pos w = Undef.
Proof.
  intros Hw Hv. destruct (view_inv _ _ _ _ _ Hv) as (s & Hs & Hn & _ & _).
  split; [done|]. by eapply Erase_empty_undefined.
Qed.

(** X5. [Clear] makes the vector empty and gives no memory back: the
    capacity, the array and [begin()] are as before, [end()] equals
    [begin()], [At] throws for every index, and a second [Clear] changes
    nothing. *)
Theorem Clear_keeps_storage w this n c els :
  wf_world w → view w this = Some (n, c, els) →
  ∃ w', SimpleVector.Clear this w = Ret () w'
        ∧ view w' this = Some (0, c, [])
        ∧ blocks w' = blocks w
        ∧ (∀ first, SimpleVector.begin this w = Ret first w →
                    SimpleVector.begin this w' = Ret first w'
                    ∧ SimpleVector.end_ this w' = Ret first w')
        ∧ SimpleVector.IsEmpty this w' = Ret true w'
        ∧ (∀ i, SimpleVector.At this i w' = Throw out_of_range w')
        ∧ SimpleVector.Clear this w' = Ret () w'
        ∧ modifies this w w'.
Proof.
  intros Hw Hv. destruct (view_inv _ _ _ _ _ Hv) as (s & Hs & <- & <- & <-).
  set (s' := {| size_ := 0; capacity_ := capacity_ s; items_ := items_ s |}).
  set (w' := World (blocks w) (locals w) (<[this := s']> (vecs w))).
  assert (Hrun : SimpleVector.Clear this w = Ret () w').
  { destruct w. by apply set_size_eq. }
  assert (Hup : updates this s' w w') by (apply updates_size; [done..|lia]).
  destruct (updates_view _ _ _ _ Hup) as (Hv' & Hmod). simpl in Hv'.
  pose proof Hmod as (Hw' & _).
  assert (Hs' : vecs w' !! this = Some s') by (simpl; by rewrite lookup_insert_eq).
  exists w'. split_and!.
  - done.
  - rewrite Hv'. by rewrite (elements_nil w' s' Hw' _ Hs').
  - done.
  - intros first. rewrite (begin_run w this s Hs). intros [= <-].
    rewrite (begin_run w' this s' Hs'), (end_run w' this s' Hw' Hs').
    split; [done|]. unfold position. simpl.
    destruct (raw_ptr_ (items_ s)) as [|l i] eqn:Hp; [done|].
    destruct (wf_owned _ _ _ _ _ Hw Hs Hp) as (-> & _). done.
  - unfold SimpleVector.IsEmpty.
    eapply bind_Ret; [by apply (get_size_eq _ _ _ this s')|done].
  - intros i. pose proof (At_spec w' this s' i Hw' Hs') as Hat. simpl in Hat.
    by destruct (N.leb_spec 0 i); [|lia].
  - unfold SimpleVector.Clear, w'.
    erewrite (set_size_eq _ _ _ this s') by (by rewrite lookup_insert_eq).
    simpl. by rewrite insert_insert_eq.
  - done.
Qed.

Lemma dtor_eq B L V this s :
  V !! this = Some s → deletable B (raw_ptr_ (items_ s)) →
  SimpleVector.dtor this (World B L V)
  = Ret () (World (release (raw_ptr_ (items_ s)) B) L (delete this V)).
Proof.
  intros Hs Hdel. unfold SimpleVector.dtor. eapply bind_Ret.
  - eapply bind_Ret; [apply get_owner_eq; simpl; by rewrite Hs|].
    by apply delete_array_eq.
  - unfold free_vec; simpl. by rewrite Hs.
Qed.

(** X6. [swap] exchanges the sizes, the capacities and the arrays of two
    vectors: each shows what the other showed, with the other's [begin()];
    no array is allocated, deleted or written, no other vector changes, and
    a second [swap] restores the state exactly. *)
Theorem swap_exchanges_contents w this other n1 c1 els1 n2 c2 els2 :
  wf_world w →
  view w this = Some (n1, c1, els1) → view w other = Some (n2, c2, els2) →
  ∃ w', SimpleVector.swap this other w = Ret () w'
        ∧ view w' this = Some (n2, c2, els2)
        ∧ view w' other = Some (n1, c1, els1)
        ∧ blocks w' = blocks w
        ∧ (∀ p, SimpleVector.begin this w = Ret p w →
                SimpleVector.begin other w' = Ret p w')
        ∧ (∀ p, SimpleVector.begin other w = Ret p w →
                SimpleVector.begin this w' = Ret p w')
        ∧ (∀ v, v ≠ this → v ≠ other → view w' v = view w v)
        ∧ SimpleVector.swap this other w' = Ret () w
        ∧ wf_world w'.
Proof.
  intros Hw Hv1 Hv2.
  destruct (view_inv _ _ _ _ _ Hv1) as (a & Ha & _).
  destruct (view_inv _ _ _ _ _ Hv2) as (b & Hb & _).
  destruct (swap_spec w this other a b Hw Ha Hb)
    as (w' & Hrun & Hw' & Hv1' & Hv2' & Hframe).
  assert (Hw'eq : w' = World (blocks w) (locals w)
                          (<[other := a]> (<[this := b]> (vecs w)))).
  { destruct w as [B L V]. rewrite (swap_eq B L V this other a b Ha Hb) in Hrun.
    by injection Hrun as <-. }
  assert (Ha' : vecs w' !! other = Some a).
  { rewrite Hw'eq. simpl. by rewrite lookup_insert_eq. }
  assert (Hb' : vecs w' !! this = Some b).
  { rewrite Hw'eq. simpl. rewrite lookup_insert. case_decide; [by simplify_eq|].
    by rewrite lookup_insert_eq. }
  exists w'. split_and!; try done.
  - by rewrite Hv1'.
  - by rewrite Hv2'.
  - by rewrite Hw'eq.
  - intros p. rewrite (begin_run w this a Ha). intros [= <-].
    by rewrite (begin_run w' other a Ha').
  - intros p. rewrite (begin_run w other b Hb). intros [= <-].
    by rewrite (begin_run w' this b Hb').
  - rewrite Hw'eq. rewrite Hw'eq in Ha', Hb'. simpl in Ha', Hb'.
    rewrite (swap_eq _ _ _ this other b a Hb' Ha'). destruct w as [B L V].
    simpl in *. do 2 f_equal. apply map_eq. intros v.
    rewrite !lookup_insert. repeat case_decide; simplify_eq; done.
Qed.

(** X7. The move constructor gives the new vector the size, the capacity
    and the very array of the source (no element is copied or moved, no
    array allocated) and leaves the source empty with capacity 0 and no
    array; the source can be used again, a first append giving it an array
    of one slot. *)
Theorem move_constructor_takes_over w src n c els x :
  wf_world w → view w src = Some (n, c, els) →
  ∃ v w', SimpleVector.ctor_move src w = Ret v w'
          ∧ view w v = None
          ∧ view w' v = Some (n, c, els)
          ∧ view w' src = Some (0, 0, [])
          ∧ blocks w' = blocks w
          ∧ (∀ p, SimpleVector.begin src w = Ret p w →
                  SimpleVector.begin v w' = Ret p w')
          ∧ SimpleVector.begin src w' = Ret nullptr w'
          ∧ (∀ u, u ≠ v → u ≠ src → view w' u = view w u)
          ∧ wf_world w'
          ∧ (grants w' 1 = true →
             ∃ w'', SimpleVector.PushBack src (Value x) w' = Ret () w''
                    ∧ view w'' src = Some (1, 1, [x])
                    ∧ view w'' v = Some (n, c, els)).
Proof.
  intros Hw Hv. destruct (view_inv _ _ _ _ _ Hv) as (so & Hso & _).
  destruct (ctor_move_spec w src so Hw Hso)
    as (w' & Hrun & Hnone & Hw' & Hv' & Hsrc' & Hframe).
  set (v := fresh (dom (vecs w))) in *.
  pose proof (fresh_vec_None (vecs w)) as Hfresh. fold v in Hfresh.
  assert (v ≠ src) as Hne by congruence.
  assert (Hw'eq : w' = World (blocks w) (locals w)
            (<[src := {| size_ := 0; capacity_ := 0;
                         items_ := {| raw_ptr_ := nullptr |} |}]>
               (<[v := so]> (vecs w)))).
  { destruct w as [B L V]. rewrite (ctor_move_eq B L V src so Hso) in Hrun.
    by injection Hrun as <-. }
  assert (Hv'' : vecs w' !! v = Some so).
  { rewrite Hw'eq. simpl. by rewrite lookup_insert_ne, lookup_insert_eq. }
  assert (Hs'' : vecs w' !! src = Some {| size_ := 0; capacity_ := 0;
                                           items_ := {| raw_ptr_ := nullptr |} |}).
  { rewrite Hw'eq. simpl. by rewrite lookup_insert_eq. }
  exists v, w'. split_and!; try done.
  - by rewrite Hv'.
  - by rewrite Hw'eq.
  - intros p. rewrite (begin_run w src so Hso). intros [= <-].
    by rewrite (begin_run w' v so Hv'').
  - by rewrite (begin_run w' src _ Hs'').
  - intros Hg.
    pose proof (EmplaceBack_spec w' src _ x Hw' Hs'') as Hspec. simpl in Hspec.
    rewrite Hg in Hspec. destruct Hspec as (w'' & l' & Hpush & Hup & Hel).
    destruct (updates_view _ _ _ _ Hup) as (Hview & _ & _ & Hother).
    simpl in Hview.
    exists w''. split_and!.
    + unfold SimpleVector.PushBack. by erewrite bind_Ret.
    + by rewrite Hview, Hel.
    + rewrite Hother by done. by rewrite Hv'.
Qed.

(** X8. Move assignment between two distinct vectors gives the
    destination the size, the capacity and the very array of the source,
    deletes the array the destination owned, and leaves the source empty
    with capacity 0; no other vector changes. *)
Theorem move_assignment_takes_over w dst src n c els :
  wf_world w → dst ≠ src →
  is_Some (view w dst) → view w src = Some (n, c, els) →
  ∃ w', SimpleVector.assign_move dst src w = Ret () w'
        ∧ view w' dst = Some (n, c, els)
        ∧ view w' src = Some (0, 0, [])
        ∧ (∀ p, SimpleVector.begin src w = Ret p w →
                SimpleVector.begin dst w' = Ret p w')
        ∧ (∀ p, SimpleVector.begin dst w = Ret p w →
                blocks w' = release p (blocks w))
        ∧ (∀ u, u ≠ dst → u ≠ src → view w' u = view w u)
        ∧ wf_world w'.
Proof.
  intros Hw Hne Hdst Hv. apply view_is_Some in Hdst as [a Ha].
  destruct (view_inv _ _ _ _ _ Hv) as (b & Hb & _).
  destruct (assign_move_spec w dst src a b Hw Hne Ha Hb)
    as (w' & Hrun & Hw' & Hv' & Hsrc' & Hframe).
  pose proof (wf_deletable _ _ _ Hw Ha) as Hdel.
  assert (Hw'eq : w' = World (release (raw_ptr_ (items_ a)) (blocks w)) (locals w)
            (<[src := {| size_ := 0; capacity_ := 0;
                         items_ := {| raw_ptr_ := nullptr |} |}]>
               (<[dst := b]> (vecs w)))).
  { destruct w as [B L V].
    rewrite (assign_move_eq B L V dst src a b Hne Ha Hb Hdel) in Hrun.
    by injection Hrun as <-. }
  assert (Hd' : vecs w' !! dst = Some b).
  { rewrite Hw'eq. simpl. by rewrite lookup_insert_ne, lookup_insert_eq. }
  exists w'. split_and!; try done.
  - by rewrite Hv'.
  - intros p. rewrite (begin_run w src b Hb). intros [= <-].
    by rewrite (begin_run w' dst b Hd').
  - intros p. rewrite (begin_run w dst a Ha). intros [= <-]. by rewrite Hw'eq.
Qed.

(** X9. Destroying a vector deletes exactly the array it owned; every
    other vector shows what it showed before. *)
Theorem destructor_releases_the_array w this n c els :
  wf_world w → view w this = Some (n, c, els) →
  ∃ w', SimpleVector.dtor this w = Ret () w'
        ∧ view w' this = None
        ∧ (∀ p, SimpleVector.begin this w = Ret p w →
                blocks w' = release p (blocks w)
                ∧ (p ≠ nullptr → read p w' = Undef))
        ∧ (∀ v, v ≠ this → view w' v = view w v)
        ∧ wf_world w'.
Proof.
  intros Hw Hv. destruct (view_inv _ _ _ _ _ Hv) as (s & Hs & _).
  destruct (dtor_spec w this s Hw Hs) as (w' & Hrun & Hw' & Hnone & Hframe).
  pose proof (wf_deletable _ _ _ Hw Hs) as Hdel.
  assert (Hw'eq : w' = World (release (raw_ptr_ (items_ s)) (blocks w)) (locals w)
                          (delete this (vecs w))).
  { destruct w as [B L V]. rewrite (dtor_eq B L V this s Hs Hdel) in Hrun.
    by injection Hrun as <-. }
  exists w'. split_and!; try done.
  intros p. rewrite (begin_run w this s Hs). intros [= <-].
  split; [by rewrite Hw'eq|]. intros Hp.
  destruct (raw_ptr_ (items_ s)) as [|l i]; [done|].
  rewrite Hw'eq. unfold read. simpl. by rewrite lookup_delete_eq.
Qed.

(** X10. [SimpleVector(n)] makes a vector of [n] default values and
    [SimpleVector(n, x)] one of [n] copies of [x], each with size and
    capacity [n] in an array of its own; for [n = 0] either constructor
    requests nothing from the free store and leaves the vector without an
    array, so [begin()] is null.  No other vector changes. *)
Theorem sized_constructors_fill w n x :
  wf_world w → (n =? 0) || grants w n = true →
  (∃ v w', SimpleVector.ctor_size n w = Ret v w'
           ∧ view w v = None
           ∧ view w' v = Some (n, n, replicate (N.to_nat n) default_value)
           ∧ (∀ u, u ≠ v → view w' u = view w u)
           ∧ wf_world w')
  ∧ (∃ v w', SimpleVector.ctor_fill n x w = Ret v w'
             ∧ view w v = None
             ∧ view w' v = Some (n, n, replicate (N.to_nat n) x)
             ∧ (∀ u, u ≠ v → view w' u = view w u)
             ∧ wf_world w')
  ∧ (n = 0 → ∀ v w', SimpleVector.ctor_fill n x w = Ret v w' →
             blocks w' = blocks w ∧ SimpleVector.begin v w' = Ret nullptr w')
  ∧ (n = 0 → ∀ v w', SimpleVector.ctor_size n w = Ret v w' →
             blocks w' = blocks w ∧ SimpleVector.begin v w' = Ret nullptr w').
Proof.
  intros Hw Hg. split_and!.
  - pose proof (ctor_size_spec w n Hw) as Hspec. simpl in Hspec. rewrite Hg in Hspec.
    destruct Hspec as (w' & s' & Hrun & Hfresh & Hup & Hn & Hc & Hel).
    destruct (updates_view _ _ _ _ Hup) as (Hv' & Hw' & _ & Hframe).
    eexists _, w'. split_and!; try done.
    + by apply view_None.
    + by rewrite Hv', Hn, Hc, Hel.
  - pose proof (ctor_fill_spec w n x Hw) as Hspec. simpl in Hspec. rewrite Hg in Hspec.
    destruct Hspec as (w' & s' & Hrun & Hfresh & Hup & Hn & Hc & Hel).
    destruct (updates_view _ _ _ _ Hup) as (Hv' & Hw' & _ & Hframe).
    eexists _, w'. split_and!; try done.
    + by apply view_None.
    + by rewrite Hv', Hn, Hc, Hel.
  - intros -> v w'. unfold SimpleVector.ctor_fill, ArrayPtr.ctor_size. simpl.
    unfold mbind, M_bind, alloc_vec, mret, M_ret. simpl. intros [= <- <-].
    split; [done|]. unfold SimpleVector.begin, ArrayPtr.Get, get_owner, mbind, M_bind.
    simpl. by rewrite lookup_insert_eq.
  - intros -> v w'. unfold SimpleVector.ctor_size, ArrayPtr.ctor_size. simpl.
    unfold mbind, M_bind, alloc_vec, mret, M_ret. simpl. intros [= <- <-].
    split; [done|]. unfold SimpleVector.begin, ArrayPtr.Get, get_owner, mbind, M_bind.
    simpl. by rewrite lookup_insert_eq.
Qed.

(** X11. [SimpleVector{x1, ..., xn}] makes a vector whose elements are the
    values of the list in their order, with size and capacity [n]; the
    empty list gives an empty vector.  No other vector changes. *)
Theorem initializer_list_is_copied w init :
  wf_world w →
  (N.of_nat (length init) =? 0) || grants w (N.of_nat (length init)) = true →
  ∃ v w', SimpleVector.ctor_list init w = Ret v w'
          ∧ view w v = None
          ∧ view w' v = Some (N.of_nat (length init), N.of_nat (length init), init)
          ∧ (∀ i x, init !! N.to_nat i = Some x →
               ∃ p, SimpleVector.at_index v i w' = Ret p w' ∧ read p w' = Ret x w')
          ∧ (∀ u, u ≠ v → view w' u = view w u)
          ∧ wf_world w'.
Proof.
  intros Hw Hg.
  pose proof (ctor_list_spec w init Hw) as Hspec. simpl in Hspec. rewrite Hg in Hspec.
  destruct Hspec as (w' & s' & Hrun & Hfresh & Hup & Hn & Hc & Hel).
  destruct (updates_view _ _ _ _ Hup) as (Hv' & Hw' & _ & Hframe).
  rewrite Hn, Hc, Hel in Hv'.
  eexists _, w'. split_and!; try done.
  - by apply view_None.
  - by destruct (view_observed w' _ _ _ _ Hw' Hv') as (_ & _ & _ & Hat).
Qed.

(** X12. The default constructor and [SimpleVector(Reserve(0))] make
    an empty vector without an array and request nothing from the free
    store.  [SimpleVector(Reserve(cap))] with [cap > 0] makes an empty
    vector of capacity [cap]; appending up to [cap] elements to it
    afterwards keeps the array it was constructed with. *)
Theorem reserving_constructor_sets_capacity w cap xs :
  wf_world w →
  (∃ v w', SimpleVector.ctor_default w = Ret v w'
           ∧ view w v = None ∧ view w' v = Some (0, 0, [])
           ∧ blocks w' = blocks w
           ∧ SimpleVector.begin v w' = Ret nullptr w'
           ∧ SimpleVector.ctor_reserve (Reserve 0) w = Ret v w')
  ∧ (0 < cap → grants w cap = true → N.of_nat (length xs) ≤ cap →
     ∃ v w' w'' first,
       SimpleVector.ctor_reserve (Reserve cap) w = Ret v w'
       ∧ view w v = None ∧ view w' v = Some (0, cap, [])
       ∧ (∀ u, u ≠ v → view w' u = view w u)
       ∧ SimpleVector.begin v w' = Ret first w'
       ∧ push_all v xs w' = Ret () w''
       ∧ view w'' v = Some (N.of_nat (length xs), cap, xs)
       ∧ SimpleVector.begin v w'' = Ret first w'').
Proof.
  intros Hw. split.
  - destruct (ctor_default_spec w Hw) as (w' & Hrun & Hfresh & Hup & Hel).
    destruct (updates_view _ _ _ _ Hup) as (Hv' & Hw' & _ & Hframe).
    assert (Hw'eq : w' = World (blocks w) (locals w)
              (<[fresh (dom (vecs w)) :=
                   {| size_ := 0; capacity_ := 0;
                      items_ := {| raw_ptr_ := nullptr |} |}]> (vecs w))).
    { unfold SimpleVector.ctor_default, ArrayPtr.ctor_default, mbind, M_bind,
        alloc_vec, mret, M_ret, set_vecs in Hrun. by injection Hrun as <-. }
    assert (Hs0 : vecs w' !! fresh (dom (vecs w))
                  = Some {| size_ := 0; capacity_ := 0;
                            items_ := {| raw_ptr_ := nullptr |} |}).
    { rewrite Hw'eq. simpl. by rewrite lookup_insert_eq. }
    eexists _, w'. split_and!; try done.
    + by apply view_None.
    + by rewrite Hw'eq.
    + by rewrite (begin_run w' _ _ Hs0).
  - intros Hcap Hg Hlen.
    pose proof (ctor_reserve_spec w (Reserve cap) Hw) as Hspec. simpl in Hspec.
    destruct (N.eqb_spec cap 0); [lia|]. rewrite Hg in Hspec.
    destruct Hspec as (w' & l' & Hrun & Hfresh & Hup & Hel).
    destruct (updates_view _ _ _ _ Hup) as (Hv' & Hw' & _ & Hframe).
    simpl in Hv'. rewrite Hel in Hv'.
    set (v := fresh (dom (vecs w))) in *.
    set (s' := {| size_ := 0; capacity_ := cap;
                  items_ := {| raw_ptr_ := Ptr l' 0 |} |}) in *.
    assert (Hs' : vecs w' !! v = Some s').
    { destruct Hup as (_ & -> & _). by rewrite lookup_insert_eq. }
    destruct (wf_owned _ _ _ _ _ Hw' Hs' eq_refl) as (_ & b & Hb & Hlenb).
    destruct (push_all_in_place xs w' v s' l' b Hw' Hs' eq_refl Hb)
      as (b' & Hpush & Hl' & Htake); [simpl; lia|].
    simpl in Hpush, Htake.
    set (s'' := {| size_ := 0 + N.of_nat (length xs); capacity_ := cap;
                   items_ := {| raw_ptr_ := Ptr l' 0 |} |}) in *.
    set (w'' := World (<[l' := b']> (blocks w')) (locals w')
                      (<[v := s'']> (vecs w'))) in *.
    assert (Hup' : updates v s'' w' w'').
    { eapply (updates_in_place w' v s' l' b b'); eauto; simpl; lia. }
    destruct (updates_view _ _ _ _ Hup') as (Hv'' & _).
    exists v, w', w'', (Ptr l' 0). split_and!; try done.
    + by apply view_None.
    + by rewrite (begin_run w' v s' Hs').
    + rewrite Hv''. simpl. rewrite N.add_0_l. do 2 f_equal.
      unfold elements, buffer. simpl. rewrite lookup_insert_eq. simpl.
      rewrite N.add_0_l. rewrite Nat2N.id. by rewrite Htake.
    + assert (Hs'' : vecs w'' !! v = Some s'') by (simpl; by rewrite lookup_insert_eq).
      by rewrite (begin_run w'' v s'' Hs'').
Qed.

(** X13. [v[i]] with [i < size] is a reference to the element at
    position [i], the one [At(i)] returns; assigning through it replaces
    that element and nothing else.  With [i >= size] the [assert] fails:
    unlike [At], [operator[]] never throws. *)
Theorem subscript_accesses_element w this n c els i y :
  wf_world w → view w this = Some (n, c, els) →
  (i < n →
   ∃ p x w',
     SimpleVector.at_index this i w = Ret p w
     ∧ SimpleVector.At this i w = Ret p w
     ∧ read p w = Ret x w ∧ els !! N.to_nat i = Some x
     ∧ write p y w = Ret () w'
     ∧ view w' this = Some (n, c, <[N.to_nat i := y]> els)
     ∧ SimpleVector.at_index this i w' = Ret p w' ∧ read p w' = Ret y w'
     ∧ modifies this w w')
  ∧ (n ≤ i → SimpleVector.at_index this i w = Undef
             ∧ SimpleVector.At this i w = Throw out_of_range w).
Proof.
  intros Hw Hv. destruct (view_inv _ _ _ _ _ Hv) as (s & Hs & <- & <- & <-).
  pose proof (length_elements w s Hw _ Hs) as Hlen.
  pose proof (at_index_spec w this s i Hw Hs) as Hidx.
  pose proof (At_spec w this s i Hw Hs) as Hat.
  split.
  - intros Hi. destruct (N.ltb_spec i (size_ s)); [|lia].
    destruct (N.leb_spec (size_ s) i); [lia|].
    destruct Hidx as (l & x & Hrun & Hp & Hrd & Hx).
    destruct Hat as (l2 & x2 & Hrun2 & Hp2 & _).
    assert (l2 = l) as -> by congruence.
    destruct (write_element_spec w this s l i y Hw Hs Hp Hi) as (w' & Hwr & Hup & Hel).
    destruct (updates_view _ _ _ _ Hup) as (Hv' & Hmod).
    pose proof Hmod as (Hw' & _).
    assert (Hs' : vecs w' !! this = Some s).
    { destruct Hup as (_ & -> & _). by rewrite lookup_insert_eq. }
    pose proof (at_index_spec w' this s i Hw' Hs') as Hidx'.
    destruct (N.ltb_spec i (size_ s)); [|lia].
    destruct Hidx' as (l3 & z & Hrun3 & Hp3 & Hrd3 & Hz).
    assert (l3 = l) as -> by congruence.
    rewrite Hel, list_lookup_insert_eq in Hz by lia. injection Hz as <-.
    exists (Ptr l i), x, w'. split_and!; try done. by rewrite Hv', Hel.
  - intros Hi. destruct (N.ltb_spec i (size_ s)); [lia|].
    by destruct (N.leb_spec (size_ s) i); [|lia].
Qed.

(** X14. [begin()] and [end()] (and [cbegin()], [cend()]) delimit the
    elements: [end()] is [begin() + size], their difference is the size,
    they are equal exactly when the vector is empty, which is what
    [IsEmpty] tells, and [begin() + i] designates the element at position
    [i], the one [operator[]] gives. *)
Theorem iterators_delimit_the_elements w this n c els :
  wf_world w → view w this = Some (n, c, els) →
  ∃ first last,
    SimpleVector.begin this w = Ret first w
    ∧ SimpleVector.end_ this w = Ret last w
    ∧ SimpleVector.cbegin this w = Ret first w
    ∧ SimpleVector.cend this w = Ret last w
    ∧ ptr_add first n w = Ret last w
    ∧ ptr_diff last first w = Ret n w
    ∧ (first = last ↔ n = 0)
    ∧ SimpleVector.IsEmpty this w = Ret (bool_decide (first = last)) w
    ∧ (∀ i x, els !! N.to_nat i = Some x →
         ∃ p, ptr_add first i w = Ret p w ∧ read p w = Ret x w
              ∧ SimpleVector.at_index this i w = Ret p w).
Proof.
  intros Hw Hv. destruct (view_inv _ _ _ _ _ Hv) as (s & Hs & <- & <- & <-).
  destruct (wf_bounds _ _ _ Hw Hs) as [Hle Hmax].
  pose proof (length_elements w s Hw _ Hs) as Hlen.
  destruct (position_eq w this s (size_ s) Hw Hs ltac:(lia)) as (first & Hfirst & Hadd).
  pose proof (begin_run w this s Hs) as Hbegin.
  rewrite Hbegin in Hfirst. injection Hfirst as <-.
  pose proof (end_run w this s Hw Hs) as Hend.
  assert (Hnull : raw_ptr_ (items_ s) = nullptr → size_ s = 0).
  { intros Hp. destruct Hw as (_ & Hwf & _). destruct (Hwf _ _ Hs) as (_ & _ & Hc).
    rewrite Hp in Hc. lia. }
  assert (Hiff : raw_ptr_ (items_ s) = position s (size_ s) ↔ size_ s = 0).
  { unfold position. destruct (raw_ptr_ (items_ s)) as [|l i] eqn:Hp.
    - split; [intros _; by apply Hnull|done].
    - destruct (wf_owned _ _ _ _ _ Hw Hs Hp) as (-> & _).
      split; [intros [= ?]; lia|intros ->; done]. }
  exists (raw_ptr_ (items_ s)), (position s (size_ s)). split_and!; try done.
  - apply (ptr_diff_position w this s (size_ s)); [done..|lia|done].
  - unfold SimpleVector.IsEmpty.
    eapply bind_Ret; [destruct w; by eapply get_size_eq|].
    unfold mret, M_ret. f_equal.
    destruct (N.eqb_spec (size_ s) 0) as [Hz|Hnz].
    + symmetry. apply bool_decide_eq_true_2. by apply Hiff.
    + symmetry. apply bool_decide_eq_false_2. intros ?. by apply Hnz, Hiff.
  - intros i x Hx.
    assert (i < size_ s) as Hi by (apply lookup_lt_Some in Hx; lia).
    pose proof (at_index_spec w this s i Hw Hs) as Hidx.
    destruct (N.ltb_spec i (size_ s)); [|lia].
    destruct Hidx as (l & x' & Hrun & Hp & Hrd & Hx').
    assert (x' = x) as -> by congruence.
    exists (Ptr l i). split_and!; try done.
    destruct (position_eq w this s i Hw Hs ltac:(lia)) as (first & Hfirst & Hadd').
    rewrite Hbegin in Hfirst. injection Hfirst as <-.
    rewrite Hadd'. unfold position. by rewrite Hp.
Qed.

(** X15. Removing what was just added restores the elements: after
    [PushBack(x); PopBack()], and after [Erase(Insert(pos, x))] for a
    position [pos = begin() + k], with an argument that is no slot of the
    vector's own array, the vector shows the size and the elements it
    showed before; only the capacity may have grown. *)
Theorem removal_undoes_insertion w this n c els k a x :
  wf_world w → view w this = Some (n, c, els) → k ≤ n →
  supplies w this a x →
  let c' := if n <? c then c else if c =? 0 then 1 else 2 * c in
  (n <? c) || grants w c' = true →
  (∃ w1 w2, SimpleVector.PushBack this a w = Ret () w1
            ∧ SimpleVector.PopBack this w1 = Ret () w2
            ∧ view w2 this = Some (n, c', els))
  ∧ (∃ first pos it w1 w2,
       SimpleVector.begin this w = Ret first w ∧ ptr_add first k w = Ret pos w
       ∧ SimpleVector.Insert this pos a w = Ret it w1
       ∧ SimpleVector.Erase this it w1 = Ret it w2
       ∧ view w2 this = Some (n, c', els))
  ∧ c ≤ c'.
Proof.
  intros Hw Hv Hk Ha c' Hg.
  destruct (view_inv _ _ _ _ _ Hv) as (s & Hs & <- & <- & <-).
  destruct (wf_bounds _ _ _ Hw Hs) as [Hle Hmax].
  pose proof (length_elements w s Hw _ Hs) as Hlen.
  split_and!.
  - pose proof (EmplaceBack_arg_spec w this s a x Hw Hs) as Hspec. simpl in Hspec.
    fold c' in Hspec. rewrite Hg in Hspec.
    destruct (Hspec Ha) as (w1 & l' & Hrun & Hup & Hel & _).
    destruct (updates_view _ _ _ _ Hup) as (_ & Hw1 & _).
    set (s1 := {| size_ := size_ s + 1; capacity_ := c';
                  items_ := {| raw_ptr_ := Ptr l' 0 |} |}) in *.
    assert (Hs1 : vecs w1 !! this = Some s1).
    { destruct Hup as (_ & -> & _). by rewrite vecs_moved, lookup_insert_eq. }
    pose proof (PopBack_spec w1 this s1 Hw1 Hs1) as Hpop. simpl in Hpop.
    destruct (N.ltb_spec 0 (size_ s + 1)); [|lia].
    destruct Hpop as (w2 & Hrun2 & Hup2 & Hel2).
    destruct (updates_view _ _ _ _ Hup2) as (Hv2 & _). simpl in Hv2.
    exists w1, w2. split_and!.
    + unfold SimpleVector.PushBack. by erewrite bind_Ret.
    + done.
    + rewrite Hv2, Hel2, Hel. do 2 f_equal; [f_equal; lia|].
      rewrite take_app_le by lia. apply take_ge. lia.
  - destruct (position_eq w this s k Hw Hs Hk) as (first & Hfirst & Hpos).
    pose proof (Emplace_arg_spec w this s k a x Hw Hs Hk) as Hspec. simpl in Hspec.
    fold c' in Hspec. rewrite Hg in Hspec.
    destruct (Hspec Ha) as (w1 & l' & Hrun & Hup & Hel).
    destruct (updates_view _ _ _ _ Hup) as (_ & Hw1 & _).
    set (s1 := {| size_ := size_ s + 1; capacity_ := c';
                  items_ := {| raw_ptr_ := Ptr l' 0 |} |}) in *.
    assert (Hs1 : vecs w1 !! this = Some s1).
    { destruct Hup as (_ & -> & _). by rewrite vecs_moved, lookup_insert_eq. }
    destruct (Erase_spec w1 this s1 k Hw1 Hs1) as (w2 & Hrun2 & Hup2 & Hel2);
      [simpl; lia..|].
    destruct (updates_view _ _ _ _ Hup2) as (Hv2 & _). simpl in Hv2, Hel2.
    assert (Hposs1 : position s1 k = Ptr l' k).
    { unfold position. simpl. by rewrite N.add_0_l. }
    rewrite Hposs1 in Hrun2.
    exists first, (position s k), (Ptr l' k), w1, w2. split_and!; try done.
    rewrite Hv2, Hel2, Hel. simpl. do 2 f_equal; [f_equal; lia|].
    replace (N.to_nat (size_ s + 1 - 1)) with (N.to_nat (size_ s)) by lia.
    set (els := elements w s) in *.
    assert (Hlk : length (take (N.to_nat k) els) = N.to_nat k).
    { rewrite length_take. lia. }
    rewrite (take_app_le (take (N.to_nat k) els) _ (N.to_nat k)) by lia.
    rewrite take_take, Nat.min_id.
    rewrite drop_app_ge by lia. rewrite Hlk.
    replace (S (N.to_nat k) - N.to_nat k)%nat with 1%nat by lia. simpl.
    rewrite drop_0, take_drop. apply take_ge. lia.
  - subst c'. destruct (N.ltb_spec (size_ s) (capacity_ s)); [lia|].
    destruct (N.eqb_spec (capacity_ s) 0); lia.
Qed.

Lemma Get_run w r a :
  owner_at (locals w) (vecs w) r = Some a → ArrayPtr.Get r w = Ret (raw_ptr_ a) w.
Proof. intros Hr. eapply bind_Ret; [by apply get_owner_run|done]. Qed.

(** X20. [ArrayPtr(n)] owns nothing for [n = 0]; for [n > 0] it owns a
    new array of exactly [n] slots, which [operator[]] reaches without any
    check (index [n] is already outside), or throws [std::bad_alloc] and
    changes nothing when the free store refuses.  When the owner goes out
    of scope its array is deleted: the free store is as it was before the
    owner was made. *)
Theorem ArrayPtr_owns_its_array w n :
  (n = 0 →
   ∃ r w', local_owner (ArrayPtr.ctor_size n) w = Ret r w'
           ∧ blocks w' = blocks w
           ∧ ArrayPtr.Get r w' = Ret nullptr w'
           ∧ ArrayPtr.to_bool r w' = Ret false w')
  ∧ (n ≠ 0 → grants w n = true →
     ∃ r l b w',
       local_owner (ArrayPtr.ctor_size n) w = Ret r w'
       ∧ ArrayPtr.Get r w' = Ret (Ptr l 0) w'
       ∧ ArrayPtr.to_bool r w' = Ret true w'
       ∧ blocks w !! l = None ∧ blocks w' = <[l := b]> (blocks w)
       ∧ N.of_nat (length b) = n
       ∧ (∀ i, i < n → ArrayPtr.index r i w' = Ret (Ptr l i) w')
       ∧ (∀ i, n ≤ i → ArrayPtr.index r i w' = Undef))
  ∧ (n ≠ 0 → grants w n = false →
     local_owner (ArrayPtr.ctor_size n) w = Throw bad_alloc w)
  ∧ (n = 0 ∨ grants w n = true →
     (r ← local_owner (ArrayPtr.ctor_size n); ArrayPtr.destroy_local r) w = Ret () w).
Proof.
  destruct w as [B L V].
  pose proof (fresh_block_None B) as HfB.
  assert (HfL : L !! fresh (dom L) = None) by apply not_elem_of_dom, is_fresh.
  assert (Hzero : local_owner (ArrayPtr.ctor_size 0) (World B L V)
                  = Ret (Local (fresh (dom L)))
                        (World B (<[fresh (dom L) := {| raw_ptr_ := nullptr |}]> L) V))
    by done.
  split_and!.
  - intros ->. eexists _, _. split_and!; [exact Hzero|done|..].
    + apply (Get_run _ _ {| raw_ptr_ := nullptr |}). simpl. by rewrite lookup_insert_eq.
    + eapply to_bool_empty. simpl. by rewrite lookup_insert_eq.
  - intros Hn Hg. pose proof (local_ctor_size_eq B L V n Hn Hg) as Hrun.
    eexists _, (fresh (dom B)), (fresh_block n), _.
    split_and!; [exact Hrun| | |done|done|..].
    + apply (Get_run _ _ {| raw_ptr_ := Ptr (fresh (dom B)) 0 |}).
      simpl. by rewrite lookup_insert_eq.
    + eapply bind_Ret; [apply get_owner_eq; simpl; by rewrite lookup_insert_eq|done].
    + rewrite length_fresh_block. lia.
    + intros i Hi. eapply index_eq.
      * simpl. by rewrite lookup_insert_eq.
      * by rewrite lookup_insert_eq.
      * rewrite length_fresh_block. lia.
    + intros i Hi. eapply index_out_of_bounds.
      * simpl. by rewrite lookup_insert_eq.
      * by rewrite lookup_insert_eq.
      * rewrite length_fresh_block. lia.
  - intros Hn Hg. by apply local_ctor_size_fail.
  - intros Hn. destruct (decide (n = 0)) as [->|Hnz].
    + eapply bind_Ret; [exact Hzero|].
      erewrite destroy_local_eq; [|by rewrite lookup_insert_eq|done].
      simpl. by rewrite delete_insert_id.
    + destruct Hn as [|Hg]; [done|].
      eapply bind_Ret; [by apply local_ctor_size_eq|].
      erewrite destroy_local_eq; [|by rewrite lookup_insert_eq|].
      * simpl. by rewrite !delete_insert_id.
      * simpl. split; [done|]. rewrite lookup_insert_eq. eauto.
Qed.

(** X21. [Release] returns the pointer held and leaves the owner
    empty without deleting anything, so that the destructor of the owner has
    nothing to delete; an owner constructed from the raw pointer holds the
    same array. *)
Theorem Release_hands_over_the_array w r a :
  owner_at (locals w) (vecs w) r = Some a →
  ∃ w', ArrayPtr.Release r w = Ret (raw_ptr_ a) w'
        ∧ blocks w' = blocks w
        ∧ ArrayPtr.Get r w' = Ret nullptr w'
        ∧ ArrayPtr.to_bool r w' = Ret false w'
        ∧ ArrayPtr.dtor r w' = Ret () w'
        ∧ (∀ r', r' ≠ r → owner_at (locals w') (vecs w') r'
                          = owner_at (locals w) (vecs w) r')
        ∧ ∃ r2 w'', local_owner (ArrayPtr.ctor_raw (raw_ptr_ a)) w' = Ret r2 w''
                    ∧ ArrayPtr.Get r2 w'' = Ret (raw_ptr_ a) w''
                    ∧ blocks w'' = blocks w.
Proof.
  intros Hr.
  destruct (set_owner_run w r a {| raw_ptr_ := nullptr |} Hr)
    as (w' & Hset & Hb & Ho & Hf).
  exists w'. split_and!; try done.
  - unfold ArrayPtr.Release.
    eapply bind_Ret; [by apply get_owner_run|].
    eapply bind_Ret; [exact Hset|done].
  - by apply (Get_run w' r {| raw_ptr_ := nullptr |}).
  - by apply to_bool_empty.
  - unfold ArrayPtr.dtor. eapply bind_Ret; [by apply get_owner_run|]. done.
  - destruct w' as [B' L' V']. simpl in *.
    eexists _, _. split_and!.
    + unfold local_owner, ArrayPtr.ctor_raw. eapply bind_Ret; [done|]. done.
    + apply (Get_run _ _ {| raw_ptr_ := raw_ptr_ a |}).
      simpl. by rewrite lookup_insert_eq.
    + done.
Qed.

(** X22. [ArrayPtr::swap] exchanges the pointers of two owners; no array
    is allocated, deleted or written, no other owner changes, and a second
    [swap] gives each owner its own pointer back. *)
Theorem ArrayPtr_swap_exchanges w r1 r2 a b :
  owner_at (locals w) (vecs w) r1 = Some a →
  owner_at (locals w) (vecs w) r2 = Some b →
  ∃ w' w'',
    ArrayPtr.swap r1 r2 w = Ret () w'
    ∧ ArrayPtr.Get r1 w' = Ret (raw_ptr_ b) w'
    ∧ ArrayPtr.Get r2 w' = Ret (raw_ptr_ a) w'
    ∧ blocks w' = blocks w
    ∧ (∀ r', r' ≠ r1 → r' ≠ r2 → owner_at (locals w') (vecs w') r'
                                  = owner_at (locals w) (vecs w) r')
    ∧ ArrayPtr.swap r1 r2 w' = Ret () w''
    ∧ ArrayPtr.Get r1 w'' = Ret (raw_ptr_ a) w''
    ∧ ArrayPtr.Get r2 w'' = Ret (raw_ptr_ b) w''
    ∧ blocks w'' = blocks w.
Proof.
  assert (Hswap : ∀ w r1 r2 a b,
            owner_at (locals w) (vecs w) r1 = Some a →
            owner_at (locals w) (vecs w) r2 = Some b →
            ∃ w', ArrayPtr.swap r1 r2 w = Ret () w'
                  ∧ owner_at (locals w') (vecs w') r1 = Some {| raw_ptr_ := raw_ptr_ b |}
                  ∧ owner_at (locals w') (vecs w') r2 = Some {| raw_ptr_ := raw_ptr_ a |}
                  ∧ blocks w' = blocks w
                  ∧ (∀ r', r' ≠ r1 → r' ≠ r2 → owner_at (locals w') (vecs w') r'
                                                = owner_at (locals w) (vecs w) r')).
  { clear. intros w r1 r2 a b H1 H2.
    destruct (set_owner_run w r1 a {| raw_ptr_ := raw_ptr_ b |} H1)
      as (w1 & Hrun1 & Hb1 & Ho1 & Hf1).
    assert (is_Some (owner_at (locals w1) (vecs w1) r2)) as [b1 Hb1'].
    { destruct (decide (r2 = r1)) as [->|Hne]; [eauto|]. rewrite Hf1 by done. eauto. }
    destruct (set_owner_run w1 r2 b1 {| raw_ptr_ := raw_ptr_ a |} Hb1')
      as (w2 & Hrun2 & Hb2 & Ho2 & Hf2).
    exists w2. split_and!.
    - unfold ArrayPtr.swap.
      eapply bind_Ret; [by apply get_owner_run|].
      eapply bind_Ret; [by apply get_owner_run|].
      eapply bind_Ret; [exact Hrun1|exact Hrun2].
    - destruct (decide (r1 = r2)) as [->|Hne].
      + rewrite Ho2. by simplify_eq.
      + rewrite Hf2 by done. done.
    - done.
    - congruence.
    - intros r' Hr1 Hr2. rewrite Hf2, Hf1 by done. done. }
  intros H1 H2.
  destruct (Hswap w r1 r2 a b H1 H2) as (w' & Hrun & H1' & H2' & Hb & Hf).
  destruct (Hswap w' r1 r2 _ _ H1' H2') as (w'' & Hrun' & H1'' & H2'' & Hb' & Hf').
  exists w', w''. split_and!; try done.
  - by apply (Get_run w' r1 _ H1').
  - by apply (Get_run w' r2 _ H2').
  - by apply (Get_run w'' r1 _ H1'').
  - by apply (Get_run w'' r2 _ H2'').
  - congruence.
Qed.

End Coverage.

(** * The comparison operators *)

Section Compare.
Context {T : Type} `{!Comparable T}.
Implicit Types (w : world T).

Lemma same_elements_length (xs ys : list T) :
  same_elements xs ys = true → length xs = length ys.
Proof.
  revert ys. induction xs as [|x xs IH]; intros [|y ys]; simpl; try done.
  intros [_ Hr]%andb_true_iff. f_equal. by apply IH.
Qed.

Lemma same_elements_eq (xs ys : list T) :
  lawful_ne → (same_elements xs ys = true ↔ xs = ys).
Proof.
  intros Hne. revert ys. induction xs as [|x xs IH]; intros [|y ys]; simpl; try done.
  rewrite andb_true_iff, negb_true_iff. split.
  - intros [Hx Hr]. apply Hne in Hx. apply IH in Hr. by subst.
  - intros [= -> ->]. split; [by apply Hne|by apply IH].
Qed.

Lemma equal_from_eq w lhs rhs a b :
  wf_world w → vecs w !! lhs = Some a → vecs w !! rhs = Some b →
  size_ a = size_ b →
  ∀ n i, i + N.of_nat n = size_ a →
  equal_from n i lhs rhs w
  = Ret (same_elements (drop (N.to_nat i) (elements w a))
                       (drop (N.to_nat i) (elements w b))) w.
Proof.
  intros Hw Ha Hb Hsz.
  pose proof (length_elements w a Hw _ Ha) as Hla.
  pose proof (length_elements w b Hw _ Hb) as Hlb.
  induction n as [|n IH]; intros i Hi.
  - simpl. rewrite !drop_ge by lia. done.
  - cbn [equal_from].
    pose proof (at_index_spec w lhs a i Hw Ha) as Hat1.
    pose proof (at_index_spec w rhs b i Hw Hb) as Hat2.
    destruct (N.ltb_spec i (size_ a)); [|lia].
    destruct (N.ltb_spec i (size_ b)); [|lia].
    destruct Hat1 as (l1 & x & Hrun1 & _ & Hrd1 & Hx).
    destruct Hat2 as (l2 & y & Hrun2 & _ & Hrd2 & Hy).
    eapply bind_Ret; [exact Hrun1|]. eapply bind_Ret; [exact Hrd1|].
    eapply bind_Ret; [exact Hrun2|]. eapply bind_Ret; [exact Hrd2|].
    rewrite (drop_S _ _ _ Hx), (drop_S _ _ _ Hy). simpl.
    destruct (elem_ne x y); [done|]. simpl.
    rewrite IH by lia. by replace (N.to_nat (i + 1)) with (S (N.to_nat i)) by lia.
Qed.

Lemma operator_eq_eq w lhs rhs a b :
  wf_world w → vecs w !! lhs = Some a → vecs w !! rhs = Some b →
  operator_eq lhs rhs w = Ret (same_elements (elements w a) (elements w b)) w.
Proof.
  intros Hw Ha Hb.
  pose proof (length_elements w a Hw _ Ha) as Hla.
  pose proof (length_elements w b Hw _ Hb) as Hlb.
  unfold operator_eq, SimpleVector.GetSize.
  destruct w as [B L V]; simpl in *.
  eapply bind_Ret; [by eapply get_size_eq|].
  eapply bind_Ret; [by eapply get_size_eq|].
  destruct (N.eqb_spec (size_ a) (size_ b)) as [Heq|Hne]; simpl.
  - eapply bind_Ret; [by eapply get_size_eq|].
    rewrite (equal_from_eq (World B L V) lhs rhs a b) by (done || lia).
    done.
  - destruct (same_elements _ _) eqn:Hsame; [|done].
    apply same_elements_length in Hsame. lia.
Qed.

Lemma lex_less_nil_l (ys : list T) : lex_less [] ys = bool_decide (ys ≠ []).
Proof. by destruct ys. Qed.

Lemma lex_less_nil_r (xs : list T) : lex_less xs [] = false.
Proof. by destruct xs. Qed.

Lemma lexicographical_compare_loop_eq w l1 l2 b1 b2 n1 n2 :
  blocks w !! l1 = Some b1 → blocks w !! l2 = Some b2 →
  n1 ≤ N.of_nat (length b1) → n2 ≤ N.of_nat (length b2) →
  ∀ n i j, i + N.of_nat n = n1 → j ≤ n2 →
  lexicographical_compare_loop n (Ptr l1 i) (Ptr l1 n1) (Ptr l2 j) (Ptr l2 n2) w
  = Ret (lex_less (take (N.to_nat (n1 - i)) (drop (N.to_nat i) b1))
                  (take (N.to_nat (n2 - j)) (drop (N.to_nat j) b2))) w.
Proof.
  intros Hb1 Hb2 Hn1 Hn2. induction n as [|n IH]; intros i j Hi Hj.
  - assert (i = n1) as -> by lia. cbn [lexicographical_compare_loop].
    rewrite (bool_decide_eq_false_2 (Ptr l1 n1 ≠ Ptr l1 n1)) by (by intros []).
    cbn [andb].
    rewrite (bool_decide_eq_true_2 (Ptr l1 n1 = Ptr l1 n1)) by done. cbn [andb].
    rewrite N.sub_diag. change (N.to_nat 0) with 0%nat. rewrite take_0.
    rewrite lex_less_nil_l. unfold mret, M_ret. f_equal.
    apply bool_decide_ext. split.
    + intros Hne Hnil. apply (f_equal length) in Hnil.
      rewrite length_take, length_drop in Hnil. simpl in Hnil.
      assert (j ≠ n2) by congruence. lia.
    + intros Hnil [= ->]. apply Hnil. by rewrite N.sub_diag.
  - cbn [lexicographical_compare_loop].
    rewrite (bool_decide_eq_true_2 (Ptr l1 i ≠ Ptr l1 n1)) by (intros [= ?]; lia).
    cbn [andb].
    destruct (decide (j = n2)) as [->|Hne].
    { rewrite (bool_decide_eq_false_2 (Ptr l2 n2 ≠ Ptr l2 n2)) by (by intros []).
      cbn [andb].
      rewrite (bool_decide_eq_false_2 (Ptr l1 i = Ptr l1 n1)) by (intros [= ?]; lia).
      rewrite N.sub_diag. change (N.to_nat 0) with 0%nat.
      by rewrite take_0, lex_less_nil_r. }
    rewrite (bool_decide_eq_true_2 (Ptr l2 j ≠ Ptr l2 n2)) by congruence.
    cbn [andb].
    destruct (lookup_lt_is_Some_2 b1 (N.to_nat i)) as [x Hx]; [lia|].
    destruct (lookup_lt_is_Some_2 b2 (N.to_nat j)) as [y Hy]; [lia|].
    destruct w as [B L V]; simpl in *.
    eapply bind_Ret; [by eapply read_eq|].
    eapply bind_Ret; [by eapply read_eq|].
    rewrite (drop_S _ _ _ Hx), (drop_S _ _ _ Hy).
    replace (N.to_nat (n1 - i)) with (S (N.to_nat (n1 - (i + 1)))) by lia.
    replace (N.to_nat (n2 - j)) with (S (N.to_nat (n2 - (j + 1)))) by lia.
    simpl.
    destruct (elem_lt x y); [done|]. destruct (elem_lt y x); [done|].
    eapply bind_Ret.
    { unfold ptr_add; simpl. rewrite Hb1.
      destruct (N.leb_spec (i + 1) (N.of_nat (length b1))); [done|lia]. }
    eapply bind_Ret.
    { unfold ptr_add; simpl. rewrite Hb2.
      destruct (N.leb_spec (j + 1) (N.of_nat (length b2))); [done|lia]. }
    rewrite (IH (i + 1) (j + 1)) by lia.
    by replace (N.to_nat (i + 1)) with (S (N.to_nat i)) by lia;
       replace (N.to_nat (j + 1)) with (S (N.to_nat j)) by lia.
Qed.

Lemma operator_lt_eq w lhs rhs a b :
  wf_world w → vecs w !! lhs = Some a → vecs w !! rhs = Some b →
  operator_lt lhs rhs w = Ret (lex_less (elements w a) (elements w b)) w.
Proof.
  intros Hw Ha Hb.
  destruct (wf_bounds _ _ _ Hw Ha) as [Hlea Hmaxa].
  destruct (wf_bounds _ _ _ Hw Hb) as [Hleb Hmaxb].
  pose proof (length_elements w a Hw _ Ha) as Hla.
  pose proof (length_elements w b Hw _ Hb) as Hlb.
  unfold operator_lt.
  eapply bind_Ret; [by apply begin_run|].
  eapply bind_Ret; [by apply end_run|].
  eapply bind_Ret; [by apply begin_run|].
  eapply bind_Ret; [by apply end_run|].
  unfold lexicographical_compare, position.
  destruct (raw_ptr_ (items_ a)) as [|l1 i1] eqn:Hpa.
  { (* the left vector has no array *)
    assert (size_ a = 0) as Hna.
    { destruct Hw as (? & Hwf & ?). destruct (Hwf _ _ Ha) as (_ & _ & Hc).
      rewrite Hpa in Hc. lia. }
    rewrite (elements_nil w a Hw _ Ha Hna), lex_less_nil_l.
    eapply bind_Ret; [reflexivity|].
    change (N.to_nat 0) with 0%nat. cbn [lexicographical_compare_loop].
    rewrite (bool_decide_eq_false_2 (nullptr ≠ nullptr)) by (by intros []).
    cbn [andb]. rewrite (bool_decide_eq_true_2 (nullptr = nullptr)) by done.
    cbn [andb]. unfold mret, M_ret. f_equal. apply bool_decide_ext.
    destruct (raw_ptr_ (items_ b)) as [|l2 i2] eqn:Hpb.
    - assert (size_ b = 0) as Hnb.
      { destruct Hw as (? & Hwf & ?). destruct (Hwf _ _ Hb) as (_ & _ & Hc).
        rewrite Hpb in Hc. lia. }
      rewrite (elements_nil w b Hw _ Hb Hnb). done.
    - split.
      + intros Hne Hnil. rewrite Hnil in Hlb. simpl in Hlb.
        apply Hne. f_equal. lia.
      + intros Hnil [= Hz]. apply Hnil. apply (elements_nil w b Hw _ Hb). lia. }
  destruct (wf_owned _ _ _ _ _ Hw Ha Hpa) as (-> & b1 & Hb1 & Hlen1).
  eapply bind_Ret.
  { unfold ptr_diff. rewrite Hb1. rewrite decide_True by done.
    destruct (N.leb_spec (0 + size_ a) (N.of_nat (length b1))); [|lia].
    destruct (N.leb_spec 0 (N.of_nat (length b1))); [|lia]. cbn [andb].
    rewrite size_sub_0 by lia. reflexivity. }
  destruct (raw_ptr_ (items_ b)) as [|l2 i2] eqn:Hpb.
  { (* the right vector has no array *)
    assert (size_ b = 0) as Hnb.
    { destruct Hw as (? & Hwf & ?). destruct (Hwf _ _ Hb) as (_ & _ & Hc).
      rewrite Hpb in Hc. lia. }
    rewrite (elements_nil w b Hw _ Hb Hnb), lex_less_nil_r.
    destruct (N.to_nat (0 + size_ a)) as [|n]; cbn [lexicographical_compare_loop];
      rewrite (bool_decide_eq_false_2 (nullptr ≠ nullptr)) by (by intros []);
      by rewrite !andb_false_r. }
  destruct (wf_owned _ _ _ _ _ Hw Hb Hpb) as (-> & b2 & Hb2 & Hlen2).
  rewrite (lexicographical_compare_loop_eq w l1 l2 b1 b2 (0 + size_ a) (0 + size_ b))
    by (done || lia).
  unfold elements, buffer. rewrite Hpa, Hpb, Hb1, Hb2. cbn [default].
  rewrite !N.sub_0_r, !N.add_0_l. change (N.to_nat 0) with 0%nat.
  by rewrite !drop_0.
Qed.

Lemma lex_less_irrefl (xs : list T) : strict_total_lt → lex_less xs xs = false.
Proof.
  intros (Hirr & _). induction xs as [|x xs IH]; simpl; [done|].
  by rewrite Hirr.
Qed.

(** Of [xs < ys], [xs == ys] and [ys < xs] exactly one holds. *)
Lemma lex_less_trichotomy (xs ys : list T) :
  lawful_ne → strict_total_lt →
  match lex_less xs ys, same_elements xs ys, lex_less ys xs with
  | true, false, false | false, true, false | false, false, true => True
  | _, _, _ => False
  end.
Proof.
  intros Hne (Hirr & Htrans & Htot). revert ys.
  induction xs as [|x xs IH]; intros [|y ys]; simpl; try done.
  destruct (elem_lt x y) eqn:Hxy, (elem_lt y x) eqn:Hyx.
  - pose proof (Htrans _ _ _ Hxy Hyx) as Hxx. by rewrite Hirr in Hxx.
  - destruct (elem_ne x y) eqn:Hn; [done|]. apply Hne in Hn. subst y.
    by rewrite Hirr in Hxy.
  - destruct (elem_ne x y) eqn:Hn; [done|]. apply Hne in Hn. subst y.
    by rewrite Hirr in Hyx.
  - pose proof (Htot _ _ Hxy Hyx) as ->.
    rewrite (proj2 (Hne y y) eq_refl). simpl. apply IH.
Qed.

Lemma lex_less_trans (xs ys zs : list T) :
  strict_total_lt →
  lex_less xs ys = true → lex_less ys zs = true → lex_less xs zs = true.
Proof.
  intros (Hirr & Htrans & Htot). revert ys zs.
  induction xs as [|x xs IH]; intros [|y ys] [|z zs]; simpl; try done.
  destruct (elem_lt x y) eqn:Hxy.
  - intros _. destruct (elem_lt y z) eqn:Hyz.
    + intros _. by rewrite (Htrans _ _ _ Hxy Hyz).
    + destruct (elem_lt z y) eqn:Hzy; [done|].
      pose proof (Htot _ _ Hyz Hzy) as ->. by rewrite Hxy.
  - destruct (elem_lt y x) eqn:Hyx; [done|].
    pose proof (Htot _ _ Hxy Hyx) as ->.
    destruct (elem_lt y z); [done|]. destruct (elem_lt z y); [done|]. apply IH.
Qed.

(** A proper prefix is less than the longer sequence. *)
Lemma lex_less_prefix (xs ys : list T) :
  strict_total_lt → ys ≠ [] → lex_less xs (xs ++ ys) = true.
Proof.
  intros (Hirr & _) Hys. induction xs as [|x xs IH]; simpl.
  - by destruct ys.
  - by rewrite Hirr.
Qed.

(** X23. [operator==] tells whether the two vectors have the same size and
    no position where the elements differ by [!=]; the capacities play no
    part, and [operator!=] gives the opposite answer.  For an element type
    whose [!=] is the negation of equality, [==] holds exactly when the two
    vectors show the same sequence of elements. *)
Theorem operator_eq_compares_elements w lhs rhs n1 c1 els1 n2 c2 els2 :
  wf_world w →
  view w lhs = Some (n1, c1, els1) → view w rhs = Some (n2, c2, els2) →
  operator_eq lhs rhs w = Ret (same_elements els1 els2) w
  ∧ operator_ne lhs rhs w = Ret (negb (same_elements els1 els2)) w
  ∧ (n1 ≠ n2 → same_elements els1 els2 = false)
  ∧ (lawful_ne → (same_elements els1 els2 = true ↔ els1 = els2)).
Proof.
  intros Hw Hv1 Hv2.
  destruct (view_inv _ _ _ _ _ Hv1) as (a & Ha & <- & <- & <-).
  destruct (view_inv _ _ _ _ _ Hv2) as (b & Hb & <- & <- & <-).
  pose proof (operator_eq_eq w lhs rhs a b Hw Ha Hb) as Heq.
  split_and!.
  - done.
  - unfold operator_ne. by erewrite bind_Ret.
  - intros Hne. destruct (same_elements _ _) eqn:Hsame; [|done].
    apply same_elements_length in Hsame.
    rewrite (length_elements w a Hw _ Ha), (length_elements w b Hw _ Hb) in Hsame.
    lia.
  - apply same_elements_eq.
Qed.

(** X24. [operator<] is the lexicographic order of the two element
    sequences: the first position where one element is less than the other
    decides, and a vector that is a proper prefix of the other is the
    smaller one (so an empty vector is less than every non-empty one, and no
    vector is less than an empty one).  [operator>] is [operator<] with the
    operands exchanged. *)
Theorem operator_lt_is_lexicographic w lhs rhs n1 c1 els1 n2 c2 els2 :
  wf_world w →
  view w lhs = Some (n1, c1, els1) → view w rhs = Some (n2, c2, els2) →
  operator_lt lhs rhs w = Ret (lex_less els1 els2) w
  ∧ operator_gt lhs rhs w = Ret (lex_less els2 els1) w
  ∧ (n1 = 0 → lex_less els1 els2 = negb (n2 =? 0))
  ∧ (n2 = 0 → lex_less els1 els2 = false)
  ∧ (strict_total_lt → ∀ tail, tail ≠ [] → els2 = els1 ++ tail →
       lex_less els1 els2 = true ∧ lex_less els2 els1 = false).
Proof.
  intros Hw Hv1 Hv2.
  destruct (view_inv _ _ _ _ _ Hv1) as (a & Ha & <- & <- & <-).
  destruct (view_inv _ _ _ _ _ Hv2) as (b & Hb & <- & <- & <-).
  pose proof (length_elements w a Hw _ Ha) as Hla.
  pose proof (length_elements w b Hw _ Hb) as Hlb.
  split_and!.
  - by apply operator_lt_eq.
  - unfold operator_gt. by apply operator_lt_eq.
  - intros Hn. rewrite (elements_nil w a Hw _ Ha Hn), lex_less_nil_l.
    destruct (N.eqb_spec (size_ b) 0) as [Hz|Hnz]; simpl.
    + by rewrite (elements_nil w b Hw _ Hb Hz).
    + apply bool_decide_eq_true_2. intros Hnil. rewrite Hnil in Hlb.
      simpl in Hlb. lia.
  - intros Hn. by rewrite (elements_nil w b Hw _ Hb Hn), lex_less_nil_r.
  - intros Hlt tail Htail ->. split; [by apply lex_less_prefix|].
    destruct (lex_less (elements w a ++ tail) (elements w a)) eqn:Hgt; [|done].
    exfalso. pose proof (lex_less_trans _ _ _ Hlt (lex_less_prefix _ _ Hlt Htail) Hgt)
      as Hxx. by rewrite (lex_less_irrefl _ Hlt) in Hxx.
Qed.

(** X25. For an element type whose [<] is a strict total order and whose
    [!=] is the negation of equality, exactly one of [a < b], [a == b] and
    [a > b] holds of two vectors; [a <= b] holds when [a < b] or [a == b],
    [a >= b] when [a > b] or [a == b], and [a != b] when [a < b] or
    [a > b]. *)
Theorem comparisons_are_consistent w lhs rhs n1 c1 els1 n2 c2 els2 :
  wf_world w →
  view w lhs = Some (n1, c1, els1) → view w rhs = Some (n2, c2, els2) →
  lawful_ne → strict_total_lt →
  ∃ lt eq gt,
    operator_lt lhs rhs w = Ret lt w
    ∧ operator_eq lhs rhs w = Ret eq w
    ∧ operator_gt lhs rhs w = Ret gt w
    ∧ operator_le lhs rhs w = Ret (lt || eq) w
    ∧ operator_ge lhs rhs w = Ret (gt || eq) w
    ∧ operator_ne lhs rhs w = Ret (lt || gt) w
    ∧ (eq = true ↔ els1 = els2)
    ∧ match lt, eq, gt with
      | true, false, false | false, true, false | false, false, true => True
      | _, _, _ => False
      end.
Proof.
  intros Hw Hv1 Hv2 Hne Hlt.
  destruct (view_inv _ _ _ _ _ Hv1) as (a & Ha & <- & <- & <-).
  destruct (view_inv _ _ _ _ _ Hv2) as (b & Hb & <- & <- & <-).
  pose proof (operator_lt_eq w lhs rhs a b Hw Ha Hb) as Hrun_lt.
  pose proof (operator_lt_eq w rhs lhs b a Hw Hb Ha) as Hrun_gt.
  pose proof (operator_eq_eq w lhs rhs a b Hw Ha Hb) as Hrun_eq.
  pose proof (lex_less_trichotomy (elements w a) (elements w b) Hne Hlt) as Htri.
  exists (lex_less (elements w a) (elements w b)),
         (same_elements (elements w a) (elements w b)),
         (lex_less (elements w b) (elements w a)).
  split_and!; try done.
  - unfold operator_le. erewrite bind_Ret; [done|exact Hrun_gt|].
    unfold mret, M_ret. f_equal.
    by destruct (lex_less (elements w a) _), (same_elements _ _), (lex_less _ _).
  - unfold operator_ge. erewrite bind_Ret; [done|exact Hrun_lt|].
    unfold mret, M_ret. f_equal.
    by destruct (lex_less (elements w a) _), (same_elements _ _), (lex_less _ _).
  - unfold operator_ne. erewrite bind_Ret; [done|exact Hrun_eq|].
    unfold mret, M_ret. f_equal.
    by destruct (lex_less (elements w a) _), (same_elements _ _), (lex_less _ _).
  - by apply same_elements_eq.
Qed.

(** X26. For an element type whose [<] is a strict total order, [operator<]
    is a strict order on vectors: no vector is less than itself, [a < b]
    excludes [b < a], and [a < b] with [b < c] gives [a < c]. *)
Theorem operator_lt_is_a_strict_order w a b c na ca ea nb cb eb nc cc ec :
  wf_world w →
  view w a = Some (na, ca, ea) → view w b = Some (nb, cb, eb) →
  view w c = Some (nc, cc, ec) →
  strict_total_lt →
  operator_lt a a w = Ret false w
  ∧ (operator_lt a b w = Ret true w → operator_lt b a w = Ret false w)
  ∧ (operator_lt a b w = Ret true w → operator_lt b c w = Ret true w →
     operator_lt a c w = Ret true w).
Proof.
  intros Hw Hva Hvb Hvc Hlt.
  destruct (view_inv _ _ _ _ _ Hva) as (sa & Ha & _).
  destruct (view_inv _ _ _ _ _ Hvb) as (sb & Hb & _).
  destruct (view_inv _ _ _ _ _ Hvc) as (sc & Hc & _).
  rewrite (operator_lt_eq w a a sa sa Hw Ha Ha), (operator_lt_eq w a b sa sb Hw Ha Hb),
    (operator_lt_eq w b a sb sa Hw Hb Ha), (operator_lt_eq w b c sb sc Hw Hb Hc),
    (operator_lt_eq w a c sa sc Hw Ha Hc).
  split_and!.
  - by rewrite (lex_less_irrefl _ Hlt).
  - intros [= Hab]. f_equal.
    destruct (lex_less (elements w sb) (elements w sa)) eqn:Hba; [|done].
    pose proof (lex_less_trans _ _ _ Hlt Hab Hba) as Haa.
    by rewrite (lex_less_irrefl _ Hlt) in Haa.
  - intros [= Hab] [= Hbc]. f_equal. by eapply lex_less_trans.
Qed.

End Compare.

(** * Concrete runs *)

#[local] Existing Instance int_element.
#[local] Existing Instance plentiful.

Lemma reachable_w123 : reachable w123.
Proof.
  apply (reach_return (NewList [1; 2; 3]%Z) empty_world); [apply reach_start|].
  vm_compute. reflexivity.
Qed.

Lemma reachable_w123_copy : reachable w123_copy.
Proof.
  apply (reach_return (NewCopy 1) w123); [apply reachable_w123|].
  vm_compute. reflexivity.
Qed.

Lemma wf_w123 : wf_world w123.
Proof. apply reachable_wf, reachable_w123. Qed.

Lemma wf_w123_copy : wf_world w123_copy.
Proof. apply reachable_wf, reachable_w123_copy. Qed.

Lemma reachable_w_empty : reachable w_empty.
Proof.
  apply (reach_return NewDefault empty_world); [apply reach_start|].
  vm_compute. reflexivity.
Qed.

Lemma reachable_w123_reserved : reachable w123_reserved.
Proof.
  apply (reach_return (Mutate 1 (DoReserve 5)) w123); [apply reachable_w123|].
  vm_compute. reflexivity.
Qed.

Lemma reachable_w12_123 : reachable w12_123.
Proof.
  apply (reach_return (NewList [1; 2; 3]%Z)
           (World {[1%positive := [1; 2]%Z]} ∅
                  {[1%positive := {| size_ := 2; capacity_ := 2;
                                     items_ := {| raw_ptr_ := Ptr 1 0 |} |}]})).
  - apply (reach_return (NewList [1; 2]%Z) empty_world); [apply reach_start|].
    vm_compute. reflexivity.
  - vm_compute. reflexivity.
Qed.

Lemma reachable_w12_123_2 : reachable w12_123_2.
Proof.
  apply (reach_return (NewList [2]%Z) w12_123); [apply reachable_w12_123|].
  vm_compute. reflexivity.
Qed.

Lemma wf_w_empty : wf_world w_empty.
Proof. apply reachable_wf, reachable_w_empty. Qed.

Lemma wf_w123_reserved : wf_world w123_reserved.
Proof. apply reachable_wf, reachable_w123_reserved. Qed.

Lemma wf_w12_123 : wf_world w12_123.
Proof. apply reachable_wf, reachable_w12_123. Qed.

Lemma wf_w12_123_2 : wf_world w12_123_2.
Proof. apply reachable_wf, reachable_w12_123_2. Qed.

Lemma reachable_w12_123_reserved : reachable w12_123_reserved.
Proof.
  apply (reach_return (Mutate 2 (DoReserve 5)) w12_123); [apply reachable_w12_123|].
  vm_compute. reflexivity.
Qed.

Lemma wf_w12_123_reserved : wf_world w12_123_reserved.
Proof. apply reachable_wf, reachable_w12_123_reserved. Qed.

(** The interface on small inputs. *)

Example erase_shifts_left :
  run_view (v ← SimpleVector.ctor_list [1; 2; 3]%Z;
            first ← SimpleVector.begin v;
            pos ← ptr_add first 1;
            it ← SimpleVector.Erase v pos;
            mret (v, it))
  = Some (Ptr 1 1, Some (2, 3, [1; 3]%Z)).
Proof. vm_compute. reflexivity. Qed.

Example insert_front_of_full :
  run_view (v ← SimpleVector.ctor_list [1; 2; 3]%Z;
            first ← SimpleVector.begin v;
            it ← SimpleVector.Insert v first (Value 0%Z);
            mret (v, it))
  = Some (Ptr 2 0, Some (4, 6, [0; 1; 2; 3]%Z)).
Proof. vm_compute. reflexivity. Qed.

Example insert_in_place :
  run_view (v ← SimpleVector.ctor_list [1; 2; 3]%Z;
            SimpleVector.Reserve v 5;;
            first ← SimpleVector.begin v;
            pos ← ptr_add first 1;
            it ← SimpleVector.Insert v pos (Value 7%Z);
            mret (v, it))
  = Some (Ptr 2 1, Some (4, 5, [1; 7; 2; 3]%Z)).
Proof. vm_compute. reflexivity. Qed.

Example clear_twice :
  run_view (v ← SimpleVector.ctor_list [1; 2; 3]%Z;
            SimpleVector.Clear v;;
            SimpleVector.Clear v;;
            mret (v, ()))
  = Some ((), Some (0, 3, [])).
Proof. vm_compute. reflexivity. Qed.

Example reserve_hint_then_push :
  run_view (v ← SimpleVector.ctor_reserve (Reserve 4);
            SimpleVector.PushBack v (Value 1%Z);;
            SimpleVector.PushBack v (Value 2%Z);;
            mret (v, ()))
  = Some ((), Some (2, 4, [1; 2]%Z)).
Proof. vm_compute. reflexivity. Qed.

Example resize_shrink_grow :
  run_view (v ← SimpleVector.ctor_list [1; 2; 3]%Z;
            SimpleVector.Resize v 1;;
            SimpleVector.Resize v 3;;
            SimpleVector.Resize v 5;;
            mret (v, ()))
  = Some ((), Some (5, 5, [1; 0; 0; 0; 0]%Z)).
Proof. vm_compute. reflexivity. Qed.

Example move_empties_source :
  run_view (a ← SimpleVector.ctor_list [1; 2; 3]%Z;
            b ← SimpleVector.ctor_move a;
            n ← SimpleVector.GetSize b;
            c ← SimpleVector.GetCapacity b;
            mret (a, (n, c)))
  = Some ((3, 3), Some (0, 0, [])).
Proof. vm_compute. reflexivity. Qed.

Example swap_exchanges :
  run_view (a ← SimpleVector.ctor_list [1; 2; 3]%Z;
            b ← SimpleVector.ctor_fill 2 9%Z;
            SimpleVector.Reserve b 8;;
            SimpleVector.swap a b;;
            n ← SimpleVector.GetSize b;
            mret (a, n))
  = Some (3, Some (2, 8, [9; 9]%Z)).
Proof. vm_compute. reflexivity. Qed.

Example pop_on_empty :
  run_view (v ← SimpleVector.ctor_default;
            SimpleVector.PopBack v;;
            mret (v, ()))
  = Some ((), Some (0, 0, [])).
Proof. vm_compute. reflexivity. Qed.

Example push_back_own_element_with_room :
  run_view (v ← SimpleVector.ctor_list [1; 2; 3]%Z;
            SimpleVector.Reserve v 5;;
            p ← SimpleVector.at_index v 1;
            SimpleVector.PushBack v (Copy p);;
            mret (v, ()))
  = Some ((), Some (4, 5, [1; 2; 3; 2]%Z)).
Proof. vm_compute. reflexivity. Qed.

Example insert_own_element_into_full :
  run_view (v ← SimpleVector.ctor_list [1; 2; 3]%Z;
            first ← SimpleVector.begin v;
            p ← SimpleVector.at_index v 2;
            it ← SimpleVector.Insert v first (Copy p);
            mret (v, it))
  = Some (Ptr 2 0, Some (4, 6, [3; 1; 2; 3]%Z)).
Proof. vm_compute. reflexivity. Qed.

Example push_back_element_of_another_vector :
  run_view (a ← SimpleVector.ctor_list [1; 2; 3]%Z;
            v ← SimpleVector.ctor_list [7; 8]%Z;
            p ← SimpleVector.at_index a 1;
            SimpleVector.PushBack v (Move p);;
            mret (v, ()))
  = Some ((), Some (3, 4, [7; 8; 2]%Z)).
Proof. vm_compute. reflexivity. Qed.

Example erase_on_empty :
  (v ← SimpleVector.ctor_default;
   first ← SimpleVector.begin v;
   SimpleVector.Erase v first) empty_world = Undef.
Proof.
  eapply bind_Ret; [reflexivity|]. eapply bind_Ret; [reflexivity|].
  eapply Erase_empty_undefined; [|reflexivity|reflexivity].
  apply (reachable_wf _ (reach_return NewDefault empty_world _ reach_start eq_refl)).
Qed.



Lemma size_le_capacity_witness :
  reachable w123_copy
  ∧ (∀ v s, vecs w123_copy !! v = Some s → size_ s ≤ capacity_ s)
  ∧ after (λ w', ∀ v s, vecs w' !! v = Some s → size_ s ≤ capacity_ s)
          (exec (Mutate 2 (DoErase (Ptr 2 1))) w123_copy).
Proof.
  destruct (size_le_capacity w123_copy reachable_w123_copy) as (_ & Hnow & Hnext).
  split_and!; [apply reachable_w123_copy|exact Hnow|apply Hnext].
Defined.



Lemma Resize_cases_witness :
  wf_world w123 ∧ view w123 1 = Some (3, 3, [1; 2; 3]%Z)
  ∧ (∃ w', SimpleVector.Resize 1 5 w123 = Ret () w'
           ∧ view w' 1 = Some (5, 5, [1; 2; 3; 0; 0]%Z))
  ∧ (∃ w1 w2 w3,
       SimpleVector.Resize 1 3 w123 = Ret () w1
       ∧ SimpleVector.Resize 1 1 w1 = Ret () w2
       ∧ SimpleVector.Resize 1 3 w2 = Ret () w3
       ∧ view w3 1 = Some (3, 3, [1; 0; 0]%Z)).
Proof.
  destruct (Resize_cases w123 1 3 3 [1; 2; 3]%Z 5 1 3 wf_w123 eq_refl)
    as (_ & _ & Hgrow & Hagain).
  split_and!; [apply wf_w123|reflexivity| |].
  - destruct Hgrow as (w' & Hrun & Hv & _); [lia|reflexivity|].
    exists w'. split; assumption.
  - destruct Hagain as (w1 & w2 & w3 & c1 & els1 & H1 & H2 & H3 & Hv1 & Hv3);
      [lia|left; lia|].
    assert (Hw1 : w1 = w123).
    { pose proof H1 as H1'. vm_compute in H1'. by injection H1' as <-. }
    rewrite Hw1 in Hv1. injection Hv1 as <- <-.
    exists w1, w2, w3. split_and!; assumption.
Defined.

Lemma At_checks_index_witness :
  wf_world w123 ∧ view w123 1 = Some (3, 3, [1; 2; 3]%Z) ∧ 3 ≤ 3
  ∧ SimpleVector.At 1 3 w123 = Throw out_of_range w123.
Proof.
  assert (3 ≤ 3) as Hi by lia.
  destruct (At_checks_index w123 1 3 3 [1; 2; 3]%Z 3 wf_w123 eq_refl)
    as ([Hthrows _] & _).
  split_and!; [apply wf_w123|reflexivity|exact Hi|exact (Hthrows Hi)].
Defined.

Lemma allocation_failure_is_atomic_witness :
  wf_world w123 ∧ view w123 1 = Some (3, 3, [1; 2; 3]%Z)
  ∧ @SimpleVector.Reserve Z int_element exhausted 1 10 w123 = Throw bad_alloc w123
  ∧ @SimpleVector.PushBack Z int_element exhausted 1 (Copy (Ptr 1 1)) w123
    = Throw bad_alloc w123.
Proof.
  destruct (@allocation_failure_is_atomic Z int_element exhausted
              w123 1 3 3 [1; 2; 3]%Z 10 0 (Copy (Ptr 1 1)) wf_w123 eq_refl)
    as [Hreserve Hpush].
  split_and!; [apply wf_w123|reflexivity| |].
  - destruct Hreserve as [Hrun _]; [lia|reflexivity|exact Hrun].
  - destruct Hpush as (_ & Hrun & _); [reflexivity|reflexivity|exact Hrun].
Defined.

Lemma copy_is_deep_witness :
  wf_world w12_123_reserved
  ∧ view w12_123_reserved 2 = Some (3, 5, [1; 2; 3]%Z)
  ∧ (∃ copy w', SimpleVector.ctor_copy 2 w12_123_reserved = Ret copy w'
                ∧ view w' copy = Some (3, 3, [1; 2; 3]%Z)
                ∧ view w' 2 = Some (3, 5, [1; 2; 3]%Z)
                ∧ after (λ w'', view w'' 2 = Some (3, 5, [1; 2; 3]%Z))
                        (mutate_all copy [DoPushBack 9%Z; DoClear] w'))
  ∧ (∃ w', SimpleVector.assign_copy 1 2 w12_123_reserved = Ret () w'
           ∧ view w' 1 = Some (3, 3, [1; 2; 3]%Z)
           ∧ view w' 2 = Some (3, 5, [1; 2; 3]%Z)).
Proof.
  assert (is_Some (view w12_123_reserved 1)) as Hdst by (eexists; reflexivity).
  assert ((1 : positive) ≠ 2%positive) as Hne by discriminate.
  destruct (copy_is_deep w12_123_reserved 2 3 5 [1; 2; 3]%Z [DoPushBack 9%Z; DoClear]
              wf_w12_123_reserved eq_refl) as [Hctor Hassign];
    [reflexivity|].
  split_and!; [apply wf_w12_123_reserved|reflexivity| |].
  - destruct Hctor as (copy & w' & Hrun & _ & Hv & Hsrc & _ & Hafter).
    exists copy, w'. split_and!; assumption.
  - destruct (Hassign 1%positive Hne Hdst) as (w' & Hrun & Hv & Hsrc & _).
    exists w'. split_and!; assumption.
Defined.

Lemma PopBack_is_total_witness :
  wf_world w123 ∧ view w123 1 = Some (3, 3, [1; 2; 3]%Z)
  ∧ ∃ w', SimpleVector.PopBack 1 w123 = Ret () w'
          ∧ view w' 1 = Some (2, 3, [1; 2]%Z).
Proof.
  destruct (PopBack_is_total w123 1 3 3 [1; 2; 3]%Z wf_w123 eq_refl)
    as (w' & Hrun & Hv & _).
  split_and!; [apply wf_w123|reflexivity|].
  exists w'. split; assumption.
Defined.

(** Against C9 as stated: move assignment deletes the array the destination
    owned. *)
Lemma move_assignment_deallocates :
  ∃ w', ArrayPtr.assign_move (Local 1) (Local 2) two_owners = Ret () w'
        ∧ blocks two_owners !! 1%positive = Some [7%Z]
        ∧ blocks w' !! 1%positive = None
        ∧ blocks w' ≠ blocks two_owners.
Proof.
  eexists. split_and!.
  - vm_compute. reflexivity.
  - reflexivity.
  - reflexivity.
  - intros Heq. apply (f_equal (λ m, m !! 1%positive)) in Heq. discriminate Heq.
Qed.

Lemma ArrayPtr_move_transfers_witness :
  owner_at (locals two_owners) (vecs two_owners) (Local 1)
  = Some {| raw_ptr_ := Ptr 1 0 |}
  ∧ owner_at (locals two_owners) (vecs two_owners) (Local 2)
    = Some {| raw_ptr_ := Ptr 2 0 |}
  ∧ Local 1 ≠ Local 2
  ∧ deletable (blocks two_owners) (Ptr 1 0)
  ∧ (∃ w', ArrayPtr.ctor_move (Local 2) two_owners
           = Ret {| raw_ptr_ := Ptr 2 0 |} w'
           ∧ ArrayPtr.to_bool (Local 2) w' = Ret false w'
           ∧ blocks w' = blocks two_owners)
  ∧ (∃ w', ArrayPtr.assign_move (Local 1) (Local 2) two_owners = Ret () w'
           ∧ ArrayPtr.Get (Local 1) w' = Ret (Ptr 2 0) w'
           ∧ ArrayPtr.to_bool (Local 2) w' = Ret false w'
           ∧ blocks w' = delete 1%positive (blocks two_owners))
  ∧ ArrayPtr.assign_move (Local 1) (Local 1) two_owners = Ret () two_owners.
Proof.
  assert (Local 1 ≠ Local 2) as Hne by discriminate.
  assert (deletable (blocks two_owners) (Ptr 1 0)) as Hdel.
  { split; [reflexivity|]. eexists. reflexivity. }
  destruct (ArrayPtr_move_transfers two_owners) as (Hctor & Hassign & Hself).
  split_and!; [reflexivity|reflexivity|exact Hne|exact Hdel| | |apply Hself].
  - apply (Hctor (Local 2) {| raw_ptr_ := Ptr 2 0 |} eq_refl).
  - apply (Hassign (Local 1) (Local 2) {| raw_ptr_ := Ptr 1 0 |}
             {| raw_ptr_ := Ptr 2 0 |} eq_refl eq_refl Hne Hdel).
Defined.

Lemma self_assignment_is_identity_witness :
  SimpleVector.assign_copy 1 1 w123 = Ret () w123
  ∧ SimpleVector.assign_move 1 1 w123 = Ret () w123.
Proof.
  destruct (self_assignment_is_identity w123 1) as (Hcopy & Hmove & _).
  split; assumption.
Defined.

(** ** More concrete runs *)

#[local] Existing Instance int_comparable.

Lemma int_lawful_ne : lawful_ne (T := Z).
Proof.
  intros x y. simpl. rewrite negb_false_iff. apply Z.eqb_eq.
Qed.

Lemma int_strict_total_lt : strict_total_lt (T := Z).
Proof.
  split_and!; simpl.
  - intros x. apply Z.ltb_irrefl.
  - intros x y z Hxy Hyz. apply Z.ltb_lt. apply Z.ltb_lt in Hxy, Hyz. lia.
  - intros x y Hxy Hyx. apply Z.ltb_ge in Hxy, Hyx. lia.
Qed.

Lemma Reserve_sets_capacity_witness :
  wf_world w123 ∧ view w123 1 = Some (3, 3, [1; 2; 3]%Z)
  ∧ SimpleVector.Reserve 1 2 w123 = Ret () w123
  ∧ ∃ w', SimpleVector.Reserve 1 5 w123 = Ret () w'
          ∧ view w' 1 = Some (3, 5, [1; 2; 3]%Z).
Proof.
  destruct (Reserve_sets_capacity w123 1 3 3 [1; 2; 3]%Z 2 wf_w123 eq_refl)
    as [Hkeep _].
  destruct (Reserve_sets_capacity w123 1 3 3 [1; 2; 3]%Z 5 wf_w123 eq_refl)
    as [_ Hgrow].
  destruct Hgrow as (w' & Hrun & Hv & _); [lia|reflexivity|].
  split_and!; [apply wf_w123|reflexivity|apply Hkeep; lia|].
  exists w'. split; assumption.
Defined.

Lemma appends_with_room_stay_in_place_witness :
  wf_world w123_reserved ∧ view w123_reserved 1 = Some (3, 5, [1; 2; 3]%Z)
  ∧ ∃ w', push_all 1 [4; 5]%Z w123_reserved = Ret () w'
          ∧ view w' 1 = Some (5, 5, [1; 2; 3; 4; 5]%Z)
          ∧ SimpleVector.begin 1 w' = Ret (Ptr 2 0) w'.
Proof.
  destruct (appends_with_room_stay_in_place w123_reserved 1 3 5 [1; 2; 3]%Z [4; 5]%Z
              wf_w123_reserved eq_refl)
    as (w' & Hrun & Hv & Hbegin & _); [simpl; lia|].
  split_and!; [apply wf_w123_reserved|reflexivity|].
  exists w'. split_and!; [exact Hrun|exact Hv|].
  apply Hbegin. reflexivity.
Defined.

Lemma Erase_removes_witness :
  wf_world w123 ∧ view w123 1 = Some (3, 3, [1; 2; 3]%Z)
  ∧ (∃ w', SimpleVector.Erase 1 (Ptr 1 1) w123 = Ret (Ptr 1 1) w'
           ∧ view w' 1 = Some (2, 3, [1; 3]%Z)
           ∧ read (Ptr 1 1) w' = Ret 3%Z w')
  ∧ (∃ w', SimpleVector.Erase 1 (Ptr 1 3) w123 = Ret (Ptr 1 3) w'
           ∧ view w' 1 = Some (2, 3, [1; 2]%Z)).
Proof.
  destruct (Erase_removes w123 1 3 3 [1; 2; 3]%Z 1 wf_w123 eq_refl) as [Hmid Hend].
  destruct Hmid as (first & pos & w' & Hfirst & Hpos & Hrun & Hv & _ & Hrd & _);
    [lia|].
  destruct Hend as (last & w'' & Hlast & Hrun' & Hv' & _); [lia|].
  assert (first = Ptr 1 0) as -> by (by injection Hfirst).
  assert (pos = Ptr 1 1) as -> by (by injection Hpos).
  assert (last = Ptr 1 3) as -> by (by injection Hlast).
  split_and!; [apply wf_w123|reflexivity| |].
  - exists w'. split_and!; [exact Hrun|exact Hv|]. apply Hrd. reflexivity.
  - exists w''. split; assumption.
Defined.

Lemma Erase_on_empty_is_undefined_witness :
  wf_world w_empty ∧ view w_empty 1 = Some (0, 0, [])
  ∧ SimpleVector.Erase 1 nullptr w_empty = Undef (W := world Z).
Proof.
  split_and!; [apply wf_w_empty|reflexivity|].
  apply (Erase_on_empty_is_undefined w_empty 1 0 nullptr wf_w_empty eq_refl).
Defined.

Lemma Clear_keeps_storage_witness :
  wf_world w123 ∧ view w123 1 = Some (3, 3, [1; 2; 3]%Z)
  ∧ ∃ w', SimpleVector.Clear 1 w123 = Ret () w'
          ∧ view w' 1 = Some (0, 3, [])
          ∧ blocks w' = blocks w123
          ∧ SimpleVector.At 1 0 w' = Throw out_of_range w'.
Proof.
  destruct (Clear_keeps_storage w123 1 3 3 [1; 2; 3]%Z wf_w123 eq_refl)
    as (w' & Hrun & Hv & Hb & _ & _ & Hat & _).
  split_and!; [apply wf_w123|reflexivity|].
  exists w'. split_and!; [exact Hrun|exact Hv|exact Hb|apply Hat].
Defined.

Lemma swap_exchanges_contents_witness :
  wf_world w12_123
  ∧ view w12_123 1 = Some (2, 2, [1; 2]%Z)
  ∧ view w12_123 2 = Some (3, 3, [1; 2; 3]%Z)
  ∧ ∃ w', SimpleVector.swap 1 2 w12_123 = Ret () w'
          ∧ view w' 1 = Some (3, 3, [1; 2; 3]%Z)
          ∧ view w' 2 = Some (2, 2, [1; 2]%Z)
          ∧ blocks w' = blocks w12_123
          ∧ SimpleVector.swap 1 2 w' = Ret () w12_123.
Proof.
  destruct (swap_exchanges_contents w12_123 1 2 2 2 [1; 2]%Z 3 3 [1; 2; 3]%Z
              wf_w12_123 eq_refl eq_refl)
    as (w' & Hrun & Hv1 & Hv2 & Hb & _ & _ & _ & Hback & _).
  split_and!; [apply wf_w12_123|reflexivity|reflexivity|].
  exists w'. split_and!; assumption.
Defined.

Lemma move_constructor_takes_over_witness :
  wf_world w123 ∧ view w123 1 = Some (3, 3, [1; 2; 3]%Z)
  ∧ ∃ v w' w'',
      SimpleVector.ctor_move 1 w123 = Ret v w'
      ∧ view w' v = Some (3, 3, [1; 2; 3]%Z)
      ∧ view w' 1 = Some (0, 0, [])
      ∧ blocks w' = blocks w123
      ∧ SimpleVector.PushBack 1 (Value 7%Z) w' = Ret () w''
      ∧ view w'' 1 = Some (1, 1, [7%Z]).
Proof.
  destruct (move_constructor_takes_over w123 1 3 3 [1; 2; 3]%Z 7%Z wf_w123 eq_refl)
    as (v & w' & Hrun & _ & Hv & Hsrc & Hb & _ & _ & _ & _ & Hpush).
  destruct Hpush as (w'' & Hrun' & Hv'' & _); [reflexivity|].
  split_and!; [apply wf_w123|reflexivity|].
  exists v, w', w''. split_and!; assumption.
Defined.

Lemma move_assignment_takes_over_witness :
  wf_world w12_123 ∧ (2 ≠ 1)%positive
  ∧ is_Some (view w12_123 2)
  ∧ view w12_123 1 = Some (2, 2, [1; 2]%Z)
  ∧ ∃ w', SimpleVector.assign_move 2 1 w12_123 = Ret () w'
          ∧ view w' 2 = Some (2, 2, [1; 2]%Z)
          ∧ view w' 1 = Some (0, 0, [])
          ∧ blocks w' = delete 2%positive (blocks w12_123).
Proof.
  assert (Hne : (2 ≠ 1)%positive) by discriminate.
  assert (Hdst : is_Some (view w12_123 2)) by (eexists; reflexivity).
  destruct (move_assignment_takes_over w12_123 2 1 2 2 [1; 2]%Z
              wf_w12_123 Hne Hdst eq_refl)
    as (w' & Hrun & Hv & Hsrc & _ & Hb & _).
  split_and!; [apply wf_w12_123|exact Hne|exact Hdst|reflexivity|].
  exists w'. split_and!; [exact Hrun|exact Hv|exact Hsrc|].
  apply (Hb (Ptr 2 0)). reflexivity.
Defined.

Lemma destructor_releases_the_array_witness :
  wf_world w12_123 ∧ view w12_123 1 = Some (2, 2, [1; 2]%Z)
  ∧ ∃ w', SimpleVector.dtor 1 w12_123 = Ret () w'
          ∧ view w' 1 = None
          ∧ blocks w' = delete 1%positive (blocks w12_123)
          ∧ view w' 2 = Some (3, 3, [1; 2; 3]%Z).
Proof.
  destruct (destructor_releases_the_array w12_123 1 2 2 [1; 2]%Z wf_w12_123 eq_refl)
    as (w' & Hrun & Hnone & Hb & Hframe & _).
  split_and!; [apply wf_w12_123|reflexivity|].
  exists w'. split_and!; [exact Hrun|exact Hnone| |].
  - apply (Hb (Ptr 1 0)). reflexivity.
  - rewrite Hframe by discriminate. reflexivity.
Defined.

Lemma sized_constructors_fill_witness :
  wf_world w123
  ∧ (∃ v w', SimpleVector.ctor_size 2 w123 = Ret v w'
             ∧ view w' v = Some (2, 2, [0; 0]%Z))
  ∧ (∃ v w', SimpleVector.ctor_fill 2 7%Z w123 = Ret v w'
             ∧ view w' v = Some (2, 2, [7; 7]%Z)
             ∧ view w' 1 = Some (3, 3, [1; 2; 3]%Z)).
Proof.
  destruct (sized_constructors_fill w123 2 7%Z wf_w123) as (Hsize & Hfill & _);
    [reflexivity|].
  destruct Hsize as (v & w' & Hrun & _ & Hv & _).
  destruct Hfill as (v2 & w2 & Hrun2 & Hnone & Hv2 & Hframe & _).
  split_and!; [apply wf_w123| |].
  - exists v, w'. split; assumption.
  - exists v2, w2. split_and!; [exact Hrun2|exact Hv2|].
    rewrite Hframe; [reflexivity|]. intros <-. discriminate Hnone.
Defined.

Lemma initializer_list_is_copied_witness :
  wf_world w123
  ∧ ∃ v w', SimpleVector.ctor_list [4; 5]%Z w123 = Ret v w'
            ∧ view w' v = Some (2, 2, [4; 5]%Z)
            ∧ view w' 1 = Some (3, 3, [1; 2; 3]%Z).
Proof.
  destruct (initializer_list_is_copied w123 [4; 5]%Z wf_w123)
    as (v & w' & Hrun & Hnone & Hv & _ & Hframe & _); [reflexivity|].
  split; [apply wf_w123|].
  exists v, w'. split_and!; [exact Hrun|exact Hv|].
  rewrite Hframe; [reflexivity|]. intros <-. discriminate Hnone.
Defined.

Lemma reserving_constructor_sets_capacity_witness :
  wf_world w123
  ∧ ∃ v w' w'' first,
      SimpleVector.ctor_reserve (Reserve 4) w123 = Ret v w'
      ∧ view w' v = Some (0, 4, [])
      ∧ SimpleVector.begin v w' = Ret first w'
      ∧ push_all v [8; 9]%Z w' = Ret () w''
      ∧ view w'' v = Some (2, 4, [8; 9]%Z)
      ∧ SimpleVector.begin v w'' = Ret first w''.
Proof.
  destruct (reserving_constructor_sets_capacity w123 4 [8; 9]%Z wf_w123)
    as (_ & Hres).
  destruct Hres as (v & w' & w'' & first & Hrun & _ & Hv & _ & Hb & Hpush & Hv' & Hb');
    [lia|reflexivity|simpl; lia|].
  split; [apply wf_w123|].
  exists v, w', w'', first. split_and!; assumption.
Defined.

Lemma subscript_accesses_element_witness :
  wf_world w123 ∧ view w123 1 = Some (3, 3, [1; 2; 3]%Z)
  ∧ (∃ p w', SimpleVector.at_index 1 1 w123 = Ret p w123
             ∧ read p w123 = Ret 2%Z w123
             ∧ write p 9%Z w123 = Ret () w'
             ∧ view w' 1 = Some (3, 3, [1; 9; 3]%Z))
  ∧ SimpleVector.at_index 1 3 w123 = Undef (W := world Z).
Proof.
  destruct (subscript_accesses_element w123 1 3 3 [1; 2; 3]%Z 1 9%Z wf_w123 eq_refl)
    as [Hin _].
  destruct (subscript_accesses_element w123 1 3 3 [1; 2; 3]%Z 3 9%Z wf_w123 eq_refl)
    as [_ Hout].
  destruct Hin as (p & x & w' & Hrun & _ & Hrd & Hx & Hwr & Hv & _); [lia|].
  assert (x = 2%Z) as -> by (by injection Hx).
  split_and!; [apply wf_w123|reflexivity| |apply Hout; lia].
  exists p, w'. split_and!; assumption.
Defined.

Lemma iterators_delimit_the_elements_witness :
  wf_world w123 ∧ view w123 1 = Some (3, 3, [1; 2; 3]%Z)
  ∧ SimpleVector.begin 1 w123 = Ret (Ptr 1 0) w123
  ∧ SimpleVector.end_ 1 w123 = Ret (Ptr 1 3) w123
  ∧ ptr_diff (Ptr 1 3) (Ptr 1 0) w123 = Ret 3 w123
  ∧ SimpleVector.IsEmpty 1 w123 = Ret false w123.
Proof.
  destruct (iterators_delimit_the_elements w123 1 3 3 [1; 2; 3]%Z wf_w123 eq_refl)
    as (first & last & Hb & He & _ & _ & _ & Hd & _ & Hempty & _).
  assert (first = Ptr 1 0) as -> by (by injection Hb).
  assert (last = Ptr 1 3) as -> by (by injection He).
  split_and!; [apply wf_w123|reflexivity|exact Hb|exact He|exact Hd|exact Hempty].
Defined.

Lemma removal_undoes_insertion_witness :
  wf_world w12_123 ∧ view w12_123 1 = Some (2, 2, [1; 2]%Z)
  ∧ supplies w12_123 1 (Copy (Ptr 2 2)) 3%Z
  ∧ (∃ w1 w2, SimpleVector.PushBack 1 (Copy (Ptr 2 2)) w12_123 = Ret () w1
              ∧ SimpleVector.PopBack 1 w1 = Ret () w2
              ∧ view w2 1 = Some (2, 4, [1; 2]%Z))
  ∧ (∃ it w1 w2,
       SimpleVector.Insert 1 (Ptr 1 1) (Copy (Ptr 2 2)) w12_123 = Ret it w1
       ∧ SimpleVector.Erase 1 it w1 = Ret it w2
       ∧ view w2 1 = Some (2, 4, [1; 2]%Z)).
Proof.
  assert (Ha : supplies w12_123 1 (Copy (Ptr 2 2)) 3%Z) by (split; reflexivity).
  destruct (removal_undoes_insertion w12_123 1 2 2 [1; 2]%Z 1 (Copy (Ptr 2 2)) 3%Z
              wf_w12_123 eq_refl)
    as (Hpush & Hins & _); [lia|exact Ha|reflexivity|].
  destruct Hpush as (w1 & w2 & Hrun1 & Hrun2 & Hv2).
  destruct Hins as (first & pos & it & w3 & w4 & Hfirst & Hpos & Hrun3 & Hrun4 & Hv4).
  assert (first = Ptr 1 0) as -> by (by injection Hfirst).
  assert (pos = Ptr 1 1) as -> by (by injection Hpos).
  split_and!; [apply wf_w12_123|reflexivity|exact Ha| |].
  - exists w1, w2. split_and!; assumption.
  - exists it, w3, w4. split_and!; assumption.
Defined.

Lemma ArrayPtr_owns_its_array_witness :
  (∃ r l b w', local_owner (ArrayPtr.ctor_size 2) (@empty_world Z) = Ret r w'
               ∧ ArrayPtr.Get r w' = Ret (Ptr l 0) w'
               ∧ blocks w' = <[l := b]> ∅ ∧ length b = 2%nat
               ∧ ArrayPtr.index r 2 w' = Undef)
  ∧ (r ← local_owner (ArrayPtr.ctor_size 2); ArrayPtr.destroy_local r) (@empty_world Z)
    = Ret () empty_world.
Proof.
  destruct (ArrayPtr_owns_its_array (@empty_world Z) 2) as (_ & Hnew & _ & Hback).
  destruct Hnew as (r & l & b & w' & Hrun & Hget & _ & _ & Hb & Hlen & _ & Hout);
    [lia|reflexivity|].
  split.
  - exists r, l, b, w'. split_and!; [exact Hrun|exact Hget|exact Hb|lia|].
    apply Hout. lia.
  - apply Hback. right. reflexivity.
Defined.

Lemma Release_hands_over_the_array_witness :
  owner_at (locals two_owners) (vecs two_owners) (Local 1)
  = Some {| raw_ptr_ := Ptr 1 0 |}
  ∧ ∃ w', ArrayPtr.Release (Local 1) two_owners = Ret (Ptr 1 0) w'
          ∧ blocks w' = blocks two_owners
          ∧ ArrayPtr.to_bool (Local 1) w' = Ret false w'
          ∧ ArrayPtr.dtor (Local 1) w' = Ret () w'.
Proof.
  destruct (Release_hands_over_the_array two_owners (Local 1)
              {| raw_ptr_ := Ptr 1 0 |} eq_refl)
    as (w' & Hrun & Hb & _ & Hbool & Hdtor & _).
  split; [reflexivity|].
  exists w'. split_and!; assumption.
Defined.

Lemma ArrayPtr_swap_exchanges_witness :
  owner_at (locals two_owners) (vecs two_owners) (Local 1)
  = Some {| raw_ptr_ := Ptr 1 0 |}
  ∧ owner_at (locals two_owners) (vecs two_owners) (Local 2)
    = Some {| raw_ptr_ := Ptr 2 0 |}
  ∧ ∃ w' w'', ArrayPtr.swap (Local 1) (Local 2) two_owners = Ret () w'
              ∧ ArrayPtr.Get (Local 1) w' = Ret (Ptr 2 0) w'
              ∧ ArrayPtr.Get (Local 2) w' = Ret (Ptr 1 0) w'
              ∧ blocks w' = blocks two_owners
              ∧ ArrayPtr.swap (Local 1) (Local 2) w' = Ret () w''
              ∧ ArrayPtr.Get (Local 1) w'' = Ret (Ptr 1 0) w''.
Proof.
  destruct (ArrayPtr_swap_exchanges two_owners (Local 1) (Local 2)
              {| raw_ptr_ := Ptr 1 0 |} {| raw_ptr_ := Ptr 2 0 |} eq_refl eq_refl)
    as (w' & w'' & Hrun & H1 & H2 & Hb & _ & Hrun' & H1' & _).
  split_and!; [reflexivity|reflexivity|].
  exists w', w''. split_and!; assumption.
Defined.

Lemma no_array_is_leaked_witness :
  reachable w12_123
  ∧ (∃ v s, vecs w12_123 !! v = Some s ∧ raw_ptr_ (items_ s) = Ptr 2 0)
  ∧ (vecs w12_123 = ∅ → blocks w12_123 = ∅).
Proof.
  destruct (no_array_is_leaked w12_123 reachable_w12_123) as (Hown & _ & Hnone).
  destruct (Hown 2%positive) as (v & s & Hs & Hp & _); [eexists; reflexivity|].
  split_and!; [apply reachable_w12_123| |exact Hnone].
  exists v, s. split; assumption.
Defined.

Lemma exceptions_leave_state_unchanged_witness :
  @exec Z int_element exhausted (NewSized 3) empty_world
  = Throw bad_alloc empty_world
  ∧ @exec Z int_element exhausted (Mutate 1 (DoPushBack 4%Z)) w123
    = Throw bad_alloc w123
  ∧ @exec Z int_element exhausted (Ask 1 (AskAt 3)) w123 = Throw out_of_range w123
  ∧ @SimpleVector.assign_copy Z int_element exhausted 2 1 w12_123
    = Throw bad_alloc w12_123
  ∧ @SimpleVector.Insert Z int_element exhausted 1 (Ptr 1 0) (Copy (Ptr 1 2)) w123
    = Throw bad_alloc w123.
Proof.
  destruct (@exceptions_leave_state_unchanged Z int_element exhausted)
    as (Hexec & _ & _ & _ & _ & _ & Hassign & _ & _ & _ & Hinsert).
  assert (H1 : ∃ e w', @exec Z int_element exhausted (NewSized 3) empty_world
                       = Throw e w') by (eexists _, _; reflexivity).
  assert (H2 : ∃ e w', @exec Z int_element exhausted (Mutate 1 (DoPushBack 4%Z)) w123
                       = Throw e w') by (eexists _, _; reflexivity).
  assert (H3 : ∃ e w', @exec Z int_element exhausted (Ask 1 (AskAt 3)) w123
                       = Throw e w') by (eexists _, _; reflexivity).
  assert (H4 : ∃ e w', @SimpleVector.assign_copy Z int_element exhausted 2 1 w12_123
                       = Throw e w') by (eexists _, _; reflexivity).
  assert (H5 : ∃ e w', @SimpleVector.Insert Z int_element exhausted 1 (Ptr 1 0)
                         (Copy (Ptr 1 2)) w123
                       = Throw e w') by (eexists _, _; reflexivity).
  destruct H1 as (e1 & w1 & Hrun1), H2 as (e2 & w2 & Hrun2), H3 as (e3 & w3 & Hrun3),
    H4 as (e4 & w4 & Hrun4), H5 as (e5 & w5 & Hrun5).
  destruct (Hexec _ _ _ _ Hrun1) as (-> & ->).
  destruct (Hexec _ _ _ _ Hrun2) as (-> & ->).
  destruct (Hexec _ _ _ _ Hrun3) as (-> & ->).
  destruct (Hassign _ _ _ _ _ Hrun4) as (-> & ->).
  destruct (Hinsert _ _ _ _ _ _ Hrun5) as (-> & ->).
  split_and!; assumption.
Defined.

Lemma operator_eq_compares_elements_witness :
  wf_world w123_copy
  ∧ view w123_copy 1 = Some (3, 3, [1; 2; 3]%Z)
  ∧ view w123_copy 2 = Some (3, 3, [1; 2; 3]%Z)
  ∧ operator_eq 1 2 w123_copy = Ret true w123_copy
  ∧ operator_ne 1 2 w123_copy = Ret false w123_copy
  ∧ operator_eq 1 2 w12_123 = Ret false w12_123.
Proof.
  destruct (operator_eq_compares_elements w123_copy 1 2 3 3 [1; 2; 3]%Z 3 3 [1; 2; 3]%Z
              wf_w123_copy eq_refl eq_refl) as (Heq & Hne & _).
  destruct (operator_eq_compares_elements w12_123 1 2 2 2 [1; 2]%Z 3 3 [1; 2; 3]%Z
              wf_w12_123 eq_refl eq_refl) as (Heq' & _).
  split_and!; [apply wf_w123_copy|reflexivity|reflexivity|exact Heq|exact Hne|exact Heq'].
Defined.

Lemma operator_lt_is_lexicographic_witness :
  wf_world w12_123
  ∧ view w12_123 1 = Some (2, 2, [1; 2]%Z)
  ∧ view w12_123 2 = Some (3, 3, [1; 2; 3]%Z)
  ∧ operator_lt 1 2 w12_123 = Ret true w12_123
  ∧ operator_gt 1 2 w12_123 = Ret false w12_123.
Proof.
  destruct (operator_lt_is_lexicographic w12_123 1 2 2 2 [1; 2]%Z 3 3 [1; 2; 3]%Z
              wf_w12_123 eq_refl eq_refl) as (Hlt & Hgt & _).
  split_and!; [apply wf_w12_123|reflexivity|reflexivity|exact Hlt|exact Hgt].
Defined.

Lemma comparisons_are_consistent_witness :
  wf_world w12_123
  ∧ lawful_ne (T := Z) ∧ strict_total_lt (T := Z)
  ∧ operator_le 1 2 w12_123 = Ret true w12_123
  ∧ operator_ge 1 2 w12_123 = Ret false w12_123
  ∧ operator_ne 1 2 w12_123 = Ret true w12_123.
Proof.
  destruct (comparisons_are_consistent w12_123 1 2 2 2 [1; 2]%Z 3 3 [1; 2; 3]%Z
              wf_w12_123 eq_refl eq_refl int_lawful_ne int_strict_total_lt)
    as (lt & eq & gt & Hlt & Heq & Hgt & Hle & Hge & Hne & _).
  assert (lt = true) as -> by (by injection Hlt).
  assert (eq = false) as -> by (by injection Heq).
  assert (gt = false) as -> by (by injection Hgt).
  split_and!; [apply wf_w12_123|apply int_lawful_ne|apply int_strict_total_lt
              |exact Hle|exact Hge|exact Hne].
Defined.

Lemma operator_lt_is_a_strict_order_witness :
  wf_world w12_123_2 ∧ strict_total_lt (T := Z)
  ∧ operator_lt 1 2 w12_123_2 = Ret true w12_123_2
  ∧ operator_lt 2 3 w12_123_2 = Ret true w12_123_2
  ∧ operator_lt 1 3 w12_123_2 = Ret true w12_123_2
  ∧ operator_lt 2 1 w12_123_2 = Ret false w12_123_2
  ∧ operator_lt 1 1 w12_123_2 = Ret false w12_123_2.
Proof.
  destruct (operator_lt_is_a_strict_order w12_123_2 1 2 3
              2 2 [1; 2]%Z 3 3 [1; 2; 3]%Z 1 1 [2]%Z
              wf_w12_123_2 eq_refl eq_refl eq_refl int_strict_total_lt)
    as (Hirr & Hasym & Htrans).
  assert (H12 : operator_lt 1 2 w12_123_2 = Ret true w12_123_2) by reflexivity.
  assert (H23 : operator_lt 2 3 w12_123_2 = Ret true w12_123_2) by reflexivity.
  split_and!; [apply wf_w12_123_2|apply int_strict_total_lt|exact H12|exact H23
              |exact (Htrans H12 H23)|exact (Hasym H12)|exact Hirr].
Defined.
